(** * The class-component update queue of the reconciler

    A shallow embedding of [ReactFiberClassUpdateQueue.new.js] and
    [ReactFiberConcurrentUpdates.new.js]: update records, the per-fiber
    update queue with its shared circular pending list, the staging buffer
    for concurrent updates and the propagation of lanes to the root.

    Objects that the JavaScript code aliases and mutates (updates, queues,
    fibers, the effects arrays) live in stores indexed by references, and
    every function of the source is a computation over that store.  Loops
    that follow pointers take a [fuel] argument and report [OutOfFuel] when
    it is exhausted. *)

From Stdlib Require Import ZArith String List Lia Bool.
From stdpp Require Import base option list gmap strings pretty fin_maps.

Set Warnings "-register-all".
Local Open Scope Z_scope.

(** ** Lanes *)

Module ReactFiberLane.

(** Modelled from the spec: [ReactFiberLane.new.js] is not among the
    sources.  The spec consumes it as a set abstraction with [merge],
    [intersect], [isSubset], [remove], [empty] and [isTransitionPriority];
    the queue code treats lanes as bitmasks ("0 is a subset of all
    bitmasks"), so a lane set is an integer and the operations are the
    bitwise ones. *)
Definition Lane := Z.
Definition Lanes := Z.

(** Modelled from the spec: the empty priority set. *)
Definition NoLane : Lane := 0.
Definition NoLanes : Lanes := 0.

(** Modelled from the spec: the extra bit carried by updates made to a
    hidden tree; the topmost of the 31 lane bits. *)
Definition OffscreenLane : Lane := 2 ^ 30.

(** Modelled from the spec: the lanes of the grouped-transition class,
    sixteen consecutive bits starting at bit 6. *)
Definition TransitionLanes : Lanes := (2 ^ 16 - 1) * 2 ^ 6.

(** Modelled from the spec: [merge(a,b)], set union. *)
Definition mergeLanes (a b : Lanes) : Lanes := Z.lor a b.

(** Modelled from the spec: [intersect(a,b)]. *)
Definition intersectLanes (a b : Lanes) : Lanes := Z.land a b.

(** Modelled from the spec: [remove(a,b)], set difference. *)
Definition removeLanes (set subset : Lanes) : Lanes :=
  Z.land set (Z.lnot subset).

(** Modelled from the spec: [isSubset(a,b)], is [subset] included in
    [set]. *)
Definition isSubsetOfLanes (set subset : Lanes) : bool :=
  Z.land set subset =? subset.

(** Modelled from the spec: [isTransitionPriority(p)]. *)
Definition isTransitionLane (lane : Lane) : bool :=
  negb (Z.land lane TransitionLanes =? 0).

End ReactFiberLane.
Export ReactFiberLane.

(** ** Fiber flags and work tags *)

Module ReactFiberFlags.

(** Modelled from the spec: [ReactFiberFlags.js] is not among the sources;
    the flags are single bits of the fiber's [flags] word.  No result
    below depends on which bits they are. *)
Definition NoFlags : Z := 0.
Definition Placement : Z := 2 ^ 1.
Definition Callback : Z := 2 ^ 6.
Definition DidCapture : Z := 2 ^ 7.
Definition Hydrating : Z := 2 ^ 12.
Definition ShouldCapture : Z := 2 ^ 16.

End ReactFiberFlags.
Export ReactFiberFlags.

(** Modelled from the spec: [ReactWorkTags.js] is not among the sources; the
    code only compares a fiber's tag with [HostRoot] and with
    [OffscreenComponent] (the "paused subtree" marker). *)
Inductive WorkTag :=
| HostRoot
| OffscreenComponent
| OtherWorkTag (n : nat).

Definition WorkTag_eqb (a b : WorkTag) : bool :=
  match a, b with
  | HostRoot, HostRoot => true
  | OffscreenComponent, OffscreenComponent => true
  | OtherWorkTag n, OtherWorkTag m => Nat.eqb n m
  | _, _ => false
  end.

(** ** JavaScript values *)

(** States, props and payload results.  Objects are finite maps from
    property names to values; they are compared structurally. *)
Inductive JsValue :=
| JsUndefined
| JsNull
| JsBool (b : bool)
| JsNumber (n : Z)
| JsString (s : string)
| JsObject (props : gmap string JsValue).

(** The own enumerable string-keyed properties that [Object.assign] copies
    from a source: those of an object, the indexed characters of a string,
    none for the other primitives, and [null] and [undefined] are ignored. *)
Fixpoint stringIndexProps (i : nat) (s : string) : gmap string JsValue :=
  match s with
  | EmptyString => ∅
  | String c s' =>
      <[pretty i := JsString (String c EmptyString)]>
        (stringIndexProps (S i) s')
  end.

Definition ownEnumerableProps (v : JsValue) : gmap string JsValue :=
  match v with
  | JsObject props => props
  | JsString s => stringIndexProps 0 s
  | _ => ∅
  end.

(** [assign({}, a, b)] of [shared/assign], which is [Object.assign]: later
    sources overwrite earlier ones. *)
Definition assign (target : gmap string JsValue) (a b : JsValue) : JsValue :=
  JsObject (ownEnumerableProps b ∪ (ownEnumerableProps a ∪ target)).

Definition isNullOrUndefined (v : JsValue) : bool :=
  match v with
  | JsNull | JsUndefined => true
  | _ => false
  end.

(** ** The data model *)

Definition ptr := nat.

(** [tag: 0 | 1 | 2 | 3]. *)
Inductive UpdateTag :=
| UpdateState
| ReplaceState
| ForceUpdate
| CaptureUpdate.

(** [payload: any]: a literal value, or an update function called as
    [payload.call(instance, prevState, nextProps)]. *)
Inductive Payload :=
| PayloadValue (v : JsValue)
| PayloadFunction (f : JsValue -> JsValue -> JsValue -> JsValue).

(** What sits in a [callback] field when it is not [null]: a function,
    known by its identity, or a value that [callCallback] rejects. *)
Inductive JsCallback :=
| Callable (fn : nat)
| NotCallable (v : JsValue).

Record Update := mkUpdate {
  update_eventTime : Z;
  update_lane : Lane;
  update_tag : UpdateTag;
  update_payload : Payload;
  update_callback : option JsCallback;
  update_next : option ptr;
}.

Record SharedQueue := mkSharedQueue {
  shared_pending : option ptr;
  shared_lanes : Lanes;
}.

Record UpdateQueue := mkUpdateQueue {
  queue_baseState : JsValue;
  queue_firstBaseUpdate : option ptr;
  queue_lastBaseUpdate : option ptr;
  queue_shared : ptr;
  queue_effects : option ptr;
}.

Record Fiber := mkFiber {
  fiber_tag : WorkTag;
  fiber_stateNode : option ptr;
  fiber_return : option ptr;
  fiber_alternate : option ptr;
  fiber_flags : Z;
  fiber_lanes : Lanes;
  fiber_childLanes : Lanes;
  fiber_memoizedState : JsValue;
  fiber_updateQueue : option ptr;
}.

Record OffscreenInstance := mkOffscreenInstance {
  offscreen_isHidden : bool;
}.

Record FiberRoot := mkFiberRoot {
  root_pendingLanes : Lanes;
}.

(** A slot of the [concurrentQueues] array, which is an [Array<any>]. *)
Inductive Slot :=
| SlotUndefined
| SlotNull
| SlotRef (p : ptr)
| SlotLane (lane : Lane).

(** Calls into the collaborators that are specified only at their
    interface: the root registry, the work loop and the user's callbacks.
    [CallbackInvoked source fn context] is [callback.call(context)], where
    [source] is the record whose [callback] field held the function. *)
Inductive Event :=
| MarkRootEntangled (root : ptr) (lanes : Lanes)
| MarkSkippedUpdateLanes (lanes : Lanes)
| MarkHiddenUpdate (root : option ptr) (update : ptr) (lane : Lane)
| WarnAboutUpdateOnNotYetMountedFiberInDEV (fiber : ptr)
| CallbackInvoked (source : ptr) (fn : nat) (context : JsValue).

Record World := mkWorld {
  (* the object stores *)
  updates : gmap ptr Update;
  sharedQueues : gmap ptr SharedQueue;
  updateQueues : gmap ptr UpdateQueue;
  arrays : gmap ptr (list ptr);
  fibers : gmap ptr Fiber;
  offscreenInstances : gmap ptr OffscreenInstance;
  fiberRoots : gmap ptr FiberRoot;
  (* module state of the class update queue *)
  hasForceUpdate : bool;
  didWarnUpdateInsideUpdate : bool;
  currentlyProcessingQueue : option ptr;
  (* module state of the concurrent updates *)
  concurrentQueues : list Slot;
  concurrentQueuesIndex : nat;
  concurrentlyUpdatedLanes : Lanes;
  (* the environment: the build flag, what the work loop answers *)
  DEV : bool;
  workInProgressRootRenderLanes : Lanes;
  unsafeClassRenderPhaseUpdate : ptr -> bool;
  (* what went out: console.error messages and collaborator calls *)
  console : list string;
  calls : list Event;
}.


(** Field updates, written out. *)

Definition set_update_next (v : option ptr) (u : Update) : Update :=
  mkUpdate (update_eventTime u) (update_lane u) (update_tag u)
    (update_payload u) (update_callback u) v.

Definition set_update_callback (v : option JsCallback) (u : Update) : Update :=
  mkUpdate (update_eventTime u) (update_lane u) (update_tag u)
    (update_payload u) v (update_next u).

Definition set_shared_pending (v : option ptr) (q : SharedQueue) : SharedQueue :=
  mkSharedQueue v (shared_lanes q).

Definition set_shared_lanes (v : Lanes) (q : SharedQueue) : SharedQueue :=
  mkSharedQueue (shared_pending q) v.

Definition set_queue_baseState (v : JsValue) (q : UpdateQueue) : UpdateQueue :=
  mkUpdateQueue v (queue_firstBaseUpdate q) (queue_lastBaseUpdate q)
    (queue_shared q) (queue_effects q).

Definition set_queue_firstBaseUpdate (v : option ptr) (q : UpdateQueue)
  : UpdateQueue :=
  mkUpdateQueue (queue_baseState q) v (queue_lastBaseUpdate q)
    (queue_shared q) (queue_effects q).

Definition set_queue_lastBaseUpdate (v : option ptr) (q : UpdateQueue)
  : UpdateQueue :=
  mkUpdateQueue (queue_baseState q) (queue_firstBaseUpdate q) v
    (queue_shared q) (queue_effects q).

Definition set_queue_effects (v : option ptr) (q : UpdateQueue) : UpdateQueue :=
  mkUpdateQueue (queue_baseState q) (queue_firstBaseUpdate q)
    (queue_lastBaseUpdate q) (queue_shared q) v.

Definition set_fiber_flags (v : Z) (f : Fiber) : Fiber :=
  mkFiber (fiber_tag f) (fiber_stateNode f) (fiber_return f)
    (fiber_alternate f) v (fiber_lanes f) (fiber_childLanes f)
    (fiber_memoizedState f) (fiber_updateQueue f).

Definition set_fiber_lanes (v : Lanes) (f : Fiber) : Fiber :=
  mkFiber (fiber_tag f) (fiber_stateNode f) (fiber_return f)
    (fiber_alternate f) (fiber_flags f) v (fiber_childLanes f)
    (fiber_memoizedState f) (fiber_updateQueue f).

Definition set_fiber_childLanes (v : Lanes) (f : Fiber) : Fiber :=
  mkFiber (fiber_tag f) (fiber_stateNode f) (fiber_return f)
    (fiber_alternate f) (fiber_flags f) (fiber_lanes f) v
    (fiber_memoizedState f) (fiber_updateQueue f).

Definition set_fiber_memoizedState (v : JsValue) (f : Fiber) : Fiber :=
  mkFiber (fiber_tag f) (fiber_stateNode f) (fiber_return f)
    (fiber_alternate f) (fiber_flags f) (fiber_lanes f) (fiber_childLanes f)
    v (fiber_updateQueue f).

Definition set_fiber_updateQueue (v : option ptr) (f : Fiber) : Fiber :=
  mkFiber (fiber_tag f) (fiber_stateNode f) (fiber_return f)
    (fiber_alternate f) (fiber_flags f) (fiber_lanes f) (fiber_childLanes f)
    (fiber_memoizedState f) v.

Definition with_updates (v : gmap ptr Update) (w : World) : World :=
  mkWorld v (sharedQueues w) (updateQueues w) (arrays w) (fibers w)
    (offscreenInstances w) (fiberRoots w) (hasForceUpdate w)
    (didWarnUpdateInsideUpdate w) (currentlyProcessingQueue w)
    (concurrentQueues w) (concurrentQueuesIndex w)
    (concurrentlyUpdatedLanes w) (DEV w) (workInProgressRootRenderLanes w)
    (unsafeClassRenderPhaseUpdate w) (console w) (calls w).

Definition with_sharedQueues (v : gmap ptr SharedQueue) (w : World) : World :=
  mkWorld (updates w) v (updateQueues w) (arrays w) (fibers w)
    (offscreenInstances w) (fiberRoots w) (hasForceUpdate w)
    (didWarnUpdateInsideUpdate w) (currentlyProcessingQueue w)
    (concurrentQueues w) (concurrentQueuesIndex w)
    (concurrentlyUpdatedLanes w) (DEV w) (workInProgressRootRenderLanes w)
    (unsafeClassRenderPhaseUpdate w) (console w) (calls w).

Definition with_updateQueues (v : gmap ptr UpdateQueue) (w : World) : World :=
  mkWorld (updates w) (sharedQueues w) v (arrays w) (fibers w)
    (offscreenInstances w) (fiberRoots w) (hasForceUpdate w)
    (didWarnUpdateInsideUpdate w) (currentlyProcessingQueue w)
    (concurrentQueues w) (concurrentQueuesIndex w)
    (concurrentlyUpdatedLanes w) (DEV w) (workInProgressRootRenderLanes w)
    (unsafeClassRenderPhaseUpdate w) (console w) (calls w).

Definition with_arrays (v : gmap ptr (list ptr)) (w : World) : World :=
  mkWorld (updates w) (sharedQueues w) (updateQueues w) v (fibers w)
    (offscreenInstances w) (fiberRoots w) (hasForceUpdate w)
    (didWarnUpdateInsideUpdate w) (currentlyProcessingQueue w)
    (concurrentQueues w) (concurrentQueuesIndex w)
    (concurrentlyUpdatedLanes w) (DEV w) (workInProgressRootRenderLanes w)
    (unsafeClassRenderPhaseUpdate w) (console w) (calls w).

Definition with_fibers (v : gmap ptr Fiber) (w : World) : World :=
  mkWorld (updates w) (sharedQueues w) (updateQueues w) (arrays w) v
    (offscreenInstances w) (fiberRoots w) (hasForceUpdate w)
    (didWarnUpdateInsideUpdate w) (currentlyProcessingQueue w)
    (concurrentQueues w) (concurrentQueuesIndex w)
    (concurrentlyUpdatedLanes w) (DEV w) (workInProgressRootRenderLanes w)
    (unsafeClassRenderPhaseUpdate w) (console w) (calls w).

Definition with_hasForceUpdate (v : bool) (w : World) : World :=
  mkWorld (updates w) (sharedQueues w) (updateQueues w) (arrays w) (fibers w)
    (offscreenInstances w) (fiberRoots w) v
    (didWarnUpdateInsideUpdate w) (currentlyProcessingQueue w)
    (concurrentQueues w) (concurrentQueuesIndex w)
    (concurrentlyUpdatedLanes w) (DEV w) (workInProgressRootRenderLanes w)
    (unsafeClassRenderPhaseUpdate w) (console w) (calls w).

Definition with_didWarnUpdateInsideUpdate (v : bool) (w : World) : World :=
  mkWorld (updates w) (sharedQueues w) (updateQueues w) (arrays w) (fibers w)
    (offscreenInstances w) (fiberRoots w) (hasForceUpdate w)
    v (currentlyProcessingQueue w)
    (concurrentQueues w) (concurrentQueuesIndex w)
    (concurrentlyUpdatedLanes w) (DEV w) (workInProgressRootRenderLanes w)
    (unsafeClassRenderPhaseUpdate w) (console w) (calls w).

Definition with_currentlyProcessingQueue (v : option ptr) (w : World) : World :=
  mkWorld (updates w) (sharedQueues w) (updateQueues w) (arrays w) (fibers w)
    (offscreenInstances w) (fiberRoots w) (hasForceUpdate w)
    (didWarnUpdateInsideUpdate w) v
    (concurrentQueues w) (concurrentQueuesIndex w)
    (concurrentlyUpdatedLanes w) (DEV w) (workInProgressRootRenderLanes w)
    (unsafeClassRenderPhaseUpdate w) (console w) (calls w).

Definition with_concurrentQueues (v : list Slot) (w : World) : World :=
  mkWorld (updates w) (sharedQueues w) (updateQueues w) (arrays w) (fibers w)
    (offscreenInstances w) (fiberRoots w) (hasForceUpdate w)
    (didWarnUpdateInsideUpdate w) (currentlyProcessingQueue w)
    v (concurrentQueuesIndex w)
    (concurrentlyUpdatedLanes w) (DEV w) (workInProgressRootRenderLanes w)
    (unsafeClassRenderPhaseUpdate w) (console w) (calls w).

Definition with_concurrentQueuesIndex (v : nat) (w : World) : World :=
  mkWorld (updates w) (sharedQueues w) (updateQueues w) (arrays w) (fibers w)
    (offscreenInstances w) (fiberRoots w) (hasForceUpdate w)
    (didWarnUpdateInsideUpdate w) (currentlyProcessingQueue w)
    (concurrentQueues w) v
    (concurrentlyUpdatedLanes w) (DEV w) (workInProgressRootRenderLanes w)
    (unsafeClassRenderPhaseUpdate w) (console w) (calls w).

Definition with_concurrentlyUpdatedLanes (v : Lanes) (w : World) : World :=
  mkWorld (updates w) (sharedQueues w) (updateQueues w) (arrays w) (fibers w)
    (offscreenInstances w) (fiberRoots w) (hasForceUpdate w)
    (didWarnUpdateInsideUpdate w) (currentlyProcessingQueue w)
    (concurrentQueues w) (concurrentQueuesIndex w)
    v (DEV w) (workInProgressRootRenderLanes w)
    (unsafeClassRenderPhaseUpdate w) (console w) (calls w).

Definition with_workInProgressRootRenderLanes (v : Lanes) (w : World) : World :=
  mkWorld (updates w) (sharedQueues w) (updateQueues w) (arrays w) (fibers w)
    (offscreenInstances w) (fiberRoots w) (hasForceUpdate w)
    (didWarnUpdateInsideUpdate w) (currentlyProcessingQueue w)
    (concurrentQueues w) (concurrentQueuesIndex w)
    (concurrentlyUpdatedLanes w) (DEV w) v
    (unsafeClassRenderPhaseUpdate w) (console w) (calls w).

Definition with_console (v : list string) (w : World) : World :=
  mkWorld (updates w) (sharedQueues w) (updateQueues w) (arrays w) (fibers w)
    (offscreenInstances w) (fiberRoots w) (hasForceUpdate w)
    (didWarnUpdateInsideUpdate w) (currentlyProcessingQueue w)
    (concurrentQueues w) (concurrentQueuesIndex w)
    (concurrentlyUpdatedLanes w) (DEV w) (workInProgressRootRenderLanes w)
    (unsafeClassRenderPhaseUpdate w) v (calls w).

Definition with_calls (v : list Event) (w : World) : World :=
  mkWorld (updates w) (sharedQueues w) (updateQueues w) (arrays w) (fibers w)
    (offscreenInstances w) (fiberRoots w) (hasForceUpdate w)
    (didWarnUpdateInsideUpdate w) (currentlyProcessingQueue w)
    (concurrentQueues w) (concurrentQueuesIndex w)
    (concurrentlyUpdatedLanes w) (DEV w) (workInProgressRootRenderLanes w)
    (unsafeClassRenderPhaseUpdate w) (console w) v.

(** ** Computations over the world *)

(** What a JavaScript function can end with besides a value: a [TypeError]
    from reading a property of [null] or [undefined], the [Error] that
    [callCallback] throws, a reference that names no object (which no
    JavaScript heap contains), and a loop that outran its fuel. *)
Inductive Error :=
| TypeError
| InvalidCallback
| DanglingReference
| OutOfFuel.

Inductive Outcome (A : Type) :=
| Return (a : A)
| Throw (e : Error).
Arguments Return {A} a.
Arguments Throw {A} e.

(** A computation keeps the world it reached when it throws: what was
    written before the exception stays written. *)
Definition M (A : Type) : Type := World -> Outcome A * World.

Definition ret {A} (a : A) : M A := fun w => (Return a, w).

Definition throw {A} (e : Error) : M A := fun w => (Throw e, w).

Definition bind {A B} (m : M A) (k : A -> M B) : M B :=
  fun w =>
    match m w with
    | (Return a, w') => k a w'
    | (Throw e, w') => (Throw e, w')
    end.

Notation "x <- m ;; k" := (bind m (fun x => k))
  (at level 100, m at next level, right associativity).
Notation "m ;;; k" := (bind m (fun _ => k))
  (at level 100, right associativity).

Definition gets {A} (f : World -> A) : M A := fun w => (Return (f w), w).

Definition modify (f : World -> World) : M unit := fun w => (Return tt, f w).

(** [o.field] for a reference [p] into one of the stores. *)
Definition load {V} (store : World -> gmap ptr V) (p : ptr) : M V :=
  fun w =>
    match store w !! p with
    | Some v => (Return v, w)
    | None => (Throw DanglingReference, w)
    end.

(** The same where the reference may be [null]. *)
Definition loadRef {V} (store : World -> gmap ptr V) (o : option ptr) : M V :=
  match o with
  | Some p => load store p
  | None => throw TypeError
  end.

Definition storeUpdate (p : ptr) (f : Update -> Update) : M unit :=
  u <- load updates p ;;
  modify (fun w => with_updates (<[p := f u]> (updates w)) w).

Definition storeSharedQueue (p : ptr) (f : SharedQueue -> SharedQueue)
  : M unit :=
  q <- load sharedQueues p ;;
  modify (fun w => with_sharedQueues (<[p := f q]> (sharedQueues w)) w).

Definition storeUpdateQueue (p : ptr) (f : UpdateQueue -> UpdateQueue)
  : M unit :=
  q <- load updateQueues p ;;
  modify (fun w => with_updateQueues (<[p := f q]> (updateQueues w)) w).

Definition storeFiber (p : ptr) (f : Fiber -> Fiber) : M unit :=
  x <- load fibers p ;;
  modify (fun w => with_fibers (<[p := f x]> (fibers w)) w).

(** Object and array literals: a reference that is not in use yet. *)
Definition newUpdate (u : Update) : M ptr :=
  fun w =>
    let p := fresh (dom (updates w)) in
    (Return p, with_updates (<[p := u]> (updates w)) w).

Definition newSharedQueue (q : SharedQueue) : M ptr :=
  fun w =>
    let p := fresh (dom (sharedQueues w)) in
    (Return p, with_sharedQueues (<[p := q]> (sharedQueues w)) w).

Definition newUpdateQueue (q : UpdateQueue) : M ptr :=
  fun w =>
    let p := fresh (dom (updateQueues w)) in
    (Return p, with_updateQueues (<[p := q]> (updateQueues w)) w).

Definition newArray (a : list ptr) : M ptr :=
  fun w =>
    let p := fresh (dom (arrays w)) in
    (Return p, with_arrays (<[p := a]> (arrays w)) w).

Definition emit (e : Event) : M unit :=
  modify (fun w => with_calls (calls w ++ [e]) w).

Definition consoleError (msg : string) : M unit :=
  modify (fun w => with_console (console w ++ [msg]) w).

(** [a[i] = v] and [a[i]] on a JavaScript array: writing past the end
    extends the array, reading past the end gives [undefined]. *)
Definition arraySet (a : list Slot) (i : nat) (v : Slot) : list Slot :=
  if (i <? length a)%nat then <[i := v]> a
  else a ++ replicate (i - length a) SlotUndefined ++ [v].

Definition arrayGet (a : list Slot) (i : nat) : Slot :=
  default SlotUndefined (a !! i).

(** ** ReactFiberConcurrentUpdates *)

Module ReactFiberConcurrentUpdates.

Definition slotOfRef (o : option ptr) : Slot :=
  match o with
  | Some p => SlotRef p
  | None => SlotNull
  end.

(** [concurrentQueues[concurrentQueuesIndex++] = v]. *)
Definition pushConcurrentQueues (v : Slot) : M unit :=
  modify (fun w =>
    with_concurrentQueuesIndex (S (concurrentQueuesIndex w))
      (with_concurrentQueues
         (arraySet (concurrentQueues w) (concurrentQueuesIndex w) v) w)).

(** [const x = concurrentQueues[i]; concurrentQueues[i] = null]. *)
Definition takeConcurrentQueues (i : nat) : M Slot :=
  v <- gets (fun w => arrayGet (concurrentQueues w) i) ;;
  modify (fun w =>
    with_concurrentQueues (arraySet (concurrentQueues w) i SlotNull) w) ;;;
  ret v.

Definition mergeFiberLanes (lane : Lane) (f : Fiber) : Fiber :=
  set_fiber_lanes (mergeLanes (fiber_lanes f) lane) f.

Definition mergeFiberChildLanes (lane : Lane) (f : Fiber) : Fiber :=
  set_fiber_childLanes (mergeLanes (fiber_childLanes f) lane) f.

(** The circular insertion that both the flush and the direct enqueue
    perform on a queue's [pending] list. *)
Definition linkPending (queue update : ptr) : M unit :=
  q <- load sharedQueues queue ;;
  match shared_pending q with
  | None =>
      storeUpdate update (set_update_next (Some update))
  | Some pending =>
      p <- load updates pending ;;
      storeUpdate update (set_update_next (update_next p)) ;;;
      storeUpdate pending (set_update_next (Some update))
  end ;;;
  storeSharedQueue queue (set_shared_pending (Some update)).

(** The loop of [markUpdateLaneFromFiberToRoot]; it returns [isHidden] and
    the topmost [node]. *)
Fixpoint markUpdateLaneLoop (fuel : nat) (lane : Lane) (isHidden : bool)
    (node : ptr) (parent : option ptr) : M (bool * ptr) :=
  match parent with
  | None => ret (isHidden, node)
  | Some p =>
      match fuel with
      | O => throw OutOfFuel
      | S fuel' =>
          storeFiber p (mergeFiberChildLanes lane) ;;;
          pf <- load fibers p ;;
          match fiber_alternate pf with
          | Some alternate => storeFiber alternate (mergeFiberChildLanes lane)
          | None => ret tt
          end ;;;
          pf <- load fibers p ;;
          isHidden' <-
            (if WorkTag_eqb (fiber_tag pf) OffscreenComponent then
               offscreenInstance <-
                 loadRef offscreenInstances (fiber_stateNode pf) ;;
               ret (if offscreen_isHidden offscreenInstance then true
                    else isHidden)
             else ret isHidden) ;;
          markUpdateLaneLoop fuel' lane isHidden' p (fiber_return pf)
      end
  end.

Definition markUpdateLaneFromFiberToRoot (fuel : nat) (sourceFiber : ptr)
    (update : option ptr) (lane : Lane) : M unit :=
  storeFiber sourceFiber (mergeFiberLanes lane) ;;;
  sf <- load fibers sourceFiber ;;
  match fiber_alternate sf with
  | Some alternate => storeFiber alternate (mergeFiberLanes lane)
  | None => ret tt
  end ;;;
  sf <- load fibers sourceFiber ;;
  r <- markUpdateLaneLoop fuel lane false sourceFiber (fiber_return sf) ;;
  let '(isHidden, node) := r in
  if isHidden then
    match update with
    | Some u =>
        n <- load fibers node ;;
        if WorkTag_eqb (fiber_tag n) HostRoot then
          emit (MarkHiddenUpdate (fiber_stateNode n) u lane)
        else ret tt
    | None => ret tt
    end
  else ret tt.

Definition detectUpdateOnUnmountedFiber (sourceFiber parent : ptr)
  : M unit :=
  dev <- gets DEV ;;
  if dev then
    p <- load fibers parent ;;
    match fiber_alternate p with
    | None =>
        if negb (Z.land (fiber_flags p) (Z.lor Placement Hydrating) =? NoFlags)
        then emit (WarnAboutUpdateOnNotYetMountedFiberInDEV sourceFiber)
        else ret tt
    | Some _ => ret tt
    end
  else ret tt.

Fixpoint getRootLoop (fuel : nat) (sourceFiber node : ptr)
    (parent : option ptr) : M ptr :=
  match parent with
  | None => ret node
  | Some p =>
      match fuel with
      | O => throw OutOfFuel
      | S fuel' =>
          detectUpdateOnUnmountedFiber sourceFiber node ;;;
          pf <- load fibers p ;;
          getRootLoop fuel' sourceFiber p (fiber_return pf)
      end
  end.

Definition getRootForUpdatedFiber (fuel : nat) (sourceFiber : ptr)
  : M (option ptr) :=
  detectUpdateOnUnmountedFiber sourceFiber sourceFiber ;;;
  sf <- load fibers sourceFiber ;;
  node <- getRootLoop fuel sourceFiber sourceFiber (fiber_return sf) ;;
  n <- load fibers node ;;
  ret (if WorkTag_eqb (fiber_tag n) HostRoot then fiber_stateNode n
       else None).

(** The body of the [while (i < endIndex)] loop reads four slots.  A slot
    that holds something else than its Flow type allows ends in
    [TypeError]. *)
Fixpoint finishQueueingLoop (fuel markFuel : nat) (i endIndex : nat)
  : M unit :=
  if (i <? endIndex)%nat then
    match fuel with
    | O => throw OutOfFuel
    | S fuel' =>
        fiber <- takeConcurrentQueues i ;;
        queue <- takeConcurrentQueues (i + 1) ;;
        update <- takeConcurrentQueues (i + 2) ;;
        lane <- takeConcurrentQueues (i + 3) ;;
        match queue, update with
        | SlotNull, _ => ret tt
        | _, SlotNull => ret tt
        | SlotRef q, SlotRef u => linkPending q u
        | _, _ => throw TypeError
        end ;;;
        match lane with
        | SlotLane l =>
            if negb (l =? NoLane) then
              match fiber, update with
              | SlotRef f, SlotRef u =>
                  markUpdateLaneFromFiberToRoot markFuel f (Some u) l
              | SlotRef f, SlotNull =>
                  markUpdateLaneFromFiberToRoot markFuel f None l
              | _, _ => throw TypeError
              end
            else ret tt
        | _ => throw TypeError
        end ;;;
        finishQueueingLoop fuel' markFuel (i + 4) endIndex
    end
  else ret tt.

Definition finishQueueingConcurrentUpdates (fuel : nat) : M unit :=
  endIndex <- gets concurrentQueuesIndex ;;
  modify (with_concurrentQueuesIndex 0%nat) ;;;
  modify (with_concurrentlyUpdatedLanes NoLanes) ;;;
  finishQueueingLoop fuel fuel 0 endIndex.

Definition getConcurrentlyUpdatedLanes : M Lanes :=
  gets concurrentlyUpdatedLanes.

Definition enqueueUpdate (fiber : ptr) (queue update : option ptr)
    (lane : Lane) : M unit :=
  pushConcurrentQueues (SlotRef fiber) ;;;
  pushConcurrentQueues (slotOfRef queue) ;;;
  pushConcurrentQueues (slotOfRef update) ;;;
  pushConcurrentQueues (SlotLane lane) ;;;
  modify (fun w =>
    with_concurrentlyUpdatedLanes
      (mergeLanes (concurrentlyUpdatedLanes w) lane) w) ;;;
  storeFiber fiber (mergeFiberLanes lane) ;;;
  f <- load fibers fiber ;;
  match fiber_alternate f with
  | Some alternate => storeFiber alternate (mergeFiberLanes lane)
  | None => ret tt
  end.

(** [enqueueConcurrentHookUpdate]: a hook queue and a hook update are used
    through the fields that they share with [ConcurrentQueue] and
    [ConcurrentUpdate]. *)
Definition enqueueConcurrentHookUpdate (fuel : nat) (fiber queue update : ptr)
    (lane : Lane) : M (option ptr) :=
  enqueueUpdate fiber (Some queue) (Some update)
    lane ;;;
  getRootForUpdatedFiber fuel fiber.

Definition enqueueConcurrentHookUpdateAndEagerlyBailout
    (fiber queue update : ptr) : M unit :=
  let lane := NoLane in
  enqueueUpdate fiber (Some queue) (Some update)
    lane.

Definition enqueueConcurrentClassUpdate (fuel : nat) (fiber queue update : ptr)
    (lane : Lane) : M (option ptr) :=
  enqueueUpdate fiber (Some queue) (Some update) lane ;;;
  getRootForUpdatedFiber fuel fiber.

Definition enqueueConcurrentRenderForLane (fuel : nat) (fiber : ptr)
    (lane : Lane) : M (option ptr) :=
  enqueueUpdate fiber None None lane ;;;
  getRootForUpdatedFiber fuel fiber.

Definition unsafe_markUpdateLaneFromFiberToRoot (fuel : nat)
    (sourceFiber : ptr) (lane : Lane) : M (option ptr) :=
  markUpdateLaneFromFiberToRoot fuel sourceFiber None lane ;;;
  getRootForUpdatedFiber fuel sourceFiber.

End ReactFiberConcurrentUpdates.

(** ** ReactFiberClassUpdateQueue *)

Module ReactFiberClassUpdateQueue.

Import ReactFiberConcurrentUpdates.

Definition initializeUpdateQueue (fiber : ptr) : M unit :=
  f <- load fibers fiber ;;
  sharedQueue <- newSharedQueue (mkSharedQueue None NoLanes) ;;
  queue <- newUpdateQueue
    (mkUpdateQueue (fiber_memoizedState f) None None sharedQueue None) ;;
  storeFiber fiber (set_fiber_updateQueue (Some queue)).

Definition cloneUpdateQueue (current workInProgress : ptr) : M unit :=
  wf <- load fibers workInProgress ;;
  cf <- load fibers current ;;
  let queue := fiber_updateQueue wf in
  let currentQueue := fiber_updateQueue cf in
  if bool_decide (queue = currentQueue) then
    cq <- loadRef updateQueues currentQueue ;;
    clone <- newUpdateQueue
      (mkUpdateQueue (queue_baseState cq) (queue_firstBaseUpdate cq)
         (queue_lastBaseUpdate cq) (queue_shared cq) (queue_effects cq)) ;;
    storeFiber workInProgress (set_fiber_updateQueue (Some clone))
  else ret tt.

Definition createUpdate (eventTime : Z) (lane : Lane) : M ptr :=
  newUpdate (mkUpdate eventTime lane UpdateState (PayloadValue JsNull)
               None None).

Definition updateInsideUpdateWarning : string :=
  "An update (setState, replaceState, or forceUpdate) was scheduled from inside an update function. Update functions should be pure, with zero side-effects. Consider using componentDidUpdate or a callback.".

Definition enqueueUpdate (fuel : nat) (fiber update : ptr) (lane : Lane)
  : M (option ptr) :=
  f <- load fibers fiber ;;
  match fiber_updateQueue f with
  | None => ret None
  | Some updateQueue =>
      q <- load updateQueues updateQueue ;;
      let sharedQueue := queue_shared q in
      dev <- gets DEV ;;
      (if dev then
         processing <- gets currentlyProcessingQueue ;;
         didWarn <- gets didWarnUpdateInsideUpdate ;;
         if bool_decide (processing = Some sharedQueue) && negb didWarn then
           consoleError updateInsideUpdateWarning ;;;
           modify (with_didWarnUpdateInsideUpdate true)
         else ret tt
       else ret tt) ;;;
      unsafe <- gets (fun w => unsafeClassRenderPhaseUpdate w fiber) ;;
      if unsafe then
        linkPending sharedQueue update ;;;
        unsafe_markUpdateLaneFromFiberToRoot fuel fiber lane
      else
        enqueueConcurrentClassUpdate fuel fiber sharedQueue update lane
  end.

Definition entangleTransitions (root fiber : ptr) (lane : Lane) : M unit :=
  f <- load fibers fiber ;;
  match fiber_updateQueue f with
  | None => ret tt
  | Some updateQueue =>
      q <- load updateQueues updateQueue ;;
      let sharedQueue := queue_shared q in
      if isTransitionLane lane then
        sq <- load sharedQueues sharedQueue ;;
        let queueLanes := shared_lanes sq in
        r <- load fiberRoots root ;;
        let queueLanes := intersectLanes queueLanes (root_pendingLanes r) in
        let newQueueLanes := mergeLanes queueLanes lane in
        storeSharedQueue sharedQueue (set_shared_lanes newQueueLanes) ;;;
        emit (MarkRootEntangled root newQueueLanes)
      else ret tt
  end.

(** The [do ... while (update !== null)] loop of [enqueueCapturedUpdate],
    which clones the durable list; it returns [newFirst] and [newLast]. *)
Fixpoint cloneBaseUpdates (fuel : nat) (update : ptr)
    (newFirst newLast : option ptr) : M (option ptr * option ptr) :=
  match fuel with
  | O => throw OutOfFuel
  | S fuel' =>
      u <- load updates update ;;
      clone <- newUpdate
        (mkUpdate (update_eventTime u) (update_lane u) (update_tag u)
           (update_payload u) (update_callback u) None) ;;
      r <-
        match newLast with
        | None => ret (Some clone, Some clone)
        | Some last =>
            storeUpdate last (set_update_next (Some clone)) ;;;
            ret (newFirst, Some clone)
        end ;;
      u <- load updates update ;;
      match update_next u with
      | Some next => cloneBaseUpdates fuel' next (fst r) (snd r)
      | None => ret r
      end
  end.

(** [enqueueCapturedUpdate(workInProgress, capturedUpdate)].  The first
    part answers whether it returned early, with a queue made for the
    work-in-progress fiber. *)
Definition enqueueCapturedUpdate (fuel : nat)
    (workInProgress capturedUpdate : ptr) : M unit :=
  wf <- load fibers workInProgress ;;
  let queue := fiber_updateQueue wf in
  returned <-
    match fiber_alternate wf with
    | Some current =>
        cf <- load fibers current ;;
        let currentQueue := fiber_updateQueue cf in
        if bool_decide (queue = currentQueue) then
          q <- loadRef updateQueues queue ;;
          r <-
            match queue_firstBaseUpdate q with
            | Some firstBaseUpdate =>
                r <- cloneBaseUpdates fuel firstBaseUpdate None None ;;
                match snd r with
                | None => ret (Some capturedUpdate, Some capturedUpdate)
                | Some newLast =>
                    storeUpdate newLast
                      (set_update_next (Some capturedUpdate)) ;;;
                    ret (fst r, Some capturedUpdate)
                end
            | None => ret (Some capturedUpdate, Some capturedUpdate)
            end ;;
          cq <- loadRef updateQueues currentQueue ;;
          clone <- newUpdateQueue
            (mkUpdateQueue (queue_baseState cq) (fst r) (snd r)
               (queue_shared cq) (queue_effects cq)) ;;
          storeFiber workInProgress (set_fiber_updateQueue (Some clone)) ;;;
          ret true
        else ret false
    | None => ret false
    end ;;
  if (returned : bool) then ret tt
  else
    match queue with
    | None => throw TypeError
    | Some queue =>
        q <- load updateQueues queue ;;
        match queue_lastBaseUpdate q with
        | None =>
            storeUpdateQueue queue
              (set_queue_firstBaseUpdate (Some capturedUpdate))
        | Some lastBaseUpdate =>
            storeUpdate lastBaseUpdate
              (set_update_next (Some capturedUpdate))
        end ;;;
        storeUpdateQueue queue (set_queue_lastBaseUpdate (Some capturedUpdate))
    end.

(** The part of [getStateFromUpdate] shared by [CaptureUpdate], which falls
    through, and [UpdateState].  The development-only second call of the
    payload in strict mode and the context-read guards around it call into
    the dev tooling and leave the queue, the fibers and the result alone;
    they are not modelled. *)
Definition updateStateCase (update : Update) (prevState nextProps
    instance : JsValue) : JsValue :=
  let partialState :=
    match update_payload update with
    | PayloadFunction f => f instance prevState nextProps
    | PayloadValue v => v
    end in
  if isNullOrUndefined partialState then prevState
  else assign ∅ prevState partialState.

Definition getStateFromUpdate (workInProgress queue update : ptr)
    (prevState nextProps instance : JsValue) : M JsValue :=
  u <- load updates update ;;
  match update_tag u with
  | ReplaceState =>
      match update_payload u with
      | PayloadFunction f => ret (f instance prevState nextProps)
      | PayloadValue v => ret v
      end
  | CaptureUpdate =>
      storeFiber workInProgress (fun f =>
        set_fiber_flags
          (Z.lor (Z.land (fiber_flags f) (Z.lnot ShouldCapture)) DidCapture)
          f) ;;;
      ret (updateStateCase u prevState nextProps instance)
  | UpdateState =>
      ret (updateStateCase u prevState nextProps instance)
  | ForceUpdate =>
      modify (with_hasForceUpdate true) ;;;
      ret prevState
  end.

(** The variables of the walk in [processUpdateQueue]. *)
Record Walk := mkWalk {
  newState : JsValue;
  newLanes : Lanes;
  newBaseState : JsValue;
  newFirstBaseUpdate : option ptr;
  newLastBaseUpdate : option ptr;
}.

(** [newLastBaseUpdate = newLastBaseUpdate.next = clone]. *)
Definition appendClone (last clone : ptr) : M unit :=
  storeUpdate last (set_update_next (Some clone)).

(** [queue.effects = [update]] or [effects.push(update)]. *)
Definition pushEffect (queue update : ptr) : M unit :=
  q <- load updateQueues queue ;;
  match queue_effects q with
  | None =>
      a <- newArray [update] ;;
      storeUpdateQueue queue (set_queue_effects (Some a))
  | Some effects =>
      es <- load arrays effects ;;
      modify (fun w => with_arrays (<[effects := es ++ [update]]> (arrays w)) w)
  end.

(** One turn of the [do ... while (true)] loop, up to [update = update.next]. *)
Definition processUpdate (workInProgress queue : ptr)
    (props instance : JsValue) (renderLanes : Lanes) (update : ptr)
    (v : Walk) : M Walk :=
  u <- load updates update ;;
  let updateEventTime := update_eventTime u in
  let updateLane := removeLanes (update_lane u) OffscreenLane in
  let isHiddenUpdate := negb (updateLane =? update_lane u) in
  rootRenderLanes <- gets workInProgressRootRenderLanes ;;
  let shouldSkipUpdate :=
    if isHiddenUpdate then negb (isSubsetOfLanes rootRenderLanes updateLane)
    else negb (isSubsetOfLanes renderLanes updateLane) in
  if shouldSkipUpdate then
    clone <- newUpdate
      (mkUpdate updateEventTime updateLane (update_tag u) (update_payload u)
         (update_callback u) None) ;;
    match newLastBaseUpdate v with
    | None =>
        ret (mkWalk (newState v) (mergeLanes (newLanes v) updateLane)
               (newState v) (Some clone) (Some clone))
    | Some last =>
        appendClone last clone ;;;
        ret (mkWalk (newState v) (mergeLanes (newLanes v) updateLane)
               (newBaseState v) (newFirstBaseUpdate v) (Some clone))
    end
  else
    newLast <-
      match newLastBaseUpdate v with
      | Some last =>
          clone <- newUpdate
            (mkUpdate updateEventTime NoLane (update_tag u)
               (update_payload u) (update_callback u) None) ;;
          appendClone last clone ;;;
          ret (Some clone)
      | None => ret None
      end ;;
    state <- getStateFromUpdate workInProgress queue update (newState v)
               props instance ;;
    u <- load updates update ;;
    match update_callback u with
    | Some callback =>
        if negb (update_lane u =? NoLane) then
          storeFiber workInProgress (fun f =>
            set_fiber_flags (Z.lor (fiber_flags f) Callback) f) ;;;
          pushEffect queue update
        else ret tt
    | None => ret tt
    end ;;;
    ret (mkWalk state (newLanes v) (newBaseState v) (newFirstBaseUpdate v)
           newLast).

Fixpoint processUpdateLoop (fuel : nat) (workInProgress queue : ptr)
    (props instance : JsValue) (renderLanes : Lanes) (update : ptr)
    (v : Walk) : M Walk :=
  match fuel with
  | O => throw OutOfFuel
  | S fuel' =>
      v' <- processUpdate workInProgress queue props instance renderLanes
              update v ;;
      u <- load updates update ;;
      match update_next u with
      | Some next =>
          processUpdateLoop fuel' workInProgress queue props instance
            renderLanes next v'
      | None =>
          q <- load updateQueues queue ;;
          sq <- load sharedQueues (queue_shared q) ;;
          match shared_pending sq with
          | None => ret v'
          | Some lastPendingUpdate =>
              lp <- load updates lastPendingUpdate ;;
              let firstPendingUpdate := update_next lp in
              storeUpdate lastPendingUpdate (set_update_next None) ;;;
              storeUpdateQueue queue
                (set_queue_lastBaseUpdate (Some lastPendingUpdate)) ;;;
              q <- load updateQueues queue ;;
              storeSharedQueue (queue_shared q) (set_shared_pending None) ;;;
              match firstPendingUpdate with
              | Some first =>
                  processUpdateLoop fuel' workInProgress queue props instance
                    renderLanes first v'
              | None => throw TypeError
              end
          end
      end
  end.

(** The transfer of the pending list to the base queue, and to the queue of
    the alternate; it returns [firstBaseUpdate] and [lastBaseUpdate]. *)
Definition transferPending (workInProgress queue : ptr)
    (firstBaseUpdate lastBaseUpdate : option ptr)
  : M (option ptr * option ptr) :=
  q <- load updateQueues queue ;;
  sq <- load sharedQueues (queue_shared q) ;;
  match shared_pending sq with
  | None => ret (firstBaseUpdate, lastBaseUpdate)
  | Some lastPendingUpdate =>
      storeSharedQueue (queue_shared q) (set_shared_pending None) ;;;
      lp <- load updates lastPendingUpdate ;;
      let firstPendingUpdate := update_next lp in
      storeUpdate lastPendingUpdate (set_update_next None) ;;;
      first <-
        match lastBaseUpdate with
        | None => ret firstPendingUpdate
        | Some last =>
            storeUpdate last (set_update_next firstPendingUpdate) ;;;
            ret firstBaseUpdate
        end ;;
      let lastBaseUpdate := Some lastPendingUpdate in
      wf <- load fibers workInProgress ;;
      match fiber_alternate wf with
      | Some current =>
          cf <- load fibers current ;;
          match fiber_updateQueue cf with
          | None => throw TypeError
          | Some currentQueue =>
              cq <- load updateQueues currentQueue ;;
              let currentLastBaseUpdate := queue_lastBaseUpdate cq in
              if bool_decide (currentLastBaseUpdate <> lastBaseUpdate) then
                match currentLastBaseUpdate with
                | None =>
                    storeUpdateQueue currentQueue
                      (set_queue_firstBaseUpdate firstPendingUpdate)
                | Some currentLast =>
                    storeUpdate currentLast
                      (set_update_next firstPendingUpdate)
                end ;;;
                storeUpdateQueue currentQueue
                  (set_queue_lastBaseUpdate (Some lastPendingUpdate))
              else ret tt
          end
      | None => ret tt
      end ;;;
      ret (first, lastBaseUpdate)
  end.

Definition processUpdateQueue (fuel : nat) (workInProgress : ptr)
    (props instance : JsValue) (renderLanes : Lanes) : M unit :=
  wf <- load fibers workInProgress ;;
  modify (with_hasForceUpdate false) ;;;
  match fiber_updateQueue wf with
  | None => throw TypeError
  | Some queue =>
      q <- load updateQueues queue ;;
      dev <- gets DEV ;;
      (if dev then
         modify (with_currentlyProcessingQueue (Some (queue_shared q)))
       else ret tt) ;;;
      r <- transferPending workInProgress queue (queue_firstBaseUpdate q)
             (queue_lastBaseUpdate q) ;;
      let '(firstBaseUpdate, lastBaseUpdate) := r in
      match firstBaseUpdate with
      | Some first =>
          q <- load updateQueues queue ;;
          v <- processUpdateLoop fuel workInProgress queue props instance
                 renderLanes first
                 (mkWalk (queue_baseState q) NoLanes JsNull None None) ;;
          let newBaseState :=
            match newLastBaseUpdate v with
            | None => newState v
            | Some _ => newBaseState v
            end in
          storeUpdateQueue queue (set_queue_baseState newBaseState) ;;;
          storeUpdateQueue queue
            (set_queue_firstBaseUpdate (newFirstBaseUpdate v)) ;;;
          storeUpdateQueue queue
            (set_queue_lastBaseUpdate (newLastBaseUpdate v)) ;;;
          match firstBaseUpdate with
          | None =>
              q <- load updateQueues queue ;;
              storeSharedQueue (queue_shared q) (set_shared_lanes NoLanes)
          | Some _ => ret tt
          end ;;;
          emit (MarkSkippedUpdateLanes (newLanes v)) ;;;
          storeFiber workInProgress (set_fiber_lanes (newLanes v)) ;;;
          storeFiber workInProgress (set_fiber_memoizedState (newState v))
      | None => ret tt
      end ;;;
      (if dev then modify (with_currentlyProcessingQueue None) else ret tt)
  end.

(** [callCallback(callback, context)]; [source] names the record the
    callback was read from and only labels the call. *)
Definition callCallback (source : ptr) (callback : JsCallback)
    (context : JsValue) : M unit :=
  match callback with
  | Callable fn => emit (CallbackInvoked source fn context)
  | NotCallable _ => throw InvalidCallback
  end.

Definition resetHasForceUpdateBeforeProcessing : M unit :=
  modify (with_hasForceUpdate false).

Definition checkHasForceUpdateAfterProcessing : M bool :=
  gets hasForceUpdate.

Fixpoint commitEffects (instance : JsValue) (effects : list ptr) : M unit :=
  match effects with
  | [] => ret tt
  | effect :: rest =>
      e <- load updates effect ;;
      match update_callback e with
      | Some callback =>
          storeUpdate effect (set_update_callback None) ;;;
          callCallback effect callback instance
      | None => ret tt
      end ;;;
      commitEffects instance rest
  end.

Definition commitUpdateQueue (finishedWork finishedQueue : ptr)
    (instance : JsValue) : M unit :=
  q <- load updateQueues finishedQueue ;;
  let effects := queue_effects q in
  storeUpdateQueue finishedQueue (set_queue_effects None) ;;;
  match effects with
  | Some a =>
      es <- load arrays a ;;
      commitEffects instance es
  | None => ret tt
  end.

End ReactFiberClassUpdateQueue.

Import ReactFiberConcurrentUpdates.
Import ReactFiberClassUpdateQueue.

(** ** Reading the linked structures *)

(** [segment h first ps stop]: starting at [first] and following [next], the
    records at [ps] are met in this order and the last one points to
    [stop]. *)
Fixpoint segment (h : gmap ptr Update) (first : option ptr) (ps : list ptr)
    (stop : option ptr) : Prop :=
  match ps with
  | [] => first = stop
  | p :: ps' =>
      first = Some p /\
      exists u, h !! p = Some u /\ segment h (update_next u) ps' stop
  end.

(** The durable list: a segment that ends with [null]. *)
Definition chain (h : gmap ptr Update) (first : option ptr) (ps : list ptr)
  : Prop :=
  segment h first ps None.

(** The circular pending list with [pending] pointing at its last record:
    [ps] lists it from the first inserted record to the last. *)
Definition ring (h : gmap ptr Update) (pending : option ptr) (ps : list ptr)
  : Prop :=
  match pending with
  | None => ps = []
  | Some lastp =>
      last ps = Some lastp /\ NoDup ps /\
      segment h (head ps) ps (head ps)
  end.

(** The records stored at a list of references. *)
Definition recordsAt (h : gmap ptr Update) (ps : list ptr) : list Update :=
  omap (fun p => h !! p) ps.

(** An executable reading of a durable list, for concrete stores. *)
Fixpoint durableList (fuel : nat) (h : gmap ptr Update) (first : option ptr)
  : option (list Update) :=
  match first with
  | None => Some []
  | Some p =>
      match fuel with
      | O => None
      | S fuel' =>
          match h !! p with
          | Some u =>
              match durableList fuel' h (update_next u) with
              | Some us => Some (u :: us)
              | None => None
              end
          | None => None
          end
      end
  end.

(** An executable reading of a pending list, from its first record around
    to its last. *)
Fixpoint pendingFrom (fuel : nat) (h : gmap ptr Update) (p lastp : ptr)
  : option (list ptr) :=
  match fuel with
  | O => None
  | S fuel' =>
      if bool_decide (p = lastp) then Some [p]
      else
        match h !! p with
        | Some u =>
            match update_next u with
            | Some n =>
                match pendingFrom fuel' h n lastp with
                | Some ps => Some (p :: ps)
                | None => None
                end
            | None => None
            end
        | None => None
        end
  end.

Definition pendingList (fuel : nat) (h : gmap ptr Update)
    (pending : option ptr) : option (list ptr) :=
  match pending with
  | None => Some []
  | Some lastp =>
      match h !! lastp with
      | Some u =>
          match update_next u with
          | Some first => pendingFrom fuel h first lastp
          | None => None
          end
      | None => None
      end
  end.

(** ** The walk of [processUpdateQueue] on the list of records *)

(** The state that [getStateFromUpdate] returns. *)
Definition reduceState (props instance : JsValue) (prevState : JsValue)
    (u : Update) : JsValue :=
  match update_tag u with
  | ReplaceState =>
      match update_payload u with
      | PayloadFunction f => f instance prevState props
      | PayloadValue v => v
      end
  | CaptureUpdate => updateStateCase u prevState props instance
  | UpdateState => updateStateCase u prevState props instance
  | ForceUpdate => prevState
  end.

(** Applying all updates in insertion order to a base state, in one step. *)
Definition applyAllInOrder (props instance : JsValue) (base : JsValue)
    (us : list Update) : JsValue :=
  fold_left (reduceState props instance) us base.

Definition updateLaneOf (u : Update) : Lane :=
  removeLanes (update_lane u) OffscreenLane.

Definition shouldSkipUpdate (rootRenderLanes renderLanes : Lanes)
    (u : Update) : bool :=
  if negb (updateLaneOf u =? update_lane u)
  then negb (isSubsetOfLanes rootRenderLanes (updateLaneOf u))
  else negb (isSubsetOfLanes renderLanes (updateLaneOf u)).

(** The two clones that the walk makes of a record. *)
Definition skippedClone (u : Update) : Update :=
  mkUpdate (update_eventTime u) (updateLaneOf u) (update_tag u)
    (update_payload u) (update_callback u) None.

Definition rebasedClone (u : Update) : Update :=
  mkUpdate (update_eventTime u) NoLane (update_tag u)
    (update_payload u) (update_callback u) None.

(** What the walk has accumulated: the state, the lanes of the skipped
    records, the state at the first skip and the clones of the reduced
    list. *)
Record Acc := mkAcc {
  acc_state : JsValue;
  acc_lanes : Lanes;
  acc_base : JsValue;
  acc_clones : list Update;
}.

Definition stepAcc (props instance : JsValue)
    (rootRenderLanes renderLanes : Lanes) (a : Acc) (u : Update) : Acc :=
  if shouldSkipUpdate rootRenderLanes renderLanes u then
    mkAcc (acc_state a) (mergeLanes (acc_lanes a) (updateLaneOf u))
      (match acc_clones a with [] => acc_state a | _ => acc_base a end)
      (acc_clones a ++ [skippedClone u])
  else
    mkAcc (reduceState props instance (acc_state a) u) (acc_lanes a)
      (acc_base a)
      (match acc_clones a with
       | [] => []
       | _ => acc_clones a ++ [rebasedClone u]
       end).

Definition walkAcc (props instance : JsValue)
    (rootRenderLanes renderLanes : Lanes) (a : Acc) (us : list Update) : Acc :=
  fold_left (stepAcc props instance rootRenderLanes renderLanes) us a.

(** The base state that the queue keeps after a walk. *)
Definition baseAfter (a : Acc) : JsValue :=
  match acc_clones a with
  | [] => acc_state a
  | _ => acc_base a
  end.

(** The merge of the lanes of a list of records. *)
Definition mergedLanes (us : list Update) : Lanes :=
  fold_left (fun l u => mergeLanes l (update_lane u)) us NoLanes.

(** The content of a record, whatever it is linked to. *)
Definition unlinked (u : Update) : Update := set_update_next None u.

(** ** Render passes *)

(** A pass: the work loop fixes the lanes of the root's render, then the
    queue of the fiber is processed at the fiber's render lanes. *)
Definition renderPass (fuel : nat) (workInProgress : ptr)
    (props instance : JsValue) (pass : Lanes * Lanes) : M unit :=
  modify (with_workInProgressRootRenderLanes (fst pass)) ;;;
  processUpdateQueue fuel workInProgress props instance (snd pass).

Fixpoint renderPasses (fuel : nat) (workInProgress : ptr)
    (props instance : JsValue) (passes : list (Lanes * Lanes)) : M unit :=
  match passes with
  | [] => ret tt
  | pass :: rest =>
      renderPass fuel workInProgress props instance pass ;;;
      renderPasses fuel workInProgress props instance rest
  end.

(** A pass at which a record qualifies whether or not it was made to a
    hidden tree. *)
Definition qualifies (pass : Lanes * Lanes) (u : Update) : Prop :=
  isSubsetOfLanes (fst pass) (updateLaneOf u) = true /\
  isSubsetOfLanes (snd pass) (updateLaneOf u) = true.

(** ** The return path of a fiber *)

(** [returnPath fs parent path]: following [return] from [parent] meets the
    fibers of [path], nearest ancestor first, and the last one has no
    parent. *)
Fixpoint returnPath (fs : gmap ptr Fiber) (parent : option ptr)
    (path : list ptr) : Prop :=
  match path with
  | [] => parent = None
  | p :: rest =>
      parent = Some p /\
      exists f, fs !! p = Some f /\ returnPath fs (fiber_return f) rest
  end.

(** The alternates of a list of fibers, where they have one. *)
Definition alternatesOf (fs : gmap ptr Fiber) (ps : list ptr) : list ptr :=
  omap (fun p => fs !! p ≫= fiber_alternate) ps.

(** Every alternate of a fiber of [ps] is a fiber. *)
Definition alternatesClosed (w : World) (ps : list ptr) : Prop :=
  forall p f a,
    p ∈ ps -> fibers w !! p = Some f -> fiber_alternate f = Some a ->
    is_Some (fibers w !! a).

(** Every Offscreen fiber of [ps] has its instance as state node. *)
Definition offscreenClosed (w : World) (ps : list ptr) : Prop :=
  forall p f,
    p ∈ ps -> fibers w !! p = Some f ->
    fiber_tag f = OffscreenComponent ->
    exists i, fiber_stateNode f = Some i /\
              is_Some (offscreenInstances w !! i).

(** A hidden Offscreen component. *)
Definition isHiddenOffscreen (w : World) (p : ptr) : bool :=
  match fibers w !! p with
  | Some f =>
      WorkTag_eqb (fiber_tag f) OffscreenComponent &&
      match fiber_stateNode f ≫= (fun i => offscreenInstances w !! i) with
      | Some inst => offscreen_isHidden inst
      | None => false
      end
  | None => false
  end.

(** The fiber [x] after the lane was merged into the [lanes] of the fibers
    of [own] and into the [childLanes] of the fibers of [ancestors]. *)
Definition markedFiber (lane : Lane) (own ancestors : list ptr) (x : ptr)
    (f : Fiber) : Fiber :=
  let f1 := if bool_decide (x ∈ own) then mergeFiberLanes lane f else f in
  if bool_decide (x ∈ ancestors) then mergeFiberChildLanes lane f1 else f1.

(** The call to [markHiddenUpdate] that ends the propagation, if any. *)
Definition hiddenUpdateCall (w : World) (top : ptr) (path : list ptr)
    (update : option ptr) (lane : Lane) : list Event :=
  match update, fibers w !! top with
  | Some u, Some n =>
      if existsb (isHiddenOffscreen w) path &&
         WorkTag_eqb (fiber_tag n) HostRoot
      then [MarkHiddenUpdate (fiber_stateNode n) u lane]
      else []
  | _, _ => []
  end.

(** Two fiber stores with the same fibers up to [lanes] and [childLanes]. *)
Definition sameShape (F G : gmap ptr Fiber) : Prop :=
  forall x,
    match F !! x, G !! x with
    | Some f, Some g =>
        fiber_tag f = fiber_tag g /\
        fiber_stateNode f = fiber_stateNode g /\
        fiber_return f = fiber_return g /\
        fiber_alternate f = fiber_alternate g
    | None, None => True
    | _, _ => False
    end.


(** The fiber [n] with its return path [path], all references resolved. *)
Definition fiberReady (w : World) (n : ptr) (path : list ptr) : Prop :=
  exists nf,
    fibers w !! n = Some nf /\
    returnPath (fibers w) (fiber_return nf) path /\
    alternatesClosed w (n :: path) /\
    offscreenClosed w path.

(** Staging updates against one queue of one fiber, in the given order. *)
Fixpoint stageAll (fiber queue : ptr) (staged : list (ptr * Lane)) : M unit :=
  match staged with
  | [] => ret tt
  | (update, lane) :: rest =>
      ReactFiberConcurrentUpdates.enqueueUpdate fiber (Some queue)
        (Some update) lane ;;;
      stageAll fiber queue rest
  end.

(** The slots of [concurrentQueues] from index [i] hold the tuples of
    [staged]. *)
Definition holdsStaged (cq : list Slot) (i : nat) (fiber queue : ptr)
    (staged : list (ptr * Lane)) : Prop :=
  forall k update lane,
    staged !! k = Some (update, lane) ->
    arrayGet cq (i + 4 * k) = SlotRef fiber /\
    arrayGet cq (i + 4 * k + 1) = SlotRef queue /\
    arrayGet cq (i + 4 * k + 2) = SlotRef update /\
    arrayGet cq (i + 4 * k + 3) = SlotLane lane.

(** ** Sequences of calls into the module *)

(** The calls that a queue sees during its lifetime.  [OpCreateUpdate] is
    what the callers of [createUpdate] do: they make the record and fill in
    its tag, payload and callback before they enqueue it. *)
Inductive Op :=
| OpInitializeUpdateQueue (fiber : ptr)
| OpCloneUpdateQueue (current workInProgress : ptr)
| OpCreateUpdate (eventTime : Z) (lane : Lane) (tag : UpdateTag)
    (payload : Payload) (callback : option JsCallback)
| OpEnqueueUpdate (fuel : nat) (fiber update : ptr) (lane : Lane)
| OpEntangleTransitions (root fiber : ptr) (lane : Lane)
| OpProcessUpdateQueue (fuel : nat) (workInProgress : ptr)
    (props instance : JsValue) (rootRenderLanes renderLanes : Lanes)
| OpCommitUpdateQueue (finishedWork finishedQueue : ptr) (instance : JsValue)
| OpFinishQueueingConcurrentUpdates (fuel : nat)
| OpEnqueueConcurrentRenderForLane (fuel : nat) (fiber : ptr) (lane : Lane).

Definition runOp (op : Op) : M unit :=
  match op with
  | OpInitializeUpdateQueue fiber => initializeUpdateQueue fiber
  | OpCloneUpdateQueue current workInProgress =>
      cloneUpdateQueue current workInProgress
  | OpCreateUpdate eventTime lane tag payload callback =>
      update <- createUpdate eventTime lane ;;
      storeUpdate update (fun u =>
        mkUpdate (update_eventTime u) (update_lane u) tag payload callback
          (update_next u))
  | OpEnqueueUpdate fuel fiber update lane =>
      ReactFiberClassUpdateQueue.enqueueUpdate fuel fiber update lane ;;;
      ret tt
  | OpEntangleTransitions root fiber lane =>
      entangleTransitions root fiber lane
  | OpProcessUpdateQueue fuel workInProgress props instance rootRenderLanes
      renderLanes =>
      renderPass fuel workInProgress props instance
        (rootRenderLanes, renderLanes)
  | OpCommitUpdateQueue finishedWork finishedQueue instance =>
      commitUpdateQueue finishedWork finishedQueue instance
  | OpFinishQueueingConcurrentUpdates fuel =>
      finishQueueingConcurrentUpdates fuel
  | OpEnqueueConcurrentRenderForLane fuel fiber lane =>
      enqueueConcurrentRenderForLane fuel fiber lane ;;;
      ret tt
  end.

(** A call that throws leaves the world it reached; the calls after it go
    on from there. *)
Fixpoint runOps (ops : list Op) (w : World) : World :=
  match ops with
  | [] => w
  | op :: rest => runOps rest (snd (runOp op w))
  end.

(** How often the warning about an update inside an update function was
    printed. *)
Definition warnings (w : World) : nat :=
  length (filter (fun m => m = updateInsideUpdateWarning) (console w)).

Definition mayStillWarn (w : World) : nat :=
  if didWarnUpdateInsideUpdate w then 0%nat else 1%nat.

(** The world without the diagnostics of the development build. *)
Definition withoutDiagnostics (w : World) : World :=
  with_console [] (with_didWarnUpdateInsideUpdate false
    (with_currentlyProcessingQueue None w)).

(** A record whose [callback] is [null]. *)
Definition cleared (w : World) (e : ptr) : Prop :=
  exists u, updates w !! e = Some u /\ update_callback u = None.

Definition invokedFrom (e : ptr) (ev : Event) : Prop :=
  match ev with
  | CallbackInvoked source _ _ => source = e
  | _ => False
  end.

(** What every call into the module keeps: a cleared callback stays
    cleared, no callback is invoked from a cleared record, and the warning
    is printed at most once more, and only if it was never printed. *)
Definition evolves (w w' : World) : Prop :=
  (forall e, cleared w e -> cleared w' e) /\
  (exists evs,
     calls w' = calls w ++ evs /\
     forall e, cleared w e -> Forall (fun ev => ~ invokedFrom e ev) evs) /\
  (warnings w' + mayStillWarn w' <= warnings w + mayStillWarn w)%nat.

Definition respects {A} (m : M A) : Prop :=
  forall w, evolves w (snd (m w)).

(** The invocations of a drain of [effects]: in insertion order, one for
    the first occurrence of each record whose callback is a function. *)
Fixpoint invocations (h : gmap ptr Update) (instance : JsValue)
    (seen : list ptr) (effects : list ptr) : list Event :=
  match effects with
  | [] => []
  | e :: rest =>
      (if bool_decide (e ∈ seen) then []
       else
         match h !! e ≫= update_callback with
         | Some (Callable fn) => [CallbackInvoked e fn instance]
         | _ => []
         end) ++ invocations h instance (e :: seen) rest
  end.

(** The diagnostics of the development build, set all at once. *)
Definition setDiagnostics (c : list string) (d : bool) (p : option ptr)
    (w : World) : World :=
  with_console c (with_didWarnUpdateInsideUpdate d
    (with_currentlyProcessingQueue p w)).

(** A computation that neither reads nor writes the diagnostics. *)
Definition ignoresDiagnostics {A} (m : M A) : Prop :=
  forall w c d p,
    m (setDiagnostics c d p w)
    = (fst (m w), setDiagnostics c d p (snd (m w))).

(** ** What the walk relies on, and what it represents *)

(** The fiber [wip] owns [queue], whose pending list is empty and whose
    effects, if any, are an array. *)
Definition queueReady (w : World) (wip queue : ptr) : Prop :=
  exists wf q sq,
    fibers w !! wip = Some wf /\
    fiber_updateQueue wf = Some queue /\
    updateQueues w !! queue = Some q /\
    sharedQueues w !! queue_shared q = Some sq /\
    shared_pending sq = None /\
    (forall a, queue_effects q = Some a -> is_Some (arrays w !! a)).

(** The variables of the walk hold what the walk on the list of records
    has accumulated, and the clones are linked at [cps]. *)
Definition walkRep (h : gmap ptr Update) (v : Walk) (a : Acc)
    (cps : list ptr) : Prop :=
  newState v = acc_state a /\
  newLanes v = acc_lanes a /\
  (cps <> [] -> newBaseState v = acc_base a) /\
  chain h (newFirstBaseUpdate v) cps /\
  newLastBaseUpdate v = last cps /\
  Forall2 (fun p r => exists u, h !! p = Some u /\ unlinked u = r)
    cps (acc_clones a).

(** What the queue of the alternate may look like when a pending list is
    transferred: its last base update is the one of the queue at hand, or
    none, or a record outside of the lists at hand. *)
Definition twinOk (w : World) (wf : Fiber) (q : UpdateQueue)
    (ps : list ptr) : Prop :=
  match fiber_alternate wf with
  | None => True
  | Some current =>
      exists cf cq cqr,
        fibers w !! current = Some cf /\
        fiber_updateQueue cf = Some cq /\
        updateQueues w !! cq = Some cqr /\
        (queue_lastBaseUpdate cqr = queue_lastBaseUpdate q \/
         queue_lastBaseUpdate cqr = None \/
         exists c, queue_lastBaseUpdate cqr = Some c /\ (c ∉ ps) /\
                   is_Some (updates w !! c))
  end.

(** The start of a walk from a base state. *)
Definition startAcc (base : JsValue) : Acc := mkAcc base NoLanes JsNull [].

(** The queue of the fiber [wip] holds the base state [base], the durable
    list [ps1] and the pending list [ps2]. *)
Definition queueHolds (w : World) (wip queue : ptr) (base : JsValue)
    (ps1 ps2 : list ptr) : Prop :=
  exists wf q sq,
    fibers w !! wip = Some wf /\
    fiber_updateQueue wf = Some queue /\
    updateQueues w !! queue = Some q /\
    queue_baseState q = base /\
    chain (updates w) (queue_firstBaseUpdate q) ps1 /\
    queue_lastBaseUpdate q = last ps1 /\
    sharedQueues w !! queue_shared q = Some sq /\
    ring (updates w) (shared_pending sq) ps2 /\
    (forall p, p ∈ ps1 -> p ∉ ps2) /\
    (forall a, queue_effects q = Some a -> is_Some (arrays w !! a)) /\
    (ps2 <> [] -> twinOk w wf q (ps1 ++ ps2)).

(** Two stores with the same records up to their links. *)
Definition sameRecords (h h' : gmap ptr Update) : Prop :=
  forall p,
    match h !! p, h' !! p with
    | Some u, Some u' => unlinked u' = unlinked u
    | None, None => True
    | _, _ => False
    end.

(** Two stores with the same queues up to their base lists. *)
Definition sameQueues (Q Q' : gmap ptr UpdateQueue) : Prop :=
  forall x,
    match Q !! x, Q' !! x with
    | Some a, Some b =>
        queue_baseState b = queue_baseState a /\
        queue_shared b = queue_shared a /\
        queue_effects b = queue_effects a
    | None, None => True
    | _, _ => False
    end.

(** ** Replaying a queue to completion *)

(** The queue of [wip] holds no record, and both its base state and the
    state of the fiber are [target]. *)
Definition settledAt (wip queue : ptr) (target : JsValue) (w : World)
  : Prop :=
  exists wf q,
    fibers w !! wip = Some wf /\
    fiber_memoizedState wf = target /\
    updateQueues w !! queue = Some q /\
    queue_baseState q = target /\
    queue_firstBaseUpdate q = None /\
    queue_lastBaseUpdate q = None.

(** ** A queue of four updates at two priorities *)

(** An update function that appends a letter to a state that is a string. *)
Definition appendLetter (c : string) : Payload :=
  PayloadFunction
    (fun _ prevState _ =>
       match prevState with
       | JsString s => JsString (s ++ c)
       | _ => JsString c
       end).

(** The record of an update that replaces the state by the state with one
    more letter. *)
Definition letterUpdate (lane : Lane) (c : string) (next : option ptr)
  : Update :=
  mkUpdate 0 lane ReplaceState (appendLetter c) None next.

Definition P1 : Lane := 1.
Definition P2 : Lane := 2.

(** The fiber 0 owns the queue 0, whose base state is the empty string and
    whose durable list is A at P1, B at P2, C at P1 and D at P2. *)
Definition fourLetters : World :=
  mkWorld
    (list_to_map
       [(1%nat, letterUpdate P1 "A" (Some 2%nat));
        (2%nat, letterUpdate P2 "B" (Some 3%nat));
        (3%nat, letterUpdate P1 "C" (Some 4%nat));
        (4%nat, letterUpdate P2 "D" None)])
    {[ 0%nat := mkSharedQueue None NoLanes ]}
    {[ 0%nat := mkUpdateQueue (JsString EmptyString) (Some 1%nat) (Some 4%nat)
                  0%nat None ]}
    ∅
    {[ 0%nat := mkFiber (OtherWorkTag 1) None None None NoFlags NoLanes
                  NoLanes JsNull (Some 0%nat) ]}
    ∅ ∅ false false None [] 0 NoLanes true NoLanes (fun _ => false) [] [].

(** The fiber 0 owns the queue 0, which was entangled with the transition
    lane 64 and whose durable list is the single update A at that lane. *)
Definition oneTransition : World :=
  mkWorld
    {[ 1%nat := letterUpdate 64 "A" None ]}
    {[ 0%nat := mkSharedQueue None 64 ]}
    {[ 0%nat := mkUpdateQueue (JsString EmptyString) (Some 1%nat) (Some 1%nat)
                  0%nat None ]}
    ∅
    {[ 0%nat := mkFiber (OtherWorkTag 1) None None None NoFlags 64
                  NoLanes JsNull (Some 0%nat) ]}
    ∅ ∅ false false None [] 0 NoLanes true NoLanes (fun _ => false) [] [].

(** ** What one pass does to the list of records *)

(** The records that come before the first one that the pass skips. *)
Fixpoint beforeFirstSkipped (rootRenderLanes renderLanes : Lanes)
    (us : list Update) : list Update :=
  match us with
  | [] => []
  | u :: rest =>
      if shouldSkipUpdate rootRenderLanes renderLanes u then []
      else u :: beforeFirstSkipped rootRenderLanes renderLanes rest
  end.

(** The records from the first one that the pass skips. *)
Fixpoint fromFirstSkipped (rootRenderLanes renderLanes : Lanes)
    (us : list Update) : list Update :=
  match us with
  | [] => []
  | u :: rest =>
      if shouldSkipUpdate rootRenderLanes renderLanes u then us
      else fromFirstSkipped rootRenderLanes renderLanes rest
  end.

(** The records that the pass does not skip. *)
Definition notSkipped (rootRenderLanes renderLanes : Lanes)
    (us : list Update) : list Update :=
  List.filter (fun u => negb (shouldSkipUpdate rootRenderLanes renderLanes u))
    us.

(** The clone that the reduced list keeps of a record. *)
Definition keptClone (rootRenderLanes renderLanes : Lanes) (u : Update)
  : Update :=
  if shouldSkipUpdate rootRenderLanes renderLanes u then skippedClone u
  else rebasedClone u.

(** ** What a computation leaves alone *)

(** The computation [m] never changes what [g] reads of the world, whether
    it returns or throws. *)
Definition unchanged {X A} (g : World -> X) (m : M A) : Prop :=
  forall w, g (snd (m w)) = g w.

(** ** A class component under a root *)

(** The fiber 2 is a class component with the queue 0, its parent is the
    host root fiber 1 of the root 100; the records 1 and 2 are updates that
    were created and not enqueued yet. *)
Definition classUnderRoot : World :=
  mkWorld
    (list_to_map
       [(1%nat, mkUpdate 0 1 UpdateState (PayloadValue JsNull) None None);
        (2%nat, mkUpdate 0 1 UpdateState (PayloadValue JsNull) None None)])
    {[ 0%nat := mkSharedQueue None NoLanes ]}
    {[ 0%nat := mkUpdateQueue JsNull None None 0%nat None ]}
    ∅
    (list_to_map
       [(1%nat, mkFiber HostRoot (Some 100%nat) None None NoFlags NoLanes
                  NoLanes JsNull None);
        (2%nat, mkFiber (OtherWorkTag 1) None (Some 1%nat) None NoFlags
                  NoLanes NoLanes JsNull (Some 0%nat))])
    ∅ {[ 100%nat := mkFiberRoot NoLanes ]}
    false false None [] 0 NoLanes true NoLanes (fun _ => false) [] [].

(** The same, while the class component is being rendered. *)
Definition classUnderRootRendering : World :=
  mkWorld (updates classUnderRoot) (sharedQueues classUnderRoot)
    (updateQueues classUnderRoot) (arrays classUnderRoot)
    (fibers classUnderRoot) (offscreenInstances classUnderRoot)
    (fiberRoots classUnderRoot) false false None [] 0 NoLanes true NoLanes
    (fun fiber => bool_decide (fiber = 2%nat)) [] [].

(** ** What a walk does besides computing the state *)

(** The effects of a queue: the content of its [effects] array, and nothing
    when the field is [null]. *)
Definition effectsOf (w : World) (queue : ptr) : list ptr :=
  match updateQueues w !! queue ≫= queue_effects with
  | Some a => default [] (arrays w !! a)
  | None => []
  end.

Definition isForceUpdate (u : Update) : bool :=
  match update_tag u with
  | ForceUpdate => true
  | _ => false
  end.

(** Whether a processed record goes to the effects: it has a callback and
    its lane is not [NoLane]. *)
Definition hasEffect (u : Update) : bool :=
  match update_callback u with
  | Some _ => negb (update_lane u =? NoLane)
  | None => false
  end.

(** The flags of the fiber after [getStateFromUpdate] on a record. *)
Definition flagsAfterState (u : Update) (flags : Z) : Z :=
  match update_tag u with
  | CaptureUpdate => Z.lor (Z.land flags (Z.lnot ShouldCapture)) DidCapture
  | _ => flags
  end.

(** The flags of the fiber after a processed record. *)
Definition flagsAfterUpdate (u : Update) (flags : Z) : Z :=
  if hasEffect u then Z.lor (flagsAfterState u flags) Callback
  else flagsAfterState u flags.

(** What a walk leaves besides the state: [hasForceUpdate], the effects of
    the queue and the flags of the fiber. *)
Record Side := mkSide {
  side_force : bool;
  side_effects : list ptr;
  side_flags : option Z;
}.

Definition sideOf (wip queue : ptr) (w : World) : Side :=
  mkSide (hasForceUpdate w) (effectsOf w queue)
    (fiber_flags <$> fibers w !! wip).

Definition stepSide (rootRenderLanes renderLanes : Lanes) (s : Side)
    (entry : ptr * Update) : Side :=
  if shouldSkipUpdate rootRenderLanes renderLanes (snd entry) then s
  else
    mkSide (side_force s || isForceUpdate (snd entry))
      (side_effects s ++
       (if hasEffect (snd entry) then [fst entry] else []))
      (flagsAfterUpdate (snd entry) <$> side_flags s).

Definition walkSide (rootRenderLanes renderLanes : Lanes) (s : Side)
    (entries : list (ptr * Update)) : Side :=
  fold_left (stepSide rootRenderLanes renderLanes) entries s.

(** The records at a list of references, each with its reference. *)
Definition entriesAt (h : gmap ptr Update) (ps : list ptr)
  : list (ptr * Update) :=
  omap (fun p => pair p <$> h !! p) ps.

(** The references of the records that a pass sends to the effects, in the
    order of the list. *)
Definition effectsPushed (rootRenderLanes renderLanes : Lanes)
    (entries : list (ptr * Update)) : list ptr :=
  map fst
    (List.filter
       (fun entry =>
          negb (shouldSkipUpdate rootRenderLanes renderLanes (snd entry))
          && hasEffect (snd entry))
       entries).
Definition isCaptureUpdate (u : Update) : bool :=
  match update_tag u with
  | CaptureUpdate => true
  | _ => false
  end.

(** The flags of the fiber after a pass: [captured] tells whether a
    [CaptureUpdate] was processed, [collected] whether a record went to the
    effects. *)
Definition flagsAfterPass (captured collected : bool) (flags : Z) : Z :=
  let flags :=
    if captured then Z.lor (Z.land flags (Z.lnot ShouldCapture)) DidCapture
    else flags in
  if collected then Z.lor flags Callback else flags.

(** The fiber 0, which was asked to capture, owns the queue 0 whose durable
    list is: a state update with the callback 11 at P1, a forced update with
    the callback 12 at P2, a captured update without callback at P1 and a
    forced update with the callback 14 at P1. *)
Definition withCallbacks : World :=
  mkWorld
    (list_to_map
       [(1%nat, mkUpdate 0 P1 UpdateState (PayloadValue JsNull)
                  (Some (Callable 11)) (Some 2%nat));
        (2%nat, mkUpdate 0 P2 ForceUpdate (PayloadValue JsNull)
                  (Some (Callable 12)) (Some 3%nat));
        (3%nat, mkUpdate 0 P1 CaptureUpdate (PayloadValue JsNull)
                  None (Some 4%nat));
        (4%nat, mkUpdate 0 P1 ForceUpdate (PayloadValue JsNull)
                  (Some (Callable 14)) None)])
    {[ 0%nat := mkSharedQueue None NoLanes ]}
    {[ 0%nat := mkUpdateQueue (JsString EmptyString) (Some 1%nat) (Some 4%nat)
                  0%nat None ]}
    ∅
    {[ 0%nat := mkFiber (OtherWorkTag 1) None None None ShouldCapture NoLanes
                  NoLanes JsNull (Some 0%nat) ]}
    ∅ ∅ false false None [] 0 NoLanes true NoLanes (fun _ => false) [] [].

(** ** The fibers without their lanes *)

(** A fiber with its [lanes] and [childLanes] blanked: what is left is its
    other fields. *)
Definition otherFields (f : Fiber) : Fiber :=
  set_fiber_lanes NoLanes (set_fiber_childLanes NoLanes f).

Definition fibersButLanes (w : World) : gmap ptr Fiber :=
  otherFields <$> fibers w.

(** The class component 2 under the host root 1 of the root 100, with an
    empty queue 0 whose base state is the empty string; the record 1 is an
    update at P1 that was created and not enqueued yet. *)
Definition letterUnderRoot : World :=
  mkWorld
    {[ 1%nat := letterUpdate P1 "A" None ]}
    {[ 0%nat := mkSharedQueue None NoLanes ]}
    {[ 0%nat := mkUpdateQueue (JsString EmptyString) None None 0%nat None ]}
    ∅
    (list_to_map
       [(1%nat, mkFiber HostRoot (Some 100%nat) None None NoFlags NoLanes
                  NoLanes JsNull None);
        (2%nat, mkFiber (OtherWorkTag 1) None (Some 1%nat) None NoFlags
                  NoLanes NoLanes JsNull (Some 0%nat))])
    ∅ {[ 100%nat := mkFiberRoot NoLanes ]}
    false false None [] 0 NoLanes true NoLanes (fun _ => false) [] [].

(** The work-in-progress fiber 0 and its alternate 5 have the queues 0 and 1,
    which are two objects with the same fields, as [cloneUpdateQueue] leaves
    them: the base list is the update A, and the pending list that they
    share is the update B. *)
Definition twinQueues : World :=
  mkWorld
    (list_to_map
       [(1%nat, letterUpdate P1 "A" None);
        (2%nat, letterUpdate P1 "B" (Some 2%nat))])
    {[ 0%nat := mkSharedQueue (Some 2%nat) P1 ]}
    (list_to_map
       [(0%nat, mkUpdateQueue (JsString EmptyString) (Some 1%nat)
                  (Some 1%nat) 0%nat None);
        (1%nat, mkUpdateQueue (JsString EmptyString) (Some 1%nat)
                  (Some 1%nat) 0%nat None)])
    ∅
    (list_to_map
       [(0%nat, mkFiber (OtherWorkTag 1) None None (Some 5%nat) NoFlags
                  NoLanes NoLanes JsNull (Some 0%nat));
        (5%nat, mkFiber (OtherWorkTag 1) None None (Some 0%nat) NoFlags
                  NoLanes NoLanes JsNull (Some 1%nat))])
    ∅ ∅ false false None [] 0 NoLanes true NoLanes (fun _ => false) [] [].

(** ** Passes until every record was processed *)

(** Whether [processUpdateQueue] processes the record at this pass. *)
Definition processedAt (pass : Lanes * Lanes) (u : Update) : bool :=
  negb (shouldSkipUpdate (fst pass) (snd pass) u).

(** Whether one of the passes, made in this order, processes the record:
    the first pass does, or it skips the record, which then stays in the
    queue as a clone at its lane, and one of the next passes processes that
    clone. *)
Fixpoint processedBy (passes : list (Lanes * Lanes)) (u : Update) : bool :=
  match passes with
  | [] => false
  | pass :: rest => processedAt pass u || processedBy rest (skippedClone u)
  end.

(** What is left to the passes still to come: each record that the queue of
    [wip] holds is processed by one of [passes], and the records, applied in
    insertion order to the base state of the queue, give [target]; when the
    queue holds no record at all, [target] is already the state of the
    fiber. *)
Definition settlesAfter (fuel : nat) (wip queue : ptr)
    (props instance : JsValue) (passes : list (Lanes * Lanes))
    (target : JsValue) (w : World) : Prop :=
  exists base ps1 ps2,
    queueHolds w wip queue base ps1 ps2 /\
    (length (ps1 ++ ps2) <= fuel)%nat /\
    Forall (fun u => processedBy passes u = true)
      (recordsAt (updates w) (ps1 ++ ps2)) /\
    applyAllInOrder props instance base (recordsAt (updates w) (ps1 ++ ps2))
    = target /\
    (ps1 ++ ps2 = [] ->
     exists wf, fibers w !! wip = Some wf /\ fiber_memoizedState wf = target).

(** * Proofs *)

(** ** Running computations *)

Lemma bind_load {V B} (store : World -> gmap ptr V) p v (k : V -> M B) w :
  store w !! p = Some v -> bind (load store p) k w = k v w.
Proof. intros H. unfold bind, load. now rewrite H. Qed.

Lemma bind_storeUpdate {B} p f u (k : unit -> M B) w :
  updates w !! p = Some u ->
  bind (storeUpdate p f) k w
  = k tt (with_updates (<[p := f u]> (updates w)) w).
Proof. intros H. unfold storeUpdate, bind, load, modify. now rewrite H. Qed.

Lemma bind_storeSharedQueue {B} p f q (k : unit -> M B) w :
  sharedQueues w !! p = Some q ->
  bind (storeSharedQueue p f) k w
  = k tt (with_sharedQueues (<[p := f q]> (sharedQueues w)) w).
Proof. intros H. unfold storeSharedQueue, bind, load, modify. now rewrite H. Qed.

Lemma bind_storeUpdateQueue {B} p f q (k : unit -> M B) w :
  updateQueues w !! p = Some q ->
  bind (storeUpdateQueue p f) k w
  = k tt (with_updateQueues (<[p := f q]> (updateQueues w)) w).
Proof. intros H. unfold storeUpdateQueue, bind, load, modify. now rewrite H. Qed.

Lemma bind_storeFiber {B} p f x (k : unit -> M B) w :
  fibers w !! p = Some x ->
  bind (storeFiber p f) k w
  = k tt (with_fibers (<[p := f x]> (fibers w)) w).
Proof. intros H. unfold storeFiber, bind, load, modify. now rewrite H. Qed.

Lemma run_storeFiber p f x w :
  fibers w !! p = Some x ->
  storeFiber p f w = (Return tt, with_fibers (<[p := f x]> (fibers w)) w).
Proof. intros H. unfold storeFiber, bind, load, modify. now rewrite H. Qed.

Lemma run_storeUpdate p f u w :
  updates w !! p = Some u ->
  storeUpdate p f w = (Return tt, with_updates (<[p := f u]> (updates w)) w).
Proof. intros H. unfold storeUpdate, bind, load, modify. now rewrite H. Qed.

Lemma run_storeSharedQueue p f q w :
  sharedQueues w !! p = Some q ->
  storeSharedQueue p f w
  = (Return tt, with_sharedQueues (<[p := f q]> (sharedQueues w)) w).
Proof. intros H. unfold storeSharedQueue, bind, load, modify. now rewrite H. Qed.

Lemma run_storeUpdateQueue p f q w :
  updateQueues w !! p = Some q ->
  storeUpdateQueue p f w
  = (Return tt, with_updateQueues (<[p := f q]> (updateQueues w)) w).
Proof. intros H. unfold storeUpdateQueue, bind, load, modify. now rewrite H. Qed.

Lemma bind_assoc {A B C} (m : M A) (f : A -> M B) (g : B -> M C) w :
  bind (bind m f) g w = bind m (fun x => bind (f x) g) w.
Proof. unfold bind. destruct (m w) as [[a|e] w']; reflexivity. Qed.

Lemma bind_ret_l {A B} (a : A) (k : A -> M B) w : bind (ret a) k w = k a w.
Proof. reflexivity. Qed.

Lemma bind_emit {B} ev (k : unit -> M B) w :
  bind (emit ev) k w = k tt (with_calls (calls w ++ [ev]) w).
Proof. reflexivity. Qed.

Lemma bind_run {A B} (m : M A) (k : A -> M B) w a w' :
  m w = (Return a, w') -> bind m k w = k a w'.
Proof. intros H. unfold bind. now rewrite H. Qed.

Lemma bind_throws {A B} (m : M A) (k : A -> M B) w e w' :
  m w = (Throw e, w') -> bind m k w = (Throw e, w').
Proof. intros H. unfold bind. now rewrite H. Qed.

(** ** C10: an [UpdateState] payload that is, or returns, [null] or
    [undefined] *)

(** C10.  For every previous state [s], props [p] and update [u] with tag
    [UpdateState] whose payload is [null] or [undefined], or whose payload
    function returns [null] or [undefined], [getStateFromUpdate] returns [s]
    itself, and nothing in the world changes: no object is made and nothing
    is merged. *)
Theorem getStateFromUpdate_null_partial_state
    (w : World) (workInProgress queue update : ptr) (u : Update)
    (s p instance : JsValue) :
  updates w !! update = Some u ->
  update_tag u = UpdateState ->
  (update_payload u = PayloadValue JsNull \/
   update_payload u = PayloadValue JsUndefined \/
   exists f, update_payload u = PayloadFunction f /\
     (f instance s p = JsNull \/ f instance s p = JsUndefined)) ->
  getStateFromUpdate workInProgress queue update s p instance w
  = (Return s, w).
Proof.
  intros Hu Htag Hpayload.
  unfold getStateFromUpdate.
  rewrite (bind_load updates _ _ _ _ Hu), Htag.
  unfold ret, updateStateCase.
  destruct Hpayload as [-> | [-> | (f & -> & [-> | ->])]]; reflexivity.
Qed.

Lemma getStateFromUpdate_null_partial_state_witness :
  let u := mkUpdate 0 1 UpdateState
             (PayloadFunction (fun _ _ _ => JsUndefined)) None None in
  let w := mkWorld {[ 1%nat := u ]} ∅ ∅ ∅ ∅ ∅ ∅ false false None [] 0 0 true
             0 (fun _ => false) [] [] in
  getStateFromUpdate 0%nat 0%nat 1%nat (JsObject {[ "count" := JsNumber 1 ]})
    JsNull JsNull w
  = (Return (JsObject {[ "count" := JsNumber 1 ]}), w).
Proof.
  intros u w.
  apply (getStateFromUpdate_null_partial_state w 0%nat 0%nat 1%nat u).
  - reflexivity.
  - reflexivity.
  - right. right. exists (fun _ _ _ => JsUndefined). split; [reflexivity|].
    right. reflexivity.
Defined.

(** ** C8: enqueueing against an unmounted fiber *)

(** C8.  For every fiber whose [updateQueue] is [null],
    [enqueueUpdate(fiber, update, lane)] returns [null] and leaves the whole
    world as it was: nothing is linked, no lane is merged, nothing is
    logged and nothing is thrown. *)
Theorem enqueueUpdate_unmounted_fiber
    (w : World) (fuel : nat) (fiber update : ptr) (lane : Lane) (f : Fiber) :
  fibers w !! fiber = Some f ->
  fiber_updateQueue f = None ->
  ReactFiberClassUpdateQueue.enqueueUpdate fuel fiber update lane w
  = (Return None, w).
Proof.
  intros Hf Hq.
  unfold ReactFiberClassUpdateQueue.enqueueUpdate.
  rewrite (bind_load fibers _ _ _ _ Hf), Hq.
  reflexivity.
Qed.

Lemma enqueueUpdate_unmounted_fiber_witness :
  let f := mkFiber (OtherWorkTag 1) None None None 0 0 0 JsNull None in
  let w := mkWorld ∅ ∅ ∅ ∅ {[ 7%nat := f ]} ∅ ∅ false false None [] 0 0 true
             0 (fun _ => true) [] [] in
  ReactFiberClassUpdateQueue.enqueueUpdate 5 7%nat 1%nat 1 w = (Return None, w).
Proof.
  intros f w.
  apply (enqueueUpdate_unmounted_fiber w 5 7%nat 1%nat 1 f); reflexivity.
Defined.

(** ** C7: entangling transitions *)

Lemma pruned_lane_stays_out (old pending lane stale : Lanes) :
  intersectLanes stale pending = NoLanes ->
  intersectLanes stale lane = NoLanes ->
  intersectLanes (mergeLanes (intersectLanes old pending) lane) stale
  = NoLanes.
Proof.
  unfold intersectLanes, mergeLanes, NoLanes. intros Hp Hl.
  rewrite Z.land_lor_distr_l.
  rewrite <- Z.land_assoc, (Z.land_comm pending stale), Hp.
  rewrite (Z.land_comm lane stale), Hl.
  now rewrite Z.land_0_r.
Qed.

(** C7.  For a mounted fiber and a transition lane, [entangleTransitions]
    sets the shared lanes of the queue to
    [merge(intersect(oldSharedLanes, root.pendingLanes), lane)], calls
    [markRootEntangled] with exactly that set and changes nothing else; a
    lane that is not pending on the root and is not the lane being entangled
    is absent from the new set.  For a lane that is not a transition lane
    the call changes nothing. *)
Theorem entangleTransitions_prunes_and_merges
    (w : World) (root fiber : ptr) (lane : Lane)
    (f : Fiber) (updateQueue : ptr) (q : UpdateQueue) (sq : SharedQueue)
    (r : FiberRoot) :
  fibers w !! fiber = Some f ->
  fiber_updateQueue f = Some updateQueue ->
  updateQueues w !! updateQueue = Some q ->
  sharedQueues w !! queue_shared q = Some sq ->
  fiberRoots w !! root = Some r ->
  let newQueueLanes :=
    mergeLanes (intersectLanes (shared_lanes sq) (root_pendingLanes r)) lane in
  (isTransitionLane lane = true ->
   entangleTransitions root fiber lane w
   = (Return tt,
      with_calls (calls w ++ [MarkRootEntangled root newQueueLanes])
        (with_sharedQueues
           (<[queue_shared q := set_shared_lanes newQueueLanes sq]>
              (sharedQueues w)) w)) /\
   forall stale : Lanes,
     intersectLanes stale (root_pendingLanes r) = NoLanes ->
     intersectLanes stale lane = NoLanes ->
     intersectLanes newQueueLanes stale = NoLanes) /\
  (isTransitionLane lane = false ->
   entangleTransitions root fiber lane w = (Return tt, w)).
Proof.
  intros Hf Huq Hq Hsq Hr newQueueLanes.
  unfold entangleTransitions.
  rewrite (bind_load fibers _ _ _ _ Hf), Huq.
  rewrite (bind_load updateQueues _ _ _ _ Hq).
  split; intros Ht; rewrite Ht.
  - split.
    + rewrite (bind_load sharedQueues _ _ _ _ Hsq).
      rewrite (bind_load fiberRoots _ _ _ _ Hr).
      rewrite (bind_storeSharedQueue _ _ _ _ _ Hsq).
      reflexivity.
    + intros stale. apply pruned_lane_stays_out.
  - reflexivity.
Qed.

Lemma entangleTransitions_prunes_and_merges_witness :
  let T1 : Lane := 2 ^ 6 in
  let T2 : Lane := 2 ^ 7 in
  let f := mkFiber (OtherWorkTag 1) None None None 0 0 0 JsNull (Some 0%nat) in
  let q := mkUpdateQueue JsNull None None 0%nat None in
  let sq := mkSharedQueue None (mergeLanes T1 T2) in
  let r := mkFiberRoot T2 in
  let w := mkWorld ∅ {[ 0%nat := sq ]} {[ 0%nat := q ]} ∅ {[ 1%nat := f ]} ∅
             {[ 9%nat := r ]} false false None [] 0 0 true 0
             (fun _ => false) [] [] in
  snd (entangleTransitions 9%nat 1%nat T2 w)
  = with_calls [MarkRootEntangled 9%nat T2]
      (with_sharedQueues {[ 0%nat := mkSharedQueue None T2 ]} w)
  /\ intersectLanes T2 T1 = NoLanes.
Proof.
  intros T1 T2 f q sq r w.
  destruct (entangleTransitions_prunes_and_merges w 9%nat 1%nat T2 f 0%nat q
              sq r eq_refl eq_refl eq_refl eq_refl eq_refl) as [Ht _].
  destruct (Ht eq_refl) as [Hrun Hprune].
  split.
  - rewrite Hrun. reflexivity.
  - apply (Hprune T1); reflexivity.
Defined.

(** ** C5: propagating a lane to the root *)

Lemma mergeFiberChildLanes_idem lane f :
  mergeFiberChildLanes lane (mergeFiberChildLanes lane f)
  = mergeFiberChildLanes lane f.
Proof.
  unfold mergeFiberChildLanes, set_fiber_childLanes, mergeLanes; simpl.
  now rewrite <- Z.lor_assoc, Z.lor_diag.
Qed.

Lemma mergeFiberLanes_idem lane f :
  mergeFiberLanes lane (mergeFiberLanes lane f) = mergeFiberLanes lane f.
Proof.
  unfold mergeFiberLanes, set_fiber_lanes, mergeLanes; simpl.
  now rewrite <- Z.lor_assoc, Z.lor_diag.
Qed.

Lemma sameShape_refl F : sameShape F F.
Proof. intros x. destruct (F !! x); auto. Qed.

Lemma sameShape_trans F G H : sameShape F G -> sameShape G H -> sameShape F H.
Proof.
  intros A B x. specialize (A x). specialize (B x).
  destruct (F !! x), (G !! x), (H !! x); try tauto.
  destruct A as (?&?&?&?), B as (?&?&?&?). repeat split; congruence.
Qed.

Lemma sameShape_insert F p f g :
  F !! p = Some f ->
  fiber_tag g = fiber_tag f -> fiber_stateNode g = fiber_stateNode f ->
  fiber_return g = fiber_return f -> fiber_alternate g = fiber_alternate f ->
  sameShape F (<[p := g]> F).
Proof.
  intros Hp ? ? ? ? x. destruct (decide (x = p)) as [->|Hne].
  - rewrite Hp, lookup_insert_eq. auto.
  - rewrite lookup_insert_ne by congruence. destruct (F !! x); auto.
Qed.

Lemma sameShape_lookup F G x f :
  sameShape F G -> F !! x = Some f ->
  exists g, G !! x = Some g /\ fiber_tag g = fiber_tag f /\
            fiber_stateNode g = fiber_stateNode f /\
            fiber_return g = fiber_return f /\
            fiber_alternate g = fiber_alternate f.
Proof.
  intros S Hx. specialize (S x). rewrite Hx in S.
  destruct (G !! x) as [g|]; [|contradiction].
  exists g. destruct S as (?&?&?&?). auto.
Qed.

Lemma sameShape_sym F G : sameShape F G -> sameShape G F.
Proof.
  intros S x. specialize (S x).
  destruct (F !! x), (G !! x); try tauto.
  destruct S as (?&?&?&?). auto.
Qed.

Lemma returnPath_sameShape F G parent path :
  sameShape F G -> returnPath F parent path -> returnPath G parent path.
Proof.
  intros S. revert parent. induction path as [|p rest IH]; intros parent; simpl.
  - auto.
  - intros [-> (f & Hf & Hrest)]. split; [reflexivity|].
    destruct (sameShape_lookup _ _ _ _ S Hf) as (g & Hg & _ & _ & Hret & _).
    exists g. split; [exact Hg|]. rewrite Hret. auto.
Qed.

Lemma alternatesOf_sameShape F G ps :
  sameShape F G -> alternatesOf F ps = alternatesOf G ps.
Proof.
  intros S. unfold alternatesOf.
  induction ps as [|p ps IH]; csimpl; [reflexivity|].
  rewrite IH. specialize (S p).
  destruct (F !! p), (G !! p); simpl; try tauto.
  destruct S as (_&_&_&->). reflexivity.
Qed.

Lemma markedFiber_shape lane own anc x f :
  fiber_tag (markedFiber lane own anc x f) = fiber_tag f /\
  fiber_stateNode (markedFiber lane own anc x f) = fiber_stateNode f /\
  fiber_return (markedFiber lane own anc x f) = fiber_return f /\
  fiber_alternate (markedFiber lane own anc x f) = fiber_alternate f.
Proof.
  unfold markedFiber. repeat case_bool_decide; simpl; auto.
Qed.

Lemma marked_sameShape lane own anc (F G : gmap ptr Fiber) :
  (forall x, G !! x = markedFiber lane own anc x <$> F !! x) ->
  sameShape F G.
Proof.
  intros H x. rewrite H. destruct (F !! x) as [f|]; simpl; [|exact I].
  destruct (markedFiber_shape lane own anc x f) as (?&?&?&?). auto.
Qed.

Lemma mergeFiber_comm lane f :
  mergeFiberChildLanes lane (mergeFiberLanes lane f)
  = mergeFiberLanes lane (mergeFiberChildLanes lane f).
Proof. reflexivity. Qed.

Lemma markedFiber_compose lane o1 a1 o2 a2 x f :
  markedFiber lane o2 a2 x (markedFiber lane o1 a1 x f)
  = markedFiber lane (o1 ++ o2) (a1 ++ a2) x f.
Proof.
  unfold markedFiber.
  repeat case_bool_decide;
    repeat match goal with
           | H : _ ∈ _ ++ _ |- _ => apply elem_of_app in H
           | H : ¬ (_ ∈ _ ++ _) |- _ => rewrite elem_of_app in H
           end;
    try tauto;
    rewrite ?mergeFiber_comm, ?mergeFiberLanes_idem, ?mergeFiberChildLanes_idem;
    try reflexivity;
    rewrite <- ?mergeFiber_comm, ?mergeFiberLanes_idem,
      ?mergeFiberChildLanes_idem;
    reflexivity.
Qed.

Lemma markedFiber_ext lane o1 a1 o2 a2 x f :
  (x ∈ o1 <-> x ∈ o2) -> (x ∈ a1 <-> x ∈ a2) ->
  markedFiber lane o1 a1 x f = markedFiber lane o2 a2 x f.
Proof.
  intros Ho Ha. unfold markedFiber.
  repeat case_bool_decide; try tauto; reflexivity.
Qed.

Lemma marked_compose lane o1 a1 o2 a2 (F G H : gmap ptr Fiber) :
  (forall x, G !! x = markedFiber lane o1 a1 x <$> F !! x) ->
  (forall x, H !! x = markedFiber lane o2 a2 x <$> G !! x) ->
  forall x, H !! x = markedFiber lane (o1 ++ o2) (a1 ++ a2) x <$> F !! x.
Proof.
  intros HG HH x. rewrite HH, HG.
  destruct (F !! x) as [f|]; simpl; [|reflexivity].
  now rewrite markedFiber_compose.
Qed.

Lemma marked_id lane (F : gmap ptr Fiber) :
  forall x, F !! x = markedFiber lane [] [] x <$> F !! x.
Proof.
  intros x. destruct (F !! x); reflexivity.
Qed.

Lemma marked_insert_child lane (F : gmap ptr Fiber) p f :
  F !! p = Some f ->
  forall x, <[p := mergeFiberChildLanes lane f]> F !! x
            = markedFiber lane [] [p] x <$> F !! x.
Proof.
  intros Hp x. unfold markedFiber. destruct (decide (x = p)) as [->|Hne].
  - rewrite lookup_insert_eq, Hp. simpl.
    rewrite bool_decide_eq_true_2 by (apply list_elem_of_singleton; reflexivity).
    reflexivity.
  - rewrite lookup_insert_ne by congruence.
    destruct (F !! x); simpl; [|reflexivity].
    rewrite bool_decide_eq_false_2; [reflexivity|].
    rewrite list_elem_of_singleton. congruence.
Qed.

Lemma marked_insert_own lane (F : gmap ptr Fiber) p f :
  F !! p = Some f ->
  forall x, <[p := mergeFiberLanes lane f]> F !! x
            = markedFiber lane [p] [] x <$> F !! x.
Proof.
  intros Hp x. unfold markedFiber. destruct (decide (x = p)) as [->|Hne].
  - rewrite lookup_insert_eq, Hp. simpl.
    rewrite bool_decide_eq_true_2 by (apply list_elem_of_singleton; reflexivity).
    reflexivity.
  - rewrite lookup_insert_ne by congruence.
    destruct (F !! x); simpl; [|reflexivity].
    rewrite bool_decide_eq_false_2; [reflexivity|].
    rewrite list_elem_of_singleton. congruence.
Qed.

(** Merging into the [childLanes] of a parent and of its alternate. *)
Lemma mark_parent_step lane p pf w {B} (k : Fiber -> M B) :
  fibers w !! p = Some pf ->
  (forall a, fiber_alternate pf = Some a -> is_Some (fibers w !! a)) ->
  exists F pf',
    (storeFiber p (mergeFiberChildLanes lane) ;;;
     pf <- load fibers p ;;
     match fiber_alternate pf with
     | Some alternate => storeFiber alternate (mergeFiberChildLanes lane)
     | None => ret tt
     end ;;;
     pf <- load fibers p ;; k pf) w
    = k pf' (with_fibers F w) /\
    F !! p = Some pf' /\
    forall x, F !! x
              = markedFiber lane [] (p :: option_list (fiber_alternate pf)) x
                  <$> fibers w !! x.
Proof.
  intros Hp Halt.
  rewrite (bind_storeFiber _ _ _ _ _ Hp).
  set (w1 := with_fibers _ w).
  assert (H1 : forall x, fibers w1 !! x
                         = markedFiber lane [] [p] x <$> fibers w !! x)
    by (apply marked_insert_child; exact Hp).
  assert (Hp1 : fibers w1 !! p = Some (mergeFiberChildLanes lane pf))
    by apply lookup_insert_eq.
  rewrite (bind_load fibers _ _ _ _ Hp1).
  change (fiber_alternate (mergeFiberChildLanes lane pf))
    with (fiber_alternate pf).
  destruct (fiber_alternate pf) as [a|] eqn:Ea.
  - destruct (Halt a eq_refl) as [af Haf].
    assert (Ha1 : exists af1, fibers w1 !! a = Some af1).
    { rewrite H1, Haf. simpl. eauto. }
    destruct Ha1 as [af1 Ha1].
    rewrite (bind_storeFiber _ _ _ _ _ Ha1).
    set (F2 := <[a := _]> (fibers w1)).
    assert (H2 : forall x, F2 !! x = markedFiber lane [] [a] x <$> fibers w1 !! x)
      by (apply marked_insert_child; exact Ha1).
    assert (H12 := marked_compose lane [] [p] [] [a] _ _ _ H1 H2).
    assert (Hp2 : exists pf', F2 !! p = Some pf').
    { rewrite H12, Hp. simpl. eauto. }
    destruct Hp2 as [pf' Hp2].
    exists F2, pf'. split; [|split].
    + unfold bind at 1. unfold load. simpl. rewrite Hp2. reflexivity.
    + exact Hp2.
    + exact H12.
  - exists (fibers w1), (mergeFiberChildLanes lane pf). split; [|split].
    + unfold bind at 1. unfold ret at 1.
      unfold bind at 1. unfold load. rewrite Hp1. reflexivity.
    + exact Hp1.
    + exact H1.
Qed.

Lemma isHiddenOffscreen_sameShape w F p :
  sameShape (fibers w) F ->
  isHiddenOffscreen (with_fibers F w) p = isHiddenOffscreen w p.
Proof.
  intros S. unfold isHiddenOffscreen. simpl. specialize (S p).
  destruct (fibers w !! p) as [f|], (F !! p) as [g|]; try tauto.
  destruct S as (-> & -> & _). reflexivity.
Qed.

Lemma alternatesClosed_sameShape w F ps :
  sameShape (fibers w) F ->
  alternatesClosed w ps -> alternatesClosed (with_fibers F w) ps.
Proof.
  intros S C p g a Hin Hg Ha. simpl in *.
  destruct (sameShape_lookup _ _ _ _ (sameShape_sym _ _ S) Hg)
    as (f & Hf & _ & _ & _ & Halt).
  destruct (C p f a Hin Hf) as [af Haf]; [congruence|].
  destruct (sameShape_lookup _ _ _ _ S Haf) as (ag & Hag & _). eauto.
Qed.

Lemma offscreenClosed_sameShape w F ps :
  sameShape (fibers w) F ->
  offscreenClosed w ps -> offscreenClosed (with_fibers F w) ps.
Proof.
  intros S C p g Hin Hg Ht. simpl in *.
  destruct (sameShape_lookup _ _ _ _ (sameShape_sym _ _ S) Hg)
    as (f & Hf & Htag & Hsn & _).
  destruct (C p f Hin Hf) as (i & Hi & Hinst); [congruence|].
  exists i. split; [congruence|exact Hinst].
Qed.

Lemma markUpdateLaneLoop_spec lane :
  forall path fuel hid node parent w,
    returnPath (fibers w) parent path ->
    alternatesClosed w path ->
    offscreenClosed w path ->
    (length path <= fuel)%nat ->
    exists F,
      markUpdateLaneLoop fuel lane hid node parent w
      = (Return (hid || existsb (isHiddenOffscreen w) path,
                 default node (last path)),
         with_fibers F w) /\
      forall x, F !! x
                = markedFiber lane []
                    (path ++ alternatesOf (fibers w) path) x
                    <$> fibers w !! x.
Proof.
  induction path as [|p rest IH]; intros fuel hid node parent w HP HA HO Hfuel.
  - simpl in HP. subst parent. exists (fibers w). split.
    + destruct fuel; simpl; rewrite orb_false_r; destruct w; reflexivity.
    + apply marked_id.
  - destruct HP as [-> (pf & Hp & Hrest)].
    destruct fuel as [|fuel]; [simpl in Hfuel; lia|].
    simpl markUpdateLaneLoop.
    destruct (mark_parent_step lane p pf w
                (fun pf0 =>
                   isHidden' <-
                     (if WorkTag_eqb (fiber_tag pf0) OffscreenComponent then
                        offscreenInstance <-
                          loadRef offscreenInstances (fiber_stateNode pf0) ;;
                        ret (if offscreen_isHidden offscreenInstance then true
                             else hid)
                      else ret hid) ;;
                   markUpdateLaneLoop fuel lane isHidden' p (fiber_return pf0))
                Hp) as (F2 & pf' & Hrun & Hp2 & HF2).
    { intros a Ha. apply (HA p pf a); [left|exact Hp|exact Ha]. }
    rewrite Hrun. clear Hrun.
    assert (S2 : sameShape (fibers w) F2) by (eapply marked_sameShape; eauto).
    destruct (sameShape_lookup _ _ _ _ S2 Hp) as (pf2 & Hpf2 & Htag & Hsn & Hret & Halt).
    rewrite Hp2 in Hpf2. injection Hpf2 as <-.
    set (w2 := with_fibers F2 w).
    assert (Hhid : exists hid',
      (if WorkTag_eqb (fiber_tag pf') OffscreenComponent then
         offscreenInstance <-
           loadRef offscreenInstances (fiber_stateNode pf') ;;
         ret (if offscreen_isHidden offscreenInstance then true else hid)
       else ret hid) w2 = (Return hid', w2) /\
      hid' = hid || isHiddenOffscreen w p).
    { unfold isHiddenOffscreen. rewrite Hp, Htag, Hsn.
      destruct (WorkTag_eqb (fiber_tag pf) OffscreenComponent) eqn:Et.
      - destruct (HO p pf) as (i & Hi & inst & Hinst); [left|exact Hp| |].
        { destruct (fiber_tag pf); simpl in Et; congruence. }
        rewrite Hi. simpl. rewrite Hinst.
        eexists. split.
        + unfold bind, load. simpl. rewrite Hinst. reflexivity.
        + destruct (offscreen_isHidden inst), hid; reflexivity.
      - eexists. split; [reflexivity|]. simpl. now rewrite orb_false_r. }
    destruct Hhid as (hid' & Hrunhid & Ehid).
    rewrite (bind_run _ _ _ _ _ Hrunhid).
    destruct (IH fuel hid' p (fiber_return pf') w2) as (F3 & Hloop & HF3).
    { rewrite Hret. eapply returnPath_sameShape; eauto. }
    { apply alternatesClosed_sameShape; [exact S2|].
      intros q f a Hin. apply HA. now right. }
    { apply offscreenClosed_sameShape; [exact S2|].
      intros q f Hin. apply HO. now right. }
    { simpl in Hfuel. lia. }
    exists F3. split.
    + assert (Eex : existsb (isHiddenOffscreen w2) rest
                    = existsb (isHiddenOffscreen w) rest).
      { clear -S2. induction rest as [|r rest IHr]; simpl; [reflexivity|].
        rewrite IHr. f_equal. apply isHiddenOffscreen_sameShape. exact S2. }
      rewrite Hloop, Eex, Ehid. simpl existsb. rewrite orb_assoc.
      rewrite last_cons. destruct (last rest); reflexivity.
    + intros x.
      assert (H := marked_compose lane _ _ _ _ _ _ _ HF2 HF3 x).
      rewrite H. destruct (fibers w !! x) as [f|]; simpl; [|reflexivity].
      f_equal. apply markedFiber_ext; [reflexivity|].
      simpl fibers. rewrite <- (alternatesOf_sameShape _ _ rest S2).
      unfold alternatesOf at 2. csimpl. rewrite Hp. simpl.
      fold (alternatesOf (fibers w) rest).
      destruct (fiber_alternate pf) as [a|]; simpl;
        rewrite ?elem_of_cons, ?elem_of_app, ?elem_of_cons, ?elem_of_nil;
        tauto.
Qed.

(** Merging into the [lanes] of the source fiber and of its alternate. *)
Lemma mark_source_step lane p pf w {B} (k : Fiber -> M B) :
  fibers w !! p = Some pf ->
  (forall a, fiber_alternate pf = Some a -> is_Some (fibers w !! a)) ->
  exists F pf',
    (storeFiber p (mergeFiberLanes lane) ;;;
     sf <- load fibers p ;;
     match fiber_alternate sf with
     | Some alternate => storeFiber alternate (mergeFiberLanes lane)
     | None => ret tt
     end ;;;
     sf <- load fibers p ;; k sf) w
    = k pf' (with_fibers F w) /\
    F !! p = Some pf' /\
    forall x, F !! x
              = markedFiber lane (p :: option_list (fiber_alternate pf)) [] x
                  <$> fibers w !! x.
Proof.
  intros Hp Halt.
  rewrite (bind_storeFiber _ _ _ _ _ Hp).
  set (w1 := with_fibers _ w).
  assert (H1 : forall x, fibers w1 !! x
                         = markedFiber lane [p] [] x <$> fibers w !! x)
    by (apply marked_insert_own; exact Hp).
  assert (Hp1 : fibers w1 !! p = Some (mergeFiberLanes lane pf))
    by apply lookup_insert_eq.
  rewrite (bind_load fibers _ _ _ _ Hp1).
  change (fiber_alternate (mergeFiberLanes lane pf))
    with (fiber_alternate pf).
  destruct (fiber_alternate pf) as [a|] eqn:Ea.
  - destruct (Halt a eq_refl) as [af Haf].
    assert (Ha1 : exists af1, fibers w1 !! a = Some af1).
    { rewrite H1, Haf. simpl. eauto. }
    destruct Ha1 as [af1 Ha1].
    rewrite (bind_storeFiber _ _ _ _ _ Ha1).
    set (F2 := <[a := _]> (fibers w1)).
    assert (H2 : forall x, F2 !! x = markedFiber lane [a] [] x <$> fibers w1 !! x)
      by (apply marked_insert_own; exact Ha1).
    assert (H12 := marked_compose lane [p] [] [a] [] _ _ _ H1 H2).
    assert (Hp2 : exists pf', F2 !! p = Some pf').
    { rewrite H12, Hp. simpl. eauto. }
    destruct Hp2 as [pf' Hp2].
    exists F2, pf'. split; [|split].
    + unfold bind at 1. unfold load. simpl. rewrite Hp2. reflexivity.
    + exact Hp2.
    + exact H12.
  - exists (fibers w1), (mergeFiberLanes lane pf). split; [|split].
    + unfold bind at 1. unfold ret at 1.
      unfold bind at 1. unfold load. rewrite Hp1. reflexivity.
    + exact Hp1.
    + exact H1.
Qed.

Lemma hiddenUpdateCall_sameShape w F top path update lane :
  sameShape (fibers w) F ->
  hiddenUpdateCall (with_fibers F w) top path update lane
  = hiddenUpdateCall w top path update lane.
Proof.
  intros S. unfold hiddenUpdateCall. simpl.
  destruct update as [u|]; [|reflexivity].
  assert (E : existsb (isHiddenOffscreen (with_fibers F w)) path
              = existsb (isHiddenOffscreen w) path).
  { induction path as [|r rest IHr]; simpl; [reflexivity|].
    rewrite IHr. f_equal. now apply isHiddenOffscreen_sameShape. }
  rewrite E. specialize (S top).
  destruct (fibers w !! top), (F !! top); try tauto.
  destruct S as (-> & -> & _). reflexivity.
Qed.

(** The statement that follows is about the whole of
    [markUpdateLaneFromFiberToRoot]; [markedFiber] says which fibers get
    the lane and where. *)
Lemma markUpdateLaneFromFiberToRoot_run
    (w : World) (fuel : nat) (sourceFiber : ptr) (update : option ptr)
    (lane : Lane) (sf : Fiber) (path : list ptr) :
  fibers w !! sourceFiber = Some sf ->
  returnPath (fibers w) (fiber_return sf) path ->
  alternatesClosed w (sourceFiber :: path) ->
  offscreenClosed w path ->
  (length path <= fuel)%nat ->
  exists F,
    markUpdateLaneFromFiberToRoot fuel sourceFiber update lane w
    = (Return tt,
       with_calls
         (calls w ++ hiddenUpdateCall w (default sourceFiber (last path))
                       path update lane)
         (with_fibers F w)) /\
    forall x, F !! x
              = markedFiber lane
                  (sourceFiber :: option_list (fiber_alternate sf))
                  (path ++ alternatesOf (fibers w) path) x
                  <$> fibers w !! x.
Proof.
  intros Hsf HP HA HO Hfuel.
  unfold markUpdateLaneFromFiberToRoot.
  destruct (mark_source_step lane sourceFiber sf w
              (fun sf0 =>
                 r <- markUpdateLaneLoop fuel lane false sourceFiber
                        (fiber_return sf0) ;;
                 let '(isHidden, node) := r in
                 if isHidden then
                   match update with
                   | Some u =>
                       n <- load fibers node ;;
                       if WorkTag_eqb (fiber_tag n) HostRoot then
                         emit (MarkHiddenUpdate (fiber_stateNode n) u lane)
                       else ret tt
                   | None => ret tt
                   end
                 else ret tt) Hsf) as (F1 & sf' & Hrun & Hsf1 & HF1).
  { intros a Ha. apply (HA sourceFiber sf a); [left|exact Hsf|exact Ha]. }
  rewrite Hrun. clear Hrun.
  assert (S1 : sameShape (fibers w) F1) by (eapply marked_sameShape; eauto).
  destruct (sameShape_lookup _ _ _ _ S1 Hsf) as (sf2 & Hsf2 & _ & _ & Hret & _).
  rewrite Hsf1 in Hsf2. injection Hsf2 as <-.
  set (w1 := with_fibers F1 w).
  destruct (markUpdateLaneLoop_spec lane path fuel false sourceFiber
              (fiber_return sf') w1) as (F2 & Hloop & HF2).
  { rewrite Hret. eapply returnPath_sameShape; eauto. }
  { apply alternatesClosed_sameShape; [exact S1|].
    intros q f a Hin. apply HA. now right. }
  { apply offscreenClosed_sameShape; [exact S1|exact HO]. }
  { exact Hfuel. }
  rewrite (bind_run _ _ _ _ _ Hloop). simpl orb.
  assert (S2 : sameShape (fibers w1) F2) by (eapply marked_sameShape; eauto).
  assert (S12 : sameShape (fibers w) F2) by (eapply sameShape_trans; eauto).
  exists F2. split.
  - set (top := default sourceFiber (last path)).
    assert (Eex : existsb (isHiddenOffscreen w1) path
                  = existsb (isHiddenOffscreen w) path).
    { clear -S1. induction path as [|r rest IHr]; simpl; [reflexivity|].
      rewrite IHr. f_equal. now apply isHiddenOffscreen_sameShape. }
    rewrite Eex.
    unfold hiddenUpdateCall.
    destruct (existsb (isHiddenOffscreen w) path) eqn:Ehid.
    + destruct update as [u|].
      * assert (Htop : exists n, fibers w !! top = Some n).
        { subst top. destruct (last path) as [t|] eqn:El; simpl.
          - clear -HP El. revert HP El. generalize (fiber_return sf).
            induction path as [|q rest IH]; intros parent HP El;
              [discriminate|].
            destruct HP as [-> (f & Hf & Hrest)].
            rewrite last_cons in El. destruct (last rest) eqn:El2.
            + injection El as <-. eapply IH; eauto.
            + injection El as <-. eauto.
          - eauto. }
        destruct Htop as [n Hn]. rewrite Hn.
        destruct (sameShape_lookup _ _ _ _ S12 Hn) as (n2 & Hn2 & Htag & Hsn & _).
        unfold bind, load. simpl. rewrite Hn2, Htag, Hsn.
        destruct (WorkTag_eqb (fiber_tag n) HostRoot); simpl.
        -- reflexivity.
        -- now rewrite app_nil_r.
      * simpl. now rewrite app_nil_r.
    + simpl. destruct update, (fibers w !! top); now rewrite app_nil_r.
  - intros x.
    assert (H := marked_compose lane _ _ _ _ _ _ _ HF1 HF2 x).
    rewrite H. destruct (fibers w !! x) as [f|]; simpl; [|reflexivity].
    f_equal. apply markedFiber_ext.
    + rewrite app_nil_r. reflexivity.
    + simpl fibers. rewrite <- (alternatesOf_sameShape _ _ path S1).
      reflexivity.
Qed.

Lemma existsb_isHiddenOffscreen w path :
  (exists a, a ∈ path /\ isHiddenOffscreen w a = true) ->
  existsb (isHiddenOffscreen w) path = true.
Proof.
  intros (a & Hin & Ha). apply existsb_exists. exists a.
  split; [now apply list_elem_of_In|exact Ha].
Qed.

(** C5.  [markUpdateLaneFromFiberToRoot(f, u, L)] merges [L] into [f.lanes]
    and, when [f.alternate] exists, into [f.alternate.lanes]; it merges [L]
    into [a.childLanes], and into [a.alternate.childLanes] when present, for
    every ancestor [a] on the return path of [f]; no other lane set and no
    other field of a fiber changes.  When some ancestor is a hidden
    Offscreen component, the topmost node reached is a HostRoot and [u] is
    not [null], [markHiddenUpdate(root, u, L)] is called, and in no other
    case. *)
Theorem markUpdateLaneFromFiberToRoot_merges_lane
    (w : World) (fuel : nat) (sourceFiber : ptr) (update : option ptr)
    (lane : Lane) (sf : Fiber) (path : list ptr) :
  fibers w !! sourceFiber = Some sf ->
  returnPath (fibers w) (fiber_return sf) path ->
  alternatesClosed w (sourceFiber :: path) ->
  offscreenClosed w path ->
  (length path <= fuel)%nat ->
  let isOwn x := x = sourceFiber \/ fiber_alternate sf = Some x in
  let isAncestor x :=
    x ∈ path \/
    exists a fa, a ∈ path /\ fibers w !! a = Some fa /\
                 fiber_alternate fa = Some x in
  let top := default sourceFiber (last path) in
  exists w',
    markUpdateLaneFromFiberToRoot fuel sourceFiber update lane w
    = (Return tt, w') /\
    w' = with_calls (calls w') (with_fibers (fibers w') w) /\
    (forall x, fibers w !! x = None -> fibers w' !! x = None) /\
    (forall x f, fibers w !! x = Some f ->
       exists f', fibers w' !! x = Some f' /\
         (isOwn x -> fiber_lanes f' = mergeLanes (fiber_lanes f) lane) /\
         (~ isOwn x -> fiber_lanes f' = fiber_lanes f) /\
         (isAncestor x ->
          fiber_childLanes f' = mergeLanes (fiber_childLanes f) lane) /\
         (~ isAncestor x -> fiber_childLanes f' = fiber_childLanes f) /\
         set_fiber_lanes (fiber_lanes f)
           (set_fiber_childLanes (fiber_childLanes f) f') = f) /\
    calls w' = calls w ++ hiddenUpdateCall w top path update lane /\
    (forall u n,
       update = Some u ->
       (exists a, a ∈ path /\ isHiddenOffscreen w a = true) ->
       fibers w !! top = Some n -> fiber_tag n = HostRoot ->
       calls w' = calls w ++ [MarkHiddenUpdate (fiber_stateNode n) u lane]).
Proof.
  intros Hsf HP HA HO Hfuel isOwn isAncestor top.
  destruct (markUpdateLaneFromFiberToRoot_run w fuel sourceFiber update lane
              sf path Hsf HP HA HO Hfuel) as (F & Hrun & HF).
  eexists. split; [exact Hrun|]. simpl.
  split; [reflexivity|]. split; [|split; [|split]].
  - intros x Hx. rewrite HF, Hx. reflexivity.
  - intros x f Hx. rewrite HF, Hx. simpl. eexists. split; [reflexivity|].
    assert (Hown : x ∈ sourceFiber :: option_list (fiber_alternate sf)
                   <-> isOwn x).
    { unfold isOwn. rewrite elem_of_cons.
      destruct (fiber_alternate sf) as [a|]; simpl.
      - rewrite list_elem_of_singleton. split; intros [?|?]; auto; left + right; congruence.
      - rewrite elem_of_nil. split; intros [?|?]; auto; [tauto|discriminate]. }
    assert (Hanc : x ∈ path ++ alternatesOf (fibers w) path <-> isAncestor x).
    { unfold isAncestor, alternatesOf. rewrite elem_of_app, list_elem_of_omap.
      split; (intros [?|H]; [now left|right]).
      - destruct H as (a & Hin & Ha).
        destruct (fibers w !! a) as [fa|] eqn:Efa; [|discriminate].
        exists a, fa. auto.
      - destruct H as (a & fa & Hin & Hfa & Halt).
        exists a. split; [exact Hin|]. rewrite Hfa. exact Halt. }
    unfold markedFiber.
    repeat case_bool_decide; simpl; repeat split; try tauto;
      destruct f; reflexivity.
  - reflexivity.
  - intros u n -> Hhid Hn Htag. unfold hiddenUpdateCall.
    fold top. rewrite Hn, (existsb_isHiddenOffscreen _ _ Hhid), Htag.
    reflexivity.
Qed.

Lemma markUpdateLaneFromFiberToRoot_merges_lane_witness :
  let rootFiber := mkFiber HostRoot (Some 100%nat) None None 0 0 0 JsNull None in
  let offscreen :=
    mkFiber OffscreenComponent (Some 50%nat) (Some 1%nat) (Some 12%nat) 0 0 4
      JsNull None in
  let offscreenAlt :=
    mkFiber OffscreenComponent (Some 50%nat) (Some 1%nat) (Some 2%nat) 0 0 0
      JsNull None in
  let source :=
    mkFiber (OtherWorkTag 1) None (Some 2%nat) (Some 13%nat) 0 1 0 JsNull None in
  let sourceAlt :=
    mkFiber (OtherWorkTag 1) None (Some 12%nat) (Some 3%nat) 0 0 0 JsNull None in
  let w := mkWorld ∅ ∅ ∅ ∅
             (list_to_map [(1%nat, rootFiber); (2%nat, offscreen);
                           (12%nat, offscreenAlt); (3%nat, source);
                           (13%nat, sourceAlt)])
             {[ 50%nat := mkOffscreenInstance true ]} ∅
             false false None [] 0 0 true 0 (fun _ => false) [] [] in
  let w' := snd (markUpdateLaneFromFiberToRoot 2 3%nat (Some 7%nat) 2 w) in
  calls w' = [MarkHiddenUpdate (Some 100%nat) 7%nat 2] /\
  fiber_lanes <$> fibers w' !! 3%nat = Some 3 /\
  fiber_childLanes <$> fibers w' !! 12%nat = Some 2.
Proof.
  intros rootFiber offscreen offscreenAlt source sourceAlt w w'.
  destruct (markUpdateLaneFromFiberToRoot_merges_lane w 2 3%nat (Some 7%nat) 2
              source [2%nat; 1%nat])
    as (w1 & Hrun & _ & _ & Hfibers & _ & Hcall).
  - reflexivity.
  - simpl. split; [reflexivity|]. exists offscreen. split; [reflexivity|].
    split; [reflexivity|]. exists rootFiber. split; reflexivity.
  - intros p f a Hin Hf Ha.
    repeat (apply elem_of_cons in Hin; destruct Hin as [->|Hin]);
      [| | |apply elem_of_nil in Hin; contradiction];
      vm_compute in Hf; injection Hf as <-; vm_compute in Ha;
      first [discriminate | injection Ha as <-; eexists; reflexivity].
  - intros p f Hin Hf Ht.
    repeat (apply elem_of_cons in Hin; destruct Hin as [->|Hin]);
      [| |apply elem_of_nil in Hin; contradiction];
      vm_compute in Hf; injection Hf as <-; vm_compute in Ht;
      [|discriminate].
    exists 50%nat. split; [reflexivity|]. eexists. reflexivity.
  - simpl. lia.
  - subst w'. rewrite Hrun. simpl snd. split; [|split].
    + rewrite (Hcall 7%nat rootFiber eq_refl); [reflexivity| |reflexivity..].
      exists 2%nat. split; [left|reflexivity].
    + destruct (Hfibers 3%nat source eq_refl) as (f' & Hf' & Hown & _).
      unfold ptr in *. rewrite Hf'. simpl. f_equal. rewrite Hown; [reflexivity|]. now left.
    + destruct (Hfibers 12%nat offscreenAlt eq_refl)
        as (f' & Hf' & _ & _ & Hanc & _).
      unfold ptr in *. rewrite Hf'. simpl. f_equal. rewrite Hanc; [reflexivity|].
      right. exists 2%nat, offscreen. split; [left|]. split; reflexivity.
Defined.

(** ** Linked records *)

Lemma segment_insert_notin h first ps stop p u :
  p ∉ ps -> segment h first ps stop ->
  segment (<[p := u]> h) first ps stop.
Proof.
  revert first. induction ps as [|x ps IH]; intros first Hnot; simpl; [auto|].
  intros [-> (ux & Hx & Hrest)]. split; [reflexivity|].
  exists ux. split.
  - rewrite lookup_insert_ne; [exact Hx|].
    intros ->. apply Hnot. left.
  - apply IH; [|exact Hrest]. intros Hin. apply Hnot. now right.
Qed.

Lemma segment_app h first ps1 mid ps2 stop :
  segment h first ps1 mid -> segment h mid ps2 stop ->
  segment h first (ps1 ++ ps2) stop.
Proof.
  revert first. induction ps1 as [|x ps1 IH]; intros first; simpl.
  - intros ->. auto.
  - intros [-> (ux & Hx & Hrest)] H2. split; [reflexivity|].
    exists ux. split; [exact Hx|]. now apply IH.
Qed.

Lemma segment_snoc_inv h first ps l stop :
  segment h first (ps ++ [l]) stop ->
  segment h first ps (Some l) /\
  exists ul, h !! l = Some ul /\ update_next ul = stop.
Proof.
  revert first. induction ps as [|x ps IH]; intros first; simpl.
  - intros [-> (ul & Hl & Hstop)]. split; [reflexivity|]. eauto.
  - intros [-> (ux & Hx & Hrest)]. destruct (IH _ Hrest) as [Hseg Hl].
    split; [|exact Hl]. split; [reflexivity|]. eauto.
Qed.

Lemma segment_snoc h first ps l ul stop :
  segment h first ps (Some l) -> h !! l = Some ul -> update_next ul = stop ->
  segment h first (ps ++ [l]) stop.
Proof.
  intros Hseg Hl Hstop. eapply segment_app; [exact Hseg|].
  simpl. split; [reflexivity|]. eauto.
Qed.

Lemma segment_lookup h first ps stop p :
  segment h first ps stop -> p ∈ ps -> is_Some (h !! p).
Proof.
  revert first. induction ps as [|x ps IH]; intros first; simpl.
  - intros _ Hin. apply elem_of_nil in Hin. contradiction.
  - intros [-> (ux & Hx & Hrest)] Hin.
    apply elem_of_cons in Hin. destruct Hin as [->|Hin]; eauto.
Qed.

Lemma last_snoc_inv {A} (l : list A) x :
  last l = Some x -> exists l', l = l' ++ [x].
Proof.
  intros H. now apply last_Some.
Qed.

Lemma ring_single h r ur :
  h !! r = Some ur ->
  ring (<[r := set_update_next (Some r) ur]> h) (Some r) [r].
Proof.
  intros Hr. unfold ring. split; [reflexivity|]. split.
  - apply NoDup_singleton.
  - simpl. split; [reflexivity|]. eexists. split.
    + apply lookup_insert_eq.
    + reflexivity.
Qed.

Lemma ring_snoc h lastp done r ur :
  ring h (Some lastp) done -> r ∉ done -> h !! r = Some ur ->
  exists ul,
    h !! lastp = Some ul /\
    ring (<[lastp := set_update_next (Some r) ul]>
            (<[r := set_update_next (update_next ul) ur]> h))
         (Some r) (done ++ [r]).
Proof.
  intros (Hlast & Hnd & Hseg) Hr Hur.
  destruct (last_snoc_inv _ _ Hlast) as [d0 ->].
  apply segment_snoc_inv in Hseg. destruct Hseg as [Hseg (ul & Hl & Hnext)].
  exists ul. split; [exact Hl|].
  assert (Hrl : r <> lastp).
  { intros ->. apply Hr. apply elem_of_app. right. left. }
  assert (Hd0 : lastp ∉ d0).
  { apply NoDup_app in Hnd. destruct Hnd as (_ & Hdis & _).
    intros Hin. apply (Hdis _ Hin). left. }
  assert (Hrd0 : r ∉ d0).
  { intros Hin. apply Hr. apply elem_of_app. now left. }
  unfold ring. split; [apply last_snoc|]. split.
  - apply NoDup_app. split; [exact Hnd|]. split.
    + intros x Hx Hx'. apply list_elem_of_singleton in Hx'. subst x. auto.
    + apply NoDup_singleton.
  - assert (Hhead : head ((d0 ++ [lastp]) ++ [r]) = head (d0 ++ [lastp])).
    { destruct d0; reflexivity. }
    rewrite Hhead.
    eapply segment_app.
    + eapply segment_snoc.
      * apply segment_insert_notin; [exact Hd0|].
        apply segment_insert_notin; [exact Hrd0|]. exact Hseg.
      * apply lookup_insert_eq.
      * reflexivity.
    + simpl. split; [reflexivity|]. eexists. split.
      * rewrite lookup_insert_ne by congruence. apply lookup_insert_eq.
      * simpl. exact Hnext.
Qed.

(** ** Arrays *)

Lemma arrayGet_arraySet a i v j :
  arrayGet (arraySet a i v) j = if decide (j = i) then v else arrayGet a j.
Proof.
  unfold arrayGet, arraySet.
  destruct (Nat.ltb_spec i (length a)) as [Hlt|Hge].
  - destruct (decide (j = i)) as [->|Hne].
    + now rewrite list_lookup_insert_eq.
    + now rewrite list_lookup_insert_ne by congruence.
  - destruct (decide (j = i)) as [->|Hne].
    + rewrite lookup_app_r by lia.
      rewrite lookup_app_r by (rewrite length_replicate; lia).
      rewrite length_replicate.
      replace (i - length a - (i - length a))%nat with 0%nat by lia.
      reflexivity.
    + destruct (Nat.lt_ge_cases j (length a)) as [Hj|Hj].
      * now rewrite lookup_app_l by lia.
      * rewrite (lookup_ge_None_2 a j) by lia.
        rewrite lookup_app_r by lia.
        destruct (Nat.lt_ge_cases j i) as [Hji|Hji].
        -- rewrite lookup_app_l by (rewrite length_replicate; lia).
           rewrite lookup_replicate_2 by lia. reflexivity.
        -- rewrite lookup_app_r by (rewrite length_replicate; lia).
           rewrite length_replicate.
           rewrite lookup_ge_None_2 by (simpl; lia). reflexivity.
Qed.

Lemma arrayGet_arraySet_eq a i v : arrayGet (arraySet a i v) i = v.
Proof. rewrite arrayGet_arraySet. now rewrite decide_True. Qed.

Lemma arrayGet_arraySet_ne a i v j :
  j <> i -> arrayGet (arraySet a i v) j = arrayGet a j.
Proof. intros H. rewrite arrayGet_arraySet. now rewrite decide_False. Qed.

(** ** C4: the staging buffer *)

Lemma alternatesClosed_transport w w1 ps :
  sameShape (fibers w) (fibers w1) ->
  alternatesClosed w ps -> alternatesClosed w1 ps.
Proof.
  intros S C p g a Hin Hg Ha.
  destruct (sameShape_lookup _ _ _ _ (sameShape_sym _ _ S) Hg)
    as (f & Hf & _ & _ & _ & Halt).
  destruct (C p f a Hin Hf) as [af Haf]; [congruence|].
  destruct (sameShape_lookup _ _ _ _ S Haf) as (ag & Hag & _). eauto.
Qed.

Lemma offscreenClosed_transport w w1 ps :
  sameShape (fibers w) (fibers w1) ->
  offscreenInstances w1 = offscreenInstances w ->
  offscreenClosed w ps -> offscreenClosed w1 ps.
Proof.
  intros S E C p g Hin Hg Ht.
  destruct (sameShape_lookup _ _ _ _ (sameShape_sym _ _ S) Hg)
    as (f & Hf & Htag & Hsn & _).
  destruct (C p f Hin Hf) as (i & Hi & Hinst); [congruence|].
  exists i. split; [congruence|]. now rewrite E.
Qed.

Lemma fiberReady_transport w w1 n path :
  sameShape (fibers w) (fibers w1) ->
  offscreenInstances w1 = offscreenInstances w ->
  fiberReady w n path -> fiberReady w1 n path.
Proof.
  intros S E (nf & Hn & HP & HA & HO).
  destruct (sameShape_lookup _ _ _ _ S Hn) as (nf1 & Hn1 & _ & _ & Hret & _).
  exists nf1. split; [exact Hn1|]. split; [|split].
  - rewrite Hret. eapply returnPath_sameShape; eauto.
  - eapply alternatesClosed_transport; eauto.
  - eapply offscreenClosed_transport; eauto.
Qed.

(** What the flush and the staging leave alone. *)
Lemma markUpdateLaneFromFiberToRoot_frame w fuel n update lane path :
  fiberReady w n path -> (length path <= fuel)%nat ->
  exists w',
    markUpdateLaneFromFiberToRoot fuel n update lane w = (Return tt, w') /\
    updates w' = updates w /\
    sharedQueues w' = sharedQueues w /\
    concurrentQueues w' = concurrentQueues w /\
    offscreenInstances w' = offscreenInstances w /\
    sameShape (fibers w) (fibers w').
Proof.
  intros (nf & Hn & HP & HA & HO) Hfuel.
  destruct (markUpdateLaneFromFiberToRoot_run w fuel n update lane nf path
              Hn HP HA HO Hfuel) as (F & Hrun & HF).
  eexists. split; [exact Hrun|]. simpl. repeat split.
  eapply marked_sameShape; eauto.
Qed.

Lemma stage_one w n q r lane path :
  fiberReady w n path ->
  exists w1,
    ReactFiberConcurrentUpdates.enqueueUpdate n (Some q) (Some r) lane w
    = (Return tt, w1) /\
    updates w1 = updates w /\
    sharedQueues w1 = sharedQueues w /\
    offscreenInstances w1 = offscreenInstances w /\
    sameShape (fibers w) (fibers w1) /\
    concurrentQueuesIndex w1 = (concurrentQueuesIndex w + 4)%nat /\
    (forall j, (j < concurrentQueuesIndex w)%nat ->
               arrayGet (concurrentQueues w1) j
               = arrayGet (concurrentQueues w) j) /\
    holdsStaged (concurrentQueues w1) (concurrentQueuesIndex w) n q
      [(r, lane)].
Proof.
  intros (nf & Hn & HP & HA & HO).
  unfold ReactFiberConcurrentUpdates.enqueueUpdate, pushConcurrentQueues.
  unfold bind at 1. unfold modify at 1. unfold bind at 1. unfold modify at 1.
  unfold bind at 1. unfold modify at 1. unfold bind at 1. unfold modify at 1.
  unfold bind at 1. unfold modify at 1.
  set (w0 := with_concurrentlyUpdatedLanes _ _).
  assert (Hn0 : fibers w0 !! n = Some nf) by exact Hn.
  rewrite (bind_storeFiber _ _ _ _ _ Hn0).
  set (w1 := with_fibers _ w0).
  assert (H1 : forall x, fibers w1 !! x
                         = markedFiber lane [n] [] x <$> fibers w !! x)
    by (apply marked_insert_own; exact Hn).
  assert (Hn1 : fibers w1 !! n = Some (mergeFiberLanes lane nf))
    by apply lookup_insert_eq.
  rewrite (bind_load fibers _ _ _ _ Hn1).
  change (fiber_alternate (mergeFiberLanes lane nf))
    with (fiber_alternate nf).
  set (i := concurrentQueuesIndex w).
  assert (Harr : forall cq F,
    (forall j, (j < i)%nat ->
       arrayGet (concurrentQueues
         (with_fibers F (with_concurrentQueues cq w0))) j = arrayGet cq j)).
  { reflexivity. }
  assert (Hslots :
    (forall j, (j < i)%nat ->
       arrayGet (concurrentQueues w1) j = arrayGet (concurrentQueues w) j) /\
    holdsStaged (concurrentQueues w1) i n q [(r, lane)]).
  { simpl. fold i. split.
    - intros j Hj. rewrite !arrayGet_arraySet_ne by lia. reflexivity.
    - intros k u l Hk. destruct k as [|k]; [|destruct k; discriminate].
      simpl in Hk. injection Hk as <- <-.
      replace (i + 4 * 0)%nat with i by lia.
      replace (i + 1)%nat with (S i) by lia.
      replace (i + 2)%nat with (S (S i)) by lia.
      replace (i + 3)%nat with (S (S (S i))) by lia.
      repeat split.
      + rewrite !arrayGet_arraySet_ne by lia. apply arrayGet_arraySet_eq.
      + rewrite !arrayGet_arraySet_ne by lia. apply arrayGet_arraySet_eq.
      + rewrite !arrayGet_arraySet_ne by lia. apply arrayGet_arraySet_eq.
      + apply arrayGet_arraySet_eq. }
  destruct Hslots as [Hbelow Hheld].
  destruct (fiber_alternate nf) as [a|] eqn:Ea.
  - destruct (HA n nf a) as [af Haf]; [left|exact Hn|exact Ea|].
    assert (Ha1 : exists af1, fibers w1 !! a = Some af1).
    { rewrite H1, Haf. simpl. eauto. }
    destruct Ha1 as [af1 Ha1].
    rewrite (run_storeFiber _ _ _ _ Ha1).
    eexists. split; [reflexivity|]. simpl.
    split; [reflexivity|]. split; [reflexivity|]. split; [reflexivity|].
    split; [|split; [fold i; lia|split; [exact Hbelow|exact Hheld]]].
    eapply sameShape_trans.
    + eapply marked_sameShape. exact H1.
    + eapply sameShape_insert; [exact Ha1|reflexivity..].
  - eexists. split; [reflexivity|]. simpl.
    split; [reflexivity|]. split; [reflexivity|]. split; [reflexivity|].
    split; [|split; [fold i; lia|split; [exact Hbelow|exact Hheld]]].
    eapply marked_sameShape. exact H1.
Qed.

Lemma holdsStaged_cons cq i n q r lane rest :
  holdsStaged cq i n q [(r, lane)] ->
  holdsStaged cq (i + 4) n q rest ->
  holdsStaged cq i n q ((r, lane) :: rest).
Proof.
  intros H1 H2 k u l Hk. destruct k as [|k].
  - apply (H1 0%nat). exact Hk.
  - simpl in Hk. specialize (H2 k u l Hk).
    replace (i + 4 * S k)%nat with (i + 4 + 4 * k)%nat by lia. exact H2.
Qed.

Lemma holdsStaged_below cq cq' i n q ts :
  (forall j, (i <= j)%nat -> arrayGet cq' j = arrayGet cq j) ->
  holdsStaged cq i n q ts -> holdsStaged cq' i n q ts.
Proof.
  intros E H k u l Hk. destruct (H k u l Hk) as (A & B & C & D).
  rewrite !E by lia. auto.
Qed.

Lemma stageAll_spec n q path :
  forall staged w,
    fiberReady w n path ->
    exists w1,
      stageAll n q staged w = (Return tt, w1) /\
      updates w1 = updates w /\
      sharedQueues w1 = sharedQueues w /\
      offscreenInstances w1 = offscreenInstances w /\
      sameShape (fibers w) (fibers w1) /\
      concurrentQueuesIndex w1
      = (concurrentQueuesIndex w + 4 * length staged)%nat /\
      (forall j, (j < concurrentQueuesIndex w)%nat ->
                 arrayGet (concurrentQueues w1) j
                 = arrayGet (concurrentQueues w) j) /\
      holdsStaged (concurrentQueues w1) (concurrentQueuesIndex w) n q staged.
Proof.
  induction staged as [|[r lane] rest IH]; intros w Hready.
  - exists w. simpl.
    split; [reflexivity|]. split; [reflexivity|]. split; [reflexivity|].
    split; [reflexivity|]. split; [apply sameShape_refl|].
    split; [lia|]. split; [reflexivity|].
    intros k u l Hk. discriminate.
  - simpl stageAll.
    destruct (stage_one w n q r lane path Hready)
      as (w1 & Hrun & Hu & Hs & Ho & Hshape & Hidx & Hbelow & Hheld).
    rewrite (bind_run _ _ _ _ _ Hrun).
    destruct (IH w1) as (w2 & Hrun2 & Hu2 & Hs2 & Ho2 & Hshape2 & Hidx2
                         & Hbelow2 & Hheld2).
    { eapply fiberReady_transport; eauto. }
    exists w2. split; [exact Hrun2|].
    split; [congruence|]. split; [congruence|]. split; [congruence|].
    split; [eapply sameShape_trans; eauto|].
    split; [simpl; lia|]. split.
    + intros j Hj. rewrite Hbelow2 by lia. apply Hbelow. exact Hj.
    + apply holdsStaged_cons.
      * intros k u l Hk. destruct k as [|k]; [|destruct k; discriminate].
        destruct (Hheld 0%nat u l Hk) as (A & B & C & D).
        rewrite !Hbelow2 by lia. auto.
      * rewrite Hidx in Hheld2. exact Hheld2.
Qed.

Lemma sameRecords_refl h : sameRecords h h.
Proof. intros p. destruct (h !! p); auto. Qed.

Lemma sameRecords_trans h1 h2 h3 :
  sameRecords h1 h2 -> sameRecords h2 h3 -> sameRecords h1 h3.
Proof.
  intros A B p. specialize (A p). specialize (B p).
  destruct (h1 !! p), (h2 !! p), (h3 !! p); try tauto. congruence.
Qed.

Lemma sameRecords_relink h p u v :
  h !! p = Some u -> sameRecords h (<[p := set_update_next v u]> h).
Proof.
  intros Hp x. destruct (decide (x = p)) as [->|Hne].
  - rewrite Hp, lookup_insert_eq. reflexivity.
  - rewrite lookup_insert_ne by congruence. destruct (h !! x); auto.
Qed.

Lemma linkPending_spec w q sq done r ur :
  sharedQueues w !! q = Some sq ->
  ring (updates w) (shared_pending sq) done ->
  r ∉ done ->
  updates w !! r = Some ur ->
  exists h',
    linkPending q r w
    = (Return tt,
       with_sharedQueues
         (<[q := set_shared_pending (Some r) sq]> (sharedQueues w))
         (with_updates h' w)) /\
    ring h' (Some r) (done ++ [r]) /\
    (forall p, is_Some (h' !! p) <-> is_Some (updates w !! p)) /\
    (forall p, p ∉ done ++ [r] -> h' !! p = updates w !! p) /\
    sameRecords (updates w) h'.
Proof.
  intros Hq Hring Hr Hur. unfold linkPending.
  rewrite (bind_load sharedQueues _ _ _ _ Hq).
  destruct (shared_pending sq) as [lastp|] eqn:Ep.
  - destruct (ring_snoc _ _ _ _ _ Hring Hr Hur) as (ul & Hl & Hring').
    assert (Hrl : r <> lastp).
    { intros ->. apply Hr. destruct Hring as (Hlast & _).
      eapply last_Some_elem_of. exact Hlast. }
    rewrite bind_assoc, (bind_load updates _ _ _ _ Hl).
    rewrite bind_assoc, (bind_storeUpdate _ _ _ _ _ Hur).
    set (w1 := with_updates _ w).
    assert (Hl1 : updates w1 !! lastp = Some ul).
    { simpl. rewrite lookup_insert_ne by congruence. exact Hl. }
    rewrite (bind_storeUpdate _ _ _ _ _ Hl1).
    set (w2 := with_updates _ w1).
    assert (Hq2 : sharedQueues w2 !! q = Some sq) by exact Hq.
    rewrite (run_storeSharedQueue _ _ _ _ Hq2).
    eexists. split; [reflexivity|]. split; [exact Hring'|].
    split; [|split].
    + intros p. simpl.
      destruct (decide (p = lastp)) as [->|Hne1].
      * rewrite lookup_insert_eq, Hl. split; eauto.
      * rewrite lookup_insert_ne by congruence.
        destruct (decide (p = r)) as [->|Hne2].
        -- rewrite lookup_insert_eq, Hur. split; eauto.
        -- rewrite lookup_insert_ne by congruence. reflexivity.
    + intros p Hp. simpl.
      assert (Hin : lastp ∈ done).
      { destruct Hring as (Hlast & _). eapply last_Some_elem_of.
        exact Hlast. }
      rewrite !lookup_insert_ne; [reflexivity| |].
      * intros <-. apply Hp. apply elem_of_app. right. left.
      * intros <-. apply Hp. apply elem_of_app. now left.
    + simpl. eapply sameRecords_trans.
      * apply (sameRecords_relink _ r ur (update_next ul)). exact Hur.
      * apply (sameRecords_relink _ lastp ul (Some r)). exact Hl1.
  - simpl in Hring. subst done.
    rewrite (bind_storeUpdate _ _ _ _ _ Hur).
    set (w1 := with_updates _ w).
    assert (Hq1 : sharedQueues w1 !! q = Some sq) by exact Hq.
    rewrite (run_storeSharedQueue _ _ _ _ Hq1).
    eexists. split; [reflexivity|]. split; [|split; [|split]].
    + apply ring_single. exact Hur.
    + intros p. simpl. destruct (decide (p = r)) as [->|Hne].
      * rewrite lookup_insert_eq, Hur. split; eauto.
      * rewrite lookup_insert_ne by congruence. reflexivity.
    + intros p Hp. simpl. rewrite lookup_insert_ne; [reflexivity|].
      intros <-. apply Hp. left.
    + simpl. apply sameRecords_relink. exact Hur.
Qed.

Lemma take_four w i n q r lane rest {B}
    (k : Slot -> Slot -> Slot -> Slot -> M B) :
  holdsStaged (concurrentQueues w) i n q ((r, lane) :: rest) ->
  exists cq',
    (fiber <- takeConcurrentQueues i ;;
     queue <- takeConcurrentQueues (i + 1) ;;
     update <- takeConcurrentQueues (i + 2) ;;
     lane <- takeConcurrentQueues (i + 3) ;;
     k fiber queue update lane) w
    = k (SlotRef n) (SlotRef q) (SlotRef r) (SlotLane lane)
        (with_concurrentQueues cq' w) /\
    holdsStaged cq' (i + 4) n q rest.
Proof.
  intros H.
  destruct (H 0%nat r lane eq_refl) as (A & B' & C & D).
  replace (i + 4 * 0)%nat with i in * by lia.
  eexists. split.
  - unfold takeConcurrentQueues, bind, gets, modify, ret. simpl.
    rewrite A.
    rewrite (arrayGet_arraySet_ne _ i _ (i + 1)) by lia. rewrite B'.
    rewrite !(arrayGet_arraySet_ne _ _ _ (i + 2)) by lia. rewrite C.
    rewrite !(arrayGet_arraySet_ne _ _ _ (i + 3)) by lia. rewrite D.
    reflexivity.
  - intros k0 u l Hk.
    destruct (H (S k0) u l Hk) as (A1 & B1 & C1 & D1).
    replace (i + 4 * S k0)%nat with (i + 4 + 4 * k0)%nat in * by lia.
    rewrite !arrayGet_arraySet_ne by lia. auto.
Qed.

Lemma finishQueueingLoop_run n q path :
  forall staged fuel markFuel i done w sq,
    holdsStaged (concurrentQueues w) i n q staged ->
    fiberReady w n path ->
    sharedQueues w !! q = Some sq ->
    ring (updates w) (shared_pending sq) done ->
    NoDup (done ++ staged.*1) ->
    (forall r, r ∈ staged.*1 -> is_Some (updates w !! r)) ->
    (length staged <= fuel)%nat ->
    (length path <= markFuel)%nat ->
    exists w' sq',
      finishQueueingLoop fuel markFuel i (i + 4 * length staged) w
      = (Return tt, w') /\
      sharedQueues w' !! q = Some sq' /\
      shared_pending sq' = last (done ++ staged.*1) /\
      ring (updates w') (shared_pending sq') (done ++ staged.*1) /\
      (forall p, p ∉ done ++ staged.*1 -> updates w' !! p = updates w !! p) /\
      sameRecords (updates w) (updates w') /\
      sameShape (fibers w) (fibers w').
Proof.
  induction staged as [|[r lane] rest IH];
    intros fuel markFuel i done w sq Hheld Hready Hq Hring Hnd Hex Hfuel Hmark.
  - exists w, sq. simpl length. replace (i + 4 * 0)%nat with i by lia.
    simpl fmap. rewrite app_nil_r.
    assert (Hi : (i <? i)%nat = false) by (apply Nat.ltb_ge; lia).
    split; [destruct fuel; unfold finishQueueingLoop; rewrite Hi;
            reflexivity|].
    split; [exact Hq|].
    split; [|split; [exact Hring|split; [reflexivity|split;
               [apply sameRecords_refl|apply sameShape_refl]]]].
    destruct (shared_pending sq) as [l|]; simpl in Hring.
    + symmetry. apply Hring.
    + subst done. reflexivity.
  - destruct fuel as [|fuel]; [simpl in Hfuel; lia|].
    cbn [finishQueueingLoop].
    assert (Hlt : (i <? i + 4 * length ((r, lane) :: rest))%nat = true)
      by (apply Nat.ltb_lt; simpl; lia).
    rewrite Hlt.
    destruct (take_four w i n q r lane rest
                (fun fiber queue update lane0 =>
                   match queue, update with
                   | SlotNull, _ => ret tt
                   | _, SlotNull => ret tt
                   | SlotRef q0, SlotRef u => linkPending q0 u
                   | _, _ => throw TypeError
                   end ;;;
                   match lane0 with
                   | SlotLane l =>
                       if negb (l =? NoLane) then
                         match fiber, update with
                         | SlotRef f, SlotRef u =>
                             markUpdateLaneFromFiberToRoot markFuel f
                               (Some u) l
                         | SlotRef f, SlotNull =>
                             markUpdateLaneFromFiberToRoot markFuel f None l
                         | _, _ => throw TypeError
                         end
                       else ret tt
                   | _ => throw TypeError
                   end ;;;
                   finishQueueingLoop fuel markFuel (i + 4)
                     (i + 4 * length ((r, lane) :: rest))) Hheld)
      as (cq' & Hrun & Hheld').
    rewrite Hrun. clear Hrun.
    set (w1 := with_concurrentQueues cq' w).
    assert (Hr : r ∉ done).
    { simpl in Hnd. apply NoDup_app in Hnd. destruct Hnd as (_ & Hdis & _).
      intros Hin. apply (Hdis _ Hin). left. }
    destruct (Hex r) as [ur Hur]; [left|].
    destruct (linkPending_spec w1 q sq done r ur Hq Hring Hr Hur)
      as (h' & Hlink & Hring' & Hdom & Hframe1 & Hsame1).
    rewrite (bind_run _ _ _ _ _ Hlink).
    set (w2 := with_sharedQueues _ _).
    assert (Hready2 : fiberReady w2 n path).
    { eapply (fiberReady_transport w); [apply sameShape_refl|reflexivity|].
      exact Hready. }
    assert (Hmarkrun : exists w3,
      (match SlotLane lane with
       | SlotLane l =>
           if negb (l =? NoLane) then
             match SlotRef n, SlotRef r with
             | SlotRef f, SlotRef u =>
                 markUpdateLaneFromFiberToRoot markFuel f (Some u) l
             | SlotRef f, SlotNull =>
                 markUpdateLaneFromFiberToRoot markFuel f None l
             | _, _ => throw TypeError
             end
           else ret tt
       | _ => throw TypeError
       end) w2 = (Return tt, w3) /\
      updates w3 = updates w2 /\
      sharedQueues w3 = sharedQueues w2 /\
      concurrentQueues w3 = concurrentQueues w2 /\
      offscreenInstances w3 = offscreenInstances w2 /\
      sameShape (fibers w2) (fibers w3)).
    { destruct (negb (lane =? NoLane)).
      - apply (markUpdateLaneFromFiberToRoot_frame w2 markFuel n (Some r) lane
                 path Hready2 Hmark).
      - exists w2. repeat split. apply sameShape_refl. }
    destruct Hmarkrun as (w3 & Hrun3 & Hu3 & Hs3 & Hc3 & Ho3 & Hshape3).
    rewrite (bind_run _ _ _ _ _ Hrun3).
    destruct (IH fuel markFuel (i + 4)%nat (done ++ [r]) w3
                (set_shared_pending (Some r) sq))
      as (w' & sq' & Hloop & Hq' & Hpend & Hring'' & Hframe' & Hsame'
          & Hshape').
    + rewrite Hc3. exact Hheld'.
    + eapply fiberReady_transport; eauto.
    + rewrite Hs3. simpl. apply lookup_insert_eq.
    + rewrite Hu3. simpl. exact Hring'.
    + rewrite <- app_assoc. exact Hnd.
    + intros r' Hin. rewrite Hu3. simpl. apply Hdom. apply Hex. now right.
    + simpl in Hfuel. lia.
    + exact Hmark.
    + exists w', sq'.
      replace (i + 4 * length ((r, lane) :: rest))%nat
        with (i + 4 + 4 * length rest)%nat by (simpl; lia).
      split; [exact Hloop|]. split; [exact Hq'|].
      simpl fmap. rewrite <- app_assoc in Hpend, Hring'', Hframe'.
      split; [exact Hpend|]. split; [exact Hring''|].
      split; [|split].
      * intros p Hp. rewrite (Hframe' p Hp), Hu3. simpl. apply Hframe1.
        intros Hin. apply Hp. rewrite elem_of_app in *.
        destruct Hin as [Hin|Hin]; [now left|right].
        apply list_elem_of_singleton in Hin. subst p. left.
      * rewrite Hu3 in Hsame'. simpl in Hsame'.
        eapply sameRecords_trans; [exact Hsame1|exact Hsame'].
      * eapply sameShape_trans; [|exact Hshape'].
        exact Hshape3.
Qed.

Lemma finishQueueingLoop_spec n q path :
  forall staged fuel markFuel i done w sq,
    holdsStaged (concurrentQueues w) i n q staged ->
    fiberReady w n path ->
    sharedQueues w !! q = Some sq ->
    ring (updates w) (shared_pending sq) done ->
    NoDup (done ++ staged.*1) ->
    (forall r, r ∈ staged.*1 -> is_Some (updates w !! r)) ->
    (length staged <= fuel)%nat ->
    (length path <= markFuel)%nat ->
    exists w' sq',
      finishQueueingLoop fuel markFuel i (i + 4 * length staged) w
      = (Return tt, w') /\
      sharedQueues w' !! q = Some sq' /\
      shared_pending sq' = last (done ++ staged.*1) /\
      ring (updates w') (shared_pending sq') (done ++ staged.*1).
Proof.
  intros staged fuel markFuel i done w sq Hheld Hready Hq Hring Hnd Hex Hfuel
    Hmark.
  destruct (finishQueueingLoop_run n q path staged fuel markFuel i done w sq
              Hheld Hready Hq Hring Hnd Hex Hfuel Hmark)
    as (w' & sq' & Hloop & Hq' & Hpend & Hring' & _).
  exists w', sq'. auto.
Qed.

(** C4.  Flushing the staging buffer processes the staged tuples in their
    arrival order: after staging updates against one queue whose pending
    list is empty and flushing, [pending] points at the update staged last
    and the circular list runs through the updates in the order they were
    staged.  For three updates [r1], [r2], [r3] the list is
    [r1 -> r2 -> r3 -> r1] with [pending] at [r3]. *)
Theorem finishQueueingConcurrentUpdates_keeps_arrival_order
    (w : World) (fuel : nat) (n q : ptr) (staged : list (ptr * Lane))
    (sq : SharedQueue) (path : list ptr) :
  concurrentQueuesIndex w = 0%nat ->
  fiberReady w n path ->
  sharedQueues w !! q = Some sq ->
  shared_pending sq = None ->
  NoDup staged.*1 ->
  (forall r, r ∈ staged.*1 -> is_Some (updates w !! r)) ->
  (length staged <= fuel)%nat ->
  (length path <= fuel)%nat ->
  exists w' sq',
    (stageAll n q staged ;;; finishQueueingConcurrentUpdates fuel) w
    = (Return tt, w') /\
    sharedQueues w' !! q = Some sq' /\
    shared_pending sq' = last staged.*1 /\
    ring (updates w') (shared_pending sq') staged.*1 /\
    (forall r1 r2 r3,
       staged.*1 = [r1; r2; r3] ->
       shared_pending sq' = Some r3 /\
       update_next <$> updates w' !! r1 = Some (Some r2) /\
       update_next <$> updates w' !! r2 = Some (Some r3) /\
       update_next <$> updates w' !! r3 = Some (Some r1)).
Proof.
  intros Hidx Hready Hq Hpend Hnd Hex Hfuel Hpath.
  destruct (stageAll_spec n q path staged w Hready)
    as (w1 & Hrun & Hu & Hs & Ho & Hshape & Hidx1 & _ & Hheld).
  rewrite (bind_run _ _ _ _ _ Hrun).
  unfold finishQueueingConcurrentUpdates, bind, gets, modify.
  rewrite Hidx1, Hidx. simpl Nat.add.
  set (w2 := with_concurrentlyUpdatedLanes _ _).
  destruct (finishQueueingLoop_spec n q path staged fuel fuel 0%nat [] w2 sq)
    as (w' & sq' & Hloop & Hq' & Hlast & Hring).
  - rewrite Hidx in Hheld. exact Hheld.
  - eapply (fiberReady_transport w); [exact Hshape|exact Ho|exact Hready].
  - simpl. rewrite Hs. exact Hq.
  - rewrite Hpend. reflexivity.
  - exact Hnd.
  - intros r Hin. simpl. rewrite Hu. apply Hex. exact Hin.
  - exact Hfuel.
  - exact Hpath.
  - simpl app in *. simpl Nat.add in Hloop.
    exists w', sq'. rewrite Hloop.
    split; [reflexivity|]. split; [exact Hq'|]. split; [exact Hlast|].
    split; [exact Hring|].
    intros r1 r2 r3 E. rewrite E in *. rewrite Hlast in Hring.
    split; [exact Hlast|].
    destruct Hring as (_ & _ & Hseg). simpl in Hseg.
    destruct Hseg as (_ & u1 & H1 & N1 & u2 & H2 & N2 & u3 & H3 & N3).
    unfold ptr in *.
    rewrite H1, H2, H3. simpl. rewrite N1, N2, N3. auto.
Qed.

Lemma finishQueueingConcurrentUpdates_keeps_arrival_order_witness :
  let P1 : Lane := 1 in
  let P2 : Lane := 2 in
  let blank := mkUpdate 0 0 UpdateState (PayloadValue JsNull) None None in
  let rootFiber :=
    mkFiber HostRoot (Some 100%nat) None None 0 0 0 JsNull None in
  let nFiber :=
    mkFiber (OtherWorkTag 1) None (Some 1%nat) None 0 0 0 JsNull (Some 0%nat) in
  let w := mkWorld
             (list_to_map [(1%nat, blank); (2%nat, blank); (3%nat, blank)])
             {[ 0%nat := mkSharedQueue None 0 ]}
             {[ 0%nat := mkUpdateQueue JsNull None None 0%nat None ]}
             ∅
             (list_to_map [(1%nat, rootFiber); (2%nat, nFiber)])
             ∅ ∅ false false None [] 0 0 true 0 (fun _ => false) [] [] in
  let w' :=
    snd ((stageAll 2%nat 0%nat [(1%nat, P1); (2%nat, P1); (3%nat, P2)] ;;;
          finishQueueingConcurrentUpdates 3) w) in
  shared_pending <$> sharedQueues w' !! 0%nat = Some (Some 3%nat) /\
  update_next <$> updates w' !! 1%nat = Some (Some 2%nat) /\
  update_next <$> updates w' !! 2%nat = Some (Some 3%nat) /\
  update_next <$> updates w' !! 3%nat = Some (Some 1%nat).
Proof.
  intros P1 P2 blank rootFiber nFiber w w'.
  destruct (finishQueueingConcurrentUpdates_keeps_arrival_order w 3 2%nat
              0%nat [(1%nat, P1); (2%nat, P1); (3%nat, P2)]
              (mkSharedQueue None 0) [1%nat])
    as (w1 & sq' & Hrun & Hq & _ & _ & Horder).
  - reflexivity.
  - exists nFiber. split; [reflexivity|]. split; [|split].
    + simpl. split; [reflexivity|]. exists rootFiber. split; reflexivity.
    + intros p f a Hin Hf Ha.
      repeat (apply elem_of_cons in Hin; destruct Hin as [->|Hin]);
        [| |apply elem_of_nil in Hin; contradiction];
        vm_compute in Hf; injection Hf as <-; discriminate.
    + intros p f Hin Hf Ht.
      repeat (apply elem_of_cons in Hin; destruct Hin as [->|Hin]);
        [|apply elem_of_nil in Hin; contradiction];
        vm_compute in Hf; injection Hf as <-; discriminate.
  - reflexivity.
  - reflexivity.
  - simpl. repeat (apply NoDup_cons; split;
      [rewrite ?elem_of_cons, elem_of_nil; intuition lia|]).
    apply NoDup_nil. exact I.
  - intros r Hin. simpl in Hin.
    repeat (apply elem_of_cons in Hin; destruct Hin as [->|Hin]);
      [| | |apply elem_of_nil in Hin; contradiction];
      eexists; reflexivity.
  - simpl. lia.
  - simpl. lia.
  - subst w'. rewrite Hrun. simpl snd.
    destruct (Horder 1%nat 2%nat 3%nat eq_refl) as (Hp & H1 & H2 & H3).
    unfold ptr in *. rewrite Hq. simpl. rewrite Hp. auto.
Defined.

(** ** What every call into the module keeps *)

Lemma evolves_refl w : evolves w w.
Proof.
  split; [auto|]. split; [|lia].
  exists []. split; [now rewrite app_nil_r|]. intros; constructor.
Qed.

Lemma evolves_trans w1 w2 w3 : evolves w1 w2 -> evolves w2 w3 -> evolves w1 w3.
Proof.
  intros (C1 & (evs1 & E1 & F1) & W1) (C2 & (evs2 & E2 & F2) & W2).
  split; [auto|]. split; [|lia].
  exists (evs1 ++ evs2). split.
  - rewrite E2, E1. now rewrite app_assoc.
  - intros e He. apply Forall_app. split; [apply F1|apply F2]; auto.
Qed.

Lemma evolves_frame w w' :
  updates w' = updates w -> calls w' = calls w ->
  console w' = console w ->
  didWarnUpdateInsideUpdate w' = didWarnUpdateInsideUpdate w ->
  evolves w w'.
Proof.
  intros Hu Hc Hm Hd. split; [|split].
  - intros e (u & ? & ?). exists u. rewrite Hu. auto.
  - exists []. rewrite Hc, app_nil_r. split; [reflexivity|].
    intros; constructor.
  - unfold warnings, mayStillWarn. rewrite Hm, Hd. lia.
Qed.

Lemma evolves_bind {A B} (m : M A) (k : A -> M B) w :
  evolves w (snd (m w)) ->
  (forall a w1, m w = (Return a, w1) -> evolves w1 (snd (k a w1))) ->
  evolves w (snd (bind m k w)).
Proof.
  intros Hm Hk. unfold bind. destruct (m w) as [[a|e] w1] eqn:E.
  - eapply evolves_trans; [exact Hm|]. now apply Hk.
  - exact Hm.
Qed.

Lemma respects_bind {A B} (m : M A) (k : A -> M B) :
  respects m -> (forall a, respects (k a)) -> respects (bind m k).
Proof.
  intros Hm Hk w. apply evolves_bind; [apply Hm|]. intros a w1 _. apply Hk.
Qed.

Lemma respects_ret {A} (a : A) : respects (ret a).
Proof. intros w. apply evolves_refl. Qed.

Lemma respects_throw {A} e : respects (@throw A e).
Proof. intros w. apply evolves_refl. Qed.

Lemma respects_gets {A} (f : World -> A) : respects (gets f).
Proof. intros w. apply evolves_refl. Qed.

Lemma respects_load {V} (store : World -> gmap ptr V) p :
  respects (load store p).
Proof.
  intros w. unfold load. destruct (store w !! p); apply evolves_refl.
Qed.

Lemma respects_loadRef {V} (store : World -> gmap ptr V) o :
  respects (loadRef store o).
Proof.
  destruct o; [apply respects_load|apply respects_throw].
Qed.

Lemma respects_modify f :
  (forall w, updates (f w) = updates w /\ calls (f w) = calls w /\
             console (f w) = console w /\
             didWarnUpdateInsideUpdate (f w) = didWarnUpdateInsideUpdate w) ->
  respects (modify f).
Proof.
  intros H w. destruct (H w) as (?&?&?&?). now apply evolves_frame.
Qed.

Lemma respects_storeSharedQueue p f : respects (storeSharedQueue p f).
Proof.
  unfold storeSharedQueue. apply respects_bind; [apply respects_load|].
  intros q. apply respects_modify. intros w. auto.
Qed.

Lemma respects_storeUpdateQueue p f : respects (storeUpdateQueue p f).
Proof.
  unfold storeUpdateQueue. apply respects_bind; [apply respects_load|].
  intros q. apply respects_modify. intros w. auto.
Qed.

Lemma respects_storeFiber p f : respects (storeFiber p f).
Proof.
  unfold storeFiber. apply respects_bind; [apply respects_load|].
  intros q. apply respects_modify. intros w. auto.
Qed.

Lemma respects_newSharedQueue q : respects (newSharedQueue q).
Proof. intros w. apply evolves_frame; reflexivity. Qed.

Lemma respects_newUpdateQueue q : respects (newUpdateQueue q).
Proof. intros w. apply evolves_frame; reflexivity. Qed.

Lemma respects_newArray a : respects (newArray a).
Proof. intros w. apply evolves_frame; reflexivity. Qed.

(** Writes to the store of updates that keep every cleared callback. *)
Lemma evolves_updates w h :
  (forall e u, updates w !! e = Some u -> update_callback u = None ->
     exists u', h !! e = Some u' /\ update_callback u' = None) ->
  evolves w (with_updates h w).
Proof.
  intros H. split; [|split].
  - intros e (u & Hu & Hc). exact (H e u Hu Hc).
  - exists []. simpl. rewrite app_nil_r. split; [reflexivity|].
    intros; constructor.
  - unfold warnings, mayStillWarn. simpl. lia.
Qed.

Lemma respects_storeUpdate p f :
  (forall u, update_callback u = None -> update_callback (f u) = None) ->
  respects (storeUpdate p f).
Proof.
  intros Hf w. unfold storeUpdate, bind, load, modify.
  destruct (updates w !! p) as [u|] eqn:Hp; [|apply evolves_refl].
  simpl. apply evolves_updates. intros e u' He Hc.
  destruct (decide (e = p)) as [->|Hne].
  - rewrite lookup_insert_eq. rewrite Hp in He. injection He as <-.
    eexists. split; [reflexivity|]. now apply Hf.
  - rewrite lookup_insert_ne by congruence. eauto.
Qed.

Lemma respects_newUpdate u : respects (newUpdate u).
Proof.
  intros w. unfold newUpdate. simpl. apply evolves_updates.
  intros e u' He Hc. exists u'. split; [|exact Hc].
  rewrite lookup_insert_ne; [exact He|].
  intros <-. assert (Hin : fresh (dom (updates w)) ∈ dom (updates w)).
  { apply elem_of_dom. eauto. }
  exact (is_fresh _ Hin).
Qed.

Lemma respects_emit ev :
  (forall e, ~ invokedFrom e ev) -> respects (emit ev).
Proof.
  intros Hev w. unfold emit, modify. simpl. split; [|split].
  - intros e He. exact He.
  - exists [ev]. split; [reflexivity|]. intros e _. constructor; [apply Hev|constructor].
  - unfold warnings, mayStillWarn. simpl. lia.
Qed.

Ltac respects_step :=
  first
    [ match goal with H : _ |- respects _ => solve [apply H] end
    | apply respects_ret | apply respects_throw | apply respects_gets
    | apply respects_load | apply respects_loadRef
    | apply respects_storeSharedQueue | apply respects_storeUpdateQueue
    | apply respects_storeFiber
    | apply respects_newSharedQueue | apply respects_newUpdateQueue
    | apply respects_newArray | apply respects_newUpdate
    | apply respects_storeUpdate; intros ? ?; assumption
    | apply respects_emit; intros ? ?; assumption
    | apply respects_modify; intros ?; repeat split; reflexivity
    | apply respects_bind; [|intros ?]
    | match goal with
      | |- respects (match ?x with _ => _ end) => destruct x
      | |- respects (if ?b then _ else _) => destruct b
      end
    | solve [auto] ].

Ltac respects_auto := repeat respects_step.

Lemma respects_linkPending q u : respects (linkPending q u).
Proof. unfold linkPending. respects_auto. Qed.

Lemma respects_markUpdateLaneLoop lane :
  forall fuel hid node parent,
    respects (markUpdateLaneLoop fuel lane hid node parent).
Proof.
  induction fuel as [|fuel IH]; intros hid node parent;
    destruct parent; cbn [markUpdateLaneLoop]; respects_auto.
Qed.

Lemma respects_markUpdateLaneFromFiberToRoot fuel f u lane :
  respects (markUpdateLaneFromFiberToRoot fuel f u lane).
Proof.
  unfold markUpdateLaneFromFiberToRoot.
  pose proof (respects_markUpdateLaneLoop lane).
  respects_auto.
Qed.

Lemma respects_detectUpdateOnUnmountedFiber s p :
  respects (detectUpdateOnUnmountedFiber s p).
Proof. unfold detectUpdateOnUnmountedFiber. respects_auto. Qed.

Lemma respects_getRootLoop s :
  forall fuel node parent, respects (getRootLoop fuel s node parent).
Proof.
  pose proof (respects_detectUpdateOnUnmountedFiber s).
  induction fuel as [|fuel IH]; intros node parent;
    destruct parent; cbn [getRootLoop]; respects_auto.
Qed.

Lemma respects_getRootForUpdatedFiber fuel s :
  respects (getRootForUpdatedFiber fuel s).
Proof.
  unfold getRootForUpdatedFiber.
  pose proof (respects_detectUpdateOnUnmountedFiber s).
  pose proof (respects_getRootLoop s).
  respects_auto.
Qed.

Lemma respects_takeConcurrentQueues i : respects (takeConcurrentQueues i).
Proof. unfold takeConcurrentQueues. respects_auto. Qed.

Lemma respects_pushConcurrentQueues v : respects (pushConcurrentQueues v).
Proof. unfold pushConcurrentQueues. respects_auto. Qed.

Lemma respects_finishQueueingLoop markFuel :
  forall fuel i endIndex,
    respects (finishQueueingLoop fuel markFuel i endIndex).
Proof.
  pose proof respects_takeConcurrentQueues.
  pose proof respects_linkPending.
  pose proof respects_markUpdateLaneFromFiberToRoot.
  induction fuel as [|fuel IH]; intros i endIndex;
    cbn [finishQueueingLoop]; respects_auto.
Qed.

Lemma respects_finishQueueingConcurrentUpdates fuel :
  respects (finishQueueingConcurrentUpdates fuel).
Proof.
  unfold finishQueueingConcurrentUpdates.
  pose proof respects_finishQueueingLoop.
  respects_auto.
Qed.

Lemma respects_concurrent_enqueueUpdate f q u lane :
  respects (ReactFiberConcurrentUpdates.enqueueUpdate f q u lane).
Proof.
  unfold ReactFiberConcurrentUpdates.enqueueUpdate.
  pose proof respects_pushConcurrentQueues.
  respects_auto.
Qed.

Lemma respects_enqueueConcurrentClassUpdate fuel f q u lane :
  respects (enqueueConcurrentClassUpdate fuel f q u lane).
Proof.
  unfold enqueueConcurrentClassUpdate.
  pose proof respects_concurrent_enqueueUpdate.
  pose proof respects_getRootForUpdatedFiber.
  respects_auto.
Qed.

Lemma respects_enqueueConcurrentRenderForLane fuel f lane :
  respects (enqueueConcurrentRenderForLane fuel f lane).
Proof.
  unfold enqueueConcurrentRenderForLane.
  pose proof respects_concurrent_enqueueUpdate.
  pose proof respects_getRootForUpdatedFiber.
  respects_auto.
Qed.

Lemma respects_unsafe_markUpdateLaneFromFiberToRoot fuel f lane :
  respects (unsafe_markUpdateLaneFromFiberToRoot fuel f lane).
Proof.
  unfold unsafe_markUpdateLaneFromFiberToRoot.
  pose proof respects_markUpdateLaneFromFiberToRoot.
  pose proof respects_getRootForUpdatedFiber.
  respects_auto.
Qed.

Lemma respects_initializeUpdateQueue f : respects (initializeUpdateQueue f).
Proof. unfold initializeUpdateQueue. respects_auto. Qed.

Lemma respects_cloneUpdateQueue c wip : respects (cloneUpdateQueue c wip).
Proof. unfold cloneUpdateQueue. respects_auto. Qed.

Lemma respects_createUpdate t lane : respects (createUpdate t lane).
Proof. unfold createUpdate. respects_auto. Qed.

Lemma respects_entangleTransitions r f lane :
  respects (entangleTransitions r f lane).
Proof. unfold entangleTransitions. respects_auto. Qed.

Lemma warnings_snoc w msg :
  warnings (with_console (console w ++ [msg]) w)
  = (warnings w + if bool_decide (msg = updateInsideUpdateWarning)
                  then 1 else 0)%nat.
Proof.
  unfold warnings. simpl. rewrite filter_app, length_app. f_equal.
  rewrite filter_cons, filter_nil.
  destruct (decide (msg = updateInsideUpdateWarning)) as [E|E].
  - rewrite bool_decide_eq_true_2 by exact E. reflexivity.
  - rewrite bool_decide_eq_false_2 by exact E. reflexivity.
Qed.

(** The development-only check at the head of [enqueueUpdate]. *)
Lemma respects_warning sharedQueue :
  respects
    (processing <- gets currentlyProcessingQueue ;;
     didWarn <- gets didWarnUpdateInsideUpdate ;;
     if bool_decide (processing = Some sharedQueue) && negb didWarn then
       consoleError updateInsideUpdateWarning ;;;
       modify (with_didWarnUpdateInsideUpdate true)
     else ret tt).
Proof.
  intros w. unfold bind, gets, consoleError, modify, ret. simpl.
  destruct (bool_decide (currentlyProcessingQueue w = Some sharedQueue));
    simpl; [|apply evolves_refl].
  destruct (didWarnUpdateInsideUpdate w) eqn:Hd; simpl; [apply evolves_refl|].
  split; [|split].
  - intros e He. exact He.
  - exists []. simpl. rewrite app_nil_r. split; [reflexivity|].
    intros; constructor.
  - pose proof (warnings_snoc w updateInsideUpdateWarning) as Hw.
    rewrite bool_decide_eq_true_2 in Hw by reflexivity.
    unfold warnings in *. unfold mayStillWarn. simpl in *. rewrite Hd, Hw. lia.
Qed.

Lemma respects_class_enqueueUpdate fuel f u lane :
  respects (ReactFiberClassUpdateQueue.enqueueUpdate fuel f u lane).
Proof.
  unfold ReactFiberClassUpdateQueue.enqueueUpdate.
  pose proof respects_warning.
  pose proof respects_linkPending.
  pose proof respects_unsafe_markUpdateLaneFromFiberToRoot.
  pose proof respects_enqueueConcurrentClassUpdate.
  respects_auto.
Qed.

Lemma respects_getStateFromUpdate wip q u s p i :
  respects (getStateFromUpdate wip q u s p i).
Proof. unfold getStateFromUpdate. respects_auto. Qed.

Lemma respects_pushEffect q u : respects (pushEffect q u).
Proof. unfold pushEffect. respects_auto. Qed.

Lemma respects_processUpdate wip q props inst lanes u v :
  respects (processUpdate wip q props inst lanes u v).
Proof.
  unfold processUpdate, appendClone.
  pose proof respects_getStateFromUpdate.
  pose proof respects_pushEffect.
  respects_auto.
Qed.

Lemma respects_processUpdateLoop wip q props inst lanes :
  forall fuel u v, respects (processUpdateLoop fuel wip q props inst lanes u v).
Proof.
  pose proof respects_processUpdate.
  induction fuel as [|fuel IH]; intros u v;
    cbn [processUpdateLoop]; respects_auto.
Qed.

Lemma respects_transferPending wip q first last :
  respects (transferPending wip q first last).
Proof. unfold transferPending. respects_auto. Qed.

Lemma respects_processUpdateQueue fuel wip props inst lanes :
  respects (processUpdateQueue fuel wip props inst lanes).
Proof.
  unfold processUpdateQueue.
  pose proof respects_transferPending.
  pose proof respects_processUpdateLoop.
  respects_auto.
Qed.

Lemma respects_renderPass fuel wip props inst pass :
  respects (renderPass fuel wip props inst pass).
Proof.
  unfold renderPass.
  pose proof respects_processUpdateQueue.
  respects_auto.
Qed.

Lemma evolves_commit_one w e u cb inst :
  updates w !! e = Some u -> update_callback u = Some cb ->
  evolves w (snd ((storeUpdate e (set_update_callback None) ;;;
                   callCallback e cb inst) w)).
Proof.
  intros He Hcb. rewrite (bind_storeUpdate _ _ _ _ _ He).
  assert (Hkeep : forall e', cleared w e' ->
            cleared (with_updates
                       (<[e := set_update_callback None u]> (updates w)) w) e').
  { intros e' (u' & Hu' & Hc'). destruct (decide (e' = e)) as [->|Hne].
    - rewrite He in Hu'. injection Hu' as <-. congruence.
    - exists u'. simpl. rewrite lookup_insert_ne by congruence. auto. }
  destruct cb as [fn|v]; simpl.
  - split; [|split].
    + exact Hkeep.
    + exists [CallbackInvoked e fn inst]. split; [reflexivity|].
      intros e' (u' & Hu' & Hc'). constructor; [|constructor].
      simpl. intros <-. rewrite He in Hu'. injection Hu' as <-. congruence.
    + unfold warnings, mayStillWarn. simpl. lia.
  - split; [|split].
    + exact Hkeep.
    + exists []. simpl. rewrite app_nil_r. split; [reflexivity|].
      intros; constructor.
    + unfold warnings, mayStillWarn. simpl. lia.
Qed.

Lemma respects_commitEffects inst :
  forall es, respects (commitEffects inst es).
Proof.
  induction es as [|e es IH]; simpl; [apply respects_ret|].
  intros w. apply evolves_bind; [apply respects_load|].
  intros u w1 Hload. unfold load in Hload.
  destruct (updates w !! e) as [u'|] eqn:He; [|discriminate].
  injection Hload as <- <-.
  apply evolves_bind; [|intros; apply IH].
  destruct (update_callback u') as [cb|] eqn:Hcb.
  - eapply evolves_commit_one; eauto.
  - apply evolves_refl.
Qed.

Lemma respects_commitUpdateQueue fw fq inst :
  respects (commitUpdateQueue fw fq inst).
Proof.
  unfold commitUpdateQueue.
  pose proof (respects_commitEffects inst).
  respects_auto.
Qed.

Lemma respects_runOp op : respects (runOp op).
Proof.
  pose proof respects_initializeUpdateQueue.
  pose proof respects_cloneUpdateQueue.
  pose proof respects_class_enqueueUpdate.
  pose proof respects_entangleTransitions.
  pose proof respects_renderPass.
  pose proof respects_commitUpdateQueue.
  pose proof respects_finishQueueingConcurrentUpdates.
  pose proof respects_enqueueConcurrentRenderForLane.
  destruct op; simpl; try solve [respects_auto].
  (* the caller fills in the record it has just made *)
  intros w. unfold createUpdate.
  set (u0 := mkUpdate eventTime lane UpdateState (PayloadValue JsNull) None
               None).
  assert (Hrun : newUpdate u0 w
                 = (Return (fresh (dom (updates w))),
                    with_updates
                      (<[fresh (dom (updates w)) := u0]> (updates w)) w))
    by reflexivity.
  rewrite (bind_run (newUpdate u0) _ w _ _ Hrun).
  rewrite (run_storeUpdate _ _ u0) by (simpl; apply lookup_insert_eq).
  simpl.
  match goal with
  | |- evolves w (with_updates ?a (with_updates ?b w)) =>
      change (evolves w (with_updates a w))
  end.
  apply evolves_updates. intros e u He Hc.
  assert (Hne : e <> fresh (dom (updates w))).
  { intros ->. assert (Hin : fresh (dom (updates w)) ∈ dom (updates w)).
    { apply elem_of_dom. eauto. }
    exact (is_fresh _ Hin). }
  exists u. rewrite !lookup_insert_ne by congruence. auto.
Qed.

Lemma evolves_runOps ops : forall w, evolves w (runOps ops w).
Proof.
  induction ops as [|op ops IH]; intros w; simpl.
  - apply evolves_refl.
  - eapply evolves_trans; [apply respects_runOp|apply IH].
Qed.

(** ** Computations that ignore the diagnostics *)

Lemma ignores_bind {A B} (m : M A) (k : A -> M B) :
  ignoresDiagnostics m -> (forall a, ignoresDiagnostics (k a)) ->
  ignoresDiagnostics (bind m k).
Proof.
  intros Hm Hk w c d p. unfold bind. rewrite Hm.
  destruct (m w) as [[a|e] w1]; simpl; [apply Hk|reflexivity].
Qed.

Lemma ignores_ret {A} (a : A) : ignoresDiagnostics (ret a).
Proof. intros w c d p. reflexivity. Qed.

Lemma ignores_throw {A} e : ignoresDiagnostics (@throw A e).
Proof. intros w c d p. reflexivity. Qed.

Lemma ignores_gets {A} (f : World -> A) :
  (forall w c d p, f (setDiagnostics c d p w) = f w) ->
  ignoresDiagnostics (gets f).
Proof. intros H w c d p. unfold gets. now rewrite H. Qed.

Lemma ignores_load {V} (store : World -> gmap ptr V) x :
  (forall w c d p, store (setDiagnostics c d p w) = store w) ->
  ignoresDiagnostics (load store x).
Proof.
  intros H w c d p. unfold load. rewrite H.
  destruct (store w !! x); reflexivity.
Qed.

Lemma ignores_loadRef {V} (store : World -> gmap ptr V) o :
  (forall w c d p, store (setDiagnostics c d p w) = store w) ->
  ignoresDiagnostics (loadRef store o).
Proof.
  intros H. destruct o; [now apply ignores_load|apply ignores_throw].
Qed.

Lemma ignores_modify f :
  (forall w c d p, f (setDiagnostics c d p w) = setDiagnostics c d p (f w)) ->
  ignoresDiagnostics (modify f).
Proof. intros H w c d p. unfold modify. now rewrite H. Qed.

Lemma ignores_storeUpdate x f : ignoresDiagnostics (storeUpdate x f).
Proof.
  unfold storeUpdate. apply ignores_bind.
  - apply ignores_load. reflexivity.
  - intros u. apply ignores_modify. reflexivity.
Qed.

Lemma ignores_storeSharedQueue x f : ignoresDiagnostics (storeSharedQueue x f).
Proof.
  unfold storeSharedQueue. apply ignores_bind.
  - apply ignores_load. reflexivity.
  - intros u. apply ignores_modify. reflexivity.
Qed.

Lemma ignores_storeFiber x f : ignoresDiagnostics (storeFiber x f).
Proof.
  unfold storeFiber. apply ignores_bind.
  - apply ignores_load. reflexivity.
  - intros u. apply ignores_modify. reflexivity.
Qed.

Lemma ignores_emit ev : ignoresDiagnostics (emit ev).
Proof. unfold emit. apply ignores_modify. reflexivity. Qed.

Ltac ignores_step :=
  first
    [ match goal with H : _ |- ignoresDiagnostics _ => solve [apply H] end
    | apply ignores_ret | apply ignores_throw
    | apply ignores_storeUpdate | apply ignores_storeSharedQueue
    | apply ignores_storeFiber | apply ignores_emit
    | apply ignores_gets; reflexivity
    | apply ignores_load; reflexivity
    | apply ignores_loadRef; reflexivity
    | apply ignores_modify; reflexivity
    | apply ignores_bind; [|intros ?]
    | match goal with
      | |- ignoresDiagnostics (match ?x with _ => _ end) => destruct x
      | |- ignoresDiagnostics (if ?b then _ else _) => destruct b
      end ].

Ltac ignores_auto := repeat ignores_step.

Lemma ignores_linkPending q u : ignoresDiagnostics (linkPending q u).
Proof. unfold linkPending. ignores_auto. Qed.

Lemma ignores_markUpdateLaneLoop lane :
  forall fuel hid node parent,
    ignoresDiagnostics (markUpdateLaneLoop fuel lane hid node parent).
Proof.
  induction fuel as [|fuel IH]; intros hid node parent;
    destruct parent; cbn [markUpdateLaneLoop]; ignores_auto.
Qed.

Lemma ignores_markUpdateLaneFromFiberToRoot fuel f u lane :
  ignoresDiagnostics (markUpdateLaneFromFiberToRoot fuel f u lane).
Proof.
  unfold markUpdateLaneFromFiberToRoot.
  pose proof (ignores_markUpdateLaneLoop lane).
  ignores_auto.
Qed.

Lemma ignores_detectUpdateOnUnmountedFiber s x :
  ignoresDiagnostics (detectUpdateOnUnmountedFiber s x).
Proof. unfold detectUpdateOnUnmountedFiber. ignores_auto. Qed.

Lemma ignores_getRootLoop s :
  forall fuel node parent, ignoresDiagnostics (getRootLoop fuel s node parent).
Proof.
  pose proof (ignores_detectUpdateOnUnmountedFiber s).
  induction fuel as [|fuel IH]; intros node parent;
    destruct parent; cbn [getRootLoop]; ignores_auto.
Qed.

Lemma ignores_getRootForUpdatedFiber fuel s :
  ignoresDiagnostics (getRootForUpdatedFiber fuel s).
Proof.
  unfold getRootForUpdatedFiber.
  pose proof (ignores_detectUpdateOnUnmountedFiber s).
  pose proof (ignores_getRootLoop s).
  ignores_auto.
Qed.

Lemma ignores_unsafe_markUpdateLaneFromFiberToRoot fuel f lane :
  ignoresDiagnostics (unsafe_markUpdateLaneFromFiberToRoot fuel f lane).
Proof.
  unfold unsafe_markUpdateLaneFromFiberToRoot.
  pose proof ignores_markUpdateLaneFromFiberToRoot.
  pose proof ignores_getRootForUpdatedFiber.
  ignores_auto.
Qed.

Lemma ignores_concurrent_enqueueUpdate f q u lane :
  ignoresDiagnostics (ReactFiberConcurrentUpdates.enqueueUpdate f q u lane).
Proof.
  unfold ReactFiberConcurrentUpdates.enqueueUpdate, pushConcurrentQueues.
  ignores_auto.
Qed.

Lemma ignores_enqueueConcurrentClassUpdate fuel f q u lane :
  ignoresDiagnostics (enqueueConcurrentClassUpdate fuel f q u lane).
Proof.
  unfold enqueueConcurrentClassUpdate.
  pose proof ignores_concurrent_enqueueUpdate.
  pose proof ignores_getRootForUpdatedFiber.
  ignores_auto.
Qed.

(** ** C9: enqueueing from inside an update function *)

Lemma detectUpdateOnUnmountedFiber_returns s x w :
  is_Some (fibers w !! x) ->
  exists w',
    detectUpdateOnUnmountedFiber s x w = (Return tt, w') /\
    fibers w' = fibers w /\ DEV w' = DEV w.
Proof.
  intros [f Hf]. unfold detectUpdateOnUnmountedFiber, bind, gets, load.
  destruct (DEV w) eqn:Hdev; [|eauto].
  rewrite Hf. destruct (fiber_alternate f); [eauto|].
  destruct (negb _); eexists; (split; [reflexivity|]); simpl; auto.
Qed.

Lemma getRootLoop_returns s :
  forall path fuel node parent w,
    returnPath (fibers w) parent path ->
    is_Some (fibers w !! node) ->
    (length path <= fuel)%nat ->
    exists w',
      getRootLoop fuel s node parent w
      = (Return (default node (last path)), w') /\
      fibers w' = fibers w.
Proof.
  induction path as [|x rest IH]; intros fuel node parent w HP Hnode Hfuel.
  - simpl in HP. subst parent. exists w. destruct fuel; auto.
  - destruct HP as [-> (f & Hf & Hrest)].
    destruct fuel as [|fuel]; [simpl in Hfuel; lia|].
    cbn [getRootLoop].
    destruct (detectUpdateOnUnmountedFiber_returns s node w Hnode)
      as (w1 & Hrun & Hfib & _).
    rewrite (bind_run _ _ _ _ _ Hrun).
    assert (Hf1 : fibers w1 !! x = Some f) by (rewrite Hfib; exact Hf).
    rewrite (bind_load fibers _ _ _ _ Hf1).
    destruct (IH fuel x (fiber_return f) w1) as (w2 & Hloop & Hfib2).
    + rewrite Hfib. exact Hrest.
    + eauto.
    + simpl in Hfuel. lia.
    + exists w2. rewrite Hloop. split; [|congruence].
      rewrite last_cons. destruct (last rest); reflexivity.
Qed.

Lemma returnPath_top_exists fs parent path node :
  returnPath fs parent path -> is_Some (fs !! node) ->
  is_Some (fs !! default node (last path)).
Proof.
  revert parent node. induction path as [|x rest IH]; intros parent node HP Hn.
  - exact Hn.
  - destruct HP as [-> (f & Hf & Hrest)].
    rewrite last_cons.
    specialize (IH _ x Hrest (ex_intro _ f Hf)).
    destruct (last rest); simpl in *; [exact IH|eauto].
Qed.

Lemma getRootForUpdatedFiber_returns fuel s w path :
  fiberReady w s path -> (length path <= fuel)%nat ->
  exists root w', getRootForUpdatedFiber fuel s w = (Return root, w').
Proof.
  intros (sf & Hs & HP & _) Hfuel. unfold getRootForUpdatedFiber.
  destruct (detectUpdateOnUnmountedFiber_returns s s w (ex_intro _ sf Hs))
    as (w1 & Hrun & Hfib & _).
  rewrite (bind_run _ _ _ _ _ Hrun).
  assert (Hs1 : fibers w1 !! s = Some sf) by (rewrite Hfib; exact Hs).
  rewrite (bind_load fibers _ _ _ _ Hs1).
  destruct (getRootLoop_returns s path fuel s (fiber_return sf) w1)
    as (w2 & Hloop & Hfib2); [rewrite Hfib; exact HP|eauto|exact Hfuel|].
  rewrite (bind_run _ _ _ _ _ Hloop).
  destruct (returnPath_top_exists (fibers w2) (fiber_return sf) path s)
    as [n Hn].
  { rewrite Hfib2, Hfib. exact HP. }
  { rewrite Hfib2, Hfib. eauto. }
  rewrite (bind_load fibers _ _ _ _ Hn). unfold ret. eauto.
Qed.

Lemma setDiagnostics_self w :
  setDiagnostics (console w) (didWarnUpdateInsideUpdate w)
    (currentlyProcessingQueue w) w = w.
Proof. destruct w; reflexivity. Qed.

(** ** C6: committing the effects *)

Lemma commitEffects_spec inst h0 :
  forall es seen w,
    (forall e, e ∈ es ->
       exists u, updates w !! e = Some u /\
                 forall v, update_callback u <> Some (NotCallable v)) ->
    (forall e, e ∈ seen -> cleared w e) ->
    (forall e, e ∉ seen -> updates w !! e = h0 !! e) ->
    exists h',
      commitEffects inst es w
      = (Return tt,
         with_calls (calls w ++ invocations h0 inst seen es)
           (with_updates h' w)) /\
      (forall e, e ∈ es -> cleared (with_updates h' w) e) /\
      (forall e, e ∉ es -> h' !! e = updates w !! e).
Proof.
  induction es as [|e es IH]; intros seen w Hes Hseen Hrest.
  - exists (updates w). simpl. rewrite app_nil_r. split; [|split].
    + destruct w; reflexivity.
    + intros e Hin. apply elem_of_nil in Hin. contradiction.
    + reflexivity.
  - destruct (Hes e) as (u & Hu & Hcallable); [left|].
    cbn [commitEffects]. rewrite (bind_load updates _ _ _ _ Hu).
    (* the world after the effect [e] *)
    assert (Hstep : exists h1,
      (match update_callback u with
       | Some callback =>
           storeUpdate e (set_update_callback None) ;;;
           callCallback e callback inst
       | None => ret tt
       end) w
      = (Return tt,
         with_calls
           (calls w ++
            (if bool_decide (e ∈ seen) then []
             else match h0 !! e ≫= update_callback with
                  | Some (Callable fn) => [CallbackInvoked e fn inst]
                  | _ => []
                  end))
           (with_updates h1 w)) /\
      cleared (with_updates h1 w) e /\
      (forall e', e' <> e -> h1 !! e' = updates w !! e') /\
      (forall e', cleared w e' -> cleared (with_updates h1 w) e')).
    { destruct (decide (e ∈ seen)) as [Hin|Hnot].
      - rewrite bool_decide_eq_true_2 by exact Hin.
        destruct (Hseen e Hin) as (u' & Hu' & Hc').
        rewrite Hu in Hu'. injection Hu' as <-. rewrite Hc'.
        exists (updates w). rewrite app_nil_r.
        split; [destruct w; reflexivity|].
        split; [exists u; auto|]. split; [reflexivity|].
        intros e' He'. exact He'.
      - rewrite bool_decide_eq_false_2 by exact Hnot.
        rewrite <- (Hrest e Hnot), Hu. simpl.
        destruct (update_callback u) as [[fn|v]|] eqn:Hcb.
        + rewrite (bind_storeUpdate _ _ _ _ _ Hu). simpl.
          eexists. split; [reflexivity|]. split; [|split].
          * eexists. simpl. rewrite lookup_insert_eq. split; reflexivity.
          * intros e' Hne. now rewrite lookup_insert_ne by congruence.
          * intros e' (u' & Hu' & Hc'). destruct (decide (e' = e)) as [->|Hne].
            -- rewrite Hu in Hu'. injection Hu' as <-. congruence.
            -- exists u'. simpl. rewrite lookup_insert_ne by congruence. auto.
        + exfalso. exact (Hcallable v eq_refl).
        + exists (updates w). rewrite app_nil_r.
          split; [destruct w; reflexivity|].
          split; [exists u; auto|]. split; [reflexivity|].
          intros e' He'. exact He'. }
    destruct Hstep as (h1 & Hrun & Hcl & Hframe & Hkeep).
    rewrite (bind_run _ _ _ _ _ Hrun).
    set (w1 := with_calls _ (with_updates h1 w)).
    destruct (IH (e :: seen) w1) as (h' & Hloop & Hcl' & Hframe').
    + intros e' Hin. destruct (decide (e' = e)) as [->|Hne].
      * destruct Hcl as (u1 & Hu1 & Hc1). exists u1. split; [exact Hu1|].
        intros v. rewrite Hc1. discriminate.
      * destruct (Hes e') as (u' & Hu' & Hc'); [now right|].
        exists u'. split; [|exact Hc']. simpl. rewrite Hframe by exact Hne.
        exact Hu'.
    + intros e' Hin. apply elem_of_cons in Hin. destruct Hin as [->|Hin].
      * exact Hcl.
      * apply Hkeep, Hseen, Hin.
    + intros e' Hnot. simpl. rewrite Hframe.
      * apply Hrest. intros Hin. apply Hnot. now right.
      * intros ->. apply Hnot. left.
    + exists h'. split; [|split].
      * rewrite Hloop. simpl. rewrite <- app_assoc. reflexivity.
      * intros e' Hin. apply elem_of_cons in Hin. destruct Hin as [->|Hin].
        -- destruct (decide (e ∈ es)) as [Hin|Hnot].
           ++ apply Hcl'. exact Hin.
           ++ destruct Hcl as (u1 & Hu1 & Hc1). exists u1. simpl.
              rewrite (Hframe' e Hnot). auto.
        -- apply Hcl'. exact Hin.
      * intros e' Hnot. rewrite Hframe'.
        -- simpl. apply Hframe. intros ->. apply Hnot. left.
        -- intros Hin. apply Hnot. now right.
Qed.

Lemma commitEffects_app inst es1 es2 w :
  commitEffects inst (es1 ++ es2) w
  = (commitEffects inst es1 ;;; commitEffects inst es2) w.
Proof.
  revert w. induction es1 as [|e es1 IH]; intros w; [reflexivity|].
  simpl app. cbn [commitEffects].
  rewrite bind_assoc. unfold bind at 1. unfold bind at 3.
  destruct (load updates e w) as [[u|err] w1]; [|reflexivity].
  rewrite bind_assoc. unfold bind at 1. unfold bind at 2.
  destruct (match update_callback u with
            | Some callback =>
                storeUpdate e (set_update_callback None);;;
                callCallback e callback inst
            | None => ret ()
            end w1) as [[[]|err] w2]; [|reflexivity].
  apply IH.
Qed.

(** ** The walk on the list of records *)

Lemma reduceState_unlinked props inst s u :
  reduceState props inst s (unlinked u) = reduceState props inst s u.
Proof. reflexivity. Qed.

Lemma reduceState_skippedClone props inst s u :
  reduceState props inst s (skippedClone u) = reduceState props inst s u.
Proof. reflexivity. Qed.

Lemma reduceState_rebasedClone props inst s u :
  reduceState props inst s (rebasedClone u) = reduceState props inst s u.
Proof. reflexivity. Qed.

Lemma stepAcc_unlinked props inst root lanes a u :
  stepAcc props inst root lanes a (unlinked u)
  = stepAcc props inst root lanes a u.
Proof. reflexivity. Qed.

Lemma walkAcc_unlinked props inst root lanes us :
  forall a,
    walkAcc props inst root lanes a (map unlinked us)
    = walkAcc props inst root lanes a us.
Proof.
  induction us as [|u us IH]; intros a; simpl; [reflexivity|].
  rewrite stepAcc_unlinked. apply IH.
Qed.

Lemma applyAllInOrder_app props inst base us1 us2 :
  applyAllInOrder props inst base (us1 ++ us2)
  = applyAllInOrder props inst (applyAllInOrder props inst base us1) us2.
Proof. unfold applyAllInOrder. apply fold_left_app. Qed.

Lemma applyAllInOrder_unlinked props inst us :
  forall base,
    applyAllInOrder props inst base (map unlinked us)
    = applyAllInOrder props inst base us.
Proof.
  induction us as [|u us IH]; intros base; simpl; [reflexivity|]. apply IH.
Qed.

(** Replaying the clones and then the records still to come, from the base
    state kept so far, gives what replaying everything gives. *)
Lemma walkAcc_replay props inst root lanes :
  forall us a,
    let a' := walkAcc props inst root lanes a us in
    applyAllInOrder props inst (baseAfter a') (acc_clones a')
    = applyAllInOrder props inst (baseAfter a) (acc_clones a ++ us).
Proof.
  induction us as [|u us IH]; intros a; simpl.
  - now rewrite app_nil_r.
  - rewrite IH. unfold stepAcc.
    destruct (shouldSkipUpdate root lanes u); unfold baseAfter; simpl.
    + destruct (acc_clones a) as [|c cs] eqn:Ec; simpl.
      * reflexivity.
      * rewrite <- !app_assoc. simpl.
        rewrite !applyAllInOrder_app. reflexivity.
    + destruct (acc_clones a) as [|c cs] eqn:Ec; simpl.
      * reflexivity.
      * rewrite <- !app_assoc. simpl.
        rewrite !applyAllInOrder_app. reflexivity.
Qed.

(** A walk that skips nothing applies every record and keeps no clone. *)
Lemma walkAcc_all_qualify props inst root lanes :
  forall us a,
    acc_clones a = [] ->
    Forall (fun u => shouldSkipUpdate root lanes u = false) us ->
    let a' := walkAcc props inst root lanes a us in
    acc_clones a' = [] /\
    acc_state a' = applyAllInOrder props inst (acc_state a) us /\
    acc_lanes a' = acc_lanes a.
Proof.
  induction us as [|u us IH]; intros a Hc Hall; simpl; [auto|].
  inversion Hall as [|? ? Hu Hus]; subst.
  destruct (IH (stepAcc props inst root lanes a u)) as (A & B & C).
  - unfold stepAcc. rewrite Hu, Hc. reflexivity.
  - exact Hus.
  - split; [exact A|]. split.
    + rewrite B. unfold stepAcc. rewrite Hu. reflexivity.
    + rewrite C. unfold stepAcc. rewrite Hu. reflexivity.
Qed.

Lemma updateLaneOf_idem l :
  removeLanes (removeLanes l OffscreenLane) OffscreenLane
  = removeLanes l OffscreenLane.
Proof.
  unfold removeLanes. rewrite <- Z.land_assoc, Z.land_diag. reflexivity.
Qed.

Lemma qualifies_not_skipped pass u :
  qualifies pass u -> shouldSkipUpdate (fst pass) (snd pass) u = false.
Proof.
  intros [H1 H2]. unfold shouldSkipUpdate. rewrite H1, H2.
  destruct (negb _); reflexivity.
Qed.

Lemma qualifies_skippedClone pass u :
  qualifies pass u -> qualifies pass (skippedClone u).
Proof.
  unfold qualifies.
  change (updateLaneOf (skippedClone u))
    with (removeLanes (removeLanes (update_lane u) OffscreenLane)
            OffscreenLane).
  rewrite updateLaneOf_idem. auto.
Qed.

Lemma qualifies_rebasedClone pass u : qualifies pass (rebasedClone u).
Proof.
  unfold qualifies, updateLaneOf, rebasedClone, removeLanes, isSubsetOfLanes,
    NoLane. simpl. rewrite !Z.land_0_r. auto.
Qed.

Lemma qualifies_unlinked pass u : qualifies pass (unlinked u) <-> qualifies pass u.
Proof. reflexivity. Qed.

(** The clones qualify at a pass at which the records do. *)
Lemma walkAcc_qualifies props inst root lanes pass :
  forall us a,
    Forall (qualifies pass) (acc_clones a) ->
    Forall (qualifies pass) us ->
    Forall (qualifies pass) (acc_clones (walkAcc props inst root lanes a us)).
Proof.
  induction us as [|u us IH]; intros a Ha Hus; simpl; [exact Ha|].
  inversion Hus as [|? ? Hu Hrest]; subst.
  apply IH; [|exact Hrest].
  unfold stepAcc. destruct (shouldSkipUpdate root lanes u); simpl.
  - apply Forall_app. split; [exact Ha|].
    constructor; [now apply qualifies_skippedClone|constructor].
  - destruct (acc_clones a) as [|c cs] eqn:Ec; [constructor|].
    apply Forall_app. split; [exact Ha|].
    constructor; [apply qualifies_rebasedClone|constructor].
Qed.

Lemma mergedLanes_snoc us u :
  mergedLanes (us ++ [u]) = mergeLanes (mergedLanes us) (update_lane u).
Proof. unfold mergedLanes. now rewrite fold_left_app. Qed.

Lemma mergedLanes_unlinked us : mergedLanes (map unlinked us) = mergedLanes us.
Proof.
  unfold mergedLanes. generalize NoLanes.
  induction us as [|u us IH]; intros l; simpl; [reflexivity|]. apply IH.
Qed.

Lemma skipped_lane_not_empty root lanes u :
  shouldSkipUpdate root lanes u = true -> updateLaneOf u <> NoLanes.
Proof.
  unfold shouldSkipUpdate, isSubsetOfLanes. intros H E. rewrite E in H.
  unfold NoLanes in H. rewrite !Z.land_0_r in H. simpl in H.
  destruct (negb _); discriminate.
Qed.

(** The lanes that the walk accumulates are the merge of the lanes of the
    clones, and they are empty only if there is no clone. *)
Lemma walkAcc_lanes props inst root lanes :
  forall us a,
    acc_lanes a = mergedLanes (acc_clones a) ->
    (acc_clones a <> [] -> acc_lanes a <> NoLanes) ->
    let a' := walkAcc props inst root lanes a us in
    acc_lanes a' = mergedLanes (acc_clones a') /\
    (acc_clones a' <> [] -> acc_lanes a' <> NoLanes).
Proof.
  induction us as [|u us IH]; intros a Hl Hne; simpl; [auto|].
  apply IH; unfold stepAcc;
    destruct (shouldSkipUpdate root lanes u) eqn:Hskip; simpl.
  - rewrite mergedLanes_snoc, Hl. reflexivity.
  - destruct (acc_clones a) as [|c cs] eqn:Ec; [exact Hl|].
    rewrite mergedLanes_snoc, Hl. simpl. unfold mergeLanes, NoLane.
    now rewrite Z.lor_0_r.
  - intros _ E. unfold mergeLanes, NoLanes in E.
    apply Z.lor_eq_0_iff in E. destruct E as [_ E].
    exact (skipped_lane_not_empty _ _ _ Hskip E).
  - destruct (acc_clones a) as [|c cs] eqn:Ec; [congruence|].
    intros _. apply Hne. discriminate.
Qed.

(** ** The walk on the store *)

Lemma segment_frame h h' first ps stop :
  (forall p, p ∈ ps -> h' !! p = h !! p) ->
  segment h first ps stop -> segment h' first ps stop.
Proof.
  revert first. induction ps as [|x ps IH]; intros first Hsame; simpl; [auto|].
  intros [-> (ux & Hx & Hrest)]. split; [reflexivity|].
  exists ux. split.
  - rewrite Hsame; [exact Hx|left].
  - apply IH; [|exact Hrest]. intros p Hp. apply Hsame. now right.
Qed.

Lemma recordsAt_frame h h' ps :
  (forall p, p ∈ ps -> h' !! p = h !! p) ->
  recordsAt h' ps = recordsAt h ps.
Proof.
  unfold recordsAt. induction ps as [|x ps IH]; intros Hsame; [reflexivity|].
  csimpl. rewrite Hsame by left. rewrite IH; [reflexivity|].
  intros p Hp. apply Hsame. now right.
Qed.

Lemma recordsAt_cons h p u ps :
  h !! p = Some u -> recordsAt h (p :: ps) = u :: recordsAt h ps.
Proof. intros H. unfold recordsAt. csimpl. now rewrite H. Qed.

Lemma entriesAt_frame h h' ps :
  (forall p, p ∈ ps -> h' !! p = h !! p) ->
  entriesAt h' ps = entriesAt h ps.
Proof.
  unfold entriesAt. induction ps as [|x ps IH]; intros Hsame; [reflexivity|].
  csimpl. rewrite Hsame by left. rewrite IH; [reflexivity|].
  intros p Hp. apply Hsame. now right.
Qed.

Lemma entriesAt_cons h p u ps :
  h !! p = Some u -> entriesAt h (p :: ps) = (p, u) :: entriesAt h ps.
Proof. intros H. unfold entriesAt. csimpl. now rewrite H. Qed.

Lemma segment_end_notin h first d l ul :
  segment h first d (Some l) -> h !! l = Some ul -> update_next ul = None ->
  l ∉ d.
Proof.
  revert first. induction d as [|x d IH]; intros first Hseg Hl Hnext Hin.
  - apply elem_of_nil in Hin. contradiction.
  - destruct Hseg as [-> (ux & Hx & Hrest)].
    apply elem_of_cons in Hin. destruct Hin as [->|Hin].
    + rewrite Hl in Hx. injection Hx as <-. rewrite Hnext in Hrest.
      destruct d; simpl in Hrest; [discriminate|].
      destruct Hrest as [E _]. discriminate.
    + exact (IH _ Hrest Hl Hnext Hin).
Qed.

(** Appending a fresh clone to the list under construction. *)
Lemma chain_append_clone h first cps l c crec :
  chain h first cps -> last cps = Some l -> h !! c = None ->
  update_next crec = None ->
  exists ul,
    h !! l = Some ul /\
    chain (<[l := set_update_next (Some c) ul]> (<[c := crec]> h)) first
      (cps ++ [c]).
Proof.
  intros Hchain Hlast Hc Hnext.
  destruct (last_snoc_inv _ _ Hlast) as [d ->].
  unfold chain in *. apply segment_snoc_inv in Hchain.
  destruct Hchain as [Hseg (ul & Hl & Hlnext)].
  exists ul. split; [exact Hl|].
  assert (Hld : l ∉ d) by (eapply segment_end_notin; eauto).
  assert (Hcd : c ∉ d).
  { intros Hin. destruct (segment_lookup _ _ _ _ _ Hseg Hin) as [x Hx].
    congruence. }
  assert (Hcl : c <> l) by congruence.
  eapply segment_app.
  - eapply segment_snoc.
    + apply segment_insert_notin; [exact Hld|].
      apply segment_insert_notin; [exact Hcd|]. exact Hseg.
    + apply lookup_insert_eq.
    + reflexivity.
  - simpl. split; [reflexivity|]. exists crec. split; [|exact Hnext].
    rewrite lookup_insert_ne by congruence. apply lookup_insert_eq.
Qed.

Lemma fresh_update_None (h : gmap ptr Update) : h !! fresh (dom h) = None.
Proof.
  apply not_elem_of_dom. apply is_fresh.
Qed.

Lemma getStateFromUpdate_run wip queue update u s props inst w :
  queueReady w wip queue ->
  updates w !! update = Some u ->
  exists w',
    getStateFromUpdate wip queue update s props inst w
    = (Return (reduceState props inst s u), w') /\
    updates w' = updates w /\
    sharedQueues w' = sharedQueues w /\
    workInProgressRootRenderLanes w' = workInProgressRootRenderLanes w /\
    queueReady w' wip queue /\
    sideOf wip queue w'
    = mkSide (hasForceUpdate w || isForceUpdate u) (effectsOf w queue)
        (flagsAfterState u <$> (fiber_flags <$> fibers w !! wip)) /\
    (forall x, x <> queue -> updateQueues w' !! x = updateQueues w !! x).
Proof.
  intros Hready Hu. unfold getStateFromUpdate, reduceState.
  rewrite (bind_load updates _ _ _ _ Hu).
  unfold isForceUpdate, flagsAfterState.
  assert (Hsame : sideOf wip queue w
                  = mkSide (hasForceUpdate w || false) (effectsOf w queue)
                      ((fun flags : Z => flags)
                         <$> (fiber_flags <$> fibers w !! wip))).
  { unfold sideOf. rewrite orb_false_r.
    now destruct (fibers w !! wip). }
  destruct (update_tag u).
  - exists w. auto 8.
  - exists w. destruct (update_payload u); auto 8.
  - eexists. split; [reflexivity|]. simpl.
    split; [reflexivity|]. split; [reflexivity|]. split; [reflexivity|].
    split; [exact Hready|]. split; [|intros x _; reflexivity].
    unfold sideOf, effectsOf. simpl. rewrite orb_true_r.
    now destruct (fibers w !! wip).
  - destruct Hready as (wf & q & sq & Hwf & Huq & Hq & Hsq & Hp & Heff).
    rewrite (bind_storeFiber _ _ _ _ _ Hwf).
    eexists. split; [reflexivity|]. simpl.
    split; [reflexivity|]. split; [reflexivity|]. split; [reflexivity|].
    split; [|split; [|intros x _; reflexivity]].
    + eexists _, q, sq. simpl. rewrite lookup_insert_eq.
      repeat split; auto.
    + unfold sideOf, effectsOf. simpl.
      rewrite lookup_insert_eq, Hwf, orb_false_r. reflexivity.
Qed.

Lemma pushEffect_run wip queue update w :
  queueReady w wip queue ->
  exists w',
    (storeFiber wip (fun f =>
       set_fiber_flags (Z.lor (fiber_flags f) Callback) f) ;;;
     pushEffect queue update) w = (Return tt, w') /\
    updates w' = updates w /\
    sharedQueues w' = sharedQueues w /\
    workInProgressRootRenderLanes w' = workInProgressRootRenderLanes w /\
    queueReady w' wip queue /\
    sideOf wip queue w'
    = mkSide (hasForceUpdate w) (effectsOf w queue ++ [update])
        ((fun flags => Z.lor flags Callback)
           <$> (fiber_flags <$> fibers w !! wip)) /\
    (forall x, x <> queue -> updateQueues w' !! x = updateQueues w !! x).
Proof.
  intros (wf & q & sq & Hwf & Huq & Hq & Hsq & Hp & Heff).
  rewrite (bind_storeFiber _ _ _ _ _ Hwf).
  set (w1 := with_fibers _ w).
  assert (Hq1 : updateQueues w1 !! queue = Some q) by exact Hq.
  unfold pushEffect. rewrite (bind_load updateQueues _ _ _ _ Hq1).
  destruct (queue_effects q) as [a|] eqn:Ea.
  - destruct (Heff a eq_refl) as [es Hes].
    assert (Hes1 : arrays w1 !! a = Some es) by exact Hes.
    rewrite (bind_load arrays _ _ _ _ Hes1).
    eexists. split; [reflexivity|]. simpl.
    split; [reflexivity|]. split; [reflexivity|]. split; [reflexivity|].
    split; [|split; [|intros x _; reflexivity]].
    + eexists _, q, sq. simpl. rewrite lookup_insert_eq.
      repeat split; auto.
      intros a' Ha'. rewrite Ea in Ha'. injection Ha' as <-.
      rewrite lookup_insert_eq. eauto.
    + unfold sideOf, effectsOf. simpl.
      rewrite Hq, lookup_insert_eq, Hwf. simpl.
      rewrite Ea, lookup_insert_eq, Hes. reflexivity.
  - unfold bind at 1. unfold newArray at 1.
    set (a := fresh (dom (arrays w1))).
    set (w2 := with_arrays _ w1).
    assert (Hq2 : updateQueues w2 !! queue = Some q) by exact Hq.
    rewrite (run_storeUpdateQueue _ _ _ _ Hq2).
    eexists. split; [reflexivity|]. simpl.
    split; [reflexivity|]. split; [reflexivity|]. split; [reflexivity|].
    split; [|split].
    + eexists _, _, sq. simpl. rewrite !lookup_insert_eq.
      repeat split; auto.
      intros a' Ha'. simpl in Ha'. injection Ha' as <-.
      rewrite lookup_insert_eq. eauto.
    + unfold sideOf, effectsOf. simpl.
      rewrite Hq, !lookup_insert_eq, Hwf. simpl.
      rewrite Ea, lookup_insert_eq. reflexivity.
    + intros x Hx. now rewrite lookup_insert_ne by congruence.
Qed.

Lemma Forall2_impl_elem {A B} (R R' : A -> B -> Prop) l k :
  Forall2 R l k ->
  (forall x y, x ∈ l -> R x y -> R' x y) ->
  Forall2 R' l k.
Proof.
  induction 1 as [|x y l k Hxy Hlk IH]; intros Himp; constructor.
  - apply Himp; [left|exact Hxy].
  - apply IH. intros x' y' Hin. apply Himp. now right.
Qed.

Lemma Forall2_nil_l_inv {A B} (R : A -> B -> Prop) k :
  Forall2 R [] k -> k = [].
Proof. inversion 1. reflexivity. Qed.

Lemma Forall2_nonempty {A B} (R : A -> B -> Prop) l k :
  Forall2 R l k -> l <> [] -> k <> [].
Proof. intros H Hl ->. inversion H. congruence. Qed.

(** Making a clone and linking it after the last clone. *)
Lemma append_clone_run w v a cps crec l :
  walkRep (updates w) v a cps ->
  newLastBaseUpdate v = Some l ->
  update_next crec = None ->
  exists h',
    (forall X (F : ptr -> X),
       (clone <- newUpdate crec ;; appendClone l clone ;;; ret (F clone)) w
       = (Return (F (fresh (dom (updates w)))), with_updates h' w)) /\
    chain h' (newFirstBaseUpdate v) (cps ++ [fresh (dom (updates w))]) /\
    Forall2 (fun p r => exists u, h' !! p = Some u /\ unlinked u = r)
      (cps ++ [fresh (dom (updates w))]) (acc_clones a ++ [crec]) /\
    (forall p, p ∉ cps ++ [fresh (dom (updates w))] ->
               h' !! p = updates w !! p) /\
    cps <> [].
Proof.
  intros (Hs & Hl & Hb & Hchain & Hlast & Hrecs) Hl' Hnext.
  rewrite Hl' in Hlast. symmetry in Hlast.
  set (c := fresh (dom (updates w))).
  assert (Hc : updates w !! c = None) by apply fresh_update_None.
  destruct (chain_append_clone _ _ _ _ c crec Hchain Hlast Hc Hnext)
    as (ul & Hul & Hchain').
  assert (Hcl : c <> l) by congruence.
  exists (<[l := set_update_next (Some c) ul]> (<[c := crec]> (updates w))).
  split; [|split; [|split; [|split]]].
  - intros X F. unfold bind at 1. unfold newUpdate at 1. fold c.
    unfold appendClone.
    rewrite (bind_storeUpdate _ _ ul).
    + reflexivity.
    + simpl. rewrite lookup_insert_ne by congruence. exact Hul.
  - exact Hchain'.
  - apply Forall2_app.
    + eapply Forall2_impl_elem; [exact Hrecs|].
      intros p r Hin (u & Hu & Er).
      destruct (decide (p = l)) as [->|Hne].
      * rewrite Hul in Hu. injection Hu as <-.
        eexists. rewrite lookup_insert_eq. split; [reflexivity|exact Er].
      * exists u. rewrite lookup_insert_ne by congruence.
        rewrite lookup_insert_ne by congruence. auto.
    + constructor; [|constructor].
      exists crec. rewrite lookup_insert_ne by congruence.
      rewrite lookup_insert_eq. split; [reflexivity|].
      destruct crec; simpl in *; subst; reflexivity.
  - intros p Hp. rewrite elem_of_app, list_elem_of_singleton in Hp.
    assert (p <> l).
    { intros ->. apply Hp. left. eapply last_Some_elem_of. exact Hlast. }
    rewrite lookup_insert_ne by congruence.
    rewrite lookup_insert_ne; [reflexivity|].
    intros E. apply Hp. right. symmetry. exact E.
  - intros ->. discriminate.
Qed.

Lemma walkRep_clones_nil h v a :
  walkRep h v a [] -> acc_clones a = [] /\ newLastBaseUpdate v = None.
Proof.
  intros (_ & _ & _ & _ & Hlast & Hrecs).
  split; [now apply Forall2_nil_l_inv in Hrecs|exact Hlast].
Qed.

Lemma walkRep_frame h h' v a cps :
  (forall p, p ∈ cps -> h' !! p = h !! p) ->
  walkRep h v a cps -> walkRep h' v a cps.
Proof.
  intros Hsame (Hs & Hl & Hb & Hchain & Hlast & Hrecs).
  repeat split; auto.
  - eapply segment_frame; eauto.
  - eapply Forall2_impl_elem; [exact Hrecs|].
    intros p r Hin (u & Hu & Er). exists u. rewrite Hsame by exact Hin. auto.
Qed.

(** One turn of the loop. *)
Lemma processUpdate_spec wip queue props inst lanes update u v a cps w :
  queueReady w wip queue ->
  updates w !! update = Some u ->
  walkRep (updates w) v a cps ->
  update ∉ cps ->
  exists w' v' cps',
    processUpdate wip queue props inst lanes update v w = (Return v', w') /\
    walkRep (updates w') v'
      (stepAcc props inst (workInProgressRootRenderLanes w) lanes a u) cps' /\
    queueReady w' wip queue /\
    workInProgressRootRenderLanes w' = workInProgressRootRenderLanes w /\
    sharedQueues w' = sharedQueues w /\
    (forall p, p ∉ cps' -> updates w' !! p = updates w !! p) /\
    (forall p, p ∈ cps' -> p ∈ cps \/ updates w !! p = None) /\
    sideOf wip queue w'
    = stepSide (workInProgressRootRenderLanes w) lanes (sideOf wip queue w)
        (update, u) /\
    (forall x, x <> queue -> updateQueues w' !! x = updateQueues w !! x).
Proof.
  intros Hready Hu Hrep Hnotin.
  unfold processUpdate. rewrite (bind_load updates _ _ _ _ Hu).
  unfold bind at 1. unfold gets at 1.
  change (if negb (removeLanes (update_lane u) OffscreenLane =? update_lane u)
          then negb (isSubsetOfLanes (workInProgressRootRenderLanes w)
                       (removeLanes (update_lane u) OffscreenLane))
          else negb (isSubsetOfLanes lanes
                       (removeLanes (update_lane u) OffscreenLane)))
    with (shouldSkipUpdate (workInProgressRootRenderLanes w) lanes u).
  unfold stepAcc.
  set (c := fresh (dom (updates w))).
  assert (Hc : updates w !! c = None) by apply fresh_update_None.
  assert (Huc : update <> c) by congruence.
  destruct (shouldSkipUpdate (workInProgressRootRenderLanes w) lanes u)
    eqn:Hskip.
  - (* the record is skipped *)
    change (mkUpdate (update_eventTime u)
              (removeLanes (update_lane u) OffscreenLane) (update_tag u)
              (update_payload u) (update_callback u) None)
      with (skippedClone u).
    destruct (newLastBaseUpdate v) as [l|] eqn:Hlast.
    + destruct (append_clone_run w v a cps (skippedClone u) l
                  Hrep Hlast eq_refl)
        as (h' & Hrun & Hchain & Hrecs & Hframe & Hne).
      fold c in Hrun, Hchain, Hrecs, Hframe.
      rewrite Hrun.
      destruct Hrep as (Hs & Hl & Hb & _ & _ & Hrecs0).
      eexists (with_updates h' w), _, (cps ++ [c]).
      split; [reflexivity|].
      split; [|split; [|split; [|split; [|split; [|split; [|split]]]]]].
      8:{ intros x _. reflexivity. }
      7:{ unfold stepSide. simpl snd. now rewrite Hskip. }
      * assert (Hclones : acc_clones a <> [])
          by (eapply Forall2_nonempty; eauto).
        unfold walkRep. simpl.
        destruct (acc_clones a) as [|c0 cs] eqn:Ec; [congruence|].
        rewrite Hs, Hl. repeat split; auto.
        symmetry. apply last_snoc.
      * exact Hready.
      * reflexivity.
      * reflexivity.
      * exact Hframe.
      * intros p Hp. apply elem_of_app in Hp. destruct Hp as [Hp|Hp]; [now left|].
        apply list_elem_of_singleton in Hp. subst p. now right.
    + assert (Hcps : cps = []).
      { destruct Hrep as (_ & _ & _ & _ & Hl & _).
        rewrite Hlast in Hl. symmetry in Hl. now apply last_None in Hl. }
      subst cps. destruct (walkRep_clones_nil _ _ _ Hrep) as [Hclones _].
      destruct Hrep as (Hs & Hl & _).
      unfold bind at 1. unfold newUpdate at 1. fold c. unfold ret.
      eexists (with_updates (<[c := skippedClone u]> (updates w)) w), _, [c].
      split; [reflexivity|].
      split; [|split; [|split; [|split; [|split; [|split; [|split]]]]]].
      8:{ intros x _. reflexivity. }
      7:{ unfold stepSide. simpl snd. now rewrite Hskip. }
      * unfold walkRep. simpl. rewrite Hclones, Hs, Hl. simpl.
        repeat split; auto.
        -- eexists. rewrite lookup_insert_eq. split; reflexivity.
        -- constructor; [|constructor]. eexists.
           rewrite lookup_insert_eq. split; reflexivity.
      * exact Hready.
      * reflexivity.
      * reflexivity.
      * intros p Hp. simpl. rewrite lookup_insert_ne; [reflexivity|].
        intros <-. apply Hp. left.
      * intros p Hp. apply list_elem_of_singleton in Hp. subst p. now right.
  - (* the record qualifies *)
    change (mkUpdate (update_eventTime u) NoLane (update_tag u)
              (update_payload u) (update_callback u) None)
      with (rebasedClone u).
    (* the clone, if the list under construction is not empty *)
    assert (Hclone : exists h' cps' newLast,
      (match newLastBaseUpdate v with
       | Some last =>
           clone <- newUpdate (rebasedClone u) ;;
           appendClone last clone ;;;
           ret (Some clone)
       | None => ret None
       end) w = (Return newLast, with_updates h' w) /\
      walkRep h'
        (mkWalk (reduceState props inst (newState v) u) (newLanes v)
           (newBaseState v) (newFirstBaseUpdate v) newLast)
        (mkAcc (reduceState props inst (acc_state a) u) (acc_lanes a)
           (acc_base a)
           (match acc_clones a with
            | [] => []
            | _ :: _ => acc_clones a ++ [rebasedClone u]
            end)) cps' /\
      (forall p, p ∉ cps' -> h' !! p = updates w !! p) /\
      (forall p, p ∈ cps' -> p ∈ cps \/ updates w !! p = None) /\
      update ∉ cps').
    { destruct (newLastBaseUpdate v) as [l|] eqn:Hlast.
      - destruct (append_clone_run w v a cps (rebasedClone u) l
                    Hrep Hlast eq_refl)
          as (h' & Hrun & Hchain & Hrecs & Hframe & Hne).
        fold c in Hrun, Hchain, Hrecs, Hframe.
        exists h', (cps ++ [c]), (Some c).
        destruct Hrep as (Hs & Hl & Hb & _ & _ & Hrecs0).
        assert (Hclones : acc_clones a <> [])
          by (eapply Forall2_nonempty; eauto).
        split; [apply (Hrun _ Some)|]. split; [|split; [|split]].
        + unfold walkRep. simpl.
          destruct (acc_clones a) as [|c0 cs] eqn:Ec; [congruence|].
          rewrite Hs, Hl. repeat split; auto.
          symmetry. apply last_snoc.
        + exact Hframe.
        + intros p Hp. apply elem_of_app in Hp.
          destruct Hp as [Hp|Hp]; [now left|].
          apply list_elem_of_singleton in Hp. subst p. now right.
        + rewrite elem_of_app, list_elem_of_singleton. tauto.
      - assert (Hcps : cps = []).
        { destruct Hrep as (_ & _ & _ & _ & Hl & _).
          rewrite Hlast in Hl. symmetry in Hl. now apply last_None in Hl. }
        subst cps. destruct (walkRep_clones_nil _ _ _ Hrep) as [Hclones _].
        destruct Hrep as (Hs & Hl & _ & Hchain0 & _).
        exists (updates w), [], None.
        split; [destruct w; reflexivity|]. split; [|split; [|split]].
        + unfold walkRep. simpl. rewrite Hclones, Hs, Hl.
          repeat split; auto. congruence.
        + reflexivity.
        + intros p Hp. apply elem_of_nil in Hp. contradiction.
        + apply not_elem_of_nil. }
    destruct Hclone as (h' & cps' & newLast & Hrun & Hrep' & Hframe & Hnew
                        & Hnotin').
    rewrite (bind_run _ _ _ _ _ Hrun).
    set (w2 := with_updates h' w).
    assert (Hu2 : updates w2 !! update = Some u).
    { simpl. rewrite Hframe by exact Hnotin'. exact Hu. }
    destruct (getStateFromUpdate_run wip queue update u (newState v) props
                inst w2 Hready Hu2)
      as (w3 & Hrun3 & Hupd3 & Hsh3 & Hroot3 & Hready3 & Hside3 & Hoq3).
    rewrite (bind_run _ _ _ _ _ Hrun3).
    assert (Hu3 : updates w3 !! update = Some u) by (rewrite Hupd3; exact Hu2).
    rewrite (bind_load updates _ _ _ _ Hu3).
    assert (Heffect : exists w4,
      (match update_callback u with
       | Some _ =>
           if negb (update_lane u =? NoLane) then
             storeFiber wip (fun f =>
               set_fiber_flags (Z.lor (fiber_flags f) Callback) f) ;;;
             pushEffect queue update
           else ret tt
       | None => ret tt
       end) w3 = (Return tt, w4) /\
      updates w4 = updates w3 /\
      sharedQueues w4 = sharedQueues w3 /\
      workInProgressRootRenderLanes w4 = workInProgressRootRenderLanes w3 /\
      queueReady w4 wip queue /\
      sideOf wip queue w4
      = (if hasEffect u then
           mkSide (hasForceUpdate w3) (effectsOf w3 queue ++ [update])
             ((fun flags => Z.lor flags Callback)
                <$> (fiber_flags <$> fibers w3 !! wip))
         else sideOf wip queue w3) /\
      (forall x, x <> queue ->
                 updateQueues w4 !! x = updateQueues w3 !! x)).
    { unfold hasEffect.
      destruct (update_callback u); [|exists w3; auto 8].
      destruct (negb (update_lane u =? NoLane)); [|exists w3; auto 8].
      apply pushEffect_run. exact Hready3. }
    destruct Heffect as (w4 & Hrun4 & Hupd4 & Hsh4 & Hroot4 & Hready4
                         & Hside4 & Hoq4).
    rewrite (bind_run _ _ _ _ _ Hrun4). unfold ret.
    eexists w4, _, cps'.
    split; [reflexivity|].
    split; [|split; [|split; [|split; [|split; [|split; [|split]]]]]].
    8:{ intros x Hx. rewrite (Hoq4 x Hx). exact (Hoq3 x Hx). }
    7:{ unfold stepSide. simpl fst. simpl snd. rewrite Hskip, Hside4.
        unfold flagsAfterUpdate.
        change (hasForceUpdate w2) with (hasForceUpdate w) in Hside3.
        change (effectsOf w2 queue) with (effectsOf w queue) in Hside3.
        change (fibers w2) with (fibers w) in Hside3.
        assert (E3 : hasForceUpdate w3
                     = hasForceUpdate w || isForceUpdate u /\
                     effectsOf w3 queue = effectsOf w queue /\
                     fiber_flags <$> fibers w3 !! wip
                     = flagsAfterState u <$> (fiber_flags <$> fibers w !! wip))
          by (unfold sideOf in Hside3; now inversion Hside3).
        destruct E3 as (E3f & E3e & E3g).
        destruct (hasEffect u).
        - rewrite E3f, E3e, E3g. unfold sideOf. simpl. f_equal.
          now destruct (fibers w !! wip).
        - rewrite Hside3. unfold sideOf. simpl. f_equal.
          now rewrite app_nil_r. }
    + rewrite Hupd4, Hupd3. exact Hrep'.
    + exact Hready4.
    + rewrite Hroot4, Hroot3. reflexivity.
    + rewrite Hsh4, Hsh3. reflexivity.
    + intros p Hp. rewrite Hupd4, Hupd3. simpl. apply Hframe. exact Hp.
    + exact Hnew.
Qed.

Lemma chain_nil_inv h first : chain h first [] -> first = None.
Proof. intros H. exact H. Qed.

Lemma chain_none_inv h ps : chain h None ps -> ps = [].
Proof. destruct ps; [reflexivity|]. intros [E _]. discriminate. Qed.

(** The whole walk over a durable list. *)
Lemma processUpdateLoop_spec wip queue props inst lanes :
  forall ps fuel first v a cps w,
    queueReady w wip queue ->
    chain (updates w) (Some first) ps ->
    walkRep (updates w) v a cps ->
    (forall p, p ∈ ps -> p ∉ cps) ->
    (length ps <= fuel)%nat ->
    exists w' v' cps',
      processUpdateLoop fuel wip queue props inst lanes first v w
      = (Return v', w') /\
      walkRep (updates w') v'
        (walkAcc props inst (workInProgressRootRenderLanes w) lanes a
           (recordsAt (updates w) ps)) cps' /\
      queueReady w' wip queue /\
      workInProgressRootRenderLanes w' = workInProgressRootRenderLanes w /\
      sharedQueues w' = sharedQueues w /\
      (forall p, p ∈ cps' -> p ∈ cps \/ updates w !! p = None) /\
      sideOf wip queue w'
      = walkSide (workInProgressRootRenderLanes w) lanes (sideOf wip queue w)
          (entriesAt (updates w) ps) /\
      (forall p, is_Some (updates w !! p) -> p ∉ cps ->
                 updates w' !! p = updates w !! p) /\
      (forall x, x <> queue ->
                 updateQueues w' !! x = updateQueues w !! x).
Proof.
  induction ps as [|x ps IH]; intros fuel first v a cps w Hready Hchain Hrep
    Hdisj Hfuel.
  - discriminate Hchain.
  - destruct Hchain as [E (u & Hu & Hrest)]. injection E as <-.
    destruct fuel as [|fuel]; [simpl in Hfuel; lia|].
    cbn [processUpdateLoop].
    destruct (processUpdate_spec wip queue props inst lanes first u v a cps w
                Hready Hu Hrep)
      as (w1 & v1 & cps1 & Hrun & Hrep1 & Hready1 & Hroot1 & Hsh1 & Hframe1
          & Hnew1 & Hside1 & Hoq1).
    { apply Hdisj. left. }
    rewrite (bind_run _ _ _ _ _ Hrun).
    assert (Hold : forall p, is_Some (updates w !! p) -> p ∉ cps ->
                             updates w1 !! p = updates w !! p).
    { intros p [y Hy] Hp. apply Hframe1. intros Hin.
      destruct (Hnew1 p Hin) as [?|E]; [contradiction|congruence]. }
    assert (Hu1 : updates w1 !! first = Some u).
    { rewrite Hold; [exact Hu|eauto|]. apply Hdisj. left. }
    rewrite (bind_load updates _ _ _ _ Hu1).
    assert (Hps : forall p, p ∈ ps -> updates w1 !! p = updates w !! p).
    { intros p Hp. apply Hold.
      - eapply segment_lookup; eauto.
      - apply Hdisj. now right. }
    rewrite (recordsAt_cons _ _ _ _ Hu). simpl walkAcc.
    rewrite (entriesAt_cons _ _ _ _ Hu). simpl walkSide.
    destruct (update_next u) as [next|] eqn:Hnext.
    + destruct (IH fuel next v1
                  (stepAcc props inst (workInProgressRootRenderLanes w) lanes
                     a u) cps1 w1)
        as (w2 & v2 & cps2 & Hloop & Hrep2 & Hready2 & Hroot2 & Hsh2 & Hnew2
            & Hside2 & Hkeep2 & Hoq2).
      * exact Hready1.
      * eapply segment_frame; [|exact Hrest]. exact Hps.
      * exact Hrep1.
      * intros p Hp Hin. destruct (Hnew1 p Hin) as [Hc|Hc].
        -- revert Hc. apply Hdisj. now right.
        -- destruct (segment_lookup _ _ _ _ _ Hrest Hp) as [y Hy]. congruence.
      * simpl in Hfuel. lia.
      * assert (Hkeep : forall p, is_Some (updates w !! p) -> p ∉ cps ->
                                  updates w2 !! p = updates w !! p).
        { intros p Hex Hp. rewrite <- (Hold p Hex Hp). apply Hkeep2.
          - rewrite (Hold p Hex Hp). exact Hex.
          - intros Hin. destruct (Hnew1 p Hin) as [?|E]; [contradiction|].
            rewrite E in Hex. destruct Hex as [? ?]. discriminate. }
        exists w2, v2, cps2. split; [exact Hloop|].
        rewrite Hroot1 in Hrep2. rewrite (recordsAt_frame _ _ _ Hps) in Hrep2.
        split; [exact Hrep2|]. split; [exact Hready2|].
        split; [congruence|]. split; [congruence|].
        split;
          [|split;
            [rewrite Hside2, Hside1, Hroot1, (entriesAt_frame _ _ _ Hps);
             reflexivity
            |split;
             [exact Hkeep
             |intros z Hz; rewrite (Hoq2 z Hz); exact (Hoq1 z Hz)]]].
        intros p Hp. destruct (Hnew2 p Hp) as [Hc|Hc].
        -- apply Hnew1. exact Hc.
        -- destruct (updates w !! p) as [y|] eqn:Ey; [|now right].
           left. destruct (decide (p ∈ cps)) as [Hin|Hnin]; [exact Hin|].
           rewrite Hold in Hc; [congruence|eauto|exact Hnin].
    + apply chain_none_inv in Hrest. subst ps.
      destruct Hready1 as (wf & q & sq & Hwf & Huq & Hq & Hsq & Hp & Heff).
      rewrite (bind_load updateQueues _ _ _ _ Hq).
      rewrite (bind_load sharedQueues _ _ _ _ Hsq), Hp.
      exists w1, v1, cps1. split; [reflexivity|].
      split; [exact Hrep1|].
      split; [exists wf, q, sq; repeat split; assumption|].
      split; [exact Hroot1|]. split; [exact Hsh1|]. split; [exact Hnew1|].
      split; [exact Hside1|]. split; [exact Hold|exact Hoq1].
Qed.

(** ** Transferring the pending list *)

Lemma unlink_ring h lastp ps2 :
  ring h (Some lastp) ps2 ->
  exists lp f2,
    h !! lastp = Some lp /\ update_next lp = Some f2 /\
    head ps2 = Some f2 /\
    chain (<[lastp := set_update_next None lp]> h) (Some f2) ps2.
Proof.
  intros (Hlast & Hnd & Hseg).
  destruct (last_snoc_inv _ _ Hlast) as [d ->].
  assert (Hhead : exists f2, head (d ++ [lastp]) = Some f2).
  { destruct d; simpl; eauto. }
  destruct Hhead as [f2 Hf2]. rewrite Hf2 in Hseg.
  apply segment_snoc_inv in Hseg. destruct Hseg as [Hseg (lp & Hlp & Hnext)].
  exists lp, f2. split; [exact Hlp|]. split; [exact Hnext|].
  split; [exact Hf2|].
  apply NoDup_app in Hnd. destruct Hnd as (_ & Hdis & _).
  eapply segment_snoc.
  - apply segment_insert_notin; [|exact Hseg].
    intros Hin. apply (Hdis _ Hin). left.
  - apply lookup_insert_eq.
  - reflexivity.
Qed.

Lemma chain_join h first ps1 l1 f2 ps2 :
  chain h first ps1 -> last ps1 = Some l1 ->
  (forall p, p ∈ ps1 -> p ∉ ps2) ->
  chain h (Some f2) ps2 ->
  exists ul1,
    h !! l1 = Some ul1 /\
    chain (<[l1 := set_update_next (Some f2) ul1]> h) first (ps1 ++ ps2).
Proof.
  intros Hchain Hlast Hdisj Hchain2.
  destruct (last_snoc_inv _ _ Hlast) as [d ->].
  unfold chain in *. apply segment_snoc_inv in Hchain.
  destruct Hchain as [Hseg (ul1 & Hl1 & Hnext)].
  exists ul1. split; [exact Hl1|].
  assert (Hld : l1 ∉ d) by (eapply segment_end_notin; eauto).
  eapply segment_app.
  - eapply segment_snoc.
    + apply segment_insert_notin; [exact Hld|exact Hseg].
    + apply lookup_insert_eq.
    + reflexivity.
  - apply segment_insert_notin; [|exact Hchain2].
    apply Hdisj. apply elem_of_app. right. left.
Qed.

Lemma map_unlinked_recordsAt_frame h h' ps :
  (forall p, p ∈ ps ->
     match h !! p, h' !! p with
     | Some u, Some u' => unlinked u' = unlinked u
     | None, None => True
     | _, _ => False
     end) ->
  map unlinked (recordsAt h' ps) = map unlinked (recordsAt h ps).
Proof.
  unfold recordsAt. induction ps as [|x ps IH]; intros Hsame; [reflexivity|].
  csimpl. specialize (Hsame x) as Hx. specialize (Hx ltac:(left)).
  destruct (h !! x), (h' !! x); try contradiction; simpl.
  - rewrite Hx. f_equal. apply IH. intros p Hp. apply Hsame. now right.
  - apply IH. intros p Hp. apply Hsame. now right.
Qed.

Lemma sameRecords_recordsAt h h' ps :
  sameRecords h h' ->
  map unlinked (recordsAt h' ps) = map unlinked (recordsAt h ps).
Proof. intros S. apply map_unlinked_recordsAt_frame. intros p _. apply S. Qed.

Lemma sameRecords_is_Some h h' p :
  sameRecords h h' -> is_Some (h !! p) -> is_Some (h' !! p).
Proof.
  intros S [u Hu]. specialize (S p). rewrite Hu in S.
  destruct (h' !! p); [eauto|contradiction].
Qed.

Lemma transferPending_spec wip queue base ps1 ps2 w :
  queueHolds w wip queue base ps1 ps2 ->
  exists q w' first,
    updateQueues w !! queue = Some q /\
    transferPending wip queue (queue_firstBaseUpdate q)
      (queue_lastBaseUpdate q) w
    = (Return (first, last (ps1 ++ ps2)), w') /\
    chain (updates w') first (ps1 ++ ps2) /\
    sameRecords (updates w) (updates w') /\
    queueReady w' wip queue /\
    (exists q', updateQueues w' !! queue = Some q' /\
                queue_baseState q' = base) /\
    fibers w' = fibers w /\
    workInProgressRootRenderLanes w' = workInProgressRootRenderLanes w /\
    sideOf wip queue w' = sideOf wip queue w.
Proof.
  intros (wf & q & sq & Hwf & Huq & Hq & Hbase & Hchain & Hlast & Hsq & Hring
          & Hdisj & Heff & Htwin).
  exists q. unfold transferPending.
  rewrite (bind_load updateQueues _ _ _ _ Hq).
  rewrite (bind_load sharedQueues _ _ _ _ Hsq).
  destruct (shared_pending sq) as [lastp|] eqn:Hpend.
  2:{ simpl in Hring. subst ps2. rewrite app_nil_r.
      exists w, (queue_firstBaseUpdate q). split; [exact Hq|].
      split; [rewrite Hlast; reflexivity|]. split; [exact Hchain|].
      split; [apply sameRecords_refl|].
      split; [exists wf, q, sq; repeat split; assumption|].
      split; [eauto|]. auto. }
  assert (Hne2 : ps2 <> []).
  { destruct Hring as (Hl & _). intros ->. discriminate. }
  specialize (Htwin Hne2).
  assert (Hlast2 : last (ps1 ++ ps2) = Some lastp).
  { destruct Hring as (Hl & _). rewrite last_app, Hl. reflexivity. }
  rewrite Hlast2.
  destruct (unlink_ring _ _ _ Hring) as (lp & f2 & Hlp & Hnext & Hhead & Hch2).
  rewrite (bind_storeSharedQueue _ _ _ _ _ Hsq).
  set (w1 := with_sharedQueues _ w).
  assert (Hlp1 : updates w1 !! lastp = Some lp) by exact Hlp.
  rewrite (bind_load updates _ _ _ _ Hlp1), Hnext.
  rewrite (bind_storeUpdate _ _ _ _ _ Hlp1).
  set (h1 := <[lastp := set_update_next None lp]> (updates w)) in *.
  set (w2 := with_updates h1 w1).
  assert (S1 : sameRecords (updates w) h1)
    by (apply sameRecords_relink; exact Hlp).
  (* joining the two lists *)
  assert (Hjoin : exists h2 first,
    (match queue_lastBaseUpdate q with
     | None => ret (Some f2)
     | Some last =>
         storeUpdate last (set_update_next (Some f2)) ;;;
         ret (queue_firstBaseUpdate q)
     end) w2 = (Return first, with_updates h2 w1) /\
    chain h2 first (ps1 ++ ps2) /\ sameRecords h1 h2 /\
    (forall l1 r, queue_lastBaseUpdate q = Some l1 -> h2 !! l1 = Some r ->
                  update_next r = Some f2)).
  { destruct (queue_lastBaseUpdate q) as [l1|] eqn:Hl1.
    - symmetry in Hlast.
      assert (Hch1 : chain h1 (queue_firstBaseUpdate q) ps1).
      { apply segment_insert_notin; [|exact Hchain].
        intros Hin. apply (Hdisj _ Hin).
        destruct Hring as (Hl & _). eapply last_Some_elem_of. exact Hl. }
      destruct (chain_join h1 _ ps1 l1 f2 ps2 Hch1 Hlast Hdisj Hch2)
        as (ul1 & Hul1 & Hjoined).
      exists (<[l1 := set_update_next (Some f2) ul1]> h1),
        (queue_firstBaseUpdate q).
      split; [|split; [|split]].
      + assert (Hul1' : updates w2 !! l1 = Some ul1) by exact Hul1.
        rewrite (bind_storeUpdate _ _ _ _ _ Hul1'). reflexivity.
      + exact Hjoined.
      + apply sameRecords_relink. exact Hul1.
      + intros l r E Hr. injection E as <-.
        rewrite lookup_insert_eq in Hr. injection Hr as <-. reflexivity.
    - symmetry in Hlast. apply last_None in Hlast. subst ps1.
      exists h1, (Some f2). split; [reflexivity|].
      split; [exact Hch2|]. split; [apply sameRecords_refl|].
      intros l r E. discriminate. }
  destruct Hjoin as (h2 & first & Hrunj & Hjoined & S2 & Hl1next).
  rewrite (bind_run _ _ _ _ _ Hrunj).
  set (w3 := with_updates h2 w1).
  assert (Hwf3 : fibers w3 !! wip = Some wf) by exact Hwf.
  rewrite (bind_load fibers _ _ _ _ Hwf3).
  assert (S02 : sameRecords (updates w) h2)
    by (eapply sameRecords_trans; eauto).
  (* the queue of the alternate *)
  assert (Htwinstep : exists h3 Q3,
    (match fiber_alternate wf with
     | Some current =>
         cf <- load fibers current ;;
         match fiber_updateQueue cf with
         | None => throw TypeError
         | Some currentQueue =>
             cq <- load updateQueues currentQueue ;;
             let currentLastBaseUpdate := queue_lastBaseUpdate cq in
             if bool_decide (currentLastBaseUpdate <> Some lastp) then
               match currentLastBaseUpdate with
               | None =>
                   storeUpdateQueue currentQueue
                     (set_queue_firstBaseUpdate (Some f2))
               | Some currentLast =>
                   storeUpdate currentLast (set_update_next (Some f2))
               end ;;;
               storeUpdateQueue currentQueue
                 (set_queue_lastBaseUpdate (Some lastp))
             else ret tt
         end
     | None => ret tt
     end) w3
    = (Return tt, with_updateQueues Q3 (with_updates h3 w1)) /\
    chain h3 first (ps1 ++ ps2) /\ sameRecords h2 h3 /\
    sameQueues (updateQueues w) Q3).
  { assert (SQ0 : sameQueues (updateQueues w) (updateQueues w)).
    { intros x. destruct (updateQueues w !! x); auto. }
    unfold twinOk in Htwin.
    destruct (fiber_alternate wf) as [current|].
    2:{ exists h2, (updateQueues w). split; [reflexivity|].
        split; [exact Hjoined|]. split; [apply sameRecords_refl|exact SQ0]. }
    destruct Htwin as (cf & cq & cqr & Hcf & Hcq & Hcqr & Hcases).
    assert (Hcf3 : fibers w3 !! current = Some cf) by exact Hcf.
    rewrite (bind_load fibers _ _ _ _ Hcf3), Hcq.
    assert (Hcqr3 : updateQueues w3 !! cq = Some cqr) by exact Hcqr.
    rewrite (bind_load updateQueues _ _ _ _ Hcqr3). cbv zeta.
    assert (SQ1 : forall f,
      (forall x, queue_baseState (f x) = queue_baseState x /\
                 queue_shared (f x) = queue_shared x /\
                 queue_effects (f x) = queue_effects x) ->
      forall Q, sameQueues (updateQueues w) Q ->
      forall y, Q !! cq = Some y ->
      sameQueues (updateQueues w) (<[cq := f y]> Q)).
    { intros f Hf Q SQ y Hy x. specialize (SQ x).
      destruct (decide (x = cq)) as [->|Hne].
      - rewrite lookup_insert_eq. rewrite Hy in SQ.
        destruct (updateQueues w !! cq); [|contradiction].
        destruct (Hf y) as (A & B & C). destruct SQ as (A' & B' & C').
        repeat split; congruence.
      - rewrite lookup_insert_ne by congruence. exact SQ. }
    destruct (decide (queue_lastBaseUpdate cqr = Some lastp)) as [Eq|Hneq].
    { rewrite bool_decide_eq_false_2 by tauto.
      exists h2, (updateQueues w). split; [reflexivity|].
      split; [exact Hjoined|]. split; [apply sameRecords_refl|exact SQ0]. }
    rewrite bool_decide_eq_true_2 by exact Hneq.
    destruct (queue_lastBaseUpdate cqr) as [c|] eqn:Ecl.
    - (* the last base update of the alternate is relinked *)
      assert (Hc : exists r h3,
        h2 !! c = Some r /\ h3 = <[c := set_update_next (Some f2) r]> h2 /\
        chain h3 first (ps1 ++ ps2) /\ sameRecords h2 h3).
      { destruct Hcases as [E|[E|(c' & E & Hnotin & Hex)]].
        - destruct (sameRecords_is_Some _ _ c S02) as [r Hr].
          { rewrite E, Hlast in *.
            eapply segment_lookup; [exact Hchain|].
            eapply last_Some_elem_of. symmetry.
            destruct (queue_lastBaseUpdate q); congruence. }
          exists r, h2. split; [exact Hr|].
          assert (Hrn : update_next r = Some f2).
          { apply (Hl1next c r); [congruence|exact Hr]. }
          split; [|split; [exact Hjoined|apply sameRecords_refl]].
          symmetry. apply insert_id. rewrite Hr. f_equal.
          destruct r; simpl in *; subst; reflexivity.
        - discriminate.
        - injection E as <-.
          destruct (sameRecords_is_Some _ _ c S02 Hex) as [r Hr].
          exists r, (<[c := set_update_next (Some f2) r]> h2).
          split; [exact Hr|]. split; [reflexivity|]. split.
          + apply segment_insert_notin; [exact Hnotin|exact Hjoined].
          + apply sameRecords_relink. exact Hr. }
      destruct Hc as (r & h3 & Hr & Eh3 & Hch3 & S3).
      assert (Hr3 : updates w3 !! c = Some r) by exact Hr.
      rewrite (bind_storeUpdate _ _ _ _ _ Hr3). simpl updates.
      rewrite <- Eh3.
      set (w4 := with_updates h3 w3).
      assert (Hcqr4 : updateQueues w4 !! cq = Some cqr) by exact Hcqr.
      rewrite (run_storeUpdateQueue _ _ _ _ Hcqr4).
      exists h3, (<[cq := set_queue_lastBaseUpdate (Some lastp) cqr]>
                    (updateQueues w)).
      split; [reflexivity|]. split; [exact Hch3|]. split; [exact S3|].
      apply (SQ1 (set_queue_lastBaseUpdate (Some lastp)));
        [intros x; auto|exact SQ0|exact Hcqr].
    - (* the alternate has no base update *)
      rewrite (bind_storeUpdateQueue _ _ _ _ _ Hcqr3).
      set (w4 := with_updateQueues _ w3).
      assert (Hcqr4 : updateQueues w4 !! cq
                      = Some (set_queue_firstBaseUpdate (Some f2) cqr))
        by apply lookup_insert_eq.
      rewrite (run_storeUpdateQueue _ _ _ _ Hcqr4).
      eexists h2, _. split; [reflexivity|].
      split; [exact Hjoined|]. split; [apply sameRecords_refl|].
      apply (SQ1 (set_queue_lastBaseUpdate (Some lastp)));
        [intros x; auto| |apply lookup_insert_eq].
      apply (SQ1 (set_queue_firstBaseUpdate (Some f2)));
        [intros x; auto|exact SQ0|exact Hcqr]. }
  destruct Htwinstep as (h3 & Q3 & Hrunt & Hch3 & S3 & SQ3).
  rewrite (bind_run _ _ _ _ _ Hrunt). unfold ret.
  eexists _, first. split; [exact Hq|]. split; [reflexivity|]. simpl.
  split; [exact Hch3|].
  split; [eapply sameRecords_trans; [exact S02|exact S3]|].
  specialize (SQ3 queue) as SQq. rewrite Hq in SQq.
  destruct (Q3 !! queue) as [q'|] eqn:Hq'; [|contradiction].
  destruct SQq as (Hb' & Hs' & He').
  split; [|split; [|split; [|split]]].
  - exists wf, q', (set_shared_pending None sq). simpl.
    rewrite Hs', lookup_insert_eq, He'. repeat split; auto.
  - exists q'. split; [reflexivity|congruence].
  - reflexivity.
  - reflexivity.
  - unfold sideOf, effectsOf. simpl. rewrite Hq', Hq. simpl. now rewrite He'.
Qed.

(** ** A pass over the queue *)

Lemma walkRep_records h v a cps :
  walkRep h v a cps -> map unlinked (recordsAt h cps) = acc_clones a.
Proof.
  intros (_ & _ & _ & _ & _ & Hrecs). unfold recordsAt.
  induction Hrecs as [|p r cps rs (u & Hu & Er) _ IH]; [reflexivity|].
  csimpl. rewrite Hu. simpl. now rewrite Er, IH.
Qed.

Lemma walkAcc_sameRecords props inst root lanes a h h' ps :
  sameRecords h h' ->
  walkAcc props inst root lanes a (recordsAt h' ps)
  = walkAcc props inst root lanes a (recordsAt h ps).
Proof.
  intros S.
  rewrite <- (walkAcc_unlinked _ _ _ _ (recordsAt h' ps)).
  rewrite <- (walkAcc_unlinked _ _ _ _ (recordsAt h ps)).
  now rewrite (sameRecords_recordsAt _ _ _ S).
Qed.

(** The pending list goes to the queue of the alternate too. *)
Lemma transferPending_current w wip queue base ps1 ps2 wf q current cf cq cqr :
  queueHolds w wip queue base ps1 ps2 ->
  ps2 <> [] ->
  fibers w !! wip = Some wf ->
  updateQueues w !! queue = Some q ->
  fiber_alternate wf = Some current ->
  fibers w !! current = Some cf ->
  fiber_updateQueue cf = Some cq ->
  updateQueues w !! cq = Some cqr ->
  queue_firstBaseUpdate cqr = queue_firstBaseUpdate q ->
  queue_lastBaseUpdate cqr = queue_lastBaseUpdate q ->
  exists first w' cqr',
    transferPending wip queue (queue_firstBaseUpdate q)
      (queue_lastBaseUpdate q) w
    = (Return (first, last ps2), w') /\
    updateQueues w' !! cq = Some cqr' /\
    queue_firstBaseUpdate cqr' = first /\
    queue_lastBaseUpdate cqr' = last ps2 /\
    queue_baseState cqr' = queue_baseState cqr /\
    forall x, x <> cq -> updateQueues w' !! x = updateQueues w !! x.
Proof.
  intros (wf0 & q0 & sq & Hwf0 & Huq & Hq0 & Hbase & Hchain & Hlast & Hsq
          & Hring & Hdisj & Heff & Htwin) Hne2 Hwf Hq Halt Hcf Hcuq Hcqr
    Hcfirst Hclast.
  assert (wf0 = wf) by congruence. subst wf0.
  assert (q0 = q) by congruence. subst q0.
  unfold transferPending.
  rewrite (bind_load updateQueues _ _ _ _ Hq).
  rewrite (bind_load sharedQueues _ _ _ _ Hsq).
  destruct (shared_pending sq) as [lastp|] eqn:Hpend;
    [|simpl in Hring; contradiction].
  assert (Hl2 : last ps2 = Some lastp) by apply Hring.
  assert (Hin2 : lastp ∈ ps2) by (eapply last_Some_elem_of; exact Hl2).
  destruct (unlink_ring _ _ _ Hring) as (lp & f2 & Hlp & Hnext & _ & _).
  rewrite (bind_storeSharedQueue _ _ _ _ _ Hsq).
  set (w1 := with_sharedQueues _ w).
  assert (Hlp1 : updates w1 !! lastp = Some lp) by exact Hlp.
  rewrite (bind_load updates _ _ _ _ Hlp1), Hnext.
  rewrite (bind_storeUpdate _ _ _ _ _ Hlp1).
  set (w2 := with_updates _ w1).
  rewrite Hl2.
  destruct (queue_lastBaseUpdate q) as [l1|] eqn:Hl1.
  - assert (Hin1 : l1 ∈ ps1) by (eapply last_Some_elem_of; now symmetry).
    assert (Hl1p : l1 <> lastp).
    { intros ->. exact (Hdisj _ Hin1 Hin2). }
    destruct (segment_lookup _ _ _ _ _ Hchain Hin1) as [ul1 Hul1].
    assert (Hul2 : updates w2 !! l1 = Some ul1).
    { simpl. rewrite lookup_insert_ne by congruence. exact Hul1. }
    rewrite ?bind_assoc, (bind_storeUpdate _ _ _ _ _ Hul2), bind_ret_l.
    set (w3 := with_updates _ w2).
    assert (Hwf3 : fibers w3 !! wip = Some wf) by exact Hwf.
    rewrite ?bind_assoc, (bind_load fibers _ _ _ _ Hwf3), Halt.
    assert (Hcf3 : fibers w3 !! current = Some cf) by exact Hcf.
    rewrite ?bind_assoc, (bind_load fibers _ _ _ _ Hcf3), Hcuq.
    assert (Hcqr3 : updateQueues w3 !! cq = Some cqr) by exact Hcqr.
    rewrite ?bind_assoc, (bind_load updateQueues _ _ _ _ Hcqr3). cbv zeta.
    rewrite Hclast.
    rewrite bool_decide_eq_true_2 by congruence.
    assert (Hul3 : updates w3 !! l1
                   = Some (set_update_next (Some f2) ul1))
      by (simpl; apply lookup_insert_eq).
    rewrite ?bind_assoc, (bind_storeUpdate _ _ _ _ _ Hul3).
    set (w4 := with_updates _ w3).
    assert (Hcqr4 : updateQueues w4 !! cq = Some cqr) by exact Hcqr.
    rewrite (bind_storeUpdateQueue _ _ _ _ _ Hcqr4).
    eexists _, _, _. split; [reflexivity|]. simpl.
    rewrite lookup_insert_eq. split; [reflexivity|].
    split; [exact Hcfirst|]. split; [reflexivity|]. split; [reflexivity|].
    intros x Hx. now rewrite lookup_insert_ne by congruence.
  - rewrite bind_ret_l.
    assert (Hwf2 : fibers w2 !! wip = Some wf) by exact Hwf.
    rewrite ?bind_assoc, (bind_load fibers _ _ _ _ Hwf2), Halt.
    assert (Hcf2 : fibers w2 !! current = Some cf) by exact Hcf.
    rewrite ?bind_assoc, (bind_load fibers _ _ _ _ Hcf2), Hcuq.
    assert (Hcqr2 : updateQueues w2 !! cq = Some cqr) by exact Hcqr.
    rewrite ?bind_assoc, (bind_load updateQueues _ _ _ _ Hcqr2). cbv zeta.
    rewrite Hclast.
    rewrite bool_decide_eq_true_2 by congruence.
    rewrite ?bind_assoc, (bind_storeUpdateQueue _ _ _ _ _ Hcqr2).
    set (w3 := with_updateQueues _ w2).
    assert (Hcqr3 : updateQueues w3 !! cq
                    = Some (set_queue_firstBaseUpdate (Some f2) cqr))
      by (simpl; apply lookup_insert_eq).
    rewrite (bind_storeUpdateQueue _ _ _ _ _ Hcqr3).
    eexists _, _, _. split; [reflexivity|]. simpl.
    rewrite lookup_insert_eq. split; [reflexivity|].
    split; [reflexivity|]. split; [reflexivity|]. split; [reflexivity|].
    intros x Hx. now rewrite !lookup_insert_ne by congruence.
Qed.

Lemma walkSide_sameRecords root lanes h h' ps :
  sameRecords h h' ->
  forall s,
    walkSide root lanes s (entriesAt h' ps)
    = walkSide root lanes s (entriesAt h ps).
Proof.
  intros S. unfold entriesAt.
  induction ps as [|p ps IH]; intros s; [reflexivity|].
  csimpl. specialize (S p).
  destruct (h !! p) as [u|], (h' !! p) as [u'|]; try contradiction;
    simpl; [|apply IH].
  rewrite IH. f_equal.
  change (stepSide root lanes s (p, unlinked u')
          = stepSide root lanes s (p, unlinked u)).
  now rewrite S.
Qed.

Lemma processUpdateQueue_run fuel wip queue props inst lanes base ps1 ps2 w :
  queueHolds w wip queue base ps1 ps2 ->
  (length (ps1 ++ ps2) <= fuel)%nat ->
  let a :=
    walkAcc props inst (workInProgressRootRenderLanes w) lanes (startAcc base)
      (recordsAt (updates w) (ps1 ++ ps2)) in
  exists w' cps,
    processUpdateQueue fuel wip props inst lanes w = (Return tt, w') /\
    queueHolds w' wip queue (baseAfter a) cps [] /\
    map unlinked (recordsAt (updates w') cps) = acc_clones a /\
    workInProgressRootRenderLanes w' = workInProgressRootRenderLanes w /\
    (ps1 ++ ps2 <> [] ->
     exists wf', fibers w' !! wip = Some wf' /\
                 fiber_lanes wf' = acc_lanes a /\
                 fiber_memoizedState wf' = acc_state a) /\
    (ps1 ++ ps2 = [] -> fibers w' !! wip = fibers w !! wip) /\
    sideOf wip queue w'
    = walkSide (workInProgressRootRenderLanes w) lanes
        (mkSide false (effectsOf w queue) (fiber_flags <$> fibers w !! wip))
        (entriesAt (updates w) (ps1 ++ ps2)) /\
    (forall p u, updates w !! p = Some u ->
       exists u', updates w' !! p = Some u' /\ unlinked u' = unlinked u) /\
    (forall wf q current cf cq cqr,
       ps2 <> [] ->
       fibers w !! wip = Some wf ->
       updateQueues w !! queue = Some q ->
       fiber_alternate wf = Some current ->
       fibers w !! current = Some cf ->
       fiber_updateQueue cf = Some cq ->
       cq <> queue ->
       updateQueues w !! cq = Some cqr ->
       queue_firstBaseUpdate cqr = queue_firstBaseUpdate q ->
       queue_lastBaseUpdate cqr = queue_lastBaseUpdate q ->
       exists cqr',
         updateQueues w' !! cq = Some cqr' /\
         chain (updates w') (queue_firstBaseUpdate cqr') (ps1 ++ ps2) /\
         queue_lastBaseUpdate cqr' = last ps2 /\
         queue_baseState cqr' = queue_baseState cqr).
Proof.
  intros Hholds Hfuel a.
  pose proof Hholds as (wf & q & sq & Hwf & Huq & Hq & Hbase & Hchain & Hlast
                        & Hsq & Hring & Hdisj & Heff & Htwin).
  unfold processUpdateQueue.
  rewrite (bind_load fibers _ _ _ _ Hwf).
  unfold bind at 1. unfold modify at 1. rewrite Huq.
  set (w0 := with_hasForceUpdate false w).
  assert (Hq0 : updateQueues w0 !! queue = Some q) by exact Hq.
  rewrite (bind_load updateQueues _ _ _ _ Hq0).
  unfold bind at 1. unfold gets at 1.
  (* the world in which the pending list is transferred *)
  assert (Hstart : exists w1,
    (if DEV w0 then
       modify (with_currentlyProcessingQueue (Some (queue_shared q)))
     else ret tt) w0 = (Return tt, w1) /\
    queueHolds w1 wip queue base ps1 ps2 /\
    updates w1 = updates w /\ fibers w1 = fibers w /\
    workInProgressRootRenderLanes w1 = workInProgressRootRenderLanes w /\
    sideOf wip queue w1
    = mkSide false (effectsOf w queue) (fiber_flags <$> fibers w !! wip) /\
    updateQueues w1 = updateQueues w).
  { destruct (DEV w0); eexists; (split; [reflexivity|]);
      (split; [exact Hholds|]); auto 8. }
  destruct Hstart as (w1 & Hrun1 & Hholds1 & Hu1 & Hf1 & Hr1 & Hside1
                      & Hqs1).
  rewrite (bind_run _ _ _ _ _ Hrun1).
  destruct (transferPending_spec wip queue base ps1 ps2 w1 Hholds1)
    as (q1 & w2 & first & Hq1 & Hrun2 & Hchain2 & S2 & Hready2 & Hq2 & Hf2
        & Hr2 & Hside2).
  assert (Eq1 : q1 = q).
  { destruct Hholds1 as (? & qx & ? & _ & _ & Hqx & _).
    assert (E : updateQueues w1 !! queue = Some q).
    { clear -Hrun1 Hq0. destruct (DEV w0); injection Hrun1 as <-; exact Hq0. }
    congruence. }
  subst q1. rewrite (bind_run _ _ _ _ _ Hrun2).
  rewrite Hu1 in S2.
  assert (Ea : a = walkAcc props inst (workInProgressRootRenderLanes w2) lanes
                    (startAcc base) (recordsAt (updates w2) (ps1 ++ ps2))).
  { unfold a. rewrite Hr2, Hr1. symmetry. now apply walkAcc_sameRecords. }
  (* what is done when the walk is over *)
  assert (Hfinish : forall w3,
    exists w4,
      (if DEV w0 then modify (with_currentlyProcessingQueue None) else ret tt)
        w3 = (Return tt, w4) /\
      forall base' cps,
        queueHolds w3 wip queue base' cps [] ->
        queueHolds w4 wip queue base' cps [] /\
        updates w4 = updates w3 /\ fibers w4 = fibers w3 /\
        workInProgressRootRenderLanes w4 = workInProgressRootRenderLanes w3 /\
        sideOf wip queue w4 = sideOf wip queue w3).
  { intros w3. destruct (DEV w0); eexists; (split; [reflexivity|]);
      intros base' cps H; (split; [exact H|]); auto 6. }
  destruct first as [first|].
  - (* there is a list to walk *)
    destruct Hq2 as (q2 & Hq2 & Hbase2).
    rewrite ?bind_assoc, (bind_load updateQueues _ _ _ _ Hq2), Hbase2.
    destruct (processUpdateLoop_spec wip queue props inst lanes (ps1 ++ ps2)
                fuel first (mkWalk base NoLanes JsNull None None)
                (startAcc base) [] w2)
      as (w3 & v & cps & Hloop & Hrep & Hready3 & Hr3 & Hsh3 & Hnew
          & Hside3 & Hkeep3 & Hoq3).
    + exact Hready2.
    + exact Hchain2.
    + unfold walkRep, startAcc. simpl. repeat split; auto.
    + intros p _. apply not_elem_of_nil.
    + exact Hfuel.
    + rewrite ?bind_assoc, (bind_run _ _ _ _ _ Hloop). rewrite <- Ea in Hrep.
      destruct Hready3 as (wf3 & q3 & sq3 & Hwf3 & Huq3 & Hq3 & Hsq3 & Hp3
                           & Heff3).
      rewrite ?bind_assoc, (bind_storeUpdateQueue _ _ _ _ _ Hq3).
      set (w4 := with_updateQueues _ w3).
      rewrite ?bind_assoc.
      rewrite (bind_storeUpdateQueue _ _
                 (set_queue_baseState
                    match newLastBaseUpdate v with
                    | Some _ => newBaseState v
                    | None => newState v
                    end q3)) by apply lookup_insert_eq.
      set (w5 := with_updateQueues _ w4).
      rewrite ?bind_assoc.
      rewrite (bind_storeUpdateQueue _ _
                 (set_queue_firstBaseUpdate (newFirstBaseUpdate v)
                    (set_queue_baseState
                       match newLastBaseUpdate v with
                       | Some _ => newBaseState v
                       | None => newState v
                       end q3))) by apply lookup_insert_eq.
      set (w6 := with_updateQueues _ w5).
      rewrite ?bind_assoc, bind_ret_l.
      rewrite ?bind_assoc, bind_emit.
      set (w7 := with_calls _ w6).
      assert (Hwf7 : fibers w7 !! wip = Some wf3) by exact Hwf3.
      rewrite ?bind_assoc, (bind_storeFiber _ _ _ _ _ Hwf7).
      set (w8 := with_fibers _ w7).
      rewrite (bind_storeFiber _ _ (set_fiber_lanes (newLanes v) wf3))
        by apply lookup_insert_eq.
      set (w9 := with_fibers _ w8).
      destruct (Hfinish w9) as (w10 & Hrunf & Hpost).
      rewrite Hrunf.
      pose proof Hrep as (Hs & Hl & Hb & Hch & Hlastv & Hrecs).
      assert (Hbase' : match newLastBaseUpdate v with
                       | Some _ => newBaseState v
                       | None => newState v
                       end = baseAfter a).
      { unfold baseAfter. rewrite Hlastv.
        destruct cps as [|c cps'].
        - simpl. apply Forall2_nil_l_inv in Hrecs. rewrite Hrecs. exact Hs.
        - assert (Hne : c :: cps' <> []) by discriminate.
          destruct (last (c :: cps')) eqn:El;
            [|apply last_None in El; congruence].
          pose proof (Forall2_nonempty _ _ _ Hrecs Hne) as Hcl.
          destruct (acc_clones a); [congruence|]. apply Hb. exact Hne. }
      destruct (Hpost (baseAfter a) cps)
        as (Hholds10 & Hu10 & Hf10 & Hr10 & Hside10).
      { eexists _, _, sq3. subst w9 w8 w7 w6 w5 w4. simpl.
        rewrite !lookup_insert_eq. simpl.
        rewrite Hbase'. repeat split; auto.
        - rewrite Hp3. reflexivity.
        - intros p Hp. apply not_elem_of_nil.
        - intros H. congruence. }
      exists w10, cps. split; [reflexivity|]. split; [exact Hholds10|].
      split; [|split; [|split; [|split; [|split; [|split]]]]].
      7:{ intros wfx qx current cf cq cqr Hne2 Hwfx Hqx Halt Hcf Hcuq Hcq
            Hcqr Hcfirst Hclast.
          assert (qx = q) by congruence. subst qx.
          destruct (transferPending_current w1 wip queue base ps1 ps2 wfx q
                      current cf cq cqr Hholds1 Hne2)
            as (first' & w2' & cqr' & Hrun' & Hcq' & Hfirst' & Hlast' & Hsame'
                & _); try (rewrite ?Hf1, ?Hqs1; assumption).
          rewrite Hrun2 in Hrun'.
          assert (Ew : w2' = w2) by congruence.
          assert (Ef : first' = Some first) by congruence.
          subst w2'.
          exists cqr'. split; [|split; [|split; [exact Hlast'|exact Hsame']]].
          - rewrite <- Hcq', <- (Hoq3 cq Hcq).
            assert (Eq10 : updateQueues w10 = updateQueues w9)
              by (clear -Hrunf; destruct (DEV w0); injection Hrunf as <-;
                  reflexivity).
            rewrite Eq10. subst w9 w8 w7 w6 w5 w4. simpl.
            now rewrite !lookup_insert_ne by congruence.
          - rewrite Hfirst', Ef, Hu10. subst w9 w8 w7 w6 w5 w4. simpl.
            eapply segment_frame; [|exact Hchain2].
            intros p Hp. apply Hkeep3; [|apply not_elem_of_nil].
            eapply segment_lookup; eauto. }
      6:{ rewrite Hu10. subst w9 w8 w7 w6 w5 w4. simpl.
          intros p u Ep. specialize (S2 p). rewrite Ep in S2.
          destruct (updates w2 !! p) as [u2|] eqn:Ep2; [|contradiction].
          exists u2. split; [|exact S2].
          rewrite Hkeep3, Ep2; [reflexivity|rewrite Ep2; eauto|].
          apply not_elem_of_nil. }
      5:{ rewrite Hside10.
          transitivity (sideOf wip queue w3).
          - unfold sideOf, effectsOf. subst w9 w8 w7 w6 w5 w4. simpl.
            rewrite !lookup_insert_eq, Hq3, Hwf3. reflexivity.
          - rewrite Hside3, Hside2, Hside1, Hr2, Hr1.
            apply walkSide_sameRecords. exact S2. }
      * rewrite Hu10. subst w9 w8 w7 w6 w5 w4. simpl.
        eapply walkRep_records. exact Hrep.
      * rewrite Hr10. subst w9 w8 w7 w6 w5 w4. simpl. congruence.
      * intros _. eexists. rewrite Hf10. subst w9 w8. simpl.
        rewrite lookup_insert_eq. split; [reflexivity|]. simpl. auto.
      * intros E. exfalso. rewrite E in Hchain2. discriminate Hchain2.
  - (* nothing to walk *)
    apply chain_none_inv in Hchain2.
    rewrite bind_ret_l.
    destruct (Hfinish w2) as (w3 & Hrunf & Hpost).
    rewrite Hrunf.
    assert (Hps : ps1 = [] /\ ps2 = []) by (now apply app_eq_nil).
    destruct Hps as [-> ->].
    assert (Ew2 : w2 = w1).
    { destruct Hholds1 as (wf1 & qx & sqx & _ & _ & Hqx & _ & _ & _ & Hsqx
                           & Hringx & _).
      unfold transferPending in Hrun2.
      rewrite (bind_load updateQueues _ _ _ _ Hqx) in Hrun2.
      rewrite (bind_load sharedQueues _ _ _ _ Hsqx) in Hrun2.
      destruct (shared_pending sqx) as [lp|].
      - destruct Hringx as (El & _). discriminate.
      - unfold ret in Hrun2. congruence. }
    subst w2.
    destruct (Hpost base []) as (Hholds3 & Hu3 & Hf3 & Hr3 & Hside3);
      [exact Hholds1|].
    exists w3, []. split; [reflexivity|].
    unfold a. simpl. split; [exact Hholds3|].
    split; [reflexivity|]. split; [congruence|]. split; [congruence|].
    split; [intros _; congruence|].
    split; [rewrite Hside3; exact Hside1|].
    split; [intros p u Ep; exists u; split; [congruence|reflexivity]|].
    intros wfx qx current cf cq cqr Hne2. now contradiction Hne2.
Qed.

Lemma processUpdateQueue_spec fuel wip queue props inst lanes base ps1 ps2 w :
  queueHolds w wip queue base ps1 ps2 ->
  (length (ps1 ++ ps2) <= fuel)%nat ->
  let a :=
    walkAcc props inst (workInProgressRootRenderLanes w) lanes (startAcc base)
      (recordsAt (updates w) (ps1 ++ ps2)) in
  exists w' cps,
    processUpdateQueue fuel wip props inst lanes w = (Return tt, w') /\
    queueHolds w' wip queue (baseAfter a) cps [] /\
    map unlinked (recordsAt (updates w') cps) = acc_clones a /\
    workInProgressRootRenderLanes w' = workInProgressRootRenderLanes w /\
    (ps1 ++ ps2 <> [] ->
     exists wf', fibers w' !! wip = Some wf' /\
                 fiber_lanes wf' = acc_lanes a /\
                 fiber_memoizedState wf' = acc_state a) /\
    (ps1 ++ ps2 = [] -> fibers w' !! wip = fibers w !! wip).
Proof.
  intros Hholds Hfuel a.
  destruct (processUpdateQueue_run fuel wip queue props inst lanes base ps1
              ps2 w Hholds Hfuel)
    as (w' & cps & Hrun & Hq & Hrecs & Hroot & Hsome & Hnone & _).
  exists w', cps. repeat (split; [assumption|]). assumption.
Qed.

Lemma segment_recordsAt_length h first ps stop :
  segment h first ps stop -> length (recordsAt h ps) = length ps.
Proof.
  revert first. induction ps as [|p ps IH]; intros first H; [reflexivity|].
  destruct H as (_ & u & Hu & Hseg).
  rewrite (recordsAt_cons _ _ _ _ Hu). simpl. f_equal. eapply IH, Hseg.
Qed.

Lemma walkAcc_clones_length props inst root lanes :
  forall us a,
    (length (acc_clones (walkAcc props inst root lanes a us))
     <= length (acc_clones a) + length us)%nat.
Proof.
  induction us as [|u us IH]; intros a; simpl; [lia|].
  unfold walkAcc in IH. etransitivity; [apply IH|].
  unfold stepAcc. destruct (shouldSkipUpdate root lanes u); simpl.
  - rewrite length_app. simpl. lia.
  - destruct (acc_clones a); simpl; [lia|]. rewrite length_app. simpl. lia.
Qed.

(** ** C3: the lanes that remain after a walk *)

Lemma chain_recordsAt_nil h first ps :
  chain h first ps -> recordsAt h ps = [] -> ps = [].
Proof.
  intros Hch E. apply segment_recordsAt_length in Hch.
  rewrite E in Hch. destruct ps; [reflexivity|discriminate].
Qed.

(** C3, as the code has it: the lanes that a walk leaves are the lanes of the
    fiber. After a call to [processUpdateQueue] that walked a list that was
    not empty, [workInProgress.lanes] is the merge of the lanes of the
    records of the reduced durable list, and it is empty exactly when that
    list is empty. *)
Theorem processUpdateQueue_remaining_lanes
    (fuel : nat) (workInProgress queue : ptr) (props instance : JsValue)
    (renderLanes : Lanes) (base : JsValue) (ps1 ps2 : list ptr) (w : World) :
  queueHolds w workInProgress queue base ps1 ps2 ->
  ps1 ++ ps2 <> [] ->
  (length (ps1 ++ ps2) <= fuel)%nat ->
  exists w' wf' q' cps,
    processUpdateQueue fuel workInProgress props instance renderLanes w
    = (Return tt, w') /\
    fibers w' !! workInProgress = Some wf' /\
    updateQueues w' !! queue = Some q' /\
    chain (updates w') (queue_firstBaseUpdate q') cps /\
    fiber_lanes wf' = mergedLanes (recordsAt (updates w') cps) /\
    (fiber_lanes wf' = NoLanes <-> cps = []).
Proof.
  intros Hholds Hne Hfuel.
  destruct (processUpdateQueue_spec fuel workInProgress queue props instance
              renderLanes base ps1 ps2 w Hholds Hfuel)
    as (w' & cps & Hrun & Hholds' & Hrecs & _ & Hwalked & _).
  destruct (Hwalked Hne) as (wf' & Hwf' & Hlanes & _).
  pose proof Hholds' as (wf2 & q' & sq' & _ & _ & Hq' & _ & Hchain & _).
  exists w', wf', q', cps.
  destruct (walkAcc_lanes props instance (workInProgressRootRenderLanes w)
              renderLanes (recordsAt (updates w) (ps1 ++ ps2))
              (startAcc base)) as (Hmerge & Hnonempty).
  { reflexivity. }
  { intros H. now contradiction H. }
  rewrite <- Hrecs in Hmerge, Hnonempty.
  rewrite mergedLanes_unlinked in Hmerge.
  repeat (split; [assumption|]).
  split; [congruence|]. split.
  - intros Hnone. apply (chain_recordsAt_nil _ _ _ Hchain).
    destruct (recordsAt (updates w') cps) as [|r rs] eqn:E; [reflexivity|].
    exfalso. apply Hnonempty; [discriminate|congruence].
  - intros ->. rewrite Hlanes, Hmerge. reflexivity.
Qed.

Lemma fourLetters_holds :
  queueHolds fourLetters 0%nat 0%nat (JsString EmptyString)
    [1%nat; 2%nat; 3%nat; 4%nat] [].
Proof.
  eexists _, _, _.
  split; [vm_compute; reflexivity|]. split; [reflexivity|].
  split; [vm_compute; reflexivity|]. split; [reflexivity|].
  split.
  { unfold chain. simpl.
    repeat (split; [reflexivity|]; eexists; split; [vm_compute; reflexivity|]).
    reflexivity. }
  split; [reflexivity|]. split; [vm_compute; reflexivity|].
  split; [reflexivity|]. split.
  { intros p _ H. apply elem_of_nil in H. contradiction. }
  split; [intros a H; discriminate H|]. intros H. now contradiction H.
Qed.

Lemma processUpdateQueue_remaining_lanes_witness :
  exists w' wf' q' cps,
    processUpdateQueue 4 0%nat JsNull JsNull P1 fourLetters = (Return tt, w') /\
    fibers w' !! 0%nat = Some wf' /\
    updateQueues w' !! 0%nat = Some q' /\
    chain (updates w') (queue_firstBaseUpdate q') cps /\
    fiber_lanes wf' = mergedLanes (recordsAt (updates w') cps) /\
    (fiber_lanes wf' = NoLanes <-> cps = []).
Proof.
  apply (processUpdateQueue_remaining_lanes 4 0%nat 0%nat JsNull JsNull P1
           (JsString EmptyString) [1%nat; 2%nat; 3%nat; 4%nat] []).
  - exact fourLetters_holds.
  - discriminate.
  - simpl. lia.
Defined.

(** C3, as it is stated, does not hold: a walk leaves [shared.lanes] as it
    found it. After the pass at [P1] over the four letters the reduced list
    still holds records at [P2], and [shared.lanes] is empty; after the pass
    over a queue entangled with a transition lane that empties the list,
    [shared.lanes] still holds that lane. *)
Lemma processUpdateQueue_shared_lanes_not_recomputed :
  (exists w' q sq us,
     processUpdateQueue 4 0%nat JsNull JsNull P1 fourLetters = (Return tt, w') /\
     updateQueues w' !! 0%nat = Some q /\
     sharedQueues w' !! queue_shared q = Some sq /\
     durableList 4 (updates w') (queue_firstBaseUpdate q) = Some us /\
     mergedLanes us = P2 /\
     shared_lanes sq <> mergedLanes us) /\
  (exists w' q sq,
     processUpdateQueue 4 0%nat JsNull JsNull 64 oneTransition
     = (Return tt, w') /\
     updateQueues w' !! 0%nat = Some q /\
     sharedQueues w' !! queue_shared q = Some sq /\
     durableList 4 (updates w') (queue_firstBaseUpdate q) = Some [] /\
     shared_lanes sq <> NoLanes).
Proof.
  split.
  - eexists _, _, _, _.
    split; [vm_compute; reflexivity|].
    split; [vm_compute; reflexivity|].
    split; [vm_compute; reflexivity|].
    split; [vm_compute; reflexivity|].
    split; [vm_compute; reflexivity|].
    vm_compute. discriminate.
  - eexists _, _, _.
    split; [vm_compute; reflexivity|].
    split; [vm_compute; reflexivity|].
    split; [vm_compute; reflexivity|].
    split; [vm_compute; reflexivity|].
    vm_compute. discriminate.
Qed.

(** ** C2: skipping, then rebasing *)

(** C2: from the base state of the empty string and the durable list A at
    P1, B at P2, C at P1, D at P2, where each update appends its letter,
    [processUpdateQueue] at the lanes P1 gives the state AC, leaves the base
    state A and the durable list B at P2, C at no lane, D at P2; a second
    [processUpdateQueue] at the lanes P1 and P2 then gives the state ABCD. *)
Theorem processUpdateQueue_skip_then_rebase :
  exists w1 wf1 q1 w2 wf2,
    processUpdateQueue 4 0%nat JsNull JsNull P1 fourLetters = (Return tt, w1) /\
    fibers w1 !! 0%nat = Some wf1 /\
    fiber_memoizedState wf1 = JsString "AC" /\
    updateQueues w1 !! 0%nat = Some q1 /\
    queue_baseState q1 = JsString "A" /\
    fmap (map unlinked)
      (durableList 4 (updates w1) (queue_firstBaseUpdate q1))
    = Some [letterUpdate P2 "B" None; letterUpdate NoLane "C" None;
            letterUpdate P2 "D" None] /\
    processUpdateQueue 4 0%nat JsNull JsNull (mergeLanes P1 P2) w1
    = (Return tt, w2) /\
    fibers w2 !! 0%nat = Some wf2 /\
    fiber_memoizedState wf2 = JsString "ABCD".
Proof.
  eexists _, _, _, _, _.
  split; [vm_compute; reflexivity|].
  split; [vm_compute; reflexivity|].
  split; [vm_compute; reflexivity|].
  split; [vm_compute; reflexivity|].
  split; [vm_compute; reflexivity|].
  split; [vm_compute; reflexivity|].
  split; [vm_compute; reflexivity|].
  split; [vm_compute; reflexivity|].
  vm_compute. reflexivity.
Qed.

(** ** C1: replaying a queue to completion *)

Lemma recordsAt_length_le h ps : (length (recordsAt h ps) <= length ps)%nat.
Proof.
  unfold recordsAt. induction ps as [|p ps IH]; csimpl; [lia|].
  destruct (h !! p); simpl; lia.
Qed.

Lemma bind_modify {B} f (k : unit -> M B) w : bind (modify f) k w = k tt (f w).
Proof. reflexivity. Qed.

Lemma renderPasses_app fuel wip props inst passes2 :
  forall passes1 w,
    renderPasses fuel wip props inst (passes1 ++ passes2) w
    = (renderPasses fuel wip props inst passes1 ;;;
       renderPasses fuel wip props inst passes2) w.
Proof.
  induction passes1 as [|pass passes1 IH]; intros w; [reflexivity|].
  cbn [app renderPasses]. rewrite bind_assoc.
  destruct (renderPass fuel wip props inst pass w) as [[[]|e] w1] eqn:E.
  - rewrite !(bind_run _ _ _ _ _ E). apply IH.
  - rewrite !(bind_throws _ _ _ _ _ E). reflexivity.
Qed.

(** ** What a computation leaves alone *)

Lemma unchanged_bind {X A B} (g : World -> X) (m : M A) (k : A -> M B) :
  unchanged g m -> (forall a, unchanged g (k a)) -> unchanged g (bind m k).
Proof.
  intros Hm Hk w. unfold bind. specialize (Hm w).
  destruct (m w) as [[a|e] w1]; simpl in Hm; [|exact Hm].
  now rewrite (Hk a w1).
Qed.

Lemma unchanged_ret {X A} (g : World -> X) (a : A) : unchanged g (ret a).
Proof. intros w. reflexivity. Qed.

Lemma unchanged_throw {X A} (g : World -> X) e : unchanged g (@throw A e).
Proof. intros w. reflexivity. Qed.

Lemma unchanged_gets {X A} (g : World -> X) (f : World -> A) :
  unchanged g (gets f).
Proof. intros w. reflexivity. Qed.

Lemma unchanged_load {X V} (g : World -> X) (store : World -> gmap ptr V) p :
  unchanged g (load store p).
Proof. intros w. unfold load. now destruct (store w !! p). Qed.

Lemma unchanged_loadRef {X V} (g : World -> X)
    (store : World -> gmap ptr V) o :
  unchanged g (loadRef store o).
Proof. destruct o; [apply unchanged_load|apply unchanged_throw]. Qed.

Lemma unchanged_modify {X} (g : World -> X) f :
  (forall w, g (f w) = g w) -> unchanged g (modify f).
Proof. intros H w. apply H. Qed.

Lemma unchanged_newUpdate {X} (g : World -> X) u :
  (forall h w, g (with_updates h w) = g w) -> unchanged g (newUpdate u).
Proof. intros H w. apply H. Qed.

Lemma unchanged_newSharedQueue {X} (g : World -> X) q :
  (forall h w, g (with_sharedQueues h w) = g w) ->
  unchanged g (newSharedQueue q).
Proof. intros H w. apply H. Qed.

Lemma unchanged_newUpdateQueue {X} (g : World -> X) q :
  (forall h w, g (with_updateQueues h w) = g w) ->
  unchanged g (newUpdateQueue q).
Proof. intros H w. apply H. Qed.

Lemma unchanged_newArray {X} (g : World -> X) a :
  (forall h w, g (with_arrays h w) = g w) -> unchanged g (newArray a).
Proof. intros H w. apply H. Qed.

(** One step through a computation whose writes are all outside of what
    [g] reads; the writes are checked by computation. *)
Ltac unchanged_step :=
  first
    [ match goal with H : _ |- unchanged _ _ => solve [apply H] end
    | apply unchanged_ret | apply unchanged_throw | apply unchanged_gets
    | apply unchanged_load | apply unchanged_loadRef
    | apply unchanged_modify; intros ?; reflexivity
    | apply unchanged_newUpdate; intros ? ?; reflexivity
    | apply unchanged_newSharedQueue; intros ? ?; reflexivity
    | apply unchanged_newUpdateQueue; intros ? ?; reflexivity
    | apply unchanged_newArray; intros ? ?; reflexivity
    | apply unchanged_bind; [|intros ?]
    | match goal with
      | |- unchanged _ (match ?x with _ => _ end) => destruct x
      | |- unchanged _ (if ?b then _ else _) => destruct b
      end
    | progress unfold storeUpdate, storeSharedQueue, storeUpdateQueue,
        storeFiber, emit, consoleError, appendClone ].

Ltac unchanged_auto := repeat unchanged_step.

Lemma unchanged_linkPending {X} (g : World -> X) q u :
  (forall h w, g (with_updates h w) = g w) ->
  (forall h w, g (with_sharedQueues h w) = g w) ->
  unchanged g (linkPending q u).
Proof.
  intros Hu Hs. unfold linkPending, storeUpdate, storeSharedQueue.
  repeat first
    [ apply unchanged_modify; intros ?; first [apply Hu|apply Hs]
    | unchanged_step ].
Qed.

Lemma unchanged_markUpdateLaneLoop {X} (g : World -> X) lane :
  (forall h w, g (with_fibers h w) = g w) ->
  forall fuel hid node parent,
    unchanged g (markUpdateLaneLoop fuel lane hid node parent).
Proof.
  intros Hf. induction fuel as [|fuel IH]; intros hid node parent;
    destruct parent; cbn [markUpdateLaneLoop]; unfold storeFiber;
    repeat first
      [ apply unchanged_modify; intros ?; apply Hf | unchanged_step ].
Qed.

Lemma unchanged_markUpdateLaneFromFiberToRoot {X} (g : World -> X)
    fuel f u lane :
  (forall h w, g (with_fibers h w) = g w) ->
  (forall h w, g (with_calls h w) = g w) ->
  unchanged g (markUpdateLaneFromFiberToRoot fuel f u lane).
Proof.
  intros Hf Hc. unfold markUpdateLaneFromFiberToRoot, storeFiber, emit.
  pose proof (unchanged_markUpdateLaneLoop g lane Hf).
  repeat first
    [ apply unchanged_modify; intros ?; first [apply Hf|apply Hc]
    | unchanged_step ].
Qed.

Lemma unchanged_takeConcurrentQueues {X} (g : World -> X) i :
  (forall h w, g (with_concurrentQueues h w) = g w) ->
  unchanged g (takeConcurrentQueues i).
Proof.
  intros H. unfold takeConcurrentQueues.
  repeat first [ apply unchanged_modify; intros ?; apply H | unchanged_step ].
Qed.

Lemma unchanged_finishQueueingLoop {X} (g : World -> X) markFuel :
  (forall h w, g (with_updates h w) = g w) ->
  (forall h w, g (with_sharedQueues h w) = g w) ->
  (forall h w, g (with_fibers h w) = g w) ->
  (forall h w, g (with_calls h w) = g w) ->
  (forall h w, g (with_concurrentQueues h w) = g w) ->
  forall fuel i endIndex,
    unchanged g (finishQueueingLoop fuel markFuel i endIndex).
Proof.
  intros Hu Hs Hf Hc Hq.
  pose proof (fun i => unchanged_takeConcurrentQueues g i Hq).
  pose proof (fun q u => unchanged_linkPending g q u Hu Hs).
  pose proof (fun fuel f u lane =>
                unchanged_markUpdateLaneFromFiberToRoot g fuel f u lane Hf Hc).
  induction fuel as [|fuel IH]; intros i endIndex;
    cbn [finishQueueingLoop]; unchanged_auto.
Qed.

(** ** A flush leaves nothing to flush *)

Lemma finishQueueingConcurrentUpdates_unfold fuel w :
  finishQueueingConcurrentUpdates fuel w
  = finishQueueingLoop fuel fuel 0 (concurrentQueuesIndex w)
      (with_concurrentlyUpdatedLanes NoLanes
         (with_concurrentQueuesIndex 0 w)).
Proof. reflexivity. Qed.

(** Whatever a flush of the staging buffer did, and even when it threw, the
    buffer is then empty and no lane counts as concurrently updated; a
    second flush returns and changes nothing. *)
Theorem finishQueueingConcurrentUpdates_twice (fuel fuel' : nat) (w : World) :
  let w1 := snd (finishQueueingConcurrentUpdates fuel w) in
  concurrentQueuesIndex w1 = 0%nat /\
  getConcurrentlyUpdatedLanes w1 = (Return NoLanes, w1) /\
  finishQueueingConcurrentUpdates fuel' w1 = (Return tt, w1).
Proof.
  intros w1.
  assert (Hi : concurrentQueuesIndex w1 = 0%nat).
  { subst w1. rewrite finishQueueingConcurrentUpdates_unfold.
    rewrite (unchanged_finishQueueingLoop concurrentQueuesIndex);
      reflexivity. }
  assert (Hl : concurrentlyUpdatedLanes w1 = NoLanes).
  { subst w1. rewrite finishQueueingConcurrentUpdates_unfold.
    rewrite (unchanged_finishQueueingLoop concurrentlyUpdatedLanes);
      reflexivity. }
  split; [exact Hi|]. split.
  { unfold getConcurrentlyUpdatedLanes, gets. now rewrite Hl. }
  rewrite finishQueueingConcurrentUpdates_unfold, Hi.
  clearbody w1. destruct w1. simpl in Hi, Hl. subst.
  destruct fuel'; reflexivity.
Qed.
(** ** Committing again, and committing a callback that is not a function *)

Lemma commitUpdateQueue_head w finishedWork finishedQueue instance q a es :
  updateQueues w !! finishedQueue = Some q ->
  queue_effects q = Some a ->
  arrays w !! a = Some es ->
  commitUpdateQueue finishedWork finishedQueue instance w
  = commitEffects instance es
      (with_updateQueues
         (<[finishedQueue := set_queue_effects None q]> (updateQueues w)) w).
Proof.
  intros Hq Heff Ha. unfold commitUpdateQueue.
  rewrite (bind_load updateQueues _ _ _ _ Hq).
  rewrite (bind_storeUpdateQueue _ _ _ _ _ Hq), Heff.
  set (w0 := with_updateQueues _ w).
  assert (Ha0 : arrays w0 !! a = Some es) by exact Ha.
  now rewrite (bind_load arrays _ _ _ _ Ha0).
Qed.

Lemma commitUpdateQueue_nothing w finishedWork finishedQueue instance q :
  updateQueues w !! finishedQueue = Some q ->
  queue_effects q = None ->
  commitUpdateQueue finishedWork finishedQueue instance w = (Return tt, w).
Proof.
  intros Hq Heff. unfold commitUpdateQueue.
  rewrite (bind_load updateQueues _ _ _ _ Hq).
  rewrite (bind_storeUpdateQueue _ _ _ _ _ Hq), Heff.
  unfold ret. f_equal.
  assert (E : set_queue_effects None q = q).
  { destruct q. simpl in Heff. now subst. }
  rewrite E, insert_id by exact Hq. now destruct w.
Qed.

(** A second [commitUpdateQueue] of a queue, right after the first, changes
    nothing: the effects were taken by the first one. *)
Theorem commitUpdateQueue_twice
    (w : World) (finishedWork finishedQueue : ptr) (instance : JsValue)
    (q : UpdateQueue) (a : ptr) (es : list ptr) :
  updateQueues w !! finishedQueue = Some q ->
  queue_effects q = Some a ->
  arrays w !! a = Some es ->
  (forall e, e ∈ es ->
     exists u, updates w !! e = Some u /\
               forall v, update_callback u <> Some (NotCallable v)) ->
  exists w',
    commitUpdateQueue finishedWork finishedQueue instance w = (Return tt, w') /\
    commitUpdateQueue finishedWork finishedQueue instance w'
    = (Return tt, w').
Proof.
  intros Hq Heff Ha Hes.
  rewrite (commitUpdateQueue_head _ _ _ _ _ _ _ Hq Heff Ha).
  set (w0 := with_updateQueues _ w).
  destruct (commitEffects_spec instance (updates w) es [] w0)
    as (h' & Hrun & _ & _).
  { exact Hes. }
  { intros e Hin. apply elem_of_nil in Hin. contradiction. }
  { reflexivity. }
  eexists. split; [exact Hrun|].
  apply (commitUpdateQueue_nothing _ _ _ _ (set_queue_effects None q)).
  - simpl. apply lookup_insert_eq.
  - reflexivity.
Qed.

Lemma commitUpdateQueue_twice_witness :
  let u1 := mkUpdate 0 1 UpdateState (PayloadValue JsNull)
              (Some (Callable 11)) None in
  let w := mkWorld
             {[ 1%nat := u1 ]}
             {[ 0%nat := mkSharedQueue None 0 ]}
             {[ 0%nat := mkUpdateQueue JsNull None None 0%nat (Some 0%nat) ]}
             {[ 0%nat := [1%nat] ]}
             {[ 0%nat := mkFiber (OtherWorkTag 1) None None None 0 0 0 JsNull
                           (Some 0%nat) ]}
             ∅ ∅ false false None [] 0 0 true 0 (fun _ => false) [] [] in
  exists w',
    commitUpdateQueue 0%nat 0%nat JsNull w = (Return tt, w') /\
    commitUpdateQueue 0%nat 0%nat JsNull w' = (Return tt, w').
Proof.
  intros u1 w.
  apply (commitUpdateQueue_twice w 0%nat 0%nat JsNull
           (mkUpdateQueue JsNull None None 0%nat (Some 0%nat)) 0%nat
           [1%nat]).
  - reflexivity.
  - reflexivity.
  - reflexivity.
  - intros e Hin. apply list_elem_of_singleton in Hin. subst e.
    eexists. split; [reflexivity|]. intros v. discriminate.
Defined.

(** When the callback of an effect is not a function, [commitUpdateQueue]
    throws at that effect: the callbacks before it were called, in order and
    once each, its own [callback] field and the queue's [effects] are already
    [null], and the records after it are as they were, their callbacks never
    called. *)
Theorem commitUpdateQueue_invalid_callback
    (w : World) (finishedWork finishedQueue : ptr) (instance : JsValue)
    (q : UpdateQueue) (a : ptr) (es1 : list ptr) (e : ptr) (es2 : list ptr)
    (u : Update) (v : JsValue) :
  updateQueues w !! finishedQueue = Some q ->
  queue_effects q = Some a ->
  arrays w !! a = Some (es1 ++ e :: es2) ->
  (forall e', e' ∈ es1 ->
     exists u', updates w !! e' = Some u' /\
                forall v', update_callback u' <> Some (NotCallable v')) ->
  updates w !! e = Some u ->
  update_callback u = Some (NotCallable v) ->
  exists w',
    commitUpdateQueue finishedWork finishedQueue instance w
    = (Throw InvalidCallback, w') /\
    queue_effects <$> updateQueues w' !! finishedQueue = Some None /\
    calls w' = calls w ++ invocations (updates w) instance [] es1 /\
    cleared w' e /\
    (forall e', e' ∈ es1 -> cleared w' e') /\
    (forall e', e' ∉ es1 -> e' <> e -> updates w' !! e' = updates w !! e').
Proof.
  intros Hq Heff Ha Hes1 Hu Hcb.
  assert (Hnot : e ∉ es1).
  { intros Hin. destruct (Hes1 e Hin) as (u' & Hu' & Hc').
    rewrite Hu in Hu'. injection Hu' as <-. exact (Hc' v Hcb). }
  rewrite (commitUpdateQueue_head _ _ _ _ _ _ _ Hq Heff Ha).
  set (w0 := with_updateQueues _ w).
  rewrite commitEffects_app.
  destruct (commitEffects_spec instance (updates w) es1 [] w0)
    as (h1 & Hrun1 & Hcl1 & Hframe1).
  { exact Hes1. }
  { intros e' Hin. apply elem_of_nil in Hin. contradiction. }
  { reflexivity. }
  rewrite (bind_run _ _ _ _ _ Hrun1).
  set (w1 := with_calls _ _).
  assert (Hu1 : updates w1 !! e = Some u).
  { simpl. rewrite (Hframe1 e Hnot). exact Hu. }
  cbn [commitEffects].
  rewrite (bind_load updates _ _ _ _ Hu1), Hcb.
  rewrite bind_assoc, (bind_storeUpdate _ _ _ _ _ Hu1).
  eexists. split; [reflexivity|]. simpl.
  split; [now rewrite lookup_insert_eq|]. split; [reflexivity|].
  split; [|split].
  - eexists. simpl. rewrite lookup_insert_eq. split; reflexivity.
  - intros e' Hin. destruct (Hcl1 e' Hin) as (u' & Hu' & Hc').
    exists u'. split; [|exact Hc']. simpl.
    rewrite lookup_insert_ne; [exact Hu'|]. intros <-. contradiction.
  - intros e' Hnot' Hne. rewrite lookup_insert_ne by congruence.
    apply Hframe1, Hnot'.
Qed.

Lemma commitUpdateQueue_invalid_callback_witness :
  let u1 := mkUpdate 0 1 UpdateState (PayloadValue JsNull)
              (Some (Callable 11)) None in
  let u2 := mkUpdate 0 1 UpdateState (PayloadValue JsNull)
              (Some (NotCallable (JsNumber 7))) None in
  let u3 := mkUpdate 0 1 UpdateState (PayloadValue JsNull)
              (Some (Callable 33)) None in
  let w := mkWorld
             (list_to_map [(1%nat, u1); (2%nat, u2); (3%nat, u3)])
             {[ 0%nat := mkSharedQueue None 0 ]}
             {[ 0%nat := mkUpdateQueue JsNull None None 0%nat (Some 0%nat) ]}
             {[ 0%nat := [1%nat; 2%nat; 3%nat] ]}
             {[ 0%nat := mkFiber (OtherWorkTag 1) None None None 0 0 0 JsNull
                           (Some 0%nat) ]}
             ∅ ∅ false false None [] 0 0 true 0 (fun _ => false) [] [] in
  exists w',
    commitUpdateQueue 0%nat 0%nat JsNull w = (Throw InvalidCallback, w') /\
    calls w' = [CallbackInvoked 1%nat 11 JsNull] /\
    updates w' !! 3%nat = Some u3.
Proof.
  intros u1 u2 u3 w.
  destruct (commitUpdateQueue_invalid_callback w 0%nat 0%nat JsNull
              (mkUpdateQueue JsNull None None 0%nat (Some 0%nat)) 0%nat
              [1%nat] 2%nat [3%nat] u2 (JsNumber 7))
    as (w' & Hrun & _ & Hcalls & _ & _ & Hrest).
  - reflexivity.
  - reflexivity.
  - reflexivity.
  - intros e Hin. apply list_elem_of_singleton in Hin. subst e.
    eexists. split; [reflexivity|]. intros v. discriminate.
  - reflexivity.
  - reflexivity.
  - exists w'. split; [exact Hrun|]. split; [exact Hcalls|].
    rewrite Hrest; [reflexivity| |discriminate].
    intros Hin. apply list_elem_of_singleton in Hin. discriminate.
Defined.
(** ** Making and cloning a queue *)

Lemma fresh_lookup_None {V} (h : gmap ptr V) : h !! fresh (dom h) = None.
Proof. apply not_elem_of_dom, is_fresh. Qed.

(** [initializeUpdateQueue] gives the fiber a queue of its own: the queue
    and its shared part are new objects, the base state is the state of the
    fiber, the durable and the pending list are empty, and no other fiber,
    queue or record is written. *)
Theorem initializeUpdateQueue_fresh_empty_queue
    (w : World) (fiber : ptr) (f : Fiber) :
  fibers w !! fiber = Some f ->
  exists w' queue shared,
    initializeUpdateQueue fiber w = (Return tt, w') /\
    updateQueues w !! queue = None /\
    sharedQueues w !! shared = None /\
    fibers w' = <[fiber := set_fiber_updateQueue (Some queue) f]> (fibers w) /\
    updateQueues w'
    = <[queue := mkUpdateQueue (fiber_memoizedState f) None None shared None]>
        (updateQueues w) /\
    sharedQueues w'
    = <[shared := mkSharedQueue None NoLanes]> (sharedQueues w) /\
    updates w' = updates w /\
    queueHolds w' fiber queue (fiber_memoizedState f) [] [].
Proof.
  intros Hf. unfold initializeUpdateQueue.
  rewrite (bind_load fibers _ _ _ _ Hf).
  exists (with_fibers
            (<[fiber := set_fiber_updateQueue
                          (Some (fresh (dom (updateQueues w)))) f]> (fibers w))
            (with_updateQueues
               (<[fresh (dom (updateQueues w))
                  := mkUpdateQueue (fiber_memoizedState f) None None
                       (fresh (dom (sharedQueues w))) None]> (updateQueues w))
               (with_sharedQueues
                  (<[fresh (dom (sharedQueues w)) := mkSharedQueue None NoLanes]>
                     (sharedQueues w)) w))),
    (fresh (dom (updateQueues w))), (fresh (dom (sharedQueues w))).
  split.
  { unfold bind at 1, newSharedQueue at 1. unfold bind at 1, newUpdateQueue at 1.
    cbv zeta. simpl updateQueues.
    erewrite run_storeFiber by exact Hf. reflexivity. }
  split; [apply fresh_lookup_None|]. split; [apply fresh_lookup_None|].
  repeat (split; [reflexivity|]).
  eexists _, _, _. simpl.
  split; [apply lookup_insert_eq|]. split; [reflexivity|].
  split; [apply lookup_insert_eq|]. split; [reflexivity|].
  split; [reflexivity|]. split; [reflexivity|].
  split; [apply lookup_insert_eq|]. split; [reflexivity|].
  split; [intros p Hp; apply not_elem_of_nil|].
  split; [intros a Ha; discriminate Ha|]. intros H. now contradiction H.
Qed.

Lemma initializeUpdateQueue_fresh_empty_queue_witness :
  let f := mkFiber HostRoot None None None 0 0 0 (JsString "s") None in
  let w := mkWorld ∅ ∅ ∅ ∅ {[ 0%nat := f ]} ∅ ∅ false false None [] 0 0 true 0
             (fun _ => false) [] [] in
  exists w' queue,
    initializeUpdateQueue 0%nat w = (Return tt, w') /\
    queueHolds w' 0%nat queue (JsString "s") [] [].
Proof.
  intros f w.
  destruct (initializeUpdateQueue_fresh_empty_queue w 0%nat f)
    as (w' & queue & shared & Hrun & _ & _ & _ & _ & _ & _ & Hholds).
  - reflexivity.
  - exists w', queue. split; assumption.
Defined.

(** When the work-in-progress fiber still has the queue object of the
    current fiber, [cloneUpdateQueue] gives it a new queue object with the
    same fields, so that both queues have the same shared part; the queue
    of the current fiber is not written.  A second call changes nothing. *)
Theorem cloneUpdateQueue_clones_once
    (w : World) (current workInProgress : ptr) (cf wf : Fiber) (queue : ptr)
    (q : UpdateQueue) :
  current <> workInProgress ->
  fibers w !! current = Some cf ->
  fibers w !! workInProgress = Some wf ->
  fiber_updateQueue cf = Some queue ->
  fiber_updateQueue wf = Some queue ->
  updateQueues w !! queue = Some q ->
  exists w' clone,
    cloneUpdateQueue current workInProgress w = (Return tt, w') /\
    clone <> queue /\
    updateQueues w !! clone = None /\
    fibers w'
    = <[workInProgress := set_fiber_updateQueue (Some clone) wf]> (fibers w) /\
    updateQueues w' = <[clone := q]> (updateQueues w) /\
    updateQueues w' !! queue = Some q /\
    updates w' = updates w /\
    sharedQueues w' = sharedQueues w /\
    cloneUpdateQueue current workInProgress w' = (Return tt, w').
Proof.
  intros Hne Hcf Hwf Hcq Hwq Hq.
  set (clone := fresh (dom (updateQueues w))).
  assert (Hfresh : updateQueues w !! clone = None) by apply fresh_lookup_None.
  assert (Hcl : clone <> queue) by (intros E; rewrite E in Hfresh; congruence).
  set (w' := with_fibers
               (<[workInProgress := set_fiber_updateQueue (Some clone) wf]>
                  (fibers w))
               (with_updateQueues (<[clone := q]> (updateQueues w)) w)).
  exists w', clone.
  split.
  { unfold cloneUpdateQueue.
    rewrite (bind_load fibers _ _ _ _ Hwf), (bind_load fibers _ _ _ _ Hcf).
    rewrite Hwq, Hcq, bool_decide_eq_true_2 by reflexivity.
    unfold loadRef. rewrite (bind_load updateQueues _ _ _ _ Hq).
    unfold bind at 1, newUpdateQueue at 1. cbv zeta.
    erewrite run_storeFiber by exact Hwf.
    fold clone. destruct q. reflexivity. }
  split; [exact Hcl|]. split; [exact Hfresh|].
  repeat (split; [reflexivity|]).
  split.
  { simpl. rewrite lookup_insert_ne by exact Hcl. exact Hq. }
  repeat (split; [reflexivity|]).
  unfold cloneUpdateQueue.
  assert (Hwf' : fibers w' !! workInProgress
                 = Some (set_fiber_updateQueue (Some clone) wf))
    by apply lookup_insert_eq.
  assert (Hcf' : fibers w' !! current = Some cf).
  { simpl. rewrite lookup_insert_ne by congruence. exact Hcf. }
  rewrite (bind_load fibers _ _ _ _ Hwf'), (bind_load fibers _ _ _ _ Hcf').
  change (fiber_updateQueue (set_fiber_updateQueue (Some clone) wf))
    with (Some clone). rewrite Hcq.
  rewrite bool_decide_eq_false_2 by congruence. reflexivity.
Qed.

Lemma cloneUpdateQueue_clones_once_witness :
  let cf := mkFiber (OtherWorkTag 1) None None (Some 1%nat) 0 0 0 JsNull
              (Some 0%nat) in
  let wf := mkFiber (OtherWorkTag 1) None None (Some 0%nat) 0 0 0 JsNull
              (Some 0%nat) in
  let q := mkUpdateQueue (JsString "s") None None 0%nat None in
  let w := mkWorld ∅ {[ 0%nat := mkSharedQueue None 0 ]} {[ 0%nat := q ]} ∅
             (list_to_map [(0%nat, cf); (1%nat, wf)])
             ∅ ∅ false false None [] 0 0 true 0 (fun _ => false) [] [] in
  exists w' clone,
    cloneUpdateQueue 0%nat 1%nat w = (Return tt, w') /\
    clone <> 0%nat /\
    updateQueues w' !! clone = Some q /\
    cloneUpdateQueue 0%nat 1%nat w' = (Return tt, w').
Proof.
  intros cf wf q w.
  destruct (cloneUpdateQueue_clones_once w 0%nat 1%nat cf wf 0%nat q)
    as (w' & clone & Hrun & Hne & _ & _ & Hqs & _ & _ & _ & Hagain);
    try reflexivity; [discriminate|].
  exists w', clone. split; [exact Hrun|]. split; [exact Hne|].
  split; [|exact Hagain]. rewrite Hqs. apply lookup_insert_eq.
Defined.

(** ** Processing a queue that holds nothing *)

(** When both the durable and the pending list are empty,
    [processUpdateQueue] writes no object at all: it resets [hasForceUpdate]
    and, in a development build, [currentlyProcessingQueue]; the state and
    the lanes of the fiber stay as they are, whatever the render lanes. *)
Theorem processUpdateQueue_nothing_to_process
    (fuel : nat) (workInProgress queue : ptr) (props instance : JsValue)
    (renderLanes : Lanes) (w : World) (wf : Fiber) (q : UpdateQueue)
    (sq : SharedQueue) :
  fibers w !! workInProgress = Some wf ->
  fiber_updateQueue wf = Some queue ->
  updateQueues w !! queue = Some q ->
  queue_firstBaseUpdate q = None ->
  sharedQueues w !! queue_shared q = Some sq ->
  shared_pending sq = None ->
  processUpdateQueue fuel workInProgress props instance renderLanes w
  = (Return tt,
     with_currentlyProcessingQueue
       (if DEV w then None else currentlyProcessingQueue w)
       (with_hasForceUpdate false w)).
Proof.
  intros Hwf Huq Hq Hfirst Hsq Hpending.
  unfold processUpdateQueue.
  rewrite (bind_load fibers _ _ _ _ Hwf).
  rewrite bind_modify, Huq.
  set (w0 := with_hasForceUpdate false w).
  assert (Hq0 : updateQueues w0 !! queue = Some q) by exact Hq.
  rewrite (bind_load updateQueues _ _ _ _ Hq0).
  unfold bind at 1, gets at 1.
  change (DEV w0) with (DEV w).
  assert (Htransfer : forall w1,
    updateQueues w1 = updateQueues w -> sharedQueues w1 = sharedQueues w ->
    transferPending workInProgress queue (queue_firstBaseUpdate q)
      (queue_lastBaseUpdate q) w1
    = (Return (None, queue_lastBaseUpdate q), w1)).
  { intros w1 E1 E2. unfold transferPending.
    assert (Hq1 : updateQueues w1 !! queue = Some q) by now rewrite E1.
    assert (Hsq1 : sharedQueues w1 !! queue_shared q = Some sq)
      by now rewrite E2.
    rewrite (bind_load updateQueues _ _ _ _ Hq1).
    rewrite (bind_load sharedQueues _ _ _ _ Hsq1).
    now rewrite Hpending, Hfirst. }
  destruct (DEV w).
  - rewrite bind_modify.
    rewrite (bind_run _ _ _ _ _
               (Htransfer (with_currentlyProcessingQueue
                             (Some (queue_shared q)) w0) eq_refl eq_refl)).
    reflexivity.
  - rewrite bind_ret_l.
    rewrite (bind_run _ _ _ _ _ (Htransfer w0 eq_refl eq_refl)).
    reflexivity.
Qed.

Lemma processUpdateQueue_nothing_to_process_witness :
  let wf := mkFiber (OtherWorkTag 1) None None None 0 5 0 (JsString "s")
              (Some 0%nat) in
  let w := mkWorld ∅ {[ 0%nat := mkSharedQueue None 0 ]}
             {[ 0%nat := mkUpdateQueue (JsString "s") None None 0%nat None ]}
             ∅ {[ 0%nat := wf ]}
             ∅ ∅ true false None [] 0 0 true 0 (fun _ => false) [] [] in
  processUpdateQueue 0 0%nat JsNull JsNull 1 w
  = (Return tt, with_hasForceUpdate false w).
Proof.
  intros wf w.
  apply (processUpdateQueue_nothing_to_process 0 0%nat 0%nat JsNull JsNull 1
           w wf (mkUpdateQueue (JsString "s") None None 0%nat None)
           (mkSharedQueue None 0)); reflexivity.
Defined.
(** ** What one pass does to the list of records *)

Lemma walkAcc_after_skip props inst root lanes :
  forall us a,
    acc_clones a <> [] ->
    let a' := walkAcc props inst root lanes a us in
    acc_state a'
    = applyAllInOrder props inst (acc_state a) (notSkipped root lanes us) /\
    acc_base a' = acc_base a /\
    acc_clones a' = acc_clones a ++ map (keptClone root lanes) us.
Proof.
  unfold walkAcc. induction us as [|u us IH]; intros a Hne; cbv zeta.
  - simpl. now rewrite app_nil_r.
  - cbn [fold_left].
    destruct (IH (stepAcc props inst root lanes a u)) as (Hs & Hb & Hc).
    { unfold stepAcc. destruct (shouldSkipUpdate root lanes u); simpl.
      - now destruct (acc_clones a).
      - destruct (acc_clones a); [congruence|discriminate]. }
    rewrite Hs, Hb, Hc. unfold stepAcc, notSkipped, keptClone. simpl.
    destruct (shouldSkipUpdate root lanes u); simpl.
    + destruct (acc_clones a); [congruence|].
      now rewrite <- app_assoc.
    + destruct (acc_clones a) eqn:E; [congruence|].
      now rewrite <- app_assoc.
Qed.

Lemma walkAcc_shape props inst root lanes :
  forall us a,
    acc_clones a = [] ->
    let a' := walkAcc props inst root lanes a us in
    acc_state a'
    = applyAllInOrder props inst (acc_state a) (notSkipped root lanes us) /\
    baseAfter a'
    = applyAllInOrder props inst (acc_state a)
        (beforeFirstSkipped root lanes us) /\
    acc_clones a'
    = map (keptClone root lanes) (fromFirstSkipped root lanes us).
Proof.
  pose proof (walkAcc_after_skip props inst root lanes) as Hafter.
  unfold walkAcc in *.
  induction us as [|u us IH]; intros a Hnil; cbv zeta.
  - simpl. unfold baseAfter. now rewrite Hnil.
  - cbn [fold_left].
    unfold notSkipped. cbn [List.filter beforeFirstSkipped fromFirstSkipped].
    destruct (shouldSkipUpdate root lanes u) eqn:Hskip; simpl negb; cbv iota.
    + assert (E : stepAcc props inst root lanes a u
                  = mkAcc (acc_state a)
                      (mergeLanes (acc_lanes a) (updateLaneOf u))
                      (acc_state a) [skippedClone u]).
      { unfold stepAcc. now rewrite Hskip, Hnil. }
      rewrite E. set (a1 := mkAcc _ _ _ _).
      destruct (Hafter us a1) as (Hs & Hb & Hc); [discriminate|].
      rewrite Hs. unfold baseAfter. rewrite Hc, Hb. simpl.
      unfold keptClone at 2. rewrite Hskip. repeat split.
    + assert (E : stepAcc props inst root lanes a u
                  = mkAcc (reduceState props inst (acc_state a) u)
                      (acc_lanes a) (acc_base a) []).
      { unfold stepAcc. now rewrite Hskip, Hnil. }
      rewrite E. set (a1 := mkAcc _ _ _ _).
      destruct (IH a1 eq_refl) as (Hs & Hb & Hc).
      rewrite Hs, Hb, Hc. repeat split.
Qed.

(** One pass of [processUpdateQueue] over a queue that holds records: the
    state of the fiber is the base state with all the records applied that
    the pass does not skip; the queue keeps as base state the base state
    with the records applied that come before the first skipped one, and as
    durable list a clone of every record from the first skipped one on, the
    skipped ones at their lane and the others at no lane; the pending list
    is empty. *)
Theorem processUpdateQueue_pass
    (fuel : nat) (workInProgress queue : ptr) (props instance : JsValue)
    (renderLanes : Lanes) (base : JsValue) (ps1 ps2 : list ptr) (w : World) :
  queueHolds w workInProgress queue base ps1 ps2 ->
  ps1 ++ ps2 <> [] ->
  (length (ps1 ++ ps2) <= fuel)%nat ->
  let root := workInProgressRootRenderLanes w in
  let us := recordsAt (updates w) (ps1 ++ ps2) in
  exists w' wf' cps,
    processUpdateQueue fuel workInProgress props instance renderLanes w
    = (Return tt, w') /\
    fibers w' !! workInProgress = Some wf' /\
    fiber_memoizedState wf'
    = applyAllInOrder props instance base (notSkipped root renderLanes us) /\
    queueHolds w' workInProgress queue
      (applyAllInOrder props instance base
         (beforeFirstSkipped root renderLanes us)) cps [] /\
    map unlinked (recordsAt (updates w') cps)
    = map (keptClone root renderLanes) (fromFirstSkipped root renderLanes us).
Proof.
  intros Hholds Hne Hfuel root us.
  destruct (processUpdateQueue_spec fuel workInProgress queue props instance
              renderLanes base ps1 ps2 w Hholds Hfuel)
    as (w' & cps & Hrun & Hholds' & Hrecs & _ & Hwalked & _).
  destruct (Hwalked Hne) as (wf' & Hwf' & _ & Hstate).
  destruct (walkAcc_shape props instance root renderLanes us (startAcc base)
              eq_refl) as (Hs & Hb & Hc).
  fold root us in Hholds', Hrecs, Hstate.
  exists w', wf', cps. split; [exact Hrun|]. split; [exact Hwf'|].
  simpl in Hs, Hb.
  split; [now rewrite Hstate, Hs|].
  split; [now rewrite <- Hb|]. now rewrite Hrecs, Hc.
Qed.

Lemma processUpdateQueue_pass_witness :
  exists w' wf' cps,
    processUpdateQueue 4 0%nat JsNull JsNull P1 fourLetters = (Return tt, w') /\
    fibers w' !! 0%nat = Some wf' /\
    fiber_memoizedState wf' = JsString "AC" /\
    queueHolds w' 0%nat 0%nat (JsString "A") cps [] /\
    map unlinked (recordsAt (updates w') cps)
    = [letterUpdate P2 "B" None; letterUpdate NoLane "C" None;
       letterUpdate P2 "D" None].
Proof.
  apply (processUpdateQueue_pass 4 0%nat 0%nat JsNull JsNull P1
           (JsString EmptyString) [1%nat; 2%nat; 3%nat; 4%nat] []
           fourLetters).
  - exact fourLetters_holds.
  - discriminate.
  - simpl. lia.
Defined.
(** ** Capturing an update *)

Lemma fresh_not_in_store (h0 h : gmap ptr Update) :
  (forall p, is_Some (h0 !! p) -> h !! p = h0 !! p) ->
  h0 !! fresh (dom h) = None.
Proof.
  intros Hframe. destruct (h0 !! fresh (dom h)) as [u|] eqn:E; [|reflexivity].
  rewrite <- Hframe in E by (rewrite E; eauto).
  now rewrite fresh_update_None in E.
Qed.

Lemma append_clone_records h cps l ul c crec :
  (forall p, p ∈ cps -> is_Some (h !! p)) ->
  h !! c = None ->
  h !! l = Some ul ->
  map unlinked
    (recordsAt (<[l := set_update_next (Some c) ul]> (<[c := crec]> h))
       (cps ++ [c]))
  = map unlinked (recordsAt h cps) ++ [unlinked crec].
Proof.
  intros Hcps Hc Hl. assert (Hlc : l <> c) by congruence.
  unfold recordsAt. rewrite omap_app, map_app. f_equal.
  - apply map_unlinked_recordsAt_frame. intros p Hp.
    destruct (Hcps p Hp) as [up Hup]. rewrite Hup.
    destruct (decide (p = l)) as [->|Hne].
    + rewrite lookup_insert_eq. rewrite Hl in Hup. now injection Hup as <-.
    + rewrite lookup_insert_ne by congruence.
      rewrite lookup_insert_ne by congruence. now rewrite Hup.
  - csimpl. rewrite lookup_insert_ne by exact Hlc.
    now rewrite lookup_insert_eq.
Qed.

Lemma cloneBaseUpdates_spec h0 :
  forall ps fuel update newFirst cps w,
    chain h0 (Some update) ps ->
    (forall p, is_Some (h0 !! p) -> updates w !! p = h0 !! p) ->
    chain (updates w) newFirst cps ->
    (forall p, p ∈ cps -> h0 !! p = None) ->
    (length ps <= fuel)%nat ->
    exists h' first' cps',
      cloneBaseUpdates fuel update newFirst (last cps) w
      = (Return (first', last (cps ++ cps')), with_updates h' w) /\
      cps' <> [] /\
      chain h' first' (cps ++ cps') /\
      map unlinked (recordsAt h' (cps ++ cps'))
      = map unlinked (recordsAt (updates w) cps)
        ++ map unlinked (recordsAt h0 ps) /\
      (forall p, is_Some (h0 !! p) -> h' !! p = h0 !! p) /\
      (forall p, p ∈ cps' -> h0 !! p = None).
Proof.
  induction ps as [|x ps IH]; intros fuel update newFirst cps w Hchain Hframe
    Hclones Hfresh Hfuel.
  { discriminate Hchain. }
  destruct Hchain as (Ex & u & Hu0 & Hrest). injection Ex as ->.
  destruct fuel as [|fuel]; [simpl in Hfuel; lia|].
  assert (Hu : updates w !! x = Some u)
    by (rewrite Hframe; [exact Hu0|rewrite Hu0; eauto]).
  cbn [cloneBaseUpdates]. rewrite (bind_load updates _ _ _ _ Hu).
  change (mkUpdate (update_eventTime u) (update_lane u) (update_tag u)
            (update_payload u) (update_callback u) None)
    with (unlinked u).
  set (c := fresh (dom (updates w))).
  assert (Hc : updates w !! c = None) by apply fresh_update_None.
  assert (Hc0 : h0 !! c = None) by now apply fresh_not_in_store.
  assert (Hxc : x <> c) by congruence.
  set (first1 := match cps with [] => Some c | _ => newFirst end).
  (* the clone is linked after the clones made so far *)
  assert (Hlink : exists h1,
    (clone <- newUpdate (unlinked u) ;;
     r <- match last cps with
          | None => ret (Some clone, Some clone)
          | Some l =>
              storeUpdate l (set_update_next (Some clone)) ;;;
              ret (newFirst, Some clone)
          end ;;
     u' <- load updates x ;;
     match update_next u' with
     | Some next => cloneBaseUpdates fuel next (fst r) (snd r)
     | None => ret r
     end) w
    = (match update_next u with
       | Some next => cloneBaseUpdates fuel next first1 (last (cps ++ [c]))
       | None => ret (first1, last (cps ++ [c]))
       end) (with_updates h1 w) /\
    chain h1 first1 (cps ++ [c]) /\
    map unlinked (recordsAt h1 (cps ++ [c]))
    = map unlinked (recordsAt (updates w) cps) ++ [unlinked u] /\
    (forall p, is_Some (h0 !! p) -> h1 !! p = h0 !! p)).
  { rewrite last_snoc.
    destruct (last cps) as [l|] eqn:El.
    - destruct (chain_append_clone (updates w) newFirst cps l c (unlinked u)
                  Hclones El Hc eq_refl) as (ul & Hul & Hchain1).
      assert (Hcps : cps <> []) by (intros ->; discriminate El).
      exists (<[l := set_update_next (Some c) ul]>
                (<[c := unlinked u]> (updates w))).
      assert (Hl0 : h0 !! l = None)
        by (apply Hfresh, last_Some_elem_of, El).
      assert (Hlc : l <> c) by congruence.
      assert (Hxl : x <> l) by congruence.
      assert (Ef : first1 = newFirst) by (subst first1; now destruct cps).
      rewrite Ef. split; [|split; [|split]].
      + unfold bind at 1, newUpdate at 1. fold c. cbv zeta.
        set (w1 := with_updates _ w).
        assert (Hul1 : updates w1 !! l = Some ul).
        { simpl. rewrite lookup_insert_ne by congruence. exact Hul. }
        rewrite bind_assoc, (bind_storeUpdate _ _ _ _ _ Hul1), bind_ret_l.
        set (w2 := with_updates _ w1).
        assert (Hu2 : updates w2 !! x = Some u).
        { simpl. rewrite !lookup_insert_ne by congruence. exact Hu. }
        rewrite (bind_load updates _ _ _ _ Hu2). reflexivity.
      + exact Hchain1.
      + rewrite (append_clone_records _ _ _ _ _ (unlinked u));
          [reflexivity| |exact Hc|exact Hul].
        intros p Hp. eapply segment_lookup; eauto.
      + intros p Hp. destruct Hp as [up Hup].
        rewrite !lookup_insert_ne by congruence.
        apply Hframe. rewrite Hup. eauto.
    - apply last_None in El. subst cps. subst first1.
      exists (<[c := unlinked u]> (updates w)).
      split; [|split; [|split]].
      + unfold bind at 1, newUpdate at 1. fold c. cbv zeta.
        rewrite bind_ret_l.
        set (w1 := with_updates _ w).
        assert (Hu1 : updates w1 !! x = Some u).
        { simpl. rewrite lookup_insert_ne by congruence. exact Hu. }
        rewrite (bind_load updates _ _ _ _ Hu1). reflexivity.
      + simpl. split; [reflexivity|]. eexists.
        rewrite lookup_insert_eq. split; reflexivity.
      + simpl. unfold recordsAt. csimpl. now rewrite lookup_insert_eq.
      + intros p Hp. destruct Hp as [up Hup].
        rewrite lookup_insert_ne by congruence.
        apply Hframe. rewrite Hup. eauto. }
  destruct Hlink as (h1 & Hrun & Hchain1 & Hrecs1 & Hframe1).
  rewrite Hrun. clear Hrun.
  assert (Hfresh1 : forall p, p ∈ cps ++ [c] -> h0 !! p = None).
  { intros p Hp. apply elem_of_app in Hp. destruct Hp as [Hp|Hp].
    - now apply Hfresh.
    - apply list_elem_of_singleton in Hp. now subst p. }
  destruct (update_next u) as [next|] eqn:En.
  - destruct (IH fuel next first1 (cps ++ [c]) (with_updates h1 w))
      as (h' & first' & cps' & Hrun & Hne & Hchain' & Hrecs' & Hframe'
          & Hfresh').
    + exact Hrest.
    + exact Hframe1.
    + exact Hchain1.
    + exact Hfresh1.
    + simpl in Hfuel. lia.
    + exists h', first', (c :: cps').
      replace (cps ++ c :: cps') with ((cps ++ [c]) ++ cps')
        by now rewrite <- app_assoc.
      split; [exact Hrun|]. split; [discriminate|].
      split; [exact Hchain'|]. split; [|split].
      * rewrite Hrecs'. simpl updates. rewrite Hrecs1.
        rewrite (recordsAt_cons _ _ _ _ Hu0). simpl.
        now rewrite <- app_assoc.
      * exact Hframe'.
      * intros p Hp. apply elem_of_cons in Hp. destruct Hp as [->|Hp];
          [exact Hc0|now apply Hfresh'].
  - apply chain_none_inv in Hrest. subst ps.
    exists h1, first1, [c]. split; [reflexivity|]. split; [discriminate|].
    split; [exact Hchain1|]. split; [|split].
    + rewrite Hrecs1. now rewrite (recordsAt_cons _ _ _ _ Hu0).
    + exact Hframe1.
    + intros p Hp. apply list_elem_of_singleton in Hp. now subst p.
Qed.
(** While the work-in-progress fiber still has the queue object of the
    current fiber, [enqueueCapturedUpdate] gives it a queue of its own,
    whose durable list is made of new clones of the records of the current
    list, in order, followed by the captured update.  No record and no queue
    that existed is written: the list of the current fiber is as it was. *)
Theorem enqueueCapturedUpdate_clones_current_list
    (fuel : nat) (w : World) (workInProgress current capturedUpdate : ptr)
    (wf cf : Fiber) (queue : ptr) (q : UpdateQueue) (ps : list ptr)
    (cu : Update) :
  fibers w !! workInProgress = Some wf ->
  fiber_alternate wf = Some current ->
  fibers w !! current = Some cf ->
  fiber_updateQueue wf = Some queue ->
  fiber_updateQueue cf = Some queue ->
  updateQueues w !! queue = Some q ->
  chain (updates w) (queue_firstBaseUpdate q) ps ->
  updates w !! capturedUpdate = Some cu ->
  update_next cu = None ->
  (length ps <= fuel)%nat ->
  exists w' queue' first' cps,
    enqueueCapturedUpdate fuel workInProgress capturedUpdate w
    = (Return tt, w') /\
    updateQueues w !! queue' = None /\
    fibers w'
    = <[workInProgress := set_fiber_updateQueue (Some queue') wf]> (fibers w) /\
    updateQueues w'
    = <[queue' := mkUpdateQueue (queue_baseState q) first'
                    (Some capturedUpdate) (queue_shared q) (queue_effects q)]>
        (updateQueues w) /\
    sharedQueues w' = sharedQueues w /\
    chain (updates w') first' (cps ++ [capturedUpdate]) /\
    map unlinked (recordsAt (updates w') cps)
    = map unlinked (recordsAt (updates w) ps) /\
    (forall p, p ∈ cps -> updates w !! p = None) /\
    (forall p, is_Some (updates w !! p) -> updates w' !! p = updates w !! p) /\
    chain (updates w') (queue_firstBaseUpdate q) ps.
Proof.
  intros Hwf Halt Hcf Hwq Hcq Hq Hchain Hcu Hnext Hfuel.
  unfold enqueueCapturedUpdate.
  rewrite (bind_load fibers _ _ _ _ Hwf), Halt, bind_assoc.
  rewrite (bind_load fibers _ _ _ _ Hcf).
  rewrite Hwq, Hcq, bool_decide_eq_true_2 by reflexivity.
  unfold loadRef. rewrite bind_assoc, (bind_load updateQueues _ _ _ _ Hq).
  (* the new list *)
  assert (Hlist : exists h' first' cps,
    (match queue_firstBaseUpdate q with
     | Some firstBaseUpdate =>
         r <- cloneBaseUpdates fuel firstBaseUpdate None None ;;
         match snd r with
         | None => ret (Some capturedUpdate, Some capturedUpdate)
         | Some newLast =>
             storeUpdate newLast (set_update_next (Some capturedUpdate)) ;;;
             ret (fst r, Some capturedUpdate)
         end
     | None => ret (Some capturedUpdate, Some capturedUpdate)
     end) w
    = (Return (first', Some capturedUpdate), with_updates h' w) /\
    chain h' first' (cps ++ [capturedUpdate]) /\
    map unlinked (recordsAt h' cps)
    = map unlinked (recordsAt (updates w) ps) /\
    (forall p, p ∈ cps -> updates w !! p = None) /\
    (forall p, is_Some (updates w !! p) -> h' !! p = updates w !! p)).
  { destruct (queue_firstBaseUpdate q) as [first|] eqn:Ef.
    - destruct (cloneBaseUpdates_spec (updates w) ps fuel first None [] w)
        as (h1 & first' & cps & Hrun & Hne & Hchain1 & Hrecs1 & Hframe1
            & Hfresh1).
      + exact Hchain.
      + reflexivity.
      + reflexivity.
      + intros p Hp. apply elem_of_nil in Hp. contradiction.
      + exact Hfuel.
      + simpl in Hrun, Hchain1, Hrecs1.
        change (@None ptr) with (@last ptr []) at 2. rewrite (bind_run _ _ _ _ _ Hrun).
        simpl fst. simpl snd.
        destruct (last cps) as [l|] eqn:El;
          [|apply last_None in El; congruence].
        destruct (chain_join h1 first' cps l capturedUpdate [capturedUpdate]
                    Hchain1 El) as (ul & Hul & Hjoined).
        { intros p Hp Hin. apply list_elem_of_singleton in Hin. subst p.
          rewrite (Hfresh1 _ Hp) in Hcu. discriminate. }
        { split; [reflexivity|]. exists cu. split; [|now rewrite Hnext].
          rewrite Hframe1; [exact Hcu|]. rewrite Hcu. eauto. }
        set (w1 := with_updates h1 w).
        assert (Hul1 : updates w1 !! l = Some ul) by exact Hul.
        cbn [fst snd].
        rewrite (bind_storeUpdate _ _ _ _ _ Hul1).
        exists (<[l := set_update_next (Some capturedUpdate) ul]> h1),
          first', cps.
        split; [reflexivity|]. split; [exact Hjoined|].
        assert (Hl0 : updates w !! l = None)
          by (apply Hfresh1, last_Some_elem_of, El).
        split; [|split].
        * rewrite <- Hrecs1. apply map_unlinked_recordsAt_frame.
          intros p Hp. destruct (decide (p = l)) as [->|Hpl].
          -- rewrite Hul, lookup_insert_eq. reflexivity.
          -- rewrite lookup_insert_ne by congruence.
             destruct (h1 !! p); auto.
        * exact Hfresh1.
        * intros p Hp. rewrite lookup_insert_ne.
          -- now apply Hframe1.
          -- intros <-. rewrite Hl0 in Hp. now destruct Hp.
    - apply chain_none_inv in Hchain. subst ps.
      exists (updates w), (Some capturedUpdate), [].
      split; [now destruct w|]. split; [|split; [|split]].
      + simpl. split; [reflexivity|]. exists cu. now rewrite Hnext.
      + reflexivity.
      + intros p Hp. apply elem_of_nil in Hp. contradiction.
      + reflexivity. }
  destruct Hlist as (h' & first' & cps & Hrun & Hchain' & Hrecs' & Hfresh'
                     & Hframe').
  rewrite bind_assoc, (bind_run _ _ _ _ _ Hrun). simpl fst. simpl snd.
  set (w1 := with_updates h' w).
  assert (Hq1 : updateQueues w1 !! queue = Some q) by exact Hq.
  rewrite bind_assoc, (bind_load updateQueues _ _ _ _ Hq1).
  rewrite bind_assoc. unfold bind at 1, newUpdateQueue at 1. cbv zeta.
  set (queue' := fresh (dom (updateQueues w1))).
  set (w2 := with_updateQueues _ w1).
  assert (Hwf2 : fibers w2 !! workInProgress = Some wf) by exact Hwf.
  rewrite bind_assoc, (bind_storeFiber _ _ _ _ _ Hwf2), bind_ret_l.
  exists (with_fibers
            (<[workInProgress := set_fiber_updateQueue (Some queue') wf]>
               (fibers w2)) w2), queue', first', cps.
  split; [reflexivity|]. split; [apply (fresh_lookup_None (updateQueues w))|].
  repeat (split; [reflexivity|]).
  split; [exact Hchain'|]. split; [exact Hrecs'|]. split; [exact Hfresh'|].
  split; [exact Hframe'|].
  eapply segment_frame; [|exact Hchain]. intros p Hp. simpl.
  apply Hframe'. eapply segment_lookup; eauto.
Qed.
Lemma enqueueCapturedUpdate_clones_current_list_witness :
  let a := mkUpdate 0 1 UpdateState (PayloadValue (JsString "a")) None
             (Some 2%nat) in
  let b := mkUpdate 0 2 UpdateState (PayloadValue (JsString "b")) None None in
  let cu := mkUpdate 0 4 CaptureUpdate (PayloadValue (JsString "e")) None
              None in
  let q := mkUpdateQueue JsNull (Some 1%nat) (Some 2%nat) 0%nat None in
  let cf := mkFiber (OtherWorkTag 1) None None (Some 1%nat) 0 0 0 JsNull
              (Some 0%nat) in
  let wf := mkFiber (OtherWorkTag 1) None None (Some 0%nat) 0 0 0 JsNull
              (Some 0%nat) in
  let w := mkWorld
             (list_to_map [(1%nat, a); (2%nat, b); (3%nat, cu)])
             {[ 0%nat := mkSharedQueue None 0 ]}
             {[ 0%nat := q ]} ∅
             (list_to_map [(0%nat, cf); (1%nat, wf)])
             ∅ ∅ false false None [] 0 0 true 0 (fun _ => false) [] [] in
  exists w' first' cps,
    enqueueCapturedUpdate 2 1%nat 3%nat w = (Return tt, w') /\
    chain (updates w') first' (cps ++ [3%nat]) /\
    map unlinked (recordsAt (updates w') cps) = [unlinked a; unlinked b] /\
    chain (updates w') (Some 1%nat) [1%nat; 2%nat] /\
    updateQueues w' !! 0%nat = Some q.
Proof.
  intros a b cu q cf wf w.
  destruct (enqueueCapturedUpdate_clones_current_list 2 w 1%nat 0%nat 3%nat
              wf cf 0%nat q [1%nat; 2%nat] cu)
    as (w' & queue' & first' & cps & Hrun & Hnew & _ & Hqs & _ & Hchain
        & Hrecs & _ & _ & Hold); try reflexivity.
  - unfold chain. simpl.
    repeat (split; [reflexivity|]; eexists; split; [vm_compute; reflexivity|]).
    reflexivity.
  - exists w', first', cps. split; [exact Hrun|]. split; [exact Hchain|].
    split; [exact Hrecs|]. split; [exact Hold|].
    rewrite Hqs. rewrite lookup_insert_ne; [reflexivity|].
    intros E. rewrite E in Hnew. discriminate Hnew.
Defined.

(** When the work-in-progress fiber has a queue object of its own (it has
    no alternate, or the alternate has another queue object),
    [enqueueCapturedUpdate] appends the captured update at the end of the
    durable list of that queue, whatever its length; the records keep their
    content, and no fiber is written. *)
Theorem enqueueCapturedUpdate_appends_to_own_queue
    (fuel : nat) (w : World) (workInProgress capturedUpdate : ptr)
    (wf : Fiber) (queue : ptr) (q : UpdateQueue) (ps : list ptr)
    (cu : Update) :
  fibers w !! workInProgress = Some wf ->
  fiber_updateQueue wf = Some queue ->
  (forall current, fiber_alternate wf = Some current ->
     exists cf, fibers w !! current = Some cf /\
                fiber_updateQueue cf <> Some queue) ->
  updateQueues w !! queue = Some q ->
  chain (updates w) (queue_firstBaseUpdate q) ps ->
  queue_lastBaseUpdate q = last ps ->
  updates w !! capturedUpdate = Some cu ->
  update_next cu = None ->
  capturedUpdate ∉ ps ->
  exists w' first',
    enqueueCapturedUpdate fuel workInProgress capturedUpdate w
    = (Return tt, w') /\
    updateQueues w'
    = <[queue := mkUpdateQueue (queue_baseState q) first'
                   (Some capturedUpdate) (queue_shared q) (queue_effects q)]>
        (updateQueues w) /\
    chain (updates w') first' (ps ++ [capturedUpdate]) /\
    (ps <> [] -> first' = queue_firstBaseUpdate q) /\
    sameRecords (updates w) (updates w') /\
    fibers w' = fibers w /\
    sharedQueues w' = sharedQueues w.
Proof.
  intros Hwf Hwq Halt Hq Hchain Hlast Hcu Hnext Hnotin.
  unfold enqueueCapturedUpdate.
  rewrite (bind_load fibers _ _ _ _ Hwf).
  assert (Hearly :
    (match fiber_alternate wf with
     | Some current =>
         cf <- load fibers current ;;
         let currentQueue := fiber_updateQueue cf in
         if bool_decide (fiber_updateQueue wf = currentQueue) then
           q <- loadRef updateQueues (fiber_updateQueue wf) ;;
           r <-
             match queue_firstBaseUpdate q with
             | Some firstBaseUpdate =>
                 r <- cloneBaseUpdates fuel firstBaseUpdate None None ;;
                 match snd r with
                 | None => ret (Some capturedUpdate, Some capturedUpdate)
                 | Some newLast =>
                     storeUpdate newLast
                       (set_update_next (Some capturedUpdate)) ;;;
                     ret (fst r, Some capturedUpdate)
                 end
             | None => ret (Some capturedUpdate, Some capturedUpdate)
             end ;;
           cq <- loadRef updateQueues currentQueue ;;
           clone <- newUpdateQueue
             (mkUpdateQueue (queue_baseState cq) (fst r) (snd r)
                (queue_shared cq) (queue_effects cq)) ;;
           storeFiber workInProgress (set_fiber_updateQueue (Some clone)) ;;;
           ret true
         else ret false
     | None => ret false
     end) w = (Return false, w)).
  { destruct (fiber_alternate wf) as [current|]; [|reflexivity].
    destruct (Halt current eq_refl) as (cf & Hcf & Hne).
    rewrite (bind_load fibers _ _ _ _ Hcf). cbv zeta.
    rewrite Hwq, bool_decide_eq_false_2 by congruence. reflexivity. }
  rewrite (bind_run _ _ _ _ _ Hearly), Hwq.
  rewrite (bind_load updateQueues _ _ _ _ Hq).
  destruct (last ps) as [l|] eqn:El; rewrite Hlast.
  - destruct (chain_join (updates w) (queue_firstBaseUpdate q) ps l
                capturedUpdate [capturedUpdate] Hchain El)
      as (ul & Hul & Hjoined).
    { intros p Hp Hin. apply list_elem_of_singleton in Hin. now subst p. }
    { split; [reflexivity|]. exists cu. now rewrite Hnext. }
    rewrite (bind_storeUpdate _ _ _ _ _ Hul).
    set (w1 := with_updates _ w).
    assert (Hq1 : updateQueues w1 !! queue = Some q) by exact Hq.
    rewrite (run_storeUpdateQueue _ _ _ _ Hq1).
    eexists _, (queue_firstBaseUpdate q). split; [reflexivity|].
    split; [|split; [exact Hjoined|]].
    { simpl. now destruct q. }
    split; [reflexivity|]. split; [|split; reflexivity].
    now apply sameRecords_relink.
  - apply last_None in El. subst ps. apply chain_nil_inv in Hchain.
    rewrite (bind_storeUpdateQueue _ _ _ _ _ Hq).
    set (w1 := with_updateQueues _ w).
    rewrite (run_storeUpdateQueue _ _
               (set_queue_firstBaseUpdate (Some capturedUpdate) q))
      by apply lookup_insert_eq.
    eexists _, (Some capturedUpdate). split; [reflexivity|].
    split; [|split; [|split; [|split; [|split; reflexivity]]]].
    + simpl. rewrite insert_insert_eq. now destruct q.
    + simpl. split; [reflexivity|]. exists cu. now rewrite Hnext.
    + intros H. now contradiction H.
    + apply sameRecords_refl.
Qed.

Lemma enqueueCapturedUpdate_appends_to_own_queue_witness :
  let a := mkUpdate 0 1 UpdateState (PayloadValue (JsString "a")) None None in
  let cu := mkUpdate 0 4 CaptureUpdate (PayloadValue (JsString "e")) None
              None in
  let q := mkUpdateQueue JsNull (Some 1%nat) (Some 1%nat) 0%nat None in
  let wf := mkFiber (OtherWorkTag 1) None None None 0 0 0 JsNull
              (Some 0%nat) in
  let w := mkWorld
             (list_to_map [(1%nat, a); (3%nat, cu)])
             {[ 0%nat := mkSharedQueue None 0 ]}
             {[ 0%nat := q ]} ∅ {[ 0%nat := wf ]}
             ∅ ∅ false false None [] 0 0 true 0 (fun _ => false) [] [] in
  exists w' first',
    enqueueCapturedUpdate 0 0%nat 3%nat w = (Return tt, w') /\
    chain (updates w') first' [1%nat; 3%nat] /\
    first' = Some 1%nat.
Proof.
  intros a cu q wf w.
  destruct (enqueueCapturedUpdate_appends_to_own_queue 0 w 0%nat 3%nat wf
              0%nat q [1%nat] cu)
    as (w' & first' & Hrun & _ & Hchain & Hfirst & _);
    try reflexivity.
  - intros current H. discriminate H.
  - split; [reflexivity|]. eexists. split; [vm_compute; reflexivity|].
    reflexivity.
  - intros Hin. apply list_elem_of_singleton in Hin. discriminate.
  - exists w', first'. split; [exact Hrun|]. split; [exact Hchain|].
    apply Hfirst. discriminate.
Defined.
(** ** What the functions of the module leave alone *)

(** The same step, where the writes are shown to be outside of what [g]
    reads by the tactic [tac]. *)
Ltac unchanged_using tac :=
  repeat first
    [ apply unchanged_modify; intros ?; tac
    | apply unchanged_newUpdate; intros ? ?; tac
    | apply unchanged_newSharedQueue; intros ? ?; tac
    | apply unchanged_newUpdateQueue; intros ? ?; tac
    | apply unchanged_newArray; intros ? ?; tac
    | unchanged_step ].

Lemma unchanged_detectUpdateOnUnmountedFiber {X} (g : World -> X) s p :
  (forall h w, g (with_calls h w) = g w) ->
  unchanged g (detectUpdateOnUnmountedFiber s p).
Proof.
  intros Hc. unfold detectUpdateOnUnmountedFiber, emit.
  unchanged_using ltac:(apply Hc).
Qed.

Lemma unchanged_getRootLoop {X} (g : World -> X) s :
  (forall h w, g (with_calls h w) = g w) ->
  forall fuel node parent, unchanged g (getRootLoop fuel s node parent).
Proof.
  intros Hc.
  pose proof (fun p => unchanged_detectUpdateOnUnmountedFiber g s p Hc).
  induction fuel as [|fuel IH]; intros node parent;
    destruct parent; cbn [getRootLoop]; unchanged_auto.
Qed.

Lemma unchanged_getRootForUpdatedFiber {X} (g : World -> X) fuel s :
  (forall h w, g (with_calls h w) = g w) ->
  unchanged g (getRootForUpdatedFiber fuel s).
Proof.
  intros Hc. unfold getRootForUpdatedFiber.
  pose proof (fun p => unchanged_detectUpdateOnUnmountedFiber g s p Hc).
  pose proof (unchanged_getRootLoop g s Hc).
  unchanged_auto.
Qed.

Lemma unchanged_concurrent_enqueueUpdate {X} (g : World -> X) f q u lane :
  (forall h w, g (with_concurrentQueues h w) = g w) ->
  (forall h w, g (with_concurrentQueuesIndex h w) = g w) ->
  (forall h w, g (with_concurrentlyUpdatedLanes h w) = g w) ->
  (forall h w, g (with_fibers h w) = g w) ->
  unchanged g (ReactFiberConcurrentUpdates.enqueueUpdate f q u lane).
Proof.
  intros H1 H2 H3 H4.
  unfold ReactFiberConcurrentUpdates.enqueueUpdate, pushConcurrentQueues,
    storeFiber.
  unchanged_using ltac:(now rewrite ?H1, ?H2, ?H3, ?H4).
Qed.

Lemma unchanged_enqueueConcurrentClassUpdate {X} (g : World -> X)
    fuel f q u lane :
  (forall h w, g (with_concurrentQueues h w) = g w) ->
  (forall h w, g (with_concurrentQueuesIndex h w) = g w) ->
  (forall h w, g (with_concurrentlyUpdatedLanes h w) = g w) ->
  (forall h w, g (with_fibers h w) = g w) ->
  (forall h w, g (with_calls h w) = g w) ->
  unchanged g (enqueueConcurrentClassUpdate fuel f q u lane).
Proof.
  intros H1 H2 H3 H4 H5. unfold enqueueConcurrentClassUpdate.
  pose proof (unchanged_concurrent_enqueueUpdate g f (Some q) (Some u) lane
                H1 H2 H3 H4).
  pose proof (unchanged_getRootForUpdatedFiber g fuel f H5).
  unchanged_auto.
Qed.

Lemma unchanged_unsafe_markUpdateLaneFromFiberToRoot {X} (g : World -> X)
    fuel f lane :
  (forall h w, g (with_fibers h w) = g w) ->
  (forall h w, g (with_calls h w) = g w) ->
  unchanged g (unsafe_markUpdateLaneFromFiberToRoot fuel f lane).
Proof.
  intros H4 H5. unfold unsafe_markUpdateLaneFromFiberToRoot.
  pose proof (unchanged_markUpdateLaneFromFiberToRoot g fuel f None lane
                H4 H5).
  pose proof (unchanged_getRootForUpdatedFiber g fuel f H5).
  unchanged_auto.
Qed.

(** What [processUpdateQueue] never writes: the console, the warning flag,
    the build flag, the staging buffer. *)
Lemma unchanged_getStateFromUpdate {X} (g : World -> X) wip q u s p i :
  (forall h w, g (with_fibers h w) = g w) ->
  (forall h w, g (with_hasForceUpdate h w) = g w) ->
  unchanged g (getStateFromUpdate wip q u s p i).
Proof.
  intros H1 H2. unfold getStateFromUpdate, storeFiber.
  unchanged_using ltac:(first [apply H1|apply H2]).
Qed.

Lemma unchanged_pushEffect {X} (g : World -> X) q u :
  (forall h w, g (with_arrays h w) = g w) ->
  (forall h w, g (with_updateQueues h w) = g w) ->
  unchanged g (pushEffect q u).
Proof.
  intros H1 H2. unfold pushEffect, storeUpdateQueue.
  unchanged_using ltac:(first [apply H1|apply H2]).
Qed.

Lemma unchanged_processUpdate {X} (g : World -> X) wip q props inst lanes
    u v :
  (forall h w, g (with_updates h w) = g w) ->
  (forall h w, g (with_fibers h w) = g w) ->
  (forall h w, g (with_hasForceUpdate h w) = g w) ->
  (forall h w, g (with_arrays h w) = g w) ->
  (forall h w, g (with_updateQueues h w) = g w) ->
  unchanged g (processUpdate wip q props inst lanes u v).
Proof.
  intros H1 H2 H3 H4 H5.
  pose proof (fun q u s p i =>
                unchanged_getStateFromUpdate g wip q u s p i H2 H3).
  pose proof (fun q u => unchanged_pushEffect g q u H4 H5).
  unfold processUpdate, appendClone, storeUpdate, storeFiber.
  unchanged_using ltac:(first [apply H1|apply H2]).
Qed.

Lemma unchanged_processUpdateLoop {X} (g : World -> X) wip q props inst
    lanes :
  (forall h w, g (with_updates h w) = g w) ->
  (forall h w, g (with_fibers h w) = g w) ->
  (forall h w, g (with_hasForceUpdate h w) = g w) ->
  (forall h w, g (with_arrays h w) = g w) ->
  (forall h w, g (with_updateQueues h w) = g w) ->
  (forall h w, g (with_sharedQueues h w) = g w) ->
  forall fuel u v,
    unchanged g (processUpdateLoop fuel wip q props inst lanes u v).
Proof.
  intros H1 H2 H3 H4 H5 H6.
  pose proof (fun u v =>
                unchanged_processUpdate g wip q props inst lanes u v
                  H1 H2 H3 H4 H5).
  induction fuel as [|fuel IH]; intros u v; cbn [processUpdateLoop];
    unfold storeUpdate, storeUpdateQueue, storeSharedQueue;
    unchanged_using ltac:(first [apply H1|apply H5|apply H6]).
Qed.

Lemma unchanged_transferPending {X} (g : World -> X) wip q first last :
  (forall h w, g (with_updates h w) = g w) ->
  (forall h w, g (with_updateQueues h w) = g w) ->
  (forall h w, g (with_sharedQueues h w) = g w) ->
  unchanged g (transferPending wip q first last).
Proof.
  intros H1 H5 H6.
  unfold transferPending, storeUpdate, storeUpdateQueue, storeSharedQueue.
  unchanged_using ltac:(first [apply H1|apply H5|apply H6]).
Qed.

Lemma unchanged_processUpdateQueue {X} (g : World -> X) fuel wip props inst
    lanes :
  (forall h w, g (with_updates h w) = g w) ->
  (forall h w, g (with_fibers h w) = g w) ->
  (forall h w, g (with_hasForceUpdate h w) = g w) ->
  (forall h w, g (with_arrays h w) = g w) ->
  (forall h w, g (with_updateQueues h w) = g w) ->
  (forall h w, g (with_sharedQueues h w) = g w) ->
  (forall h w, g (with_calls h w) = g w) ->
  (forall h w, g (with_currentlyProcessingQueue h w) = g w) ->
  unchanged g (processUpdateQueue fuel wip props inst lanes).
Proof.
  intros H1 H2 H3 H4 H5 H6 H7 H8.
  pose proof (fun q first last =>
                unchanged_transferPending g wip q first last H1 H5 H6).
  pose proof (fun q =>
                unchanged_processUpdateLoop g wip q props inst lanes
                  H1 H2 H3 H4 H5 H6 fuel).
  unfold processUpdateQueue, storeUpdateQueue, storeSharedQueue, storeFiber,
    emit.
  unchanged_using
    ltac:(first [apply H2|apply H3|apply H5|apply H6|apply H7|apply H8]).
Qed.
(** ** The warning outside of an update function *)

Lemma bind_returns {A B} (m : M A) (k : A -> M B) w b w' :
  bind m k w = (Return b, w') ->
  exists a w1, m w = (Return a, w1) /\ k a w1 = (Return b, w').
Proof.
  unfold bind. destruct (m w) as [[a|e] w1]; [eauto|discriminate].
Qed.

Lemma load_returns {V} (store : World -> gmap ptr V) p w v w' :
  load store p w = (Return v, w') -> w' = w /\ store w !! p = Some v.
Proof.
  unfold load. destruct (store w !! p); intros H; inversion H. auto.
Qed.

Lemma processUpdateQueue_resets fuel wip props inst lanes w w' :
  processUpdateQueue fuel wip props inst lanes w = (Return tt, w') ->
  DEV w = true ->
  currentlyProcessingQueue w' = None.
Proof.
  intros H Hdev. unfold processUpdateQueue in H.
  apply bind_returns in H as (wf & w1 & H1 & H).
  apply load_returns in H1 as [-> _].
  rewrite bind_modify in H.
  destruct (fiber_updateQueue wf) as [queue|]; [|discriminate].
  apply bind_returns in H as (q & w2 & H2 & H).
  apply load_returns in H2 as [-> _].
  unfold bind at 1, gets at 1 in H. simpl DEV in H. rewrite Hdev in H.
  rewrite bind_modify in H.
  apply bind_returns in H as ([first last] & w3 & _ & H).
  apply bind_returns in H as ([] & w4 & _ & H).
  unfold modify in H. now inversion H.
Qed.

Lemma enqueueUpdate_silent fuel fiber update lane w :
  DEV w = false \/ currentlyProcessingQueue w = None ->
  let w' :=
    snd (ReactFiberClassUpdateQueue.enqueueUpdate fuel fiber update lane w) in
  console w' = console w /\
  didWarnUpdateInsideUpdate w' = didWarnUpdateInsideUpdate w.
Proof.
  intros Hout w'.
  set (g := fun w => (console w, didWarnUpdateInsideUpdate w)).
  enough (E : g w' = g w) by (now inversion E).
  subst w'. unfold ReactFiberClassUpdateQueue.enqueueUpdate.
  (* what comes after the check for an update inside an update *)
  assert (Hrest : forall q,
    unchanged g
      (unsafe <- gets (fun w => unsafeClassRenderPhaseUpdate w fiber) ;;
       if unsafe then
         linkPending (queue_shared q) update ;;;
         unsafe_markUpdateLaneFromFiberToRoot fuel fiber lane
       else
         enqueueConcurrentClassUpdate fuel fiber (queue_shared q) update
           lane)).
  { intros q.
    pose proof (unchanged_linkPending g (queue_shared q) update
                  ltac:(reflexivity) ltac:(reflexivity)).
    pose proof (unchanged_unsafe_markUpdateLaneFromFiberToRoot g fuel fiber
                  lane ltac:(reflexivity) ltac:(reflexivity)).
    pose proof (unchanged_enqueueConcurrentClassUpdate g fuel fiber
                  (queue_shared q) update lane ltac:(reflexivity)
                  ltac:(reflexivity) ltac:(reflexivity) ltac:(reflexivity)
                  ltac:(reflexivity)).
    unchanged_auto. }
  unfold bind at 1. destruct (load fibers fiber w) as [[f|e] w1] eqn:E1.
  2:{ pose proof (unchanged_load g fibers fiber w) as U.
      now rewrite E1 in U. }
  - apply load_returns in E1 as [-> _].
    destruct (fiber_updateQueue f) as [uq|]; [|reflexivity].
    unfold bind at 1. destruct (load updateQueues uq w) as [[q|e] w1] eqn:E2.
    + apply load_returns in E2 as [-> _].
      unfold bind at 1, gets at 1.
      destruct (DEV w) eqn:Hdev.
      * destruct Hout as [Hout|Hout]; [discriminate|].
        unfold bind at 1, bind at 1, gets at 1. unfold bind at 1, gets at 1.
        rewrite Hout, bool_decide_eq_false_2 by discriminate.
        simpl andb. cbv iota. unfold ret at 1. cbv beta iota.
        apply Hrest.
      * unfold bind at 1, ret at 1. cbv beta iota. apply Hrest.
    + pose proof (unchanged_load g updateQueues uq w) as U.
      now rewrite E2 in U.
Qed.
(** [processUpdateQueue] itself prints nothing, and once it has returned no
    queue counts as being processed: an [enqueueUpdate] that comes next, on
    whatever fiber, does not print the warning about an update scheduled
    from inside an update function. *)
Theorem processUpdateQueue_then_enqueueUpdate_is_silent
    (fuel : nat) (workInProgress queue : ptr) (props instance : JsValue)
    (renderLanes : Lanes) (base : JsValue) (ps1 ps2 : list ptr) (w : World) :
  queueHolds w workInProgress queue base ps1 ps2 ->
  (length (ps1 ++ ps2) <= fuel)%nat ->
  exists w',
    processUpdateQueue fuel workInProgress props instance renderLanes w
    = (Return tt, w') /\
    console w' = console w /\
    (DEV w = true -> currentlyProcessingQueue w' = None) /\
    forall fuel' fiber update lane,
      console
        (snd (ReactFiberClassUpdateQueue.enqueueUpdate fuel' fiber update lane
                w'))
      = console w.
Proof.
  intros Hholds Hfuel.
  destruct (processUpdateQueue_spec fuel workInProgress queue props instance
              renderLanes base ps1 ps2 w Hholds Hfuel)
    as (w' & cps & Hrun & _).
  assert (Hconsole : console w' = console w).
  { pose proof (unchanged_processUpdateQueue console fuel workInProgress
                  props instance renderLanes
                  ltac:(reflexivity) ltac:(reflexivity) ltac:(reflexivity)
                  ltac:(reflexivity) ltac:(reflexivity) ltac:(reflexivity)
                  ltac:(reflexivity) ltac:(reflexivity) w) as U.
    now rewrite Hrun in U. }
  assert (Hdev : DEV w' = DEV w).
  { pose proof (unchanged_processUpdateQueue DEV fuel workInProgress
                  props instance renderLanes
                  ltac:(reflexivity) ltac:(reflexivity) ltac:(reflexivity)
                  ltac:(reflexivity) ltac:(reflexivity) ltac:(reflexivity)
                  ltac:(reflexivity) ltac:(reflexivity) w) as U.
    now rewrite Hrun in U. }
  exists w'. split; [exact Hrun|]. split; [exact Hconsole|].
  split; [intros Hd; eapply processUpdateQueue_resets; eauto|].
  intros fuel' fiber update lane. rewrite <- Hconsole.
  apply enqueueUpdate_silent.
  destruct (DEV w) eqn:Hd; [right|left; congruence].
  eapply processUpdateQueue_resets; eauto.
Qed.

Lemma processUpdateQueue_then_enqueueUpdate_is_silent_witness :
  exists w',
    processUpdateQueue 4 0%nat JsNull JsNull P1 fourLetters = (Return tt, w') /\
    console w' = [] /\
    (DEV fourLetters = true -> currentlyProcessingQueue w' = None) /\
    forall fuel' fiber update lane,
      console
        (snd (ReactFiberClassUpdateQueue.enqueueUpdate fuel' fiber update lane
                w'))
      = [].
Proof.
  apply (processUpdateQueue_then_enqueueUpdate_is_silent 4 0%nat 0%nat JsNull
           JsNull P1 (JsString EmptyString) [1%nat; 2%nat; 3%nat; 4%nat] []
           fourLetters).
  - exact fourLetters_holds.
  - simpl. lia.
Defined.
(** ** Enqueueing an update on a class component *)

Lemma enqueueUpdate_after_check fuel fiber update lane w f uq q :
  fibers w !! fiber = Some f ->
  fiber_updateQueue f = Some uq ->
  updateQueues w !! uq = Some q ->
  exists c d,
    ReactFiberClassUpdateQueue.enqueueUpdate fuel fiber update lane w
    = (unsafe <- gets (fun w => unsafeClassRenderPhaseUpdate w fiber) ;;
       if unsafe then
         linkPending (queue_shared q) update ;;;
         unsafe_markUpdateLaneFromFiberToRoot fuel fiber lane
       else
         enqueueConcurrentClassUpdate fuel fiber (queue_shared q) update lane)
        (with_console c (with_didWarnUpdateInsideUpdate d w)).
Proof.
  intros Hf Huq Hq. unfold ReactFiberClassUpdateQueue.enqueueUpdate.
  rewrite (bind_load fibers _ _ _ _ Hf), Huq.
  rewrite (bind_load updateQueues _ _ _ _ Hq).
  unfold bind at 1, gets at 1.
  assert (Hself : with_console (console w)
                    (with_didWarnUpdateInsideUpdate
                       (didWarnUpdateInsideUpdate w) w) = w)
    by now destruct w.
  destruct (DEV w).
  - unfold bind at 1, bind at 1, gets at 1. unfold bind at 1, gets at 1.
    destruct (bool_decide _ && negb _).
    + unfold bind at 1, consoleError at 1, modify at 1.
      unfold modify at 1. cbv beta iota.
      eexists (console w ++ [updateInsideUpdateWarning]), true.
      reflexivity.
    + unfold ret at 1. cbv beta iota.
      exists (console w), (didWarnUpdateInsideUpdate w). now rewrite Hself.
  - unfold bind at 1, ret at 1. cbv beta iota.
    exists (console w), (didWarnUpdateInsideUpdate w). now rewrite Hself.
Qed.

Lemma concurrent_enqueueUpdate_lanes f q u lane w :
  concurrentlyUpdatedLanes
    (snd (ReactFiberConcurrentUpdates.enqueueUpdate f q u lane w))
  = mergeLanes (concurrentlyUpdatedLanes w) lane.
Proof.
  unfold ReactFiberConcurrentUpdates.enqueueUpdate, pushConcurrentQueues.
  rewrite !bind_modify.
  match goal with
  | |- concurrentlyUpdatedLanes (snd (?m ?w0)) = _ =>
      assert (U : unchanged concurrentlyUpdatedLanes m)
        by (unfold storeFiber; unchanged_auto);
      now rewrite (U w0)
  end.
Qed.

Lemma enqueueUpdate_flush_run
    (fuel : nat) (w : World) (fiber update : ptr) (lane : Lane) (f : Fiber)
    (updateQueue : ptr) (q : UpdateQueue) (sq : SharedQueue)
    (path done : list ptr) :
  concurrentQueuesIndex w = 0%nat ->
  unsafeClassRenderPhaseUpdate w fiber = false ->
  fibers w !! fiber = Some f ->
  fiber_updateQueue f = Some updateQueue ->
  updateQueues w !! updateQueue = Some q ->
  fiberReady w fiber path ->
  sharedQueues w !! queue_shared q = Some sq ->
  ring (updates w) (shared_pending sq) done ->
  update ∉ done ->
  is_Some (updates w !! update) ->
  (length path <= fuel)%nat ->
  (1 <= fuel)%nat ->
  exists root w1 w2 sq2,
    ReactFiberClassUpdateQueue.enqueueUpdate fuel fiber update lane w
    = (Return root, w1) /\
    updates w1 = updates w /\
    sharedQueues w1 = sharedQueues w /\
    updateQueues w1 = updateQueues w /\
    concurrentlyUpdatedLanes w1
    = mergeLanes (concurrentlyUpdatedLanes w) lane /\
    finishQueueingConcurrentUpdates fuel w1 = (Return tt, w2) /\
    sharedQueues w2 !! queue_shared q = Some sq2 /\
    shared_pending sq2 = Some update /\
    ring (updates w2) (Some update) (done ++ [update]) /\
    (forall p, p ∉ done ++ [update] -> updates w2 !! p = updates w !! p) /\
    sameRecords (updates w) (updates w2) /\
    sameShape (fibers w) (fibers w2) /\
    updateQueues w2 = updateQueues w /\
    arrays w2 = arrays w /\
    workInProgressRootRenderLanes w2 = workInProgressRootRenderLanes w.
Proof.
  intros Hidx Hunsafe Hf Huq Hq Hready Hsq Hring Hnotin Hupd Hfuel Hfuel1.
  destruct (enqueueUpdate_after_check fuel fiber update lane w f updateQueue
              q Hf Huq Hq) as (c & d & Hcheck).
  rewrite Hcheck. clear Hcheck.
  set (wd := with_console c (with_didWarnUpdateInsideUpdate d w)).
  unfold bind at 1, gets at 1.
  change (unsafeClassRenderPhaseUpdate wd fiber)
    with (unsafeClassRenderPhaseUpdate w fiber).
  rewrite Hunsafe. unfold enqueueConcurrentClassUpdate.
  assert (Hreadyd : fiberReady wd fiber path) by exact Hready.
  destruct (stage_one wd fiber (queue_shared q) update lane path Hreadyd)
    as (ws & Hstage & Hus & Hss & Hos & Hshape & Hidxs & _ & Hheld).
  rewrite (bind_run _ _ _ _ _ Hstage).
  assert (Hreadys : fiberReady ws fiber path)
    by (eapply fiberReady_transport; eauto).
  destruct (getRootForUpdatedFiber_returns fuel fiber ws path Hreadys Hfuel)
    as (root & w1 & Hroot).
  set (g := fun w => (updates w, sharedQueues w, updateQueues w,
                      concurrentQueues w, concurrentQueuesIndex w,
                      concurrentlyUpdatedLanes w, fibers w,
                      offscreenInstances w, arrays w,
                      workInProgressRootRenderLanes w)).
  assert (Hg : g w1 = g ws).
  { pose proof (unchanged_getRootForUpdatedFiber g fuel fiber
                  ltac:(reflexivity) ws) as U.
    now rewrite Hroot in U. }
  inversion Hg as [[Eu Es Eq Ec Ei El Ef Eo Ea Er]].
  assert (Equeues : updateQueues ws = updateQueues w /\
                    arrays ws = arrays w /\
                    workInProgressRootRenderLanes ws
                    = workInProgressRootRenderLanes w).
  { pose proof (unchanged_concurrent_enqueueUpdate
                  (fun w => (updateQueues w, arrays w,
                             workInProgressRootRenderLanes w)) fiber
                  (Some (queue_shared q)) (Some update) lane
                  ltac:(reflexivity) ltac:(reflexivity) ltac:(reflexivity)
                  ltac:(reflexivity) wd) as U.
    rewrite Hstage in U. simpl in U. now inversion U. }
  destruct Equeues as (Equeues & Earrays & Eroot).
  assert (Elanes : concurrentlyUpdatedLanes ws
                   = mergeLanes (concurrentlyUpdatedLanes w) lane).
  { pose proof (concurrent_enqueueUpdate_lanes fiber (Some (queue_shared q))
                  (Some update) lane wd) as U.
    now rewrite Hstage in U. }
  change (updates wd) with (updates w) in Hus.
  change (sharedQueues wd) with (sharedQueues w) in Hss.
  change (concurrentlyUpdatedLanes wd) with (concurrentlyUpdatedLanes w)
    in Elanes.
  (* the flush *)
  set (w1' := with_concurrentlyUpdatedLanes NoLanes
                (with_concurrentQueuesIndex 0 w1)).
  destruct (finishQueueingLoop_run fiber (queue_shared q) path
              [(update, lane)] fuel fuel 0%nat done w1' sq)
    as (w2 & sq2 & Hloop & Hsq2 & Hpend & Hring2 & Hframe2 & Hsame2
        & Hshape2).
  - simpl concurrentQueues. rewrite Ec.
    change (concurrentQueuesIndex wd) with (concurrentQueuesIndex w) in Hheld.
    now rewrite Hidx in Hheld.
  - apply (fiberReady_transport ws); [|simpl; congruence|exact Hreadys].
    simpl. rewrite Ef. intros x. destruct (fibers ws !! x); auto.
  - simpl. rewrite Es, Hss. exact Hsq.
  - simpl. rewrite Eu, Hus. exact Hring.
  - simpl. apply NoDup_app. split; [|split].
    + destruct (shared_pending sq); simpl in Hring.
      * apply Hring.
      * subst done. constructor.
    + intros x Hx Hin. apply list_elem_of_singleton in Hin. now subst x.
    + apply NoDup_singleton.
  - intros r Hr. simpl in Hr. apply list_elem_of_singleton in Hr. subst r.
    simpl. rewrite Eu, Hus. exact Hupd.
  - simpl. lia.
  - exact Hfuel.
  - exists root, w1, w2, sq2. rewrite Hroot.
    split; [reflexivity|]. split; [congruence|]. split; [congruence|].
    split; [congruence|]. split; [congruence|].
    rewrite finishQueueingConcurrentUpdates_unfold.
    change (concurrentQueuesIndex wd) with (concurrentQueuesIndex w) in Hidxs.
    replace (concurrentQueuesIndex w1)
      with (0 + 4 * length [(update, lane)])%nat
      by (rewrite Ei, Hidxs, Hidx; reflexivity).
    simpl in Hpend, Hring2. rewrite last_snoc in Hpend.
    split; [exact Hloop|]. split; [exact Hsq2|]. split; [exact Hpend|].
    rewrite Hpend in Hring2. split; [exact Hring2|].
    simpl in Hframe2, Hsame2, Hshape2.
    rewrite Eu, Hus in Hframe2, Hsame2.
    split; [exact Hframe2|]. split; [exact Hsame2|].
    split.
    { eapply sameShape_trans; [exact Hshape|]. now rewrite <- Ef. }
    pose proof (unchanged_finishQueueingLoop
                  (fun w => (updateQueues w, arrays w,
                             workInProgressRootRenderLanes w)) fuel
                  ltac:(reflexivity) ltac:(reflexivity) ltac:(reflexivity)
                  ltac:(reflexivity) ltac:(reflexivity)
                  fuel 0%nat (0 + 4 * length [(update, lane)])%nat w1') as U.
    rewrite Hloop in U. simpl in U. inversion U as [[U1 U2 U3]].
    repeat split; congruence.
Qed.


(** Outside of a render phase update, [enqueueUpdate] only stages the
    update: the queue, its pending list and every record are as they were,
    and the lane counts as concurrently updated.  It is the next flush of
    the staging buffer that makes the update the last one of the pending
    list of the queue. *)
Theorem enqueueUpdate_stages_until_flush
    (fuel : nat) (w : World) (fiber update : ptr) (lane : Lane) (f : Fiber)
    (updateQueue : ptr) (q : UpdateQueue) (sq : SharedQueue)
    (path done : list ptr) :
  concurrentQueuesIndex w = 0%nat ->
  unsafeClassRenderPhaseUpdate w fiber = false ->
  fibers w !! fiber = Some f ->
  fiber_updateQueue f = Some updateQueue ->
  updateQueues w !! updateQueue = Some q ->
  fiberReady w fiber path ->
  sharedQueues w !! queue_shared q = Some sq ->
  ring (updates w) (shared_pending sq) done ->
  update ∉ done ->
  is_Some (updates w !! update) ->
  (length path <= fuel)%nat ->
  (1 <= fuel)%nat ->
  exists root w1 w2 sq2,
    ReactFiberClassUpdateQueue.enqueueUpdate fuel fiber update lane w
    = (Return root, w1) /\
    updates w1 = updates w /\
    sharedQueues w1 = sharedQueues w /\
    updateQueues w1 = updateQueues w /\
    concurrentlyUpdatedLanes w1
    = mergeLanes (concurrentlyUpdatedLanes w) lane /\
    finishQueueingConcurrentUpdates fuel w1 = (Return tt, w2) /\
    sharedQueues w2 !! queue_shared q = Some sq2 /\
    shared_pending sq2 = Some update /\
    ring (updates w2) (Some update) (done ++ [update]).
Proof.
  intros Hidx Hunsafe Hf Huq Hq Hready Hsq Hring Hnotin Hupd Hfuel Hfuel1.
  destruct (enqueueUpdate_flush_run fuel w fiber update lane f updateQueue q
              sq path done Hidx Hunsafe Hf Huq Hq Hready Hsq Hring Hnotin
              Hupd Hfuel Hfuel1)
    as (root & w1 & w2 & sq2 & H1 & H2 & H3 & H4 & H5 & H6 & H7 & H8 & H9
        & _).
  exists root, w1, w2, sq2. repeat (split; [assumption|]). assumption.
Qed.
Lemma classUnderRoot_ready : fiberReady classUnderRoot 2%nat [1%nat].
Proof.
  eexists. split; [vm_compute; reflexivity|]. split; [|split].
  - simpl. split; [reflexivity|]. eexists. split; [vm_compute; reflexivity|].
    reflexivity.
  - intros p f a Hin Hf Ha.
    repeat (apply elem_of_cons in Hin; destruct Hin as [->|Hin]);
      [| |apply elem_of_nil in Hin; contradiction];
      vm_compute in Hf; injection Hf as <-; discriminate.
  - intros p f Hin Hf Ht.
    repeat (apply elem_of_cons in Hin; destruct Hin as [->|Hin]);
      [|apply elem_of_nil in Hin; contradiction];
      vm_compute in Hf; injection Hf as <-; discriminate.
Qed.

Lemma enqueueUpdate_stages_until_flush_witness :
  exists root w1 w2 sq2,
    ReactFiberClassUpdateQueue.enqueueUpdate 1 2%nat 1%nat P1 classUnderRoot
    = (Return root, w1) /\
    updates w1 = updates classUnderRoot /\
    sharedQueues w1 = sharedQueues classUnderRoot /\
    updateQueues w1 = updateQueues classUnderRoot /\
    concurrentlyUpdatedLanes w1 = P1 /\
    finishQueueingConcurrentUpdates 1 w1 = (Return tt, w2) /\
    sharedQueues w2 !! 0%nat = Some sq2 /\
    shared_pending sq2 = Some 1%nat /\
    ring (updates w2) (Some 1%nat) [1%nat].
Proof.
  apply (enqueueUpdate_stages_until_flush 1 classUnderRoot 2%nat 1%nat P1
           (mkFiber (OtherWorkTag 1) None (Some 1%nat) None NoFlags NoLanes
              NoLanes JsNull (Some 0%nat))
           0%nat (mkUpdateQueue JsNull None None 0%nat None)
           (mkSharedQueue None NoLanes) [1%nat] []);
    try reflexivity.
  - exact classUnderRoot_ready.
  - apply not_elem_of_nil.
  - eexists. vm_compute. reflexivity.
Defined.

(** In a render phase update, [enqueueUpdate] does not go through the
    staging buffer: when it returns, the update is already the last one of
    the pending list of the queue, and nothing was staged. *)
Theorem enqueueUpdate_render_phase_links_at_once
    (fuel : nat) (w : World) (fiber update : ptr) (lane : Lane) (f : Fiber)
    (updateQueue : ptr) (q : UpdateQueue) (sq : SharedQueue)
    (path done : list ptr) :
  unsafeClassRenderPhaseUpdate w fiber = true ->
  fibers w !! fiber = Some f ->
  fiber_updateQueue f = Some updateQueue ->
  updateQueues w !! updateQueue = Some q ->
  fiberReady w fiber path ->
  sharedQueues w !! queue_shared q = Some sq ->
  ring (updates w) (shared_pending sq) done ->
  update ∉ done ->
  is_Some (updates w !! update) ->
  (length path <= fuel)%nat ->
  exists root w1 sq1,
    ReactFiberClassUpdateQueue.enqueueUpdate fuel fiber update lane w
    = (Return root, w1) /\
    sharedQueues w1 !! queue_shared q = Some sq1 /\
    shared_pending sq1 = Some update /\
    ring (updates w1) (Some update) (done ++ [update]) /\
    concurrentQueues w1 = concurrentQueues w /\
    concurrentQueuesIndex w1 = concurrentQueuesIndex w /\
    concurrentlyUpdatedLanes w1 = concurrentlyUpdatedLanes w.
Proof.
  intros Hunsafe Hf Huq Hq Hready Hsq Hring Hnotin [ur Hur] Hfuel.
  destruct (enqueueUpdate_after_check fuel fiber update lane w f updateQueue
              q Hf Huq Hq) as (c & d & Hcheck).
  rewrite Hcheck. clear Hcheck.
  set (wd := with_console c (with_didWarnUpdateInsideUpdate d w)).
  unfold bind at 1, gets at 1.
  change (unsafeClassRenderPhaseUpdate wd fiber)
    with (unsafeClassRenderPhaseUpdate w fiber).
  rewrite Hunsafe.
  destruct (linkPending_spec wd (queue_shared q) sq done update ur
              Hsq Hring Hnotin Hur) as (h' & Hlink & Hring' & _).
  rewrite (bind_run _ _ _ _ _ Hlink).
  set (wl := with_sharedQueues _ _).
  assert (Hreadyl : fiberReady wl fiber path) by exact Hready.
  unfold unsafe_markUpdateLaneFromFiberToRoot.
  destruct (markUpdateLaneFromFiberToRoot_frame wl fuel fiber None lane path
              Hreadyl Hfuel)
    as (wm & Hmark & Hum & Hsm & Hcm & Hom & Hshape).
  rewrite (bind_run _ _ _ _ _ Hmark).
  assert (Hreadym : fiberReady wm fiber path)
    by (eapply fiberReady_transport; eauto).
  destruct (getRootForUpdatedFiber_returns fuel fiber wm path Hreadym Hfuel)
    as (root & w1 & Hroot).
  set (g := fun w => (updates w, sharedQueues w, concurrentQueues w,
                      concurrentQueuesIndex w, concurrentlyUpdatedLanes w)).
  assert (Hg : g w1 = g wm).
  { pose proof (unchanged_getRootForUpdatedFiber g fuel fiber
                  ltac:(reflexivity) wm) as U.
    now rewrite Hroot in U. }
  inversion Hg as [[Eu Es Ec Ei El]].
  set (g2 := fun w => (concurrentQueuesIndex w, concurrentlyUpdatedLanes w)).
  assert (Hg2 : g2 wm = g2 wl).
  { pose proof (unchanged_markUpdateLaneFromFiberToRoot g2 fuel fiber None
                  lane ltac:(reflexivity) ltac:(reflexivity) wl) as U.
    now rewrite Hmark in U. }
  inversion Hg2 as [[Ei2 El2]].
  exists root, w1, (set_shared_pending (Some update) sq).
  rewrite Hroot. split; [reflexivity|].
  split; [rewrite Es, Hsm; simpl; apply lookup_insert_eq|].
  split; [reflexivity|].
  split; [rewrite Eu, Hum; exact Hring'|].
  split; [rewrite Ec, Hcm; reflexivity|].
  split; [rewrite Ei, Ei2; reflexivity|]. rewrite El, El2. reflexivity.
Qed.

Lemma enqueueUpdate_render_phase_links_at_once_witness :
  exists root w1 sq1,
    ReactFiberClassUpdateQueue.enqueueUpdate 1 2%nat 1%nat P1
      classUnderRootRendering
    = (Return root, w1) /\
    sharedQueues w1 !! 0%nat = Some sq1 /\
    shared_pending sq1 = Some 1%nat /\
    ring (updates w1) (Some 1%nat) [1%nat] /\
    concurrentQueues w1 = [] /\
    concurrentQueuesIndex w1 = 0%nat /\
    concurrentlyUpdatedLanes w1 = NoLanes.
Proof.
  apply (enqueueUpdate_render_phase_links_at_once 1 classUnderRootRendering
           2%nat 1%nat P1
           (mkFiber (OtherWorkTag 1) None (Some 1%nat) None NoFlags NoLanes
              NoLanes JsNull (Some 0%nat))
           0%nat (mkUpdateQueue JsNull None None 0%nat None)
           (mkSharedQueue None NoLanes) [1%nat] []);
    try reflexivity.
  - exact classUnderRoot_ready.
  - apply not_elem_of_nil.
  - eexists. vm_compute. reflexivity.
Defined.
(** ** An update that needs no render *)

Lemma mergeFiberLanes_NoLane f : mergeFiberLanes NoLane f = f.
Proof.
  unfold mergeFiberLanes, mergeLanes, NoLane, set_fiber_lanes.
  rewrite Z.lor_0_r. now destruct f.
Qed.

Lemma with_fibers_same w : with_fibers (fibers w) w = w.
Proof. now destruct w. Qed.

Lemma staged_slots cq i n q r lane :
  holdsStaged
    (arraySet
       (arraySet (arraySet (arraySet cq i (SlotRef n)) (S i) (SlotRef q))
          (S (S i)) (SlotRef r))
       (S (S (S i))) (SlotLane lane))
    i n q [(r, lane)].
Proof.
  intros k u l Hk. destruct k as [|k]; [|destruct k; discriminate].
  simpl in Hk. injection Hk as <- <-.
  replace (i + 4 * 0)%nat with i by lia.
  replace (i + 1)%nat with (S i) by lia.
  replace (i + 2)%nat with (S (S i)) by lia.
  replace (i + 3)%nat with (S (S (S i))) by lia.
  repeat split.
  - rewrite !arrayGet_arraySet_ne by lia. apply arrayGet_arraySet_eq.
  - rewrite !arrayGet_arraySet_ne by lia. apply arrayGet_arraySet_eq.
  - rewrite !arrayGet_arraySet_ne by lia. apply arrayGet_arraySet_eq.
  - apply arrayGet_arraySet_eq.
Qed.

Lemma concurrent_enqueueUpdate_NoLane fiber queue update f w :
  fibers w !! fiber = Some f ->
  (forall a, fiber_alternate f = Some a -> is_Some (fibers w !! a)) ->
  exists w1,
    ReactFiberConcurrentUpdates.enqueueUpdate fiber (Some queue) (Some update)
      NoLane w
    = (Return tt, w1) /\
    fibers w1 = fibers w /\
    updates w1 = updates w /\
    sharedQueues w1 = sharedQueues w /\
    concurrentlyUpdatedLanes w1 = concurrentlyUpdatedLanes w /\
    concurrentQueuesIndex w1 = (concurrentQueuesIndex w + 4)%nat /\
    holdsStaged (concurrentQueues w1) (concurrentQueuesIndex w) fiber queue
      [(update, NoLane)].
Proof.
  intros Hf Halt.
  unfold ReactFiberConcurrentUpdates.enqueueUpdate, pushConcurrentQueues.
  rewrite !bind_modify.
  set (w0 := with_concurrentlyUpdatedLanes _ _).
  assert (Hf0 : fibers w0 !! fiber = Some f) by exact Hf.
  rewrite (bind_storeFiber _ _ _ _ _ Hf0), mergeFiberLanes_NoLane.
  rewrite insert_id by exact Hf0.
  rewrite with_fibers_same.
  rewrite (bind_load fibers _ _ _ _ Hf0).
  assert (Hrest :
    match fiber_alternate f with
    | Some alternate => storeFiber alternate (mergeFiberLanes NoLane)
    | None => ret tt
    end w0 = (Return tt, w0)).
  { destruct (fiber_alternate f) as [a|] eqn:Ea; [|reflexivity].
    destruct (Halt a eq_refl) as [af Haf].
    assert (Haf0 : fibers w0 !! a = Some af) by exact Haf.
    rewrite (run_storeFiber _ _ _ _ Haf0), mergeFiberLanes_NoLane.
    rewrite insert_id by exact Haf0. now rewrite with_fibers_same. }
  rewrite Hrest. exists w0. split; [reflexivity|].
  split; [reflexivity|]. split; [reflexivity|]. split; [reflexivity|].
  split.
  { change (concurrentlyUpdatedLanes w0)
      with (mergeLanes (concurrentlyUpdatedLanes w) NoLane).
    unfold mergeLanes, NoLane. apply Z.lor_0_r. }
  split.
  { change (concurrentQueuesIndex w0)
      with (S (S (S (S (concurrentQueuesIndex w))))). lia. }
  change (concurrentQueues w0)
    with (arraySet
            (arraySet
               (arraySet
                  (arraySet (concurrentQueues w) (concurrentQueuesIndex w)
                     (SlotRef fiber))
                  (S (concurrentQueuesIndex w)) (SlotRef queue))
               (S (S (concurrentQueuesIndex w))) (SlotRef update))
            (S (S (S (concurrentQueuesIndex w)))) (SlotLane NoLane)).
  apply staged_slots.
Qed.

(** [enqueueConcurrentHookUpdateAndEagerlyBailout] asks for no render: no
    lane of any fiber changes, neither when the update is staged nor when
    the staging buffer is flushed; the flush still makes the update the last
    one of the pending list of its queue. *)
Theorem enqueueConcurrentHookUpdateAndEagerlyBailout_marks_no_lane
    (fuel : nat) (w : World) (fiber queue update : ptr) (f : Fiber)
    (sq : SharedQueue) (done : list ptr) :
  concurrentQueuesIndex w = 0%nat ->
  fibers w !! fiber = Some f ->
  (forall a, fiber_alternate f = Some a -> is_Some (fibers w !! a)) ->
  sharedQueues w !! queue = Some sq ->
  ring (updates w) (shared_pending sq) done ->
  update ∉ done ->
  is_Some (updates w !! update) ->
  (1 <= fuel)%nat ->
  exists w1 w2 sq2,
    enqueueConcurrentHookUpdateAndEagerlyBailout fiber queue update w
    = (Return tt, w1) /\
    fibers w1 = fibers w /\
    concurrentlyUpdatedLanes w1 = concurrentlyUpdatedLanes w /\
    updates w1 = updates w /\
    sharedQueues w1 = sharedQueues w /\
    finishQueueingConcurrentUpdates fuel w1 = (Return tt, w2) /\
    fibers w2 = fibers w /\
    sharedQueues w2 !! queue = Some sq2 /\
    shared_pending sq2 = Some update /\
    ring (updates w2) (Some update) (done ++ [update]).
Proof.
  intros Hidx Hf Halt Hsq Hring Hnotin [ur Hur] Hfuel.
  unfold enqueueConcurrentHookUpdateAndEagerlyBailout.
  destruct (concurrent_enqueueUpdate_NoLane fiber queue update f w Hf Halt)
    as (w1 & Hrun & Ef & Eu & Es & El & Ei & Hheld).
  rewrite Hrun. rewrite Hidx in Ei, Hheld. simpl in Ei.
  exists w1.
  destruct fuel as [|fuel]; [lia|].
  rewrite finishQueueingConcurrentUpdates_unfold. rewrite Ei.
  set (w1' := with_concurrentlyUpdatedLanes NoLanes
                (with_concurrentQueuesIndex 0 w1)).
  cbn [finishQueueingLoop]. change (0 <? 4)%nat with true. cbv iota.
  assert (Hheld' : holdsStaged (concurrentQueues w1') 0 fiber queue
                     [(update, NoLane)]) by exact Hheld.
  destruct (take_four w1' 0%nat fiber queue update NoLane []
              (fun fiber0 queue0 update0 lane0 =>
                 match queue0, update0 with
                 | SlotNull, _ => ret tt
                 | _, SlotNull => ret tt
                 | SlotRef q0, SlotRef u => linkPending q0 u
                 | _, _ => throw TypeError
                 end ;;;
                 match lane0 with
                 | SlotLane l =>
                     if negb (l =? NoLane) then
                       match fiber0, update0 with
                       | SlotRef f0, SlotRef u =>
                           markUpdateLaneFromFiberToRoot (S fuel) f0 (Some u) l
                       | SlotRef f0, SlotNull =>
                           markUpdateLaneFromFiberToRoot (S fuel) f0 None l
                       | _, _ => throw TypeError
                       end
                     else ret tt
                 | _ => throw TypeError
                 end ;;;
                 finishQueueingLoop fuel (S fuel) (0 + 4) 4) Hheld')
    as (cq' & Htake & _).
  rewrite Htake. clear Htake.
  set (w2 := with_concurrentQueues cq' w1').
  assert (Hsq2 : sharedQueues w2 !! queue = Some sq)
    by (change (sharedQueues w2) with (sharedQueues w1); now rewrite Es).
  assert (Hring2 : ring (updates w2) (shared_pending sq) done)
    by (change (updates w2) with (updates w1); now rewrite Eu).
  assert (Hur2 : updates w2 !! update = Some ur)
    by (change (updates w2) with (updates w1); now rewrite Eu).
  destruct (linkPending_spec w2 queue sq done update ur Hsq2 Hring2 Hnotin
              Hur2) as (h' & Hlink & Hring' & _).
  rewrite (bind_run _ _ _ _ _ Hlink).
  change (negb (NoLane =? NoLane)) with false. cbv iota.
  rewrite bind_ret_l.
  exists (with_sharedQueues
            (<[queue := set_shared_pending (Some update) sq]>
               (sharedQueues w2)) (with_updates h' w2)),
    (set_shared_pending (Some update) sq).
  split; [reflexivity|]. split; [exact Ef|]. split; [exact El|].
  split; [exact Eu|]. split; [exact Es|].
  split; [destruct fuel; reflexivity|].
  split; [exact Ef|]. split; [simpl; apply lookup_insert_eq|].
  split; [reflexivity|]. exact Hring'.
Qed.

Lemma enqueueConcurrentHookUpdateAndEagerlyBailout_marks_no_lane_witness :
  exists w1 w2 sq2,
    enqueueConcurrentHookUpdateAndEagerlyBailout 2%nat 0%nat 1%nat
      classUnderRoot
    = (Return tt, w1) /\
    fibers w1 = fibers classUnderRoot /\
    concurrentlyUpdatedLanes w1 = NoLanes /\
    updates w1 = updates classUnderRoot /\
    sharedQueues w1 = sharedQueues classUnderRoot /\
    finishQueueingConcurrentUpdates 1 w1 = (Return tt, w2) /\
    fibers w2 = fibers classUnderRoot /\
    sharedQueues w2 !! 0%nat = Some sq2 /\
    shared_pending sq2 = Some 1%nat /\
    ring (updates w2) (Some 1%nat) [1%nat].
Proof.
  apply (enqueueConcurrentHookUpdateAndEagerlyBailout_marks_no_lane 1
           classUnderRoot 2%nat 0%nat 1%nat
           (mkFiber (OtherWorkTag 1) None (Some 1%nat) None NoFlags NoLanes
              NoLanes JsNull (Some 0%nat))
           (mkSharedQueue None NoLanes) []);
    try reflexivity.
  - intros a Ha. discriminate Ha.
  - apply not_elem_of_nil.
  - eexists. vm_compute. reflexivity.
Defined.
(** ** The root that an enqueue returns *)

Lemma concurrent_enqueueUpdate_returns w n queue update lane path :
  fiberReady w n path ->
  exists w1,
    ReactFiberConcurrentUpdates.enqueueUpdate n queue update lane w
    = (Return tt, w1) /\
    offscreenInstances w1 = offscreenInstances w /\
    sameShape (fibers w) (fibers w1).
Proof.
  intros (nf & Hn & HP & HA & HO).
  unfold ReactFiberConcurrentUpdates.enqueueUpdate, pushConcurrentQueues.
  rewrite !bind_modify.
  set (w0 := with_concurrentlyUpdatedLanes _ _).
  assert (Hn0 : fibers w0 !! n = Some nf) by exact Hn.
  rewrite (bind_storeFiber _ _ _ _ _ Hn0).
  set (w1 := with_fibers _ w0).
  assert (H1 : forall x, fibers w1 !! x
                         = markedFiber lane [n] [] x <$> fibers w !! x)
    by (apply marked_insert_own; exact Hn).
  assert (Hn1 : fibers w1 !! n = Some (mergeFiberLanes lane nf))
    by apply lookup_insert_eq.
  rewrite (bind_load fibers _ _ _ _ Hn1).
  change (fiber_alternate (mergeFiberLanes lane nf))
    with (fiber_alternate nf).
  destruct (fiber_alternate nf) as [a|] eqn:Ea.
  - destruct (HA n nf a) as [af Haf]; [left|exact Hn|exact Ea|].
    assert (Ha1 : exists af1, fibers w1 !! a = Some af1).
    { rewrite H1, Haf. simpl. eauto. }
    destruct Ha1 as [af1 Ha1].
    rewrite (run_storeFiber _ _ _ _ Ha1).
    eexists. split; [reflexivity|]. split; [reflexivity|].
    eapply sameShape_trans.
    + eapply marked_sameShape. exact H1.
    + eapply sameShape_insert; [exact Ha1|reflexivity..].
  - eexists. split; [reflexivity|]. split; [reflexivity|].
    eapply marked_sameShape. exact H1.
Qed.

Lemma getRootForUpdatedFiber_result fuel s w path top :
  fiberReady w s path ->
  (length path <= fuel)%nat ->
  fibers w !! default s (last path) = Some top ->
  fst (getRootForUpdatedFiber fuel s w)
  = Return (if WorkTag_eqb (fiber_tag top) HostRoot then fiber_stateNode top
            else None).
Proof.
  intros (sf & Hs & HP & _) Hfuel Htop. unfold getRootForUpdatedFiber.
  destruct (detectUpdateOnUnmountedFiber_returns s s w (ex_intro _ sf Hs))
    as (w1 & Hrun & Hfib & _).
  rewrite (bind_run _ _ _ _ _ Hrun).
  assert (Hs1 : fibers w1 !! s = Some sf) by (rewrite Hfib; exact Hs).
  rewrite (bind_load fibers _ _ _ _ Hs1).
  destruct (getRootLoop_returns s path fuel s (fiber_return sf) w1)
    as (w2 & Hloop & Hfib2); [rewrite Hfib; exact HP|eauto|exact Hfuel|].
  rewrite (bind_run _ _ _ _ _ Hloop).
  assert (Hn : fibers w2 !! default s (last path) = Some top)
    by (rewrite Hfib2, Hfib; exact Htop).
  now rewrite (bind_load fibers _ _ _ _ Hn).
Qed.

Lemma sameShape_top F G x top :
  sameShape F G -> F !! x = Some top ->
  exists top', G !! x = Some top' /\
               fiber_tag top' = fiber_tag top /\
               fiber_stateNode top' = fiber_stateNode top.
Proof.
  intros S Hx. specialize (S x). rewrite Hx in S.
  destruct (G !! x) as [g|]; [|contradiction].
  exists g. destruct S as (? & ? & _). auto.
Qed.

(** The root that an enqueue into the staging buffer returns is the state
    node of the topmost ancestor of the fiber when that one is a host root,
    and [null] when it is not: the fiber is then in a tree that is not
    mounted.  It is the same for a class update, a hook update and a render
    at a lane. *)
Theorem enqueueConcurrent_returns_root
    (fuel : nat) (w : World) (fiber queue update : ptr) (lane : Lane)
    (path : list ptr) (top : Fiber) :
  fiberReady w fiber path ->
  (length path <= fuel)%nat ->
  fibers w !! default fiber (last path) = Some top ->
  let root :=
    if WorkTag_eqb (fiber_tag top) HostRoot then fiber_stateNode top
    else None in
  fst (enqueueConcurrentClassUpdate fuel fiber queue update lane w)
  = Return root /\
  fst (enqueueConcurrentHookUpdate fuel fiber queue update lane w)
  = Return root /\
  fst (enqueueConcurrentRenderForLane fuel fiber lane w) = Return root.
Proof.
  intros Hready Hfuel Htop root.
  assert (Hone : forall q u,
    fst ((ReactFiberConcurrentUpdates.enqueueUpdate fiber q u lane ;;;
          getRootForUpdatedFiber fuel fiber) w) = Return root).
  { intros q u.
    destruct (concurrent_enqueueUpdate_returns w fiber q u lane path Hready)
      as (w1 & Hrun & Ho & Hshape).
    rewrite (bind_run _ _ _ _ _ Hrun).
    destruct (sameShape_top _ _ _ _ Hshape Htop) as (top' & Htop' & Et & En).
    rewrite (getRootForUpdatedFiber_result fuel fiber w1 path top').
    - subst root. now rewrite Et, En.
    - eapply fiberReady_transport; eauto.
    - exact Hfuel.
    - exact Htop'. }
  split; [apply Hone|]. split; apply Hone.
Qed.

Lemma enqueueConcurrent_returns_root_witness :
  fst (enqueueConcurrentClassUpdate 1 2%nat 0%nat 1%nat P1 classUnderRoot)
  = Return (Some 100%nat) /\
  fst (enqueueConcurrentHookUpdate 1 2%nat 0%nat 1%nat P1 classUnderRoot)
  = Return (Some 100%nat) /\
  fst (enqueueConcurrentRenderForLane 1 2%nat P1 classUnderRoot)
  = Return (Some 100%nat).
Proof.
  apply (enqueueConcurrent_returns_root 1 classUnderRoot 2%nat 0%nat 1%nat P1
           [1%nat]
           (mkFiber HostRoot (Some 100%nat) None None NoFlags NoLanes NoLanes
              JsNull None)).
  - exact classUnderRoot_ready.
  - simpl. lia.
  - reflexivity.
Defined.

(** ** What a pass leaves besides the state *)

Lemma entriesAt_records h ps : map snd (entriesAt h ps) = recordsAt h ps.
Proof.
  unfold entriesAt, recordsAt.
  induction ps as [|p ps IH]; [reflexivity|].
  csimpl. destruct (h !! p); simpl; now rewrite IH.
Qed.

Lemma entriesAt_elem_of h ps p u :
  (p, u) ∈ entriesAt h ps -> p ∈ ps /\ h !! p = Some u.
Proof.
  unfold entriesAt. induction ps as [|x ps IH]; csimpl; intros Hin.
  - apply elem_of_nil in Hin. contradiction.
  - destruct (h !! x) as [ux|] eqn:Ex; simpl in Hin.
    + apply elem_of_cons in Hin. destruct Hin as [E|Hin].
      * injection E as -> ->. split; [left|exact Ex].
      * destruct (IH Hin). split; [now right|assumption].
    + destruct (IH Hin). split; [now right|assumption].
Qed.

Lemma walkSide_force root lanes es :
  forall s,
    side_force (walkSide root lanes s es)
    = side_force s
      || existsb isForceUpdate (notSkipped root lanes (map snd es)).
Proof.
  unfold walkSide, notSkipped.
  induction es as [|[p u] es IH]; intros s; simpl.
  - now rewrite orb_false_r.
  - rewrite IH. unfold stepSide. simpl.
    destruct (shouldSkipUpdate root lanes u); simpl; [reflexivity|].
    now rewrite orb_assoc.
Qed.

Lemma walkSide_effects root lanes es :
  forall s,
    side_effects (walkSide root lanes s es)
    = side_effects s ++ effectsPushed root lanes es.
Proof.
  unfold walkSide, effectsPushed.
  induction es as [|[p u] es IH]; intros s; simpl.
  - now rewrite app_nil_r.
  - rewrite IH. unfold stepSide. simpl.
    destruct (shouldSkipUpdate root lanes u); simpl; [reflexivity|].
    destruct (hasEffect u); simpl; [now rewrite <- app_assoc|].
    now rewrite app_nil_r.
Qed.

Lemma effectsPushed_elem_of root lanes h ps e :
  e ∈ effectsPushed root lanes (entriesAt h ps) ->
  e ∈ ps /\
  exists u, h !! e = Some u /\ shouldSkipUpdate root lanes u = false /\
            hasEffect u = true.
Proof.
  unfold effectsPushed. intros Hin.
  apply list_elem_of_fmap in Hin. destruct Hin as ([p u] & -> & Hin).
  apply list_elem_of_In, List.filter_In in Hin. destruct Hin as [Hin Hb].
  apply list_elem_of_In, entriesAt_elem_of in Hin. destruct Hin as [Hp Hu].
  simpl in *. apply andb_true_iff in Hb. destruct Hb as [Hs He].
  apply negb_true_iff in Hs. eauto.
Qed.

Lemma flagsAfterUpdate_pass u c k f :
  flagsAfterUpdate u (flagsAfterPass c k f)
  = flagsAfterPass (c || isCaptureUpdate u) (k || hasEffect u) f.
Proof.
  unfold flagsAfterUpdate, flagsAfterState, flagsAfterPass, isCaptureUpdate.
  destruct (hasEffect u), (update_tag u), c, k; simpl orb; cbv iota zeta;
    try reflexivity;
    apply Z.bits_inj'; intros n Hn;
    rewrite ?Z.lor_spec, ?Z.land_spec, ?Z.lnot_spec by exact Hn;
    unfold Callback, DidCapture, ShouldCapture;
    rewrite ?Z.lor_spec, ?Z.land_spec, ?Z.lnot_spec by exact Hn;
    rewrite ?Z.pow2_bits_eqb by lia;
    destruct (Z.testbit f n), (Z.eqb_spec 6 n), (Z.eqb_spec 7 n),
      (Z.eqb_spec 16 n); try reflexivity; lia.
Qed.

Lemma walkSide_flags root lanes es :
  forall s c k f,
    side_flags s = Some (flagsAfterPass c k f) ->
    side_flags (walkSide root lanes s es)
    = Some (flagsAfterPass
              (c || existsb isCaptureUpdate
                      (notSkipped root lanes (map snd es)))
              (k || existsb hasEffect (notSkipped root lanes (map snd es)))
              f).
Proof.
  unfold walkSide, notSkipped.
  induction es as [|[p u] es IH]; intros s c k f Hs; simpl.
  - now rewrite !orb_false_r.
  - destruct (shouldSkipUpdate root lanes u) eqn:Hskip; simpl.
    + apply IH. unfold stepSide. simpl. now rewrite Hskip.
    + rewrite !orb_assoc. apply IH. unfold stepSide. simpl.
      rewrite Hskip, Hs. simpl. now rewrite flagsAfterUpdate_pass.
Qed.

Lemma withCallbacks_holds :
  queueHolds withCallbacks 0%nat 0%nat (JsString EmptyString)
    [1%nat; 2%nat; 3%nat; 4%nat] [].
Proof.
  eexists _, _, _.
  split; [vm_compute; reflexivity|]. split; [reflexivity|].
  split; [vm_compute; reflexivity|]. split; [reflexivity|].
  split.
  { unfold chain. simpl.
    repeat (split; [reflexivity|]; eexists; split; [vm_compute; reflexivity|]).
    reflexivity. }
  split; [reflexivity|]. split; [vm_compute; reflexivity|].
  split; [reflexivity|]. split.
  { intros p _ H. apply elem_of_nil in H. contradiction. }
  split; [intros a H; discriminate H|]. intros H. now contradiction H.
Qed.

(** After [processUpdateQueue] over a queue, what
    [checkHasForceUpdateAfterProcessing] answers is whether one of the
    records that the pass did not skip is a [ForceUpdate]: the pass starts
    by resetting the flag, so what it held before does not count, and a
    skipped [ForceUpdate] does not count either. *)
Theorem processUpdateQueue_reports_force_update
    (fuel : nat) (workInProgress queue : ptr) (props instance : JsValue)
    (renderLanes : Lanes) (base : JsValue) (ps1 ps2 : list ptr) (w : World) :
  queueHolds w workInProgress queue base ps1 ps2 ->
  (length (ps1 ++ ps2) <= fuel)%nat ->
  exists w',
    processUpdateQueue fuel workInProgress props instance renderLanes w
    = (Return tt, w') /\
    checkHasForceUpdateAfterProcessing w'
    = (Return
         (existsb isForceUpdate
            (notSkipped (workInProgressRootRenderLanes w) renderLanes
               (recordsAt (updates w) (ps1 ++ ps2)))), w').
Proof.
  intros Hholds Hfuel.
  destruct (processUpdateQueue_run fuel workInProgress queue props instance
              renderLanes base ps1 ps2 w Hholds Hfuel)
    as (w' & cps & Hrun & _ & _ & _ & _ & _ & Hside & _).
  exists w'. split; [exact Hrun|].
  apply (f_equal side_force) in Hside.
  rewrite walkSide_force, entriesAt_records in Hside. simpl in Hside.
  unfold checkHasForceUpdateAfterProcessing, gets. now rewrite Hside.
Qed.

Lemma processUpdateQueue_reports_force_update_witness :
  exists w',
    processUpdateQueue 4 0%nat JsNull JsNull P1 withCallbacks
    = (Return tt, w') /\
    checkHasForceUpdateAfterProcessing w' = (Return true, w').
Proof.
  apply (processUpdateQueue_reports_force_update 4 0%nat 0%nat JsNull JsNull
           P1 (JsString EmptyString) [1%nat; 2%nat; 3%nat; 4%nat] []
           withCallbacks).
  - exact withCallbacks_holds.
  - simpl. lia.
Defined.

(** [processUpdateQueue] appends to the effects of the queue, after those
    that were there, the records that it did not skip and that have a
    callback and a lane other than [NoLane], in the order of the list; the
    records themselves go there, not their clones. *)
Theorem processUpdateQueue_collects_callbacks
    (fuel : nat) (workInProgress queue : ptr) (props instance : JsValue)
    (renderLanes : Lanes) (base : JsValue) (ps1 ps2 : list ptr) (w : World) :
  queueHolds w workInProgress queue base ps1 ps2 ->
  (length (ps1 ++ ps2) <= fuel)%nat ->
  exists w',
    processUpdateQueue fuel workInProgress props instance renderLanes w
    = (Return tt, w') /\
    effectsOf w' queue
    = effectsOf w queue
      ++ effectsPushed (workInProgressRootRenderLanes w) renderLanes
           (entriesAt (updates w) (ps1 ++ ps2)).
Proof.
  intros Hholds Hfuel.
  destruct (processUpdateQueue_run fuel workInProgress queue props instance
              renderLanes base ps1 ps2 w Hholds Hfuel)
    as (w' & cps & Hrun & _ & _ & _ & _ & _ & Hside & _).
  exists w'. split; [exact Hrun|].
  apply (f_equal side_effects) in Hside.
  now rewrite walkSide_effects in Hside.
Qed.

Lemma processUpdateQueue_collects_callbacks_witness :
  exists w',
    processUpdateQueue 4 0%nat JsNull JsNull P1 withCallbacks
    = (Return tt, w') /\
    effectsOf w' 0%nat = [1%nat; 4%nat].
Proof.
  apply (processUpdateQueue_collects_callbacks 4 0%nat 0%nat JsNull JsNull
           P1 (JsString EmptyString) [1%nat; 2%nat; 3%nat; 4%nat] []
           withCallbacks).
  - exact withCallbacks_holds.
  - simpl. lia.
Defined.

(** The flags of the fiber after [processUpdateQueue]: [Callback] is added
    if a record went to the effects; if a [CaptureUpdate] was processed,
    [ShouldCapture] is removed and [DidCapture] added; no other bit
    changes. *)
Theorem processUpdateQueue_flags
    (fuel : nat) (workInProgress queue : ptr) (props instance : JsValue)
    (renderLanes : Lanes) (base : JsValue) (ps1 ps2 : list ptr) (w : World)
    (wf : Fiber) :
  queueHolds w workInProgress queue base ps1 ps2 ->
  (length (ps1 ++ ps2) <= fuel)%nat ->
  fibers w !! workInProgress = Some wf ->
  let processed :=
    notSkipped (workInProgressRootRenderLanes w) renderLanes
      (recordsAt (updates w) (ps1 ++ ps2)) in
  exists w' wf',
    processUpdateQueue fuel workInProgress props instance renderLanes w
    = (Return tt, w') /\
    fibers w' !! workInProgress = Some wf' /\
    fiber_flags wf'
    = flagsAfterPass (existsb isCaptureUpdate processed)
        (existsb hasEffect processed) (fiber_flags wf).
Proof.
  intros Hholds Hfuel Hwf processed.
  destruct (processUpdateQueue_run fuel workInProgress queue props instance
              renderLanes base ps1 ps2 w Hholds Hfuel)
    as (w' & cps & Hrun & _ & _ & _ & _ & _ & Hside & _).
  apply (f_equal side_flags) in Hside.
  rewrite (walkSide_flags _ _ _ _ false false (fiber_flags wf)) in Hside
    by (simpl; now rewrite Hwf).
  rewrite entriesAt_records in Hside. simpl in Hside.
  destruct (fibers w' !! workInProgress) as [wf'|] eqn:Hwf'; [|discriminate].
  exists w', wf'. split; [exact Hrun|].
  split; [exact Hwf'|]. simpl in Hside. now injection Hside.
Qed.

Lemma processUpdateQueue_flags_witness :
  exists w' wf',
    processUpdateQueue 4 0%nat JsNull JsNull P1 withCallbacks
    = (Return tt, w') /\
    fibers w' !! 0%nat = Some wf' /\
    fiber_flags wf' = Z.lor DidCapture Callback.
Proof.
  apply (processUpdateQueue_flags 4 0%nat 0%nat JsNull JsNull
           P1 (JsString EmptyString) [1%nat; 2%nat; 3%nat; 4%nat] []
           withCallbacks
           (mkFiber (OtherWorkTag 1) None None None ShouldCapture NoLanes
              NoLanes JsNull (Some 0%nat))).
  - exact withCallbacks_holds.
  - simpl. lia.
  - reflexivity.
Defined.

Lemma invocations_ext h h' inst es :
  (forall e, e ∈ es ->
     h' !! e ≫= update_callback = h !! e ≫= update_callback) ->
  forall seen, invocations h' inst seen es = invocations h inst seen es.
Proof.
  induction es as [|x es IH]; intros H seen; simpl; [reflexivity|].
  rewrite H by left. rewrite IH; [reflexivity|].
  intros e He. apply H. now right.
Qed.

Lemma unlinked_fields u u' :
  unlinked u' = unlinked u ->
  update_eventTime u' = update_eventTime u /\
  update_lane u' = update_lane u /\
  update_tag u' = update_tag u /\
  update_payload u' = update_payload u /\
  update_callback u' = update_callback u.
Proof.
  destruct u, u'. unfold unlinked. simpl. intros E.
  injection E as -> -> -> -> ->. repeat split.
Qed.

Lemma unlinked_callback u u' :
  unlinked u' = unlinked u -> update_callback u' = update_callback u.
Proof. intros E. now apply unlinked_fields in E. Qed.

(** [processUpdateQueue] rewrites only the links between records: every
    record that was in the store before the pass is there after it, with the
    event time, lane, tag, payload and callback that it had. *)
Theorem processUpdateQueue_keeps_records
    (fuel : nat) (workInProgress queue : ptr) (props instance : JsValue)
    (renderLanes : Lanes) (base : JsValue) (ps1 ps2 : list ptr) (w : World) :
  queueHolds w workInProgress queue base ps1 ps2 ->
  (length (ps1 ++ ps2) <= fuel)%nat ->
  exists w',
    processUpdateQueue fuel workInProgress props instance renderLanes w
    = (Return tt, w') /\
    forall p u,
      updates w !! p = Some u ->
      exists u',
        updates w' !! p = Some u' /\
        update_eventTime u' = update_eventTime u /\
        update_lane u' = update_lane u /\
        update_tag u' = update_tag u /\
        update_payload u' = update_payload u /\
        update_callback u' = update_callback u.
Proof.
  intros Hholds Hfuel.
  destruct (processUpdateQueue_run fuel workInProgress queue props instance
              renderLanes base ps1 ps2 w Hholds Hfuel)
    as (w' & cps & Hrun & _ & _ & _ & _ & _ & _ & Hkeep & _).
  exists w'. split; [exact Hrun|].
  intros p u Hu. destruct (Hkeep p u Hu) as (u' & Hu' & E).
  exists u'. split; [exact Hu'|]. now apply unlinked_fields.
Qed.

Lemma processUpdateQueue_keeps_records_witness :
  exists w',
    processUpdateQueue 4 0%nat JsNull JsNull P1 withCallbacks
    = (Return tt, w') /\
    forall p u,
      updates withCallbacks !! p = Some u ->
      exists u',
        updates w' !! p = Some u' /\
        update_eventTime u' = update_eventTime u /\
        update_lane u' = update_lane u /\
        update_tag u' = update_tag u /\
        update_payload u' = update_payload u /\
        update_callback u' = update_callback u.
Proof.
  apply (processUpdateQueue_keeps_records 4 0%nat 0%nat JsNull JsNull
           P1 (JsString EmptyString) [1%nat; 2%nat; 3%nat; 4%nat] []
           withCallbacks).
  - exact withCallbacks_holds.
  - simpl. lia.
Defined.

(** A pass of [processUpdateQueue] followed by [commitUpdateQueue] on the
    same queue: if no record of the queue or of its effects has a callback
    that is not a function, the commit returns, and what it calls is the
    callbacks of the effects that were there and then those of the records
    that the pass did not skip, in the order of the list, each at most once;
    the effects end [null]. *)
Theorem processUpdateQueue_then_commitUpdateQueue
    (fuel : nat) (workInProgress queue : ptr) (props instance : JsValue)
    (renderLanes : Lanes) (base : JsValue) (ps1 ps2 : list ptr) (w : World) :
  queueHolds w workInProgress queue base ps1 ps2 ->
  (length (ps1 ++ ps2) <= fuel)%nat ->
  (forall e, e ∈ effectsOf w queue ++ ps1 ++ ps2 ->
     exists u, updates w !! e = Some u /\
               forall v, update_callback u <> Some (NotCallable v)) ->
  exists w' w'',
    processUpdateQueue fuel workInProgress props instance renderLanes w
    = (Return tt, w') /\
    commitUpdateQueue workInProgress queue instance w' = (Return tt, w'') /\
    calls w''
    = calls w'
      ++ invocations (updates w) instance []
           (effectsOf w queue
            ++ effectsPushed (workInProgressRootRenderLanes w) renderLanes
                 (entriesAt (updates w) (ps1 ++ ps2))) /\
    queue_effects <$> updateQueues w'' !! queue = Some None.
Proof.
  intros Hholds Hfuel Hcallable.
  destruct (processUpdateQueue_run fuel workInProgress queue props instance
              renderLanes base ps1 ps2 w Hholds Hfuel)
    as (w' & cps & Hrun & Hholds' & _ & _ & _ & _ & Hside & Hkeep & _).
  apply (f_equal side_effects) in Hside.
  rewrite walkSide_effects in Hside. simpl in Hside.
  set (es := effectsOf w queue ++ effectsPushed _ _ _) in *.
  destruct Hholds' as (wf' & q' & sq' & _ & _ & Hq' & _ & _ & _ & _ & _ & _
                       & Heff' & _).
  exists w'.
  destruct (queue_effects q') as [a|] eqn:Ea.
  - destruct (Heff' a eq_refl) as [es' Ha].
    assert (Ees : es' = es).
    { rewrite <- Hside. unfold effectsOf. rewrite Hq'. simpl.
      now rewrite Ea, Ha. }
    subst es'.
    assert (Hes : forall e, e ∈ es ->
              exists u, updates w !! e = Some u /\
                        forall v, update_callback u <> Some (NotCallable v)).
    { intros e He. apply Hcallable. apply elem_of_app.
      apply elem_of_app in He. destruct He as [He|He]; [now left|right].
      now apply effectsPushed_elem_of in He. }
    assert (Hcb : forall e, e ∈ es ->
              updates w' !! e ≫= update_callback
              = updates w !! e ≫= update_callback).
    { intros e He. destruct (Hes e He) as (u & Hu & _).
      destruct (Hkeep e u Hu) as (u' & Hu' & E).
      rewrite Hu, Hu'. simpl. now apply unlinked_callback. }
    rewrite (commitUpdateQueue_head _ _ _ _ _ _ _ Hq' Ea Ha).
    set (w0 := with_updateQueues _ w').
    destruct (commitEffects_spec instance (updates w') es [] w0)
      as (h' & Hcommit & _ & _).
    { intros e He. destruct (Hes e He) as (u & Hu & Hc).
      destruct (Hkeep e u Hu) as (u' & Hu' & E).
      exists u'. split; [exact Hu'|].
      now rewrite (unlinked_callback _ _ E). }
    { intros e He. apply elem_of_nil in He. contradiction. }
    { reflexivity. }
    eexists. split; [exact Hrun|]. split; [exact Hcommit|].
    split.
    + simpl. f_equal. now apply invocations_ext.
    + simpl. now rewrite lookup_insert_eq.
  - assert (Ees : es = []).
    { rewrite <- Hside. unfold effectsOf. rewrite Hq'. simpl.
      now rewrite Ea. }
    rewrite Ees. exists w'. split; [exact Hrun|].
    split; [now apply (commitUpdateQueue_nothing _ _ _ _ q')|].
    split; [simpl; now rewrite app_nil_r|].
    rewrite Hq'. simpl. now rewrite Ea.
Qed.

Lemma processUpdateQueue_then_commitUpdateQueue_witness :
  exists w' w'',
    processUpdateQueue 4 0%nat JsNull (JsString "this") P1 withCallbacks
    = (Return tt, w') /\
    commitUpdateQueue 0%nat 0%nat (JsString "this") w' = (Return tt, w'') /\
    calls w''
    = calls w'
      ++ [CallbackInvoked 1%nat 11 (JsString "this");
          CallbackInvoked 4%nat 14 (JsString "this")] /\
    queue_effects <$> updateQueues w'' !! 0%nat = Some None.
Proof.
  apply (processUpdateQueue_then_commitUpdateQueue 4 0%nat 0%nat JsNull
           (JsString "this") P1 (JsString EmptyString) [1%nat; 2%nat; 3%nat; 4%nat] []
           withCallbacks).
  - exact withCallbacks_holds.
  - simpl. lia.
  - intros e He. simpl in He.
    repeat (apply elem_of_cons in He; destruct He as [->|He]);
      [| | | |apply elem_of_nil in He; contradiction];
      (eexists; split; [vm_compute; reflexivity|intros v; discriminate]).
Defined.

(** ** What the scheduling of an update does to the fibers *)

Lemma unchanged_storeFiber_lanes p (F : Fiber -> Fiber) :
  (forall f, otherFields (F f) = otherFields f) ->
  unchanged fibersButLanes (storeFiber p F).
Proof.
  intros H w. unfold storeFiber, bind, load.
  destruct (fibers w !! p) as [f|] eqn:E; [|reflexivity].
  unfold fibersButLanes. simpl. rewrite fmap_insert, H.
  apply insert_id. now rewrite lookup_fmap, E.
Qed.

Lemma unchanged_mergeFiberLanes p lane :
  unchanged fibersButLanes (storeFiber p (mergeFiberLanes lane)).
Proof. apply unchanged_storeFiber_lanes. now intros []. Qed.

Lemma unchanged_mergeFiberChildLanes p lane :
  unchanged fibersButLanes (storeFiber p (mergeFiberChildLanes lane)).
Proof. apply unchanged_storeFiber_lanes. now intros []. Qed.

Lemma fibersButLanes_markUpdateLaneLoop lane :
  forall fuel hid node parent,
    unchanged fibersButLanes (markUpdateLaneLoop fuel lane hid node parent).
Proof.
  pose proof (fun p => unchanged_mergeFiberChildLanes p lane).
  induction fuel as [|fuel IH]; intros hid node parent;
    destruct parent; cbn [markUpdateLaneLoop]; unchanged_auto.
Qed.

Lemma fibersButLanes_markUpdateLaneFromFiberToRoot fuel f u lane :
  unchanged fibersButLanes (markUpdateLaneFromFiberToRoot fuel f u lane).
Proof.
  unfold markUpdateLaneFromFiberToRoot.
  pose proof (fun p => unchanged_mergeFiberLanes p lane).
  pose proof (fibersButLanes_markUpdateLaneLoop lane).
  unchanged_auto.
Qed.

Lemma fibersButLanes_finishQueueingLoop markFuel :
  forall fuel i endIndex,
    unchanged fibersButLanes (finishQueueingLoop fuel markFuel i endIndex).
Proof.
  pose proof (fun f u lane =>
                fibersButLanes_markUpdateLaneFromFiberToRoot markFuel f u
                  lane).
  pose proof (fun q u =>
                unchanged_linkPending fibersButLanes q u
                  ltac:(reflexivity) ltac:(reflexivity)).
  pose proof (fun i =>
                unchanged_takeConcurrentQueues fibersButLanes i
                  ltac:(reflexivity)).
  induction fuel as [|fuel IH]; intros i endIndex;
    cbn [finishQueueingLoop]; unchanged_auto.
Qed.

Lemma fibersButLanes_finishQueueingConcurrentUpdates fuel :
  unchanged fibersButLanes (finishQueueingConcurrentUpdates fuel).
Proof.
  unfold finishQueueingConcurrentUpdates.
  pose proof (fibersButLanes_finishQueueingLoop fuel fuel).
  unchanged_auto.
Qed.

Lemma fibersButLanes_concurrent_enqueueUpdate f q u lane :
  unchanged fibersButLanes
    (ReactFiberConcurrentUpdates.enqueueUpdate f q u lane).
Proof.
  unfold ReactFiberConcurrentUpdates.enqueueUpdate, pushConcurrentQueues.
  pose proof (fun p => unchanged_mergeFiberLanes p lane).
  unchanged_auto.
Qed.

Lemma fibersButLanes_getRootForUpdatedFiber fuel f :
  unchanged fibersButLanes (getRootForUpdatedFiber fuel f).
Proof. apply unchanged_getRootForUpdatedFiber. reflexivity. Qed.

Lemma fibersButLanes_enqueueUpdate fuel fiber update lane :
  unchanged fibersButLanes
    (ReactFiberClassUpdateQueue.enqueueUpdate fuel fiber update lane).
Proof.
  unfold ReactFiberClassUpdateQueue.enqueueUpdate,
    enqueueConcurrentClassUpdate, unsafe_markUpdateLaneFromFiberToRoot.
  pose proof (fun q u => fibersButLanes_concurrent_enqueueUpdate fiber q u
                           lane).
  pose proof (fibersButLanes_getRootForUpdatedFiber fuel fiber).
  pose proof (fibersButLanes_markUpdateLaneFromFiberToRoot fuel fiber None
                lane).
  pose proof (fun q u =>
                unchanged_linkPending fibersButLanes q u
                  ltac:(reflexivity) ltac:(reflexivity)).
  unchanged_auto.
Qed.

Lemma fibersButLanes_enqueueConcurrentHookUpdate fuel fiber queue update
    lane :
  unchanged fibersButLanes
    (enqueueConcurrentHookUpdate fuel fiber queue update lane).
Proof.
  unfold enqueueConcurrentHookUpdate.
  apply unchanged_bind;
    [apply fibersButLanes_concurrent_enqueueUpdate|intros ?].
  apply fibersButLanes_getRootForUpdatedFiber.
Qed.

Lemma fibersButLanes_enqueueConcurrentClassUpdate fuel fiber queue update
    lane :
  unchanged fibersButLanes
    (enqueueConcurrentClassUpdate fuel fiber queue update lane).
Proof.
  unfold enqueueConcurrentClassUpdate.
  apply unchanged_bind;
    [apply fibersButLanes_concurrent_enqueueUpdate|intros ?].
  apply fibersButLanes_getRootForUpdatedFiber.
Qed.

Lemma fibersButLanes_enqueueConcurrentRenderForLane fuel fiber lane :
  unchanged fibersButLanes (enqueueConcurrentRenderForLane fuel fiber lane).
Proof.
  unfold enqueueConcurrentRenderForLane.
  apply unchanged_bind;
    [apply fibersButLanes_concurrent_enqueueUpdate|intros ?].
  apply fibersButLanes_getRootForUpdatedFiber.
Qed.

Lemma fibersButLanes_unsafe_markUpdateLaneFromFiberToRoot fuel fiber lane :
  unchanged fibersButLanes
    (unsafe_markUpdateLaneFromFiberToRoot fuel fiber lane).
Proof.
  unfold unsafe_markUpdateLaneFromFiberToRoot.
  apply unchanged_bind;
    [apply fibersButLanes_markUpdateLaneFromFiberToRoot|intros ?].
  apply fibersButLanes_getRootForUpdatedFiber.
Qed.

(** Scheduling an update writes nothing of a fiber but its [lanes] and
    [childLanes]: whatever the arguments and the world, and whether the call
    returns or throws, every fiber keeps its other fields after
    [enqueueUpdate] of the class queue, after each of the enqueue functions
    of the concurrent updates and after a flush of the staging buffer, and
    no fiber is added or removed. *)
Theorem scheduling_writes_only_lanes (w : World) :
  (forall fuel fiber update lane,
     fibersButLanes
       (snd (ReactFiberClassUpdateQueue.enqueueUpdate fuel fiber update lane
               w))
     = fibersButLanes w) /\
  (forall fuel fiber queue update lane,
     fibersButLanes
       (snd (enqueueConcurrentHookUpdate fuel fiber queue update lane w))
     = fibersButLanes w) /\
  (forall fiber queue update,
     fibersButLanes
       (snd (enqueueConcurrentHookUpdateAndEagerlyBailout fiber queue update
               w))
     = fibersButLanes w) /\
  (forall fuel fiber queue update lane,
     fibersButLanes
       (snd (enqueueConcurrentClassUpdate fuel fiber queue update lane w))
     = fibersButLanes w) /\
  (forall fuel fiber lane,
     fibersButLanes (snd (enqueueConcurrentRenderForLane fuel fiber lane w))
     = fibersButLanes w) /\
  (forall fuel fiber lane,
     fibersButLanes
       (snd (unsafe_markUpdateLaneFromFiberToRoot fuel fiber lane w))
     = fibersButLanes w) /\
  (forall fuel,
     fibersButLanes (snd (finishQueueingConcurrentUpdates fuel w))
     = fibersButLanes w).
Proof.
  split.
  { intros fuel fiber update lane.
    exact (fibersButLanes_enqueueUpdate fuel fiber update lane w). }
  split.
  { intros fuel fiber queue update lane.
    exact (fibersButLanes_enqueueConcurrentHookUpdate fuel fiber queue update
             lane w). }
  split.
  { intros fiber queue update.
    exact (fibersButLanes_concurrent_enqueueUpdate fiber (Some queue)
             (Some update) NoLane w). }
  split.
  { intros fuel fiber queue update lane.
    exact (fibersButLanes_enqueueConcurrentClassUpdate fuel fiber queue
             update lane w). }
  split.
  { intros fuel fiber lane.
    exact (fibersButLanes_enqueueConcurrentRenderForLane fuel fiber lane w). }
  split.
  { intros fuel fiber lane.
    exact (fibersButLanes_unsafe_markUpdateLaneFromFiberToRoot fuel fiber
             lane w). }
  intros fuel. exact (fibersButLanes_finishQueueingConcurrentUpdates fuel w).
Qed.

(** ** From [enqueueUpdate] to the state of the fiber *)

Lemma fibersButLanes_lookup w w' p f :
  fibersButLanes w' = fibersButLanes w ->
  fibers w !! p = Some f ->
  exists f', fibers w' !! p = Some f' /\
             fiber_updateQueue f' = fiber_updateQueue f /\
             fiber_alternate f' = fiber_alternate f.
Proof.
  intros E H. apply (f_equal (fun m => m !! p)) in E.
  unfold fibersButLanes in E. rewrite !lookup_fmap, H in E.
  destruct (fibers w' !! p) as [f'|]; [|discriminate].
  exists f'. split; [reflexivity|]. simpl in E.
  assert (E' : otherFields f' = otherFields f) by congruence.
  split.
  - exact (f_equal fiber_updateQueue E').
  - exact (f_equal fiber_alternate E').
Qed.

Lemma recordsAt_snoc h ps p u :
  h !! p = Some u -> recordsAt h (ps ++ [p]) = recordsAt h ps ++ [u].
Proof. intros H. unfold recordsAt. rewrite omap_app. csimpl. now rewrite H. Qed.

Lemma letterUnderRoot_ready : fiberReady letterUnderRoot 2%nat [1%nat].
Proof.
  eexists. split; [vm_compute; reflexivity|]. split; [|split].
  - simpl. split; [reflexivity|]. eexists. split; [vm_compute; reflexivity|].
    reflexivity.
  - intros p f a Hin Hf Ha.
    repeat (apply elem_of_cons in Hin; destruct Hin as [->|Hin]);
      [| |apply elem_of_nil in Hin; contradiction];
      vm_compute in Hf; injection Hf as <-; discriminate.
  - intros p f Hin Hf Ht.
    repeat (apply elem_of_cons in Hin; destruct Hin as [->|Hin]);
      [|apply elem_of_nil in Hin; contradiction];
      vm_compute in Hf; injection Hf as <-; discriminate.
Qed.

Lemma letterUnderRoot_holds :
  queueHolds letterUnderRoot 2%nat 0%nat (JsString EmptyString) [] [].
Proof.
  eexists _, _, _.
  split; [vm_compute; reflexivity|]. split; [reflexivity|].
  split; [vm_compute; reflexivity|]. split; [reflexivity|].
  split; [reflexivity|].
  split; [reflexivity|]. split; [vm_compute; reflexivity|].
  split; [reflexivity|]. split.
  { intros p H. apply elem_of_nil in H. contradiction. }
  split; [intros a H; discriminate H|]. intros H. now contradiction H.
Qed.

(** From [enqueueUpdate] to the render: an update is enqueued on a fiber,
    outside of a render phase update, the staging buffer is flushed, and the
    queue of the work-in-progress fiber, which shares its pending list with
    the queue of that fiber, is processed.  The three calls return, and the
    state of the work-in-progress fiber is the base state of its queue with
    the records applied that the pass does not skip, among those that the
    queue held, in their order, and then the new update. *)
Theorem enqueueUpdate_then_processUpdateQueue
    (fuel : nat) (w : World) (fiber update : ptr) (lane : Lane) (f : Fiber)
    (updateQueue : ptr) (q : UpdateQueue) (path : list ptr)
    (workInProgress queue : ptr) (wf : Fiber) (wq : UpdateQueue)
    (base : JsValue) (ps1 ps2 : list ptr) (u : Update)
    (props instance : JsValue) (renderLanes : Lanes) :
  concurrentQueuesIndex w = 0%nat ->
  unsafeClassRenderPhaseUpdate w fiber = false ->
  fibers w !! fiber = Some f ->
  fiber_updateQueue f = Some updateQueue ->
  updateQueues w !! updateQueue = Some q ->
  fiberReady w fiber path ->
  queueHolds w workInProgress queue base ps1 ps2 ->
  fibers w !! workInProgress = Some wf ->
  updateQueues w !! queue = Some wq ->
  queue_shared wq = queue_shared q ->
  twinOk w wf wq (ps1 ++ ps2 ++ [update]) ->
  updates w !! update = Some u ->
  update ∉ ps1 ++ ps2 ->
  (length path <= fuel)%nat ->
  (length (ps1 ++ ps2) < fuel)%nat ->
  exists root w1 w2 w3 wf3,
    ReactFiberClassUpdateQueue.enqueueUpdate fuel fiber update lane w
    = (Return root, w1) /\
    finishQueueingConcurrentUpdates fuel w1 = (Return tt, w2) /\
    processUpdateQueue fuel workInProgress props instance renderLanes w2
    = (Return tt, w3) /\
    fibers w3 !! workInProgress = Some wf3 /\
    fiber_memoizedState wf3
    = applyAllInOrder props instance base
        (notSkipped (workInProgressRootRenderLanes w) renderLanes
           (recordsAt (updates w) (ps1 ++ ps2) ++ [u])).
Proof.
  intros Hidx Hunsafe Hf Huq Hq Hready Hholds Hwf Hwq Hshared Htwin Hu Hnotin
    Hfuel Hlen.
  destruct Hholds as (wf0 & wq0 & sq & Hwf0 & Hwuq & Hwq0 & Hbase & Hchain
                      & Hlast & Hsq & Hring & Hdisj & Heff & _).
  assert (wf0 = wf) by congruence. subst wf0.
  assert (wq0 = wq) by congruence. subst wq0.
  assert (Hn1 : update ∉ ps1)
    by (intros Hin; apply Hnotin, elem_of_app; now left).
  assert (Hn2 : update ∉ ps2)
    by (intros Hin; apply Hnotin, elem_of_app; now right).
  rewrite Hshared in Hsq.
  destruct (enqueueUpdate_flush_run fuel w fiber update lane f updateQueue q
              sq path ps2 Hidx Hunsafe Hf Huq Hq Hready Hsq Hring Hn2
              ltac:(eauto) Hfuel ltac:(lia))
    as (root & w1 & w2 & sq2 & Hrun1 & _ & _ & _ & _ & Hrun2 & Hsq2 & Hpend
        & Hring2 & Hframe & Hsame & _ & Equeues & Earrays & Eroot).
  assert (Efibers : fibersButLanes w2 = fibersButLanes w).
  { pose proof (fibersButLanes_enqueueUpdate fuel fiber update lane w) as U1.
    pose proof (fibersButLanes_finishQueueingConcurrentUpdates fuel w1) as U2.
    rewrite Hrun1 in U1. rewrite Hrun2 in U2. simpl in U1, U2. congruence. }
  destruct (fibersButLanes_lookup w w2 workInProgress wf Efibers Hwf)
    as (wf2 & Hwf2 & Huq2 & Halt2).
  assert (Hholds2 : queueHolds w2 workInProgress queue base ps1
                      (ps2 ++ [update])).
  { exists wf2, wq, sq2.
    split; [exact Hwf2|]. split; [congruence|].
    split; [now rewrite Equeues|]. split; [exact Hbase|].
    split.
    { eapply segment_frame; [|exact Hchain]. intros p Hp. apply Hframe.
      intros Hin. apply elem_of_app in Hin. destruct Hin as [Hin|Hin].
      - exact (Hdisj p Hp Hin).
      - apply list_elem_of_singleton in Hin. now subst p. }
    split; [exact Hlast|]. split; [now rewrite Hshared|].
    split; [now rewrite Hpend|]. split.
    { intros p Hp Hin. apply elem_of_app in Hin. destruct Hin as [Hin|Hin].
      - exact (Hdisj p Hp Hin).
      - apply list_elem_of_singleton in Hin. now subst p. }
    split; [intros a Ha; rewrite Earrays; now apply Heff|].
    intros _. unfold twinOk in *. rewrite Halt2.
    destruct (fiber_alternate wf) as [current|]; [|exact I].
    destruct Htwin as (cf & cq & cqr & Hcf & Hcuq & Hcq & Hcases).
    destruct (fibersButLanes_lookup w w2 current cf Efibers Hcf)
      as (cf2 & Hcf2 & Hcuq2 & _).
    exists cf2, cq, cqr. split; [exact Hcf2|]. split; [congruence|].
    split; [now rewrite Equeues|].
    destruct Hcases as [E|[E|(c & E & Hc & Hex)]]; [now left|right; now left|].
    right. right. exists c. split; [exact E|].
    split; [exact Hc|].
    eapply sameRecords_is_Some; eauto. }
  assert (Hlen2 : (length (ps1 ++ ps2 ++ [update]) <= fuel)%nat).
  { rewrite !length_app in *. simpl. lia. }
  destruct (processUpdateQueue_spec fuel workInProgress queue props instance
              renderLanes base ps1 (ps2 ++ [update]) w2 Hholds2 Hlen2)
    as (w3 & cps & Hrun3 & _ & _ & _ & Hwalked & _).
  destruct Hwalked as (wf3 & Hwf3 & _ & Hstate).
  { intros E. apply app_eq_nil in E. destruct E as [_ E].
    apply app_eq_nil in E. destruct E as [_ E]. discriminate. }
  exists root, w1, w2, w3, wf3.
  split; [exact Hrun1|]. split; [exact Hrun2|]. split; [exact Hrun3|].
  split; [exact Hwf3|].
  rewrite Hstate, Eroot.
  rewrite (walkAcc_sameRecords _ _ _ _ _ _ _ _ Hsame).
  rewrite app_assoc, (recordsAt_snoc _ _ _ _ Hu).
  destruct (walkAcc_shape props instance (workInProgressRootRenderLanes w)
              renderLanes (recordsAt (updates w) (ps1 ++ ps2) ++ [u])
              (startAcc base) eq_refl) as (Hs & _).
  exact Hs.
Qed.

Lemma enqueueUpdate_then_processUpdateQueue_witness :
  exists root w1 w2 w3 wf3,
    ReactFiberClassUpdateQueue.enqueueUpdate 1 2%nat 1%nat P1 letterUnderRoot
    = (Return root, w1) /\
    finishQueueingConcurrentUpdates 1 w1 = (Return tt, w2) /\
    processUpdateQueue 1 2%nat JsNull JsNull P1 w2 = (Return tt, w3) /\
    fibers w3 !! 2%nat = Some wf3 /\
    fiber_memoizedState wf3 = JsString "A".
Proof.
  apply (enqueueUpdate_then_processUpdateQueue 1 letterUnderRoot 2%nat 1%nat
           P1
           (mkFiber (OtherWorkTag 1) None (Some 1%nat) None NoFlags NoLanes
              NoLanes JsNull (Some 0%nat))
           0%nat (mkUpdateQueue (JsString EmptyString) None None 0%nat None)
           [1%nat] 2%nat 0%nat
           (mkFiber (OtherWorkTag 1) None (Some 1%nat) None NoFlags NoLanes
              NoLanes JsNull (Some 0%nat))
           (mkUpdateQueue (JsString EmptyString) None None 0%nat None)
           (JsString EmptyString) [] [] (letterUpdate P1 "A" None));
    try reflexivity.
  - exact letterUnderRoot_ready.
  - exact letterUnderRoot_holds.
  - apply not_elem_of_nil.
  - simpl. lia.
Defined.

(** ** The pending list goes to the queue of the alternate too *)

Lemma twinQueues_holds :
  queueHolds twinQueues 0%nat 0%nat (JsString EmptyString) [1%nat] [2%nat].
Proof.
  eexists _, _, _.
  split; [vm_compute; reflexivity|]. split; [reflexivity|].
  split; [vm_compute; reflexivity|]. split; [reflexivity|].
  split.
  { unfold chain. simpl.
    repeat (split; [reflexivity|]; eexists; split; [vm_compute; reflexivity|]).
    reflexivity. }
  split; [reflexivity|]. split; [vm_compute; reflexivity|].
  split.
  { simpl. split; [reflexivity|]. split; [apply NoDup_singleton|].
    simpl. split; [reflexivity|]. eexists.
    split; [vm_compute; reflexivity|]. reflexivity. }
  split.
  { intros p Hp Hin. apply list_elem_of_singleton in Hp, Hin. congruence. }
  split; [intros a H; discriminate H|].
  intros _. simpl. eexists _, _, _.
  split; [vm_compute; reflexivity|]. split; [reflexivity|].
  split; [vm_compute; reflexivity|]. now left.
Qed.

(** The pending updates reach the queue of the alternate as well.  When the
    alternate of the work-in-progress fiber has a queue object of its own
    with the same base list, as [cloneUpdateQueue] leaves it, a pass of
    [processUpdateQueue] that finds pending updates leaves the queue of the
    alternate with the base state it had and, as its base list, the records
    of the base list followed by those of the pending list: the records
    themselves, in their order and with their content, whatever the render
    lanes are.  No update is lost when the work in progress is thrown
    away. *)
Theorem processUpdateQueue_transfers_to_current
    (fuel : nat) (workInProgress queue : ptr) (props instance : JsValue)
    (renderLanes : Lanes) (base : JsValue) (ps1 ps2 : list ptr) (w : World)
    (wf : Fiber) (q : UpdateQueue) (current : ptr) (cf : Fiber) (cq : ptr)
    (cqr : UpdateQueue) :
  queueHolds w workInProgress queue base ps1 ps2 ->
  (length (ps1 ++ ps2) <= fuel)%nat ->
  ps2 <> [] ->
  fibers w !! workInProgress = Some wf ->
  updateQueues w !! queue = Some q ->
  fiber_alternate wf = Some current ->
  fibers w !! current = Some cf ->
  fiber_updateQueue cf = Some cq ->
  cq <> queue ->
  updateQueues w !! cq = Some cqr ->
  queue_firstBaseUpdate cqr = queue_firstBaseUpdate q ->
  queue_lastBaseUpdate cqr = queue_lastBaseUpdate q ->
  exists w' cqr',
    processUpdateQueue fuel workInProgress props instance renderLanes w
    = (Return tt, w') /\
    updateQueues w' !! cq = Some cqr' /\
    queue_baseState cqr' = queue_baseState cqr /\
    chain (updates w') (queue_firstBaseUpdate cqr') (ps1 ++ ps2) /\
    queue_lastBaseUpdate cqr' = last ps2 /\
    map unlinked (recordsAt (updates w') (ps1 ++ ps2))
    = map unlinked (recordsAt (updates w) (ps1 ++ ps2)).
Proof.
  intros Hholds Hfuel Hne2 Hwf Hq Halt Hcf Hcuq Hcq Hcqr Hcfirst Hclast.
  destruct (processUpdateQueue_run fuel workInProgress queue props instance
              renderLanes base ps1 ps2 w Hholds Hfuel)
    as (w' & cps & Hrun & _ & _ & _ & _ & _ & _ & Hkeep & Hcurrent).
  destruct (Hcurrent wf q current cf cq cqr Hne2 Hwf Hq Halt Hcf Hcuq Hcq
              Hcqr Hcfirst Hclast)
    as (cqr' & Hcqr' & Hchain' & Hlast' & Hbase').
  exists w', cqr'. split; [exact Hrun|]. split; [exact Hcqr'|].
  split; [exact Hbase'|]. split; [exact Hchain'|]. split; [exact Hlast'|].
  apply map_unlinked_recordsAt_frame. intros p Hp.
  assert (Hex : is_Some (updates w !! p)).
  { destruct Hholds as (? & q0 & sq & _ & _ & _ & _ & Hchain & _ & _ & Hring
                        & _).
    apply elem_of_app in Hp. destruct Hp as [Hp|Hp].
    - eapply segment_lookup; eauto.
    - destruct (shared_pending sq); simpl in Hring.
      + destruct Hring as (_ & _ & Hseg). eapply segment_lookup; eauto.
      + subst ps2. apply elem_of_nil in Hp. contradiction. }
  destruct Hex as [u Hu]. rewrite Hu.
  destruct (Hkeep p u Hu) as (u' & Hu' & E). now rewrite Hu'.
Qed.

Lemma processUpdateQueue_transfers_to_current_witness :
  exists w' cqr',
    processUpdateQueue 2 0%nat JsNull JsNull P1 twinQueues = (Return tt, w') /\
    updateQueues w' !! 1%nat = Some cqr' /\
    queue_baseState cqr' = JsString EmptyString /\
    chain (updates w') (queue_firstBaseUpdate cqr') [1%nat; 2%nat] /\
    queue_lastBaseUpdate cqr' = Some 2%nat /\
    map unlinked (recordsAt (updates w') [1%nat; 2%nat])
    = [letterUpdate P1 "A" None; letterUpdate P1 "B" None].
Proof.
  apply (processUpdateQueue_transfers_to_current 2 0%nat 0%nat JsNull JsNull
           P1 (JsString EmptyString) [1%nat] [2%nat] twinQueues
           (mkFiber (OtherWorkTag 1) None None (Some 5%nat) NoFlags NoLanes
              NoLanes JsNull (Some 0%nat))
           (mkUpdateQueue (JsString EmptyString) (Some 1%nat) (Some 1%nat)
              0%nat None)
           5%nat
           (mkFiber (OtherWorkTag 1) None None (Some 0%nat) NoFlags NoLanes
              NoLanes JsNull (Some 1%nat))
           1%nat
           (mkUpdateQueue (JsString EmptyString) (Some 1%nat) (Some 1%nat)
              0%nat None));
    try reflexivity.
  - exact twinQueues_holds.
  - discriminate.
  - discriminate.
Defined.

(** ** C1: passes until every record was processed *)

Lemma fromFirstSkipped_In root lanes u us :
  In u (fromFirstSkipped root lanes us) -> In u us.
Proof.
  induction us as [|x us IH]; simpl; [auto|].
  destruct (shouldSkipUpdate root lanes x); [auto|].
  intros H. right. now apply IH.
Qed.

Lemma fromFirstSkipped_nil root lanes us :
  Forall (fun u => shouldSkipUpdate root lanes u = false) us ->
  fromFirstSkipped root lanes us = [].
Proof.
  induction 1 as [|x us Hx _ IH]; simpl; [reflexivity|]. now rewrite Hx.
Qed.

Lemma shouldSkipUpdate_rebasedClone root lanes u :
  shouldSkipUpdate root lanes (rebasedClone u) = false.
Proof.
  unfold shouldSkipUpdate, updateLaneOf, removeLanes, isSubsetOfLanes,
    rebasedClone, NoLane.
  simpl. now rewrite Z.land_0_r.
Qed.

Lemma processedBy_unlinked passes u :
  processedBy passes (unlinked u) = processedBy passes u.
Proof. destruct passes; reflexivity. Qed.

(** For a record that was not made to a hidden tree, to be processed by
    one of the passes is to have its lane among the render lanes of one of
    them. *)
Lemma processedBy_not_hidden passes :
  forall u,
    updateLaneOf u = update_lane u ->
    processedBy passes u
    = existsb (fun pass => isSubsetOfLanes (snd pass) (update_lane u)) passes.
Proof.
  induction passes as [|pass passes IH]; intros u Hu; [reflexivity|].
  cbn [processedBy existsb]. f_equal.
  - unfold processedAt, shouldSkipUpdate. rewrite Hu, Z.eqb_refl. simpl.
    apply negb_involutive.
  - rewrite IH.
    + unfold skippedClone. cbn [update_lane]. now rewrite Hu.
    + unfold skippedClone at 2. cbn [update_lane].
      unfold updateLaneOf, skippedClone. cbn [update_lane].
      unfold updateLaneOf. apply updateLaneOf_idem.
Qed.

(** The records that a pass keeps are processed by the passes that come
    next, when the records were processed by the passes from this one on. *)
Lemma keptClone_processedBy pass rest us :
  Forall (fun u => processedBy (pass :: rest) u = true) us ->
  Forall (fun u => processedBy rest u = true)
    (map (keptClone (fst pass) (snd pass))
       (fromFirstSkipped (fst pass) (snd pass) us)).
Proof.
  intros H. destruct rest as [|next rest].
  - rewrite fromFirstSkipped_nil; [constructor|].
    eapply Forall_impl; [exact H|]. intros u Hu. simpl in Hu.
    rewrite orb_false_r in Hu. unfold processedAt in Hu.
    now apply negb_true_iff in Hu.
  - rewrite List.Forall_forall in *. intros c Hc.
    apply List.in_map_iff in Hc. destruct Hc as (u & <- & Hu).
    apply fromFirstSkipped_In in Hu. specialize (H u Hu).
    unfold keptClone.
    destruct (shouldSkipUpdate (fst pass) (snd pass) u) eqn:Hskip.
    + cbn [processedBy] in H. unfold processedAt at 1 in H.
      now rewrite Hskip in H.
    + cbn [processedBy]. unfold processedAt at 1.
      now rewrite shouldSkipUpdate_rebasedClone.
Qed.

Lemma queueHolds_records_length w wip queue base ps1 ps2 :
  queueHolds w wip queue base ps1 ps2 ->
  length (recordsAt (updates w) (ps1 ++ ps2)) = length (ps1 ++ ps2).
Proof.
  intros (wf & q & sq & _ & _ & _ & _ & Hchain & _ & _ & Hring & _).
  unfold recordsAt. rewrite omap_app, !length_app. f_equal.
  - eapply segment_recordsAt_length, Hchain.
  - destruct (shared_pending sq); simpl in Hring.
    + destruct Hring as (_ & _ & Hseg).
      eapply segment_recordsAt_length, Hseg.
    + now subst ps2.
Qed.

(** One pass over a queue whose records replay to [target]. *)
Lemma renderPass_run fuel wip queue props inst target pass base ps1 ps2 w :
  queueHolds w wip queue base ps1 ps2 ->
  (length (ps1 ++ ps2) <= fuel)%nat ->
  applyAllInOrder props inst base (recordsAt (updates w) (ps1 ++ ps2))
  = target ->
  (ps1 ++ ps2 = [] ->
   exists wf, fibers w !! wip = Some wf /\ fiber_memoizedState wf = target) ->
  exists w' base' cps,
    renderPass fuel wip props inst pass w = (Return tt, w') /\
    queueHolds w' wip queue base' cps [] /\
    (length cps <= fuel)%nat /\
    map unlinked (recordsAt (updates w') cps)
    = map (keptClone (fst pass) (snd pass))
        (fromFirstSkipped (fst pass) (snd pass)
           (recordsAt (updates w) (ps1 ++ ps2))) /\
    applyAllInOrder props inst base' (recordsAt (updates w') cps) = target /\
    (cps = [] ->
     exists wf, fibers w' !! wip = Some wf /\ fiber_memoizedState wf = target).
Proof.
  intros Hholds Hfuel Htarget Hempty.
  set (a := walkAcc props inst (fst pass) (snd pass) (startAcc base)
              (recordsAt (updates w) (ps1 ++ ps2))).
  set (wm := with_workInProgressRootRenderLanes (fst pass) w).
  assert (Hholdsm : queueHolds wm wip queue base ps1 ps2) by exact Hholds.
  destruct (processUpdateQueue_spec fuel wip queue props inst (snd pass) base
              ps1 ps2 wm Hholdsm Hfuel)
    as (w' & cps & Hrun & Hholds' & Hrecs & _ & Hwalked & Hidle).
  change (walkAcc props inst (workInProgressRootRenderLanes wm) (snd pass)
            (startAcc base) (recordsAt (updates wm) (ps1 ++ ps2)))
    with a in *.
  change (fibers wm) with (fibers w) in Hidle.
  destruct (walkAcc_shape props inst (fst pass) (snd pass)
              (recordsAt (updates w) (ps1 ++ ps2)) (startAcc base) eq_refl)
    as (_ & _ & Hclones).
  fold a in Hclones.
  assert (Hreplay : applyAllInOrder props inst (baseAfter a) (acc_clones a)
                    = target).
  { unfold a. rewrite walkAcc_replay. exact Htarget. }
  assert (Hlen : length (recordsAt (updates w') cps) = length cps).
  { pose proof (queueHolds_records_length _ _ _ _ _ _ Hholds') as L.
    now rewrite app_nil_r in L. }
  exists w', (baseAfter a), cps. split.
  { unfold renderPass. rewrite bind_modify. exact Hrun. }
  split; [exact Hholds'|]. split.
  { rewrite <- Hlen, <- (length_map unlinked), Hrecs.
    pose proof (walkAcc_clones_length props inst (fst pass) (snd pass)
                  (recordsAt (updates w) (ps1 ++ ps2)) (startAcc base)) as L.
    pose proof (recordsAt_length_le (updates w) (ps1 ++ ps2)).
    fold a in L. simpl in L. lia. }
  split; [now rewrite Hrecs|]. split.
  { rewrite <- applyAllInOrder_unlinked, Hrecs. exact Hreplay. }
  intros ->. simpl in Hrecs.
  destruct (decide (ps1 ++ ps2 = [])) as [E|N].
  - rewrite (Hidle E). exact (Hempty E).
  - destruct (Hwalked N) as (wf' & Hwf' & _ & Hstate).
    exists wf'. split; [exact Hwf'|].
    rewrite Hstate, <- Hreplay, <- Hrecs. unfold baseAfter.
    now rewrite <- Hrecs.
Qed.

Lemma renderPass_settlesAfter fuel wip queue props inst pass rest target w :
  settlesAfter fuel wip queue props inst (pass :: rest) target w ->
  exists w',
    renderPass fuel wip props inst pass w = (Return tt, w') /\
    settlesAfter fuel wip queue props inst rest target w'.
Proof.
  intros (base & ps1 & ps2 & Hholds & Hfuel & Hproc & Htarget & Hempty).
  destruct (renderPass_run fuel wip queue props inst target pass base ps1 ps2
              w Hholds Hfuel Htarget Hempty)
    as (w' & base' & cps & Hrun & Hholds' & Hlen & Hrecs & Htarget' & Hmemo).
  exists w'. split; [exact Hrun|].
  exists base', cps, []. rewrite app_nil_r.
  split; [exact Hholds'|]. split; [exact Hlen|].
  split; [|split; [exact Htarget'|exact Hmemo]].
  pose proof (keptClone_processedBy pass rest _ Hproc) as K.
  rewrite <- Hrecs in K. rewrite List.Forall_forall in K |- *.
  intros u Hu. rewrite <- processedBy_unlinked.
  apply K, (List.in_map unlinked), Hu.
Qed.

Lemma renderPasses_settle fuel wip queue props inst target :
  forall passes w,
    settlesAfter fuel wip queue props inst passes target w ->
    exists w',
      renderPasses fuel wip props inst passes w = (Return tt, w') /\
      settledAt wip queue target w'.
Proof.
  induction passes as [|pass passes IH]; intros w Hw.
  - destruct Hw as (base & ps1 & ps2 & Hholds & _ & Hproc & Htarget & Hempty).
    assert (Hnil : ps1 ++ ps2 = []).
    { apply length_zero_iff_nil.
      rewrite <- (queueHolds_records_length _ _ _ _ _ _ Hholds).
      destruct (recordsAt (updates w) (ps1 ++ ps2)) as [|u us];
        [reflexivity|].
      apply Forall_cons in Hproc. destruct Hproc as [Hu _]. discriminate. }
    rewrite Hnil in Htarget. simpl in Htarget.
    destruct (Hempty Hnil) as (wf & Hwf & Hstate).
    apply app_eq_nil in Hnil. destruct Hnil as [-> ->].
    destruct Hholds as (wf0 & q & sq & Hwf0 & _ & Hq & Hbase & Hchain & Hlast
                        & _).
    exists w. split; [reflexivity|].
    exists wf, q. split; [exact Hwf|]. split; [exact Hstate|].
    split; [exact Hq|]. split; [congruence|].
    split; [exact Hchain|exact Hlast].
  - destruct (renderPass_settlesAfter _ _ _ _ _ _ _ _ _ Hw)
      as (w1 & Hrun1 & Hw1).
    destruct (IH w1 Hw1) as (w' & Hrun' & Hs').
    exists w'. split; [|exact Hs'].
    cbn [renderPasses]. rewrite (bind_run _ _ _ _ _ Hrun1). exact Hrun'.
Qed.

(** C1.  Take any two divisions of the rendering into passes, each of which
    processes every record of the queue: a record is processed by the first
    pass at which its lane qualifies, and a record that a pass skips stays
    in the queue, as a clone at its lane, for the passes that come next.
    Both sequences of passes return and leave the same state: the one that
    applying all the updates once, in insertion order, to the original base
    state gives.  The queue is left with this base state and no record.  A
    single pass at which every record qualifies is one such division. *)
Theorem renderPasses_deterministic
    (fuel : nat) (workInProgress queue : ptr) (props instance : JsValue)
    (base : JsValue) (ps1 ps2 : list ptr)
    (passes passes' : list (Lanes * Lanes)) (w : World) :
  queueHolds w workInProgress queue base ps1 ps2 ->
  ps1 ++ ps2 <> [] ->
  (length (ps1 ++ ps2) <= fuel)%nat ->
  Forall (fun u => processedBy passes u = true)
    (recordsAt (updates w) (ps1 ++ ps2)) ->
  Forall (fun u => processedBy passes' u = true)
    (recordsAt (updates w) (ps1 ++ ps2)) ->
  let target :=
    applyAllInOrder props instance base
      (recordsAt (updates w) (ps1 ++ ps2)) in
  exists w' w'',
    renderPasses fuel workInProgress props instance passes w
    = (Return tt, w') /\
    renderPasses fuel workInProgress props instance passes' w
    = (Return tt, w'') /\
    settledAt workInProgress queue target w' /\
    settledAt workInProgress queue target w'' /\
    fiber_memoizedState <$> fibers w' !! workInProgress
    = fiber_memoizedState <$> fibers w'' !! workInProgress.
Proof.
  intros Hholds Hne Hfuel Hproc Hproc' target.
  assert (Hw : forall division,
    Forall (fun u => processedBy division u = true)
      (recordsAt (updates w) (ps1 ++ ps2)) ->
    settlesAfter fuel workInProgress queue props instance division target w).
  { intros division Hdiv. exists base, ps1, ps2.
    repeat (split; [assumption|]).
    split; [reflexivity|]. intros E. now contradiction Hne. }
  destruct (renderPasses_settle _ _ _ _ _ _ passes w (Hw _ Hproc))
    as (w' & Hrun' & Hs').
  destruct (renderPasses_settle _ _ _ _ _ _ passes' w (Hw _ Hproc'))
    as (w'' & Hrun'' & Hs'').
  exists w', w''. split; [exact Hrun'|]. split; [exact Hrun''|].
  split; [exact Hs'|]. split; [exact Hs''|].
  destruct Hs' as (wf' & q' & E' & S' & _).
  destruct Hs'' as (wf'' & q'' & E'' & S'' & _).
  rewrite E', E''. simpl. congruence.
Qed.

Lemma renderPasses_deterministic_witness :
  exists w' w'',
    renderPasses 4 0%nat JsNull JsNull [(P1, P1); (P2, P2)] fourLetters
    = (Return tt, w') /\
    renderPasses 4 0%nat JsNull JsNull [(mergeLanes P1 P2, mergeLanes P1 P2)]
      fourLetters
    = (Return tt, w'') /\
    settledAt 0%nat 0%nat (JsString "ABCD") w' /\
    settledAt 0%nat 0%nat (JsString "ABCD") w'' /\
    fiber_memoizedState <$> fibers w' !! 0%nat
    = fiber_memoizedState <$> fibers w'' !! 0%nat.
Proof.
  apply (renderPasses_deterministic 4 0%nat 0%nat JsNull JsNull
           (JsString EmptyString) [1%nat; 2%nat; 3%nat; 4%nat] []
           [(P1, P1); (P2, P2)] [(mergeLanes P1 P2, mergeLanes P1 P2)]
           fourLetters).
  - exact fourLetters_holds.
  - discriminate.
  - simpl. lia.
  - vm_compute. repeat constructor.
  - vm_compute. repeat constructor.
Defined.

(** ** C6: draining the effects *)

(** C6.  [commitUpdateQueue] clears the [effects] field and drains the
    array in insertion order.  The effects [es1] whose callback is a
    function or [null] have their callback invoked, once each and in this
    order, and end with a [null] callback.  The callback reference of an
    effect is set to [null] before the callback is called: when the first
    effect of [rest] holds a callback that is not a function, the call
    throws, and in the world in which it throws the callback of that effect
    is [null] already, while the effects after it are untouched.  Whatever
    is called afterwards, processing and committing included, no callback
    is invoked again from a record that was drained. *)
Theorem commitUpdateQueue_drains_effects_once
    (w : World) (finishedWork finishedQueue : ptr) (instance : JsValue)
    (q : UpdateQueue) (a : ptr) (es1 rest : list ptr) :
  updateQueues w !! finishedQueue = Some q ->
  queue_effects q = Some a ->
  arrays w !! a = Some (es1 ++ rest) ->
  (forall e, e ∈ es1 ->
     exists u, updates w !! e = Some u /\
               forall v, update_callback u <> Some (NotCallable v)) ->
  match rest with
  | [] => True
  | e :: _ =>
      exists u v, updates w !! e = Some u /\
                  update_callback u = Some (NotCallable v)
  end ->
  exists w',
    commitUpdateQueue finishedWork finishedQueue instance w
    = (match rest with
       | [] => Return tt
       | _ :: _ => Throw InvalidCallback
       end, w') /\
    queue_effects <$> updateQueues w' !! finishedQueue = Some None /\
    calls w' = calls w ++ invocations (updates w) instance [] es1 /\
    (forall e, e ∈ es1 -> cleared w' e) /\
    (forall e, head rest = Some e -> cleared w' e) /\
    (forall e, e ∉ es1 -> head rest <> Some e ->
               updates w' !! e = updates w !! e) /\
    (forall esa e esb fn u,
       es1 = esa ++ e :: esb -> e ∉ esa ->
       updates w !! e = Some u -> update_callback u = Some (Callable fn) ->
       exists w_pre,
         cleared w_pre e /\
         commitUpdateQueue finishedWork finishedQueue instance w
         = (callCallback e (Callable fn) instance ;;;
            commitEffects instance (esb ++ rest)) w_pre) /\
    (forall ops,
       exists evs,
         calls (runOps ops w') = calls w' ++ evs /\
         forall e fn c,
           e ∈ es1 \/ head rest = Some e -> CallbackInvoked e fn c ∉ evs).
Proof.
  intros Hq Heff Ha Hes1 Hrest.
  rewrite (commitUpdateQueue_head _ _ _ _ _ _ _ Hq Heff Ha).
  set (w0 := with_updateQueues _ w).
  destruct (commitEffects_spec instance (updates w) es1 [] w0)
    as (h1 & Hrun1 & Hcl1 & Hframe1).
  { exact Hes1. }
  { intros e' Hin. apply elem_of_nil in Hin. contradiction. }
  { reflexivity. }
  set (w1 := with_calls _ _) in Hrun1.
  assert (Hmid : forall esa e esb fn u,
    es1 = esa ++ e :: esb -> e ∉ esa ->
    updates w !! e = Some u -> update_callback u = Some (Callable fn) ->
    exists w_pre,
      cleared w_pre e /\
      commitEffects instance (es1 ++ rest) w0
      = (callCallback e (Callable fn) instance ;;;
         commitEffects instance (esb ++ rest)) w_pre).
  { intros esa e esb fn u -> Hnot Hu Hcb.
    rewrite <- app_assoc. rewrite commitEffects_app.
    destruct (commitEffects_spec instance (updates w) esa [] w0)
      as (ha & Hruna & _ & Hframea).
    { intros e' Hin. apply Hes1. apply elem_of_app. now left. }
    { intros e' Hin. apply elem_of_nil in Hin. contradiction. }
    { reflexivity. }
    rewrite (bind_run _ _ _ _ _ Hruna).
    set (wa := with_calls _ _).
    assert (Hua : updates wa !! e = Some u).
    { simpl. rewrite (Hframea e Hnot). exact Hu. }
    simpl app. cbn [commitEffects].
    rewrite (bind_load updates _ _ _ _ Hua), Hcb.
    rewrite bind_assoc, (bind_storeUpdate _ _ _ _ _ Hua).
    eexists. split; [|reflexivity].
    eexists. simpl. rewrite lookup_insert_eq. split; reflexivity. }
  assert (Hlater : forall wfin,
    (forall e, e ∈ es1 \/ head rest = Some e -> cleared wfin e) ->
    forall ops,
      exists evs,
        calls (runOps ops wfin) = calls wfin ++ evs /\
        forall e fn c,
          e ∈ es1 \/ head rest = Some e -> CallbackInvoked e fn c ∉ evs).
  { intros wfin Hcl ops.
    destruct (evolves_runOps ops wfin) as (_ & (evs & E & F) & _).
    exists evs. split; [exact E|].
    intros e fn c Hin Hev.
    specialize (F e (Hcl e Hin)). rewrite Forall_forall in F.
    apply (F _ Hev). reflexivity. }
  destruct rest as [|e es2].
  - (* every callback is a function or null *)
    rewrite app_nil_r in *.
    exists w1. split; [exact Hrun1|].
    split; [simpl; now rewrite lookup_insert_eq|].
    split; [reflexivity|].
    split; [intros e Hin; destruct (Hcl1 e Hin) as (u & Hu & Hc); exists u;
            auto|].
    split; [intros e He; discriminate He|].
    split; [intros e Hnot _; apply Hframe1, Hnot|].
    split.
    { intros esa e esb fn u E Hnot Hu Hcb.
      destruct (Hmid esa e esb fn u E Hnot Hu Hcb) as (w_pre & Hc & Hrun).
      exists w_pre. split; [exact Hc|]. now rewrite app_nil_r in *. }
    apply Hlater. intros e [Hin|He]; [|discriminate He].
    destruct (Hcl1 e Hin) as (u & Hu & Hc). exists u. auto.
  - (* the first callback that is not a function *)
    destruct Hrest as (u & v & Hu & Hcb).
    assert (Hnot : e ∉ es1).
    { intros Hin. destruct (Hes1 e Hin) as (u' & Hu' & Hc').
      rewrite Hu in Hu'. injection Hu' as <-. exact (Hc' v Hcb). }
    assert (Hu1 : updates w1 !! e = Some u).
    { simpl. rewrite (Hframe1 e Hnot). exact Hu. }
    set (w2 := with_updates (<[e := set_update_callback None u]> (updates w1))
                 w1).
    assert (Hthrow : commitEffects instance (es1 ++ e :: es2) w0
                     = (Throw InvalidCallback, w2)).
    { rewrite commitEffects_app, (bind_run _ _ _ _ _ Hrun1).
      cbn [commitEffects].
      rewrite (bind_load updates _ _ _ _ Hu1), Hcb.
      rewrite bind_assoc, (bind_storeUpdate _ _ _ _ _ Hu1). reflexivity. }
    assert (Hcle : cleared w2 e).
    { eexists. simpl. rewrite lookup_insert_eq. split; reflexivity. }
    assert (Hcl2 : forall e', e' ∈ es1 -> cleared w2 e').
    { intros e' Hin. destruct (Hcl1 e' Hin) as (u' & Hu' & Hc').
      exists u'. split; [|exact Hc']. simpl.
      rewrite lookup_insert_ne; [exact Hu'|]. intros <-. contradiction. }
    exists w2. split; [exact Hthrow|].
    split; [simpl; now rewrite lookup_insert_eq|].
    split; [reflexivity|]. split; [exact Hcl2|].
    split; [intros e' He'; injection He' as <-; exact Hcle|].
    split.
    { intros e' Hnot' Hne. simpl.
      rewrite lookup_insert_ne by (intros <-; now apply Hne).
      apply Hframe1, Hnot'. }
    split.
    { intros esa e' esb fn u' E Hnot' Hu' Hcb'.
      destruct (Hmid esa e' esb fn u' E Hnot' Hu' Hcb')
        as (w_pre & Hc & Hrun).
      exists w_pre. split; [exact Hc|exact Hrun]. }
    apply Hlater. intros e' [Hin|He'].
    + now apply Hcl2.
    + injection He' as <-. exact Hcle.
Qed.

Lemma commitUpdateQueue_drains_effects_once_witness :
  let u1 := mkUpdate 0 1 UpdateState (PayloadValue JsNull)
              (Some (Callable 11)) None in
  let u2 := mkUpdate 0 1 UpdateState (PayloadValue JsNull)
              (Some (Callable 12)) None in
  let u3 := mkUpdate 0 1 UpdateState (PayloadValue JsNull)
              (Some (NotCallable (JsNumber 7))) None in
  let u4 := mkUpdate 0 1 UpdateState (PayloadValue JsNull)
              (Some (Callable 14)) None in
  let w := mkWorld
             (list_to_map [(1%nat, u1); (2%nat, u2); (3%nat, u3);
                           (4%nat, u4)])
             {[ 0%nat := mkSharedQueue None 0 ]}
             {[ 0%nat := mkUpdateQueue JsNull None None 0%nat (Some 9%nat) ]}
             {[ 9%nat := [1%nat; 2%nat; 3%nat; 4%nat] ]}
             {[ 0%nat := mkFiber (OtherWorkTag 1) None None None 0 0 0 JsNull
                           (Some 0%nat) ]}
             ∅ ∅ false false None [] 0 0 true 0 (fun _ => false) [] [] in
  exists w',
    commitUpdateQueue 0%nat 0%nat (JsString "this") w
    = (Throw InvalidCallback, w') /\
    queue_effects <$> updateQueues w' !! 0%nat = Some None /\
    calls w' = [CallbackInvoked 1%nat 11 (JsString "this");
                CallbackInvoked 2%nat 12 (JsString "this")] /\
    cleared w' 1%nat /\ cleared w' 2%nat /\ cleared w' 3%nat /\
    updates w' !! 4%nat = Some u4.
Proof.
  intros u1 u2 u3 u4 w.
  destruct (commitUpdateQueue_drains_effects_once w 0%nat 0%nat
              (JsString "this")
              (mkUpdateQueue JsNull None None 0%nat (Some 9%nat)) 9%nat
              [1%nat; 2%nat] [3%nat; 4%nat])
    as (w' & Hrun & Heff & Hcalls & Hcl & Hthrown & Hframe & _).
  - reflexivity.
  - reflexivity.
  - reflexivity.
  - intros e He.
    repeat (apply elem_of_cons in He; destruct He as [->|He]);
      [| |apply elem_of_nil in He; contradiction];
      (eexists; split; [vm_compute; reflexivity|intros v; discriminate]).
  - exists u3, (JsNumber 7). split; reflexivity.
  - exists w'. split; [exact Hrun|]. split; [exact Heff|].
    split; [exact Hcalls|].
    split; [apply Hcl; left|].
    split; [apply Hcl; right; left|].
    split; [apply Hthrown; reflexivity|].
    rewrite Hframe; [reflexivity| |discriminate].
    intros He.
    repeat (apply elem_of_cons in He; destruct He as [He|He];
            [discriminate He|]).
    apply elem_of_nil in He. contradiction.
Defined.

(** ** C9: an update from inside an update function *)

Lemma enqueueConcurrentClassUpdate_stages fuel fiber shared update lane w
    path top :
  fiberReady w fiber path ->
  (length path <= fuel)%nat ->
  fibers w !! default fiber (last path) = Some top ->
  exists w',
    enqueueConcurrentClassUpdate fuel fiber shared update lane w
    = (Return (if WorkTag_eqb (fiber_tag top) HostRoot
               then fiber_stateNode top else None), w') /\
    holdsStaged (concurrentQueues w') (concurrentQueuesIndex w) fiber shared
      [(update, lane)] /\
    concurrentQueuesIndex w' = (concurrentQueuesIndex w + 4)%nat /\
    concurrentlyUpdatedLanes w'
    = mergeLanes (concurrentlyUpdatedLanes w) lane /\
    updates w' = updates w /\
    sharedQueues w' = sharedQueues w.
Proof.
  intros Hready Hfuel Htop. unfold enqueueConcurrentClassUpdate.
  destruct (stage_one w fiber shared update lane path Hready)
    as (w1 & Hstage & Hu & Hs & Ho & Hshape & Hidx & _ & Hheld).
  rewrite (bind_run _ _ _ _ _ Hstage).
  assert (Hready1 : fiberReady w1 fiber path)
    by (eapply fiberReady_transport; eauto).
  destruct (getRootForUpdatedFiber_returns fuel fiber w1 path Hready1 Hfuel)
    as (root & w2 & Hroot).
  destruct (sameShape_top _ _ _ _ Hshape Htop) as (top1 & Htop1 & Etag & Enode).
  pose proof (getRootForUpdatedFiber_result fuel fiber w1 path top1 Hready1
                Hfuel Htop1) as Hres.
  rewrite Hroot in Hres. simpl in Hres. rewrite Etag, Enode in Hres.
  injection Hres as ->.
  set (g := fun w => (updates w, sharedQueues w, concurrentQueues w,
                      concurrentQueuesIndex w, concurrentlyUpdatedLanes w)).
  assert (Hg : g w2 = g w1).
  { pose proof (unchanged_getRootForUpdatedFiber g fuel fiber
                  ltac:(reflexivity) w1) as U.
    now rewrite Hroot in U. }
  inversion Hg as [[Eu Es Ec Ei El]].
  assert (Elanes : concurrentlyUpdatedLanes w1
                   = mergeLanes (concurrentlyUpdatedLanes w) lane).
  { pose proof (concurrent_enqueueUpdate_lanes fiber (Some shared)
                  (Some update) lane w) as U.
    now rewrite Hstage in U. }
  exists w2. rewrite Hroot. split; [reflexivity|].
  split; [now rewrite Ec|]. split; [congruence|]. split; [congruence|].
  split; congruence.
Qed.

Lemma linkPending_then_mark fuel fiber shared update lane w path top sq done :
  fiberReady w fiber path ->
  (length path <= fuel)%nat ->
  fibers w !! default fiber (last path) = Some top ->
  sharedQueues w !! shared = Some sq ->
  ring (updates w) (shared_pending sq) done ->
  update ∉ done ->
  is_Some (updates w !! update) ->
  exists w',
    (linkPending shared update ;;;
     unsafe_markUpdateLaneFromFiberToRoot fuel fiber lane) w
    = (Return (if WorkTag_eqb (fiber_tag top) HostRoot
               then fiber_stateNode top else None), w') /\
    sharedQueues w' !! shared = Some (set_shared_pending (Some update) sq) /\
    ring (updates w') (Some update) (done ++ [update]) /\
    concurrentQueues w' = concurrentQueues w /\
    concurrentQueuesIndex w' = concurrentQueuesIndex w /\
    concurrentlyUpdatedLanes w' = concurrentlyUpdatedLanes w.
Proof.
  intros Hready Hfuel Htop Hsq Hring Hnotin [ur Hur].
  destruct (linkPending_spec w shared sq done update ur Hsq Hring Hnotin Hur)
    as (h' & Hlink & Hring' & _).
  rewrite (bind_run _ _ _ _ _ Hlink).
  set (wl := with_sharedQueues _ _).
  assert (Hreadyl : fiberReady wl fiber path) by exact Hready.
  unfold unsafe_markUpdateLaneFromFiberToRoot.
  destruct (markUpdateLaneFromFiberToRoot_frame wl fuel fiber None lane path
              Hreadyl Hfuel)
    as (wm & Hmark & Hum & Hsm & Hcm & Hom & Hshape).
  rewrite (bind_run _ _ _ _ _ Hmark).
  assert (Hreadym : fiberReady wm fiber path)
    by (eapply fiberReady_transport; eauto).
  destruct (getRootForUpdatedFiber_returns fuel fiber wm path Hreadym Hfuel)
    as (root & w1 & Hroot).
  assert (Htopl : fibers wl !! default fiber (last path) = Some top)
    by exact Htop.
  destruct (sameShape_top _ _ _ _ Hshape Htopl)
    as (top1 & Htop1 & Etag & Enode).
  pose proof (getRootForUpdatedFiber_result fuel fiber wm path top1 Hreadym
                Hfuel Htop1) as Hres.
  rewrite Hroot in Hres. simpl in Hres. rewrite Etag, Enode in Hres.
  injection Hres as ->.
  set (g := fun w => (updates w, sharedQueues w, concurrentQueues w,
                      concurrentQueuesIndex w, concurrentlyUpdatedLanes w)).
  assert (Hg : g w1 = g wm).
  { pose proof (unchanged_getRootForUpdatedFiber g fuel fiber
                  ltac:(reflexivity) wm) as U.
    now rewrite Hroot in U. }
  inversion Hg as [[Eu Es Ec Ei El]].
  set (g2 := fun w => (concurrentQueuesIndex w, concurrentlyUpdatedLanes w)).
  assert (Hg2 : g2 wm = g2 wl).
  { pose proof (unchanged_markUpdateLaneFromFiberToRoot g2 fuel fiber None
                  lane ltac:(reflexivity) ltac:(reflexivity) wl) as U.
    now rewrite Hmark in U. }
  inversion Hg2 as [[Ei2 El2]].
  exists w1. rewrite Hroot. split; [reflexivity|].
  split; [rewrite Es, Hsm; simpl; apply lookup_insert_eq|].
  split; [rewrite Eu, Hum; exact Hring'|].
  split; [rewrite Ec, Hcm; reflexivity|].
  split; [rewrite Ei, Ei2; reflexivity|]. rewrite El, El2. reflexivity.
Qed.

(** C9.  In a development build, when [enqueueUpdate] is called while the
    shared queue of the fiber is the one being processed, the warning goes
    to the console unless it was printed before, and the flag is set.  No
    exception comes from the check and the update is enqueued as it is
    without the check: outside of a render phase update the call returns the
    root and has staged the fiber, the queue, the update and the lane in the
    next four slots of the staging buffer; in a render phase update it
    returns the root and the update is the last one of the pending list of
    the queue.  The result and the world, apart from the diagnostics, are
    those of the same call outside of an update function.  Over any later
    calls into the module no further warning is printed, and from a module
    that has not warned yet the warning is printed at most once. *)
Theorem enqueueUpdate_inside_update_warns_once
    (w : World) (fuel : nat) (fiber update : ptr) (lane : Lane)
    (f : Fiber) (updateQueue : ptr) (q : UpdateQueue) (path : list ptr)
    (top : Fiber) :
  DEV w = true ->
  fibers w !! fiber = Some f ->
  fiber_updateQueue f = Some updateQueue ->
  updateQueues w !! updateQueue = Some q ->
  currentlyProcessingQueue w = Some (queue_shared q) ->
  fiberReady w fiber path ->
  (length path <= fuel)%nat ->
  fibers w !! default fiber (last path) = Some top ->
  let r := ReactFiberClassUpdateQueue.enqueueUpdate fuel fiber update lane w in
  let r0 :=
    ReactFiberClassUpdateQueue.enqueueUpdate fuel fiber update lane
      (with_currentlyProcessingQueue None w) in
  let root :=
    if WorkTag_eqb (fiber_tag top) HostRoot then fiber_stateNode top
    else None in
  console (snd r)
  = console w ++ (if didWarnUpdateInsideUpdate w then []
                  else [updateInsideUpdateWarning]) /\
  didWarnUpdateInsideUpdate (snd r) = true /\
  fst r = fst r0 /\
  withoutDiagnostics (snd r) = withoutDiagnostics (snd r0) /\
  (unsafeClassRenderPhaseUpdate w fiber = false ->
   fst r = Return root /\
   holdsStaged (concurrentQueues (snd r)) (concurrentQueuesIndex w) fiber
     (queue_shared q) [(update, lane)] /\
   concurrentQueuesIndex (snd r) = (concurrentQueuesIndex w + 4)%nat /\
   concurrentlyUpdatedLanes (snd r)
   = mergeLanes (concurrentlyUpdatedLanes w) lane /\
   updates (snd r) = updates w /\
   sharedQueues (snd r) = sharedQueues w) /\
  (unsafeClassRenderPhaseUpdate w fiber = true ->
   forall sq done,
     sharedQueues w !! queue_shared q = Some sq ->
     ring (updates w) (shared_pending sq) done ->
     update ∉ done ->
     is_Some (updates w !! update) ->
     fst r = Return root /\
     sharedQueues (snd r) !! queue_shared q
     = Some (set_shared_pending (Some update) sq) /\
     ring (updates (snd r)) (Some update) (done ++ [update]) /\
     concurrentQueues (snd r) = concurrentQueues w /\
     concurrentQueuesIndex (snd r) = concurrentQueuesIndex w) /\
  (forall ops, warnings (runOps ops (snd r)) <= warnings (snd r))%nat /\
  (forall ops w0,
     didWarnUpdateInsideUpdate w0 = false -> warnings w0 = 0%nat ->
     (warnings (runOps ops w0) <= 1)%nat).
Proof.
  intros Hdev Hf Huq Hq Hcur Hready Hfuel Htop r r0 root.
  set (rest :=
    unsafe <- gets (fun w => unsafeClassRenderPhaseUpdate w fiber) ;;
    if unsafe then
      linkPending (queue_shared q) update ;;;
      unsafe_markUpdateLaneFromFiberToRoot fuel fiber lane
    else
      enqueueConcurrentClassUpdate fuel fiber (queue_shared q) update lane).
  assert (Hrest : ignoresDiagnostics rest).
  { unfold rest.
    pose proof ignores_linkPending.
    pose proof ignores_unsafe_markUpdateLaneFromFiberToRoot.
    pose proof ignores_enqueueConcurrentClassUpdate.
    ignores_auto. }
  set (c' := console w ++ (if didWarnUpdateInsideUpdate w then []
                           else [updateInsideUpdateWarning])).
  assert (Er : r = rest (setDiagnostics c' true (Some (queue_shared q)) w)).
  { unfold r, ReactFiberClassUpdateQueue.enqueueUpdate.
    rewrite (bind_load fibers _ _ _ _ Hf), Huq.
    rewrite (bind_load updateQueues _ _ _ _ Hq).
    unfold bind at 1. unfold gets at 1. rewrite Hdev.
    unfold bind at 1. unfold bind at 1. unfold gets at 1.
    unfold bind at 1. unfold gets at 1. rewrite Hcur.
    rewrite bool_decide_eq_true_2 by reflexivity. simpl andb.
    fold rest. subst c'.
    destruct (didWarnUpdateInsideUpdate w) eqn:Hd; simpl negb; cbv iota.
    - unfold ret at 1. cbv beta iota. rewrite app_nil_r.
      f_equal. rewrite <- Hd, <- Hcur. symmetry. apply setDiagnostics_self.
    - unfold bind at 1. unfold consoleError at 1. unfold modify at 1.
      unfold modify at 1. cbv beta iota.
      f_equal. unfold setDiagnostics. destruct w; simpl in *. subst.
      reflexivity. }
  assert (Er0 : r0 = rest (setDiagnostics (console w)
                             (didWarnUpdateInsideUpdate w) None w)).
  { unfold r0, ReactFiberClassUpdateQueue.enqueueUpdate.
    assert (Hf0 : fibers (with_currentlyProcessingQueue None w) !! fiber
                  = Some f) by exact Hf.
    rewrite (bind_load fibers _ _ _ _ Hf0), Huq.
    assert (Hq0 : updateQueues (with_currentlyProcessingQueue None w)
                    !! updateQueue = Some q) by exact Hq.
    rewrite (bind_load updateQueues _ _ _ _ Hq0).
    unfold bind at 1. unfold gets at 1. simpl DEV. rewrite Hdev.
    unfold bind at 1. unfold bind at 1. unfold gets at 1.
    unfold bind at 1. unfold gets at 1.
    simpl currentlyProcessingQueue.
    rewrite bool_decide_eq_false_2 by discriminate. simpl andb. cbv iota.
    unfold ret at 1. cbv beta iota. fold rest.
    f_equal. }
  rewrite Er, Er0, !Hrest. simpl fst. simpl snd.
  split; [reflexivity|]. split; [reflexivity|]. split; [reflexivity|].
  split; [reflexivity|]. split; [|split; [|split]].
  - intros Hunsafe.
    destruct (enqueueConcurrentClassUpdate_stages fuel fiber (queue_shared q)
                update lane w path top Hready Hfuel Htop)
      as (w' & Hrun & Hheld & Hidx & Hlanes & Hu & Hs).
    assert (E : rest w = (Return root, w')).
    { unfold rest, bind at 1, gets at 1. rewrite Hunsafe. exact Hrun. }
    rewrite E. simpl. auto 7.
  - intros Hunsafe sq done Hsq Hring Hnotin Hex.
    destruct (linkPending_then_mark fuel fiber (queue_shared q) update lane w
                path top sq done Hready Hfuel Htop Hsq Hring Hnotin Hex)
      as (w' & Hrun & Hs & Hring' & Hc & Hi & _).
    assert (E : rest w = (Return root, w')).
    { unfold rest, bind at 1, gets at 1. rewrite Hunsafe. exact Hrun. }
    rewrite E. simpl. auto 7.
  - intros ops.
    pose proof (evolves_runOps ops
                  (setDiagnostics c' true (Some (queue_shared q))
                     (rest w).2)) as (_ & _ & Hw).
    unfold mayStillWarn in Hw at 2. simpl in Hw. lia.
  - intros ops w0 Hd0 Hw0.
    pose proof (evolves_runOps ops w0) as (_ & _ & Hw).
    unfold mayStillWarn in Hw at 2. rewrite Hd0, Hw0 in Hw. lia.
Qed.

Lemma enqueueUpdate_inside_update_warns_once_witness :
  let rootFiber :=
    mkFiber HostRoot (Some 100%nat) None None 0 0 0 JsNull None in
  let nFiber :=
    mkFiber (OtherWorkTag 1) None (Some 1%nat) None 0 0 0 JsNull (Some 0%nat) in
  let world unsafe :=
    mkWorld
      {[ 5%nat := mkUpdate 0 1 UpdateState (PayloadValue JsNull) None None ]}
      {[ 0%nat := mkSharedQueue None 0 ]}
      {[ 0%nat := mkUpdateQueue JsNull None None 0%nat None ]}
      ∅
      (list_to_map [(1%nat, rootFiber); (2%nat, nFiber)])
      ∅ ∅ false false (Some 0%nat) [] 0 0 true 0 (fun _ => unsafe)
      [] [] in
  let r :=
    ReactFiberClassUpdateQueue.enqueueUpdate 3 2%nat 5%nat 1 (world false) in
  let r' :=
    ReactFiberClassUpdateQueue.enqueueUpdate 3 2%nat 5%nat 1 (world true) in
  (console (snd r) = [updateInsideUpdateWarning] /\
   didWarnUpdateInsideUpdate (snd r) = true /\
   fst r = Return (Some 100%nat) /\
   holdsStaged (concurrentQueues (snd r)) 0 2%nat 0%nat [(5%nat, 1)] /\
   concurrentQueuesIndex (snd r) = 4%nat /\
   (warnings (runOps [OpEnqueueUpdate 3 2%nat 5%nat 1%Z] (snd r))
    <= warnings (snd r))%nat) /\
  (console (snd r') = [updateInsideUpdateWarning] /\
   fst r' = Return (Some 100%nat) /\
   ring (updates (snd r')) (Some 5%nat) [5%nat] /\
   concurrentQueuesIndex (snd r') = 0%nat).
Proof.
  intros rootFiber nFiber world r r'.
  assert (Hready : forall unsafe, fiberReady (world unsafe) 2%nat [1%nat]).
  { intros unsafe. exists nFiber. split; [reflexivity|]. split; [|split].
    - simpl. split; [reflexivity|]. exists rootFiber. split; reflexivity.
    - intros p f a Hin Hf Ha.
      repeat (apply elem_of_cons in Hin; destruct Hin as [->|Hin]);
        [| |apply elem_of_nil in Hin; contradiction];
        vm_compute in Hf; injection Hf as <-; discriminate.
    - intros p f Hin Hf Ht.
      repeat (apply elem_of_cons in Hin; destruct Hin as [->|Hin]);
        [|apply elem_of_nil in Hin; contradiction];
        vm_compute in Hf; injection Hf as <-; discriminate. }
  assert (Hfuel : (length [1%nat] <= 3)%nat) by (simpl; lia).
  split.
  - destruct (enqueueUpdate_inside_update_warns_once (world false) 3 2%nat
                5%nat 1 nFiber 0%nat (mkUpdateQueue JsNull None None 0%nat None)
                [1%nat] rootFiber
                eq_refl eq_refl eq_refl eq_refl eq_refl (Hready false) Hfuel
                eq_refl)
      as (Hc & Hd & _ & _ & Hstaged & _ & Hlater & _).
    destruct (Hstaged eq_refl) as (Hroot & Hheld & Hidx & _).
    split; [exact Hc|]. split; [exact Hd|]. split; [exact Hroot|].
    split; [exact Hheld|]. split; [exact Hidx|]. apply Hlater.
  - destruct (enqueueUpdate_inside_update_warns_once (world true) 3 2%nat
                5%nat 1 nFiber 0%nat (mkUpdateQueue JsNull None None 0%nat None)
                [1%nat] rootFiber
                eq_refl eq_refl eq_refl eq_refl eq_refl (Hready true) Hfuel
                eq_refl)
      as (Hc & _ & _ & _ & _ & Hlinked & _).
    destruct (Hlinked eq_refl (mkSharedQueue None 0) [])
      as (Hroot & _ & Hring & _ & Hidx).
    + reflexivity.
    + reflexivity.
    + apply not_elem_of_nil.
    + eexists. vm_compute. reflexivity.
    + split; [exact Hc|]. split; [exact Hroot|].
      split; [exact Hring|exact Hidx].
Defined.
